(** * AGBNP3: a shallow embedding of the per-step energy pipeline

    The development follows [src/libagbnp3.c] and [src/agbnp3_utils.c].

    Conventions.
    - [float], [float_a] and [float_i] values are modelled by real numbers
      (type [R]): arithmetic is exact, there is no rounding, overflow, NaN or
      infinity.  All statements about numeric results are statements about
      this idealised arithmetic.
    - Division is the total division of [R], where [x / 0 = 0]; the C code
      gives an infinity or a NaN there.  A definition that divides agrees
      with the code where the divisor is not zero, and the theorems about
      the placement routines carry that as a hypothesis on the geometry.
    - A conversion from a floating-point value to [int] is defined where
      the truncated value is an [int] ([int_range], [c_int]); [c_trunc] is
      the truncated value and stands for the conversion only there.
    - An allocation that can fail is modelled by its outcome, given as an
      argument ([option] or [bool]).
    - [int] values are modelled by [Z]; [unsigned int] arithmetic is written
      with its wrap-around modulo [2^32].
    - C arrays are lists; a loop whose trip count is not known in advance
      takes a [fuel] argument and returns [None] when the fuel runs out.
    - The build is the default one: [_OPENMP], [USE_PBC], [USE_SSE],
      [AGBNP3_SRM] and [ATIMER] are not defined, so one thread runs the whole
      evaluation and [agbw_h] is [agbw]. *)

From Stdlib Require Import Reals Lra Lia ZArith List Bool Arith Psatz.
From Stdlib Require Import Sorted Permutation.
Import ListNotations.

#[local] Open Scope Z_scope.

(** ** Return codes *)

Inductive retcode : Type := AGBNP_OK | AGBNP_ERR.

(** ** Comparison of floating-point values, as a truth value *)

Definition Rgtb (a b : R) : bool := if Rgt_dec a b then true else false.

(** ** Array helpers *)

(** [a[i] = v] on an array held as a list; an index outside the list leaves
    it unchanged (the C code would write outside the object). *)
Fixpoint set_nth {A : Type} (i : nat) (v : A) (l : list A) : list A :=
  match l, i with
  | [], _ => []
  | _ :: t, O => v :: t
  | h :: t, S j => h :: set_nth j v t
  end.

(** ** Hash table of the spline-table cache ([agbnp3_utils.c]) *)

Module HTable.

(** [unsigned int] and [int] conversions. *)
Definition u32 (z : Z) : Z := z mod 2 ^ 32.
Definition to_int (u : Z) : Z := if u <? 2 ^ 31 then u else u - 2 ^ 32.

(** [HTable]: [key] is [None] for a NULL key array. *)
Record HTable : Type := mkHTable {
  hsize : Z;
  hmask : Z;
  hjump : Z;
  nat_ : Z;
  key : option (list Z)
}.

(** [agbnp3_h_create]; [mem] is the content of the block [malloc] returns
    (its length is [size]), both allocations succeed. *)
Definition agbnp3_h_create (nat0 size jump : Z) (mem : list Z) : HTable :=
  if size <=? 0 then mkHTable 0 0 0 0 None
  else mkHTable size (size - 1) jump nat0 (Some mem).

(** [agbnp3_h_init]: [for(i=0;i<ht->hsize;i++) key[i] = -1]. *)
Definition agbnp3_h_init (ht : HTable) : HTable :=
  match key ht with
  | None => ht
  | Some l =>
      mkHTable (hsize ht) (hmask ht) (hjump ht) (nat_ ht)
        (Some (repeat (-1) (Z.to_nat (hsize ht)) ++ skipn (Z.to_nat (hsize ht)) l))
  end.

(** The probing loop shared by [agbnp3_h_enter] and [agbnp3_h_find]:
    [while(key[k] >= 0 && key[k] != keyij) k = (k + hjump) & hmask;]
    [None]: the fuel ran out, or [k] left the array. *)
Fixpoint h_probe (fuel : nat) (keys : list Z) (mask jump keyij k : Z)
  : option Z :=
  match fuel with
  | O => None
  | S f =>
      match nth_error keys (Z.to_nat k) with
      | None => None
      | Some v =>
          if (0 <=? v) && negb (u32 v =? keyij)
          then h_probe f keys mask jump keyij (Z.land (u32 (k + jump)) mask)
          else Some k
      end
  end.

(** [agbnp3_h_enter]: the slot, and the table with [key[k] = keyij]. *)
Definition agbnp3_h_enter (fuel : nat) (ht : HTable) (keyij : Z)
  : option (Z * HTable) :=
  match key ht with
  | None => Some (-1, ht)
  | Some keys =>
      let mask := u32 (hmask ht) in
      let jump := u32 (hjump ht) in
      match h_probe fuel keys mask jump keyij (Z.land keyij mask) with
      | None => None
      | Some k =>
          Some (k, mkHTable (hsize ht) (hmask ht) (hjump ht) (nat_ ht)
                     (Some (set_nth (Z.to_nat k) (to_int keyij) keys)))
      end
  end.

(** [agbnp3_h_find]: the slot, or [-1]. *)
Definition agbnp3_h_find (fuel : nat) (ht : HTable) (keyij : Z) : option Z :=
  match key ht with
  | None => Some (-1)
  | Some keys =>
      let mask := u32 (hmask ht) in
      let jump := u32 (hjump ht) in
      match h_probe fuel keys mask jump keyij (Z.land keyij mask) with
      | None => None
      | Some k =>
          match nth_error keys (Z.to_nat k) with
          | None => None
          | Some v => if v <? 0 then Some (-1) else Some k
          end
      end
  end.

(** A run of [agbnp3_h_enter] calls, as [agbnp3_create_ctablef42d_hash]
    makes them. *)
Fixpoint h_enter_all (fuel : nat) (ht : HTable) (ks : list Z) : option HTable :=
  match ks with
  | [] => Some ht
  | k :: rest =>
      match agbnp3_h_enter fuel ht k with
      | None => None
      | Some (_, ht') => h_enter_all fuel ht' rest
      end
  end.

(** [ht->key[k]]. *)
Definition key_at (ht : HTable) (k : Z) : option Z :=
  match key ht with
  | None => None
  | Some keys => nth_error keys (Z.to_nat k)
  end.

(** Some slot of the table is empty. *)
Definition has_empty (ht : HTable) : Prop :=
  exists e v, 0 <= e < hsize ht /\ key_at ht e = Some v /\ v < 0.

(** The table as [agbnp3_create_ctablef42d_hash] creates it:
    [agbnp3_h_create(0, size, 1)] with [size] a power of two (the result of
    [agbnp3_two2n_size]), so [hmask = size - 1] and [hjump = 1]. *)
Definition cache_table (p : Z) (ht : HTable) : Prop :=
  hsize ht = 2 ^ p /\ hmask ht = 2 ^ p - 1 /\ hjump ht = 1 /\
  exists keys, key ht = Some keys /\ length keys = Z.to_nat (2 ^ p).

(** Every occupied slot holds one of the keys [ks]. *)
Definition stored_from (ks : list Z) (ht : HTable) : Prop :=
  forall keys v, key ht = Some keys -> In v keys -> v = -1 \/ In v ks.

End HTable.

(** ** Conversion of a floating-point value to [int] *)

(** The C conversion [k = xh] truncates toward zero.  It is defined only
    when the truncated value is an [int]; [c_trunc] is the truncated value
    itself, and [int_range] says that the conversion of [x] is defined. *)
Definition c_trunc (x : R) : Z :=
  if Rle_dec 0 x then Int_part x else (- Int_part (- x))%Z.

Definition int_range (x : R) : Prop :=
  (IZR (- 2 ^ 31) - 1 < x < IZR (2 ^ 31))%R.

(** The conversion with its domain: [None] where C leaves it undefined. *)
Definition c_int (x : R) : option Z :=
  if Rlt_dec (IZR (- 2 ^ 31) - 1) x then
    if Rlt_dec x (IZR (2 ^ 31)) then Some (c_trunc x) else None
  else None.

(** ** Cubic-spline tables ([agbnp3_utils.c]) *)

Module Spline.
Section SplineDefs.
#[local] Open Scope R_scope.

(** [agbnp3_cspline_interpolate]: the pair [( *f, *fp )], where the
    conversion [k = xh] is defined ([int_range (x / dx)]).  A node read
    outside [y] or [y2] is not modelled (it reads [0]). *)
Definition agbnp3_cspline_interpolate
    (x dx : R) (n : Z) (y y2 : list R) : R * R :=
  let dxinv := 1 / dx in
  let dp1 := dx / 6 in
  let dp2 := dx * dp1 in
  let xh := x * dxinv in
  let k := c_trunc xh in
  let kf := IZR k in
  if (k >? n - 2)%Z then (0, 0)
  else
    let a := (kf + 1) - xh in
    let a2 := a * a in
    let b := xh - kf in
    let b2 := b * b in
    let yk := nth (Z.to_nat k) y 0 in
    let yk1 := nth (Z.to_nat (k + 1)) y 0 in
    let y2k := nth (Z.to_nat k) y2 0 in
    let y2k1 := nth (Z.to_nat (k + 1)) y2 0 in
    (a * yk + b * yk1 + ((a2 * a - a) * y2k + (b2 * b - b) * y2k1) * dp2,
     (yk1 - yk) * dxinv - ((3 * a2 - 1) * y2k + (3 * b2 - 1) * y2k1) * dp1).

(** [C1Table] *)
Record C1Table : Type := mkC1Table {
  n : Z;
  dx : R;
  dxinv : R;
  yinf : R;
  y : list R;
  y2 : list R
}.

(** [agbnp3_interpolate_ctable] *)
Definition agbnp3_interpolate_ctable (c1table : C1Table) (x : R)
  : retcode * (R * R) :=
  (AGBNP_OK,
   agbnp3_cspline_interpolate x (dx c1table) (n c1table)
     (y c1table) (y2 c1table)).

(** [C1Table2DH]: the tables and the hash table from key to table index. *)
Record C1Table2DH : Type := mkC1Table2DH {
  nkey : Z;
  y2i : HTable.HTable;
  table : list C1Table
}.

(** One entry of the structure-of-arrays buffers [kv], [xh], [yp], [y],
    [y2p], [y2]. *)
Record soa_row : Type := mkRow {
  row_kv : R;
  row_xh : R;
  row_yp : R;
  row_y : R;
  row_y2p : R;
  row_y2 : R
}.

(** [agbnp3_cspline_interpolate_soa]: [f[i]] and [fp[i]] of one entry. *)
Definition cspline_soa1 (dx : R) (r : soa_row) : R * R :=
  let dp1 := dx / 6 in
  let dp2 := dx * dp1 in
  let dxinv := 1 / dx in
  let kf := row_kv r in
  let yk := row_y r in
  let ypk := row_yp r in
  let y2k := row_y2 r in
  let y2pk := row_y2p r in
  let a := (kf + 1) - row_xh r in
  let a2 := a * a in
  let b := row_xh r - kf in
  let b2 := b * b in
  (a * yk + b * ypk + ((a2 * a - a) * y2k + (b2 * b - b) * y2pk) * dp2,
   (ypk - yk) * dxinv - ((3 * a2 - 1) * y2k + (3 * b2 - 1) * y2pk) * dp1).

(** [agbnp3_cspline_interpolate_soa]: the arrays [f] and [fp]. *)
Definition agbnp3_cspline_interpolate_soa (rows : list soa_row) (dx : R)
  : list R * list R :=
  (map (fun r => fst (cspline_soa1 dx r)) rows,
   map (fun r => snd (cspline_soa1 dx r)) rows).

(** The body of the first loop of [agbnp3_interpolate_ctablef42d_soa] for
    one [(x[i], ym[i])]: the entry of the buffers and the value left in
    [dx].  [None] stands for every way the body has no defined result: a
    conversion to [int] outside its domain, a hash lookup that does not
    return or returns no table ([table[iy]] is read unchecked), or a node
    read outside [y] or [y2]. *)
Definition soa_gather1 (fuel : nat) (table2d : C1Table2DH) (x ym : R)
  : option (soa_row * R) :=
  match c_int (ym * IZR (nkey table2d)) with
  | None => None
  | Some key =>
      match HTable.agbnp3_h_find fuel (y2i table2d) (HTable.u32 key) with
      | None => None
      | Some iy =>
          match (if (iy <? 0)%Z then None
                 else nth_error (table table2d) (Z.to_nat iy)) with
          | None => None
          | Some table1 =>
              let xh := x * dxinv table1 in
              match c_int xh with
              | None => None
              | Some k =>
                  let kv := IZR k in
                  if (k >? n table1 - 2)%Z
                  then Some (mkRow kv xh 0 0 0 0, dx table1)
                  else if (k <? 0)%Z then None
                  else
                    match nth_error (y table1) (Z.to_nat k),
                          nth_error (y table1) (Z.to_nat (k + 1)),
                          nth_error (y2 table1) (Z.to_nat k),
                          nth_error (y2 table1) (Z.to_nat (k + 1)) with
                    | Some yk, Some yk1, Some y2k, Some y2k1 =>
                        Some (mkRow kv xh yk1 yk y2k1 y2k, dx table1)
                    | _, _, _, _ => None
                    end
              end
          end
      end
  end.

(** The first loop of [agbnp3_interpolate_ctablef42d_soa]; [dx] is the
    value the variable [dx] holds on entry. *)
Fixpoint soa_gather (fuel : nat) (table2d : C1Table2DH)
    (xy : list (R * R)) (dx : R) : option (list soa_row * R) :=
  match xy with
  | [] => Some ([], dx)
  | (x, ym) :: rest =>
      match soa_gather1 fuel table2d x ym with
      | None => None
      | Some (row, dx') =>
          match soa_gather fuel table2d rest dx' with
          | None => None
          | Some (rows, dxl) => Some (row :: rows, dxl)
          end
      end
  end.

(** [agbnp3_interpolate_ctablef42d_soa] on the first [m] entries of [x]
    and [ym]; [dx0] is the indeterminate initial value of [dx]. *)
Definition agbnp3_interpolate_ctablef42d_soa (fuel : nat)
    (table2d : C1Table2DH) (x ym : list R) (m : nat) (dx0 : R)
  : option (retcode * (list R * list R)) :=
  match soa_gather fuel table2d (firstn m (combine x ym)) dx0 with
  | None => None
  | Some (rows, dx) => Some (AGBNP_OK, agbnp3_cspline_interpolate_soa rows dx)
  end.

End SplineDefs.
End Spline.
(** ** Switching functions and Born radii *)

Section SwitchDefs.
#[local] Open Scope R_scope.

(** [FLT_MIN] of [<float.h>]: the smallest normalised [float], [2^-126]. *)
Definition FLT_MIN : R := / 2 ^ 126.

(** [agbnp3_pol_switchfunc]: the triple [(f, *fp, *fpp)]; a caller that
    passes a NULL [fp] or [fpp] ignores that component. *)
Definition agbnp3_pol_switchfunc (x xa xb : R) : R * R * R :=
  if Rlt_dec xb x then (1, 0, 0)
  else if Rlt_dec x xa then (0, 0, 0)
  else
    let d := 1 / (xb - xa) in
    let u := (x - xa) * d in
    let u2 := u * u in
    let u3 := u * u2 in
    (u3 * (10 - 15 * u + 6 * u2),
     d * 30 * u2 * (1 - 2 * u + u2),
     d * d * 60 * u * (1 - 3 * u + 2 * u2)).

(** [agbnp3_swf_vol3]: the triple [(f, *fp, *fpp)]. *)
Definition agbnp3_swf_vol3 (x a b : R) : R * R * R :=
  if Rlt_dec b x then (x, 1, 0)
  else if Rlt_dec x a then (0, 0, 0)
  else
    let '(s, sp, spp) := agbnp3_pol_switchfunc x a b in
    (s * x, s + x * sp, 2 * sp + x * spp).

(** [agbnp3_swf_invbr]: the pair [(beta', *fp)]; [swf_invbr_a] is the
    constant [a] of the function. *)
Definition swf_invbr_a : R := 0.02.

Definition agbnp3_swf_invbr (beta : R) : R * R :=
  let a := swf_invbr_a in
  let a2 := 0.02 * 0.02 in
  if Rlt_dec beta 0 then (a, 0)
  else
    let t := sqrt (a2 + beta * beta) in
    (t, beta / t).

(** Modelled from the spec: the macro [AGBNP_BRW] of [agbnp3_private.h],
    which is not among the sources; the comment at its use says
    [3*b^2/(b+rw)^4]. *)
Definition AGBNP_BRW (b rw : R) : R := 3 * (b * b) / ((b + rw) ^ 4).

(** The work arrays [agbnp3_born_radii] writes. *)
Record born_arrays : Type := mkBorn {
  br1 : list R;
  br1_swf_der : list R;
  br : list R;
  brw : list R
}.

(** [agbnp3_born_radii]: [br1] holds the raw inverse Born radius of each of
    the [natoms] atoms on entry. *)
Definition agbnp3_born_radii (br1_in : list R) : retcode * born_arrays :=
  let rw := 1.4 in
  let flt := map agbnp3_swf_invbr br1_in in
  let br1_h := map fst flt in
  let br_h := map (fun b1 => 1 / b1) br1_h in
  (AGBNP_OK,
   mkBorn br1_h (map snd flt) br_h (map (fun biat => AGBNP_BRW biat rw) br_h)).

End SwitchDefs.
(** ** Three-vectors *)

Section VecDefs.
#[local] Open Scope R_scope.

Definition vec3 : Type := (R * R * R)%type.

Definition vx (v : vec3) : R := fst (fst v).
Definition vy (v : vec3) : R := snd (fst v).
Definition vz (v : vec3) : R := snd v.

Definition vzero : vec3 := (0, 0, 0).
Definition vadd (u v : vec3) : vec3 := (vx u + vx v, vy u + vy v, vz u + vz v).
Definition vsub (u v : vec3) : vec3 := (vx u - vx v, vy u - vy v, vz u - vz v).
Definition vscale (c : R) (v : vec3) : vec3 := (c * vx v, c * vy v, c * vz v).
Definition vnorm2 (v : vec3) : R := vx v * vx v + vy v * vy v + vz v * vz v.

End VecDefs.

(** ** Loops that write an array *)

(** [for(i=0;i<n;i++) arr[i] = f(i, arr[i])]. *)
Fixpoint upd_range {A : Type} (n : nat) (f : nat -> A -> A) (arr : list A)
  : list A :=
  match n with
  | O => arr
  | S k =>
      let arr' := upd_range k f arr in
      match nth_error arr' k with
      | Some old => set_nth k (f k old) arr'
      | None => arr'
      end
  end.

(** [for(i=0;i<n;i++) arr[i] = f(i)]. *)
Definition fill {A : Type} (n : nat) (f : nat -> A) (arr : list A) : list A :=
  upd_range n (fun i _ => f i) arr.

(** ** Incremental Gaussian overlap ([agbnp3_ogauss_incremental]) *)

Section OgaussDefs.
#[local] Open Scope R_scope.

(** What [agbnp3_ogauss_incremental] returns and what the locations behind
    its output pointers hold afterwards.  [None] stands for a NULL pointer. *)
Record ogauss_out : Type := mkOgauss {
  og_ret : R;
  og_an : R;
  og_pn : R;
  og_cn : vec3;
  og_sr1 : option R;
  og_dr : option (list vec3);
  og_dR : option (list R);
  og_d2rR : option (list (list vec3))
}.

(** The merged Gaussian: exponent, centre, prefactor, and the overlap
    volume, from the first lines of the function. *)
Definition og_delta (anm1 an1 : R) : R := anm1 + an1.

Definition og_center (anm1 : R) (cnm1 : vec3) (an1 : R) (xn1 : vec3) : vec3 :=
  let deltai := 1 / og_delta anm1 an1 in
  (deltai * (anm1 * vx cnm1 + an1 * vx xn1),
   deltai * (anm1 * vy cnm1 + an1 * vy xn1),
   deltai * (anm1 * vz cnm1 + an1 * vz xn1)).

Definition og_prefactor (anm1 pnm1 : R) (cnm1 : vec3) (an1 pn1 : R)
    (xn1 : vec3) : R :=
  let deltai := 1 / og_delta anm1 an1 in
  let v0 := vx xn1 - vx cnm1 in
  let v1 := vy xn1 - vy cnm1 in
  let v2 := vz xn1 - vz cnm1 in
  let d2 := v0 * v0 + v1 * v1 + v2 * v2 in
  let v := anm1 * an1 * d2 * deltai in
  let kappa := exp (- v) in
  pnm1 * pn1 * kappa.

Definition og_vol (anm1 pnm1 : R) (cnm1 : vec3) (an1 pn1 : R) (xn1 : vec3) : R :=
  let deltai := 1 / og_delta anm1 an1 in
  let u := PI * deltai in
  og_prefactor anm1 pnm1 cnm1 an1 pn1 xn1 * u * sqrt u.

(** [agbnp3_ogauss_incremental], default build.  [x], [a], [p], [r] are the
    input arrays; [an0], [pn0], [cn0], [sr1], [dr], [dR], [d2rR] are the
    contents of the output locations on entry. *)
Definition agbnp3_ogauss_incremental
    (n : Z) (x : list vec3) (a p r : list R)
    (anm1 pnm1 : R) (cnm1 : vec3)
    (an0 pn0 : R) (cn0 : vec3)
    (volmina volminb : R)
    (sr1 : option R)
    (dr : option (list vec3)) (dR : option (list R))
    (d2rR : option (list (list vec3))) : ogauss_out :=
  if (n <? 2)%Z then mkOgauss 0 an0 pn0 cn0 sr1 dr dR d2rR
  else
    let nn := Z.to_nat n in
    let an1 := nth (nn - 1) a 0 in
    let pn1 := nth (nn - 1) p 0 in
    let xn1 := nth (nn - 1) x vzero in
    let delta := og_delta anm1 an1 in
    let deltai := 1 / delta in
    let cn := og_center anm1 cnm1 an1 xn1 in
    let pn := og_prefactor anm1 pnm1 cnm1 an1 pn1 xn1 in
    let vol := og_vol anm1 pnm1 cnm1 an1 pn1 xn1 in
    let '(volp, fp, fpp) := agbnp3_swf_vol3 vol volmina volminb in
    let sr1' := match sr1 with Some _ => Some vol | None => None end in
    if Rlt_dec volp FLT_MIN
    then mkOgauss 0 delta pn cn sr1' dr dR d2rR
    else
      match dr, dR with
      | Some dr0, Some dR0 =>
          (* positional and radius derivatives *)
          let dru i := vscale (-2 * nth i a 0 * vol) (vsub (nth i x vzero) cn) in
          let dRu i :=
            let u := nth i a 0 * vol in
            (3 * u * deltai + 0.5 * vnorm2 (dru i) / u) / nth i r 0 in
          (* pos-radius derivatives *)
          let d2 i j :=
            if Nat.eqb i j then
              vscale (-2 * fp * (1 - nth i a 0 * deltai) / nth i r 0
                      + (fpp + fp / vol) * dRu i) (dru i)
            else
              let u := fpp + fp / vol in
              let v := 2 * fp * deltai in
              vadd (vscale (v * nth i a 0 / nth j r 0) (dru j))
                   (vscale (u * dRu j) (dru i)) in
          let d2rR' :=
            match d2rR with
            | Some m0 =>
                Some (upd_range nn (fun i row => fill nn (d2 i) row) m0)
            | None => None
            end in
          (* switch first derivatives *)
          mkOgauss volp delta pn cn sr1'
            (Some (fill nn (fun i => vscale fp (dru i)) dr0))
            (Some (fill nn (fun i => dRu i * fp) dR0))
            d2rR'
      | _, _ => mkOgauss volp delta pn cn sr1' dr dR d2rR
      end.

End OgaussDefs.
(** ** Water sites ([libagbnp3.c]) *)

(** The hydrogen-bond classes [AGBNP_HB_*] of [agbnp3.h]. *)
Inductive hbtype : Type :=
  | AGBNP_HB_INACTIVE
  | AGBNP_HB_POLARH
  | AGBNP_HB_TRIGONAL
  | AGBNP_HB_TRIGONAL1
  | AGBNP_HB_TRIGONAL2
  | AGBNP_HB_TRIGONAL_S
  | AGBNP_HB_TRIGONAL_OOP
  | AGBNP_HB_TETRAHEDRAL
  | AGBNP_HB_TETRAHEDRAL1
  | AGBNP_HB_TETRAHEDRAL2
  | AGBNP_HB_TETRAHEDRAL3.

Module WaterSites.
Section WaterSiteDefs.
#[local] Open Scope R_scope.

(** A 3x3 block [der[i][j]], by rows. *)
Definition mat3 : Type := (vec3 * vec3 * vec3)%type.

Definition mzero : mat3 := (vzero, vzero, vzero).
Definition mident : mat3 := ((1, 0, 0), (0, 1, 0), (0, 0, 1)).
Definition madd (m1 m2 : mat3) : mat3 :=
  let '(a1, b1, c1) := m1 in
  let '(a2, b2, c2) := m2 in
  (vadd a1 a2, vadd b1 b2, vadd c1 c2).
(** The block applied to a vector: [sum_j m[i][j] * v[j]]. *)
Definition vdot (u v : vec3) : R := vx u * vx v + vy u * vy v + vz u * vz v.
Definition mapply (m : mat3) (v : vec3) : vec3 :=
  let '(a, b, c) := m in (vdot a v, vdot b v, vdot c v).

(** The numeric constants of [agbnp3_private.h], which is not among the
    sources; they are parameters of the model. *)
Record AGBNPconsts : Type := mkConsts {
  AGBNP_HB_LENGTH : R;
  AGBNP_HB_RADIUS : R;
  KFC : R;
  PFC : R;
  AGBNP_MIN_VOLA : R;
  AGBNP_MIN_VOLB : R;
  AGBNP_NBOFFSET : R;
  AGBNP_MAX_OVERLAP_LEVEL : nat
}.

(** [NeighList], as far as the connection table is read. *)
Record NeighList : Type := mkNeighList {
  nne : list Z;
  neighl : list (list Z)
}.

(** [WSat] *)
Record WSat : Type := mkWSat {
  pos : vec3;
  ws_r : R;
  type : hbtype;
  volume : R;
  nparents : Z;
  parent : list Z;
  iseq : Z;
  dpos : list mat3;
  khb : R;
  free_volume : R;
  sp : R;
  dhw : R;
  nneigh : Z;
  nlist_size : Z;
  nlist : list Z
}.

(** A [WSat] after [memset(.., 0, ..)]. *)
Definition WSat_zero : WSat :=
  mkWSat vzero 0 AGBNP_HB_INACTIVE 0 0 [0; 0; 0; 0]%Z 0
    [mzero; mzero; mzero; mzero] 0 0 0 0 0 0 [].

(** The fields of [AGBNPdata] and of its work data that water-site creation
    and the free-volume computation read. *)
Record AGBNPdata : Type := mkAGBNPdata {
  natoms : Z;
  nheavyat : Z;
  iheavyat : list Z;
  x : list R;
  y : list R;
  z : list R;
  r : list R;
  hbtype_ : list hbtype;
  hbcorr : list R;
  conntbl : option NeighList;
  isheavy : list Z;
  galpha : list R;
  gprefac : list R
}.

Definition rd (l : list R) (i : Z) : R := nth (Z.to_nat i) l 0.
Definition zd (l : list Z) (i : Z) : Z := nth (Z.to_nat i) l 0%Z.
Definition xyz (agb : AGBNPdata) (i : Z) : vec3 :=
  (rd (x agb) i, rd (y agb) i, rd (z agb) i).
Definition nne_at (c : NeighList) (i : Z) : Z := zd (nne c) i.
Definition neighl_at (c : NeighList) (i : Z) : list Z :=
  nth (Z.to_nat i) (neighl c) [].

(** [agbnp3_place_wat_hydrogen]: the site [( *xw, *yw, *zw )] and the blocks
    [der1], [der2]. *)
Definition agbnp3_place_wat_hydrogen (xd xh : vec3) (d : R)
  : vec3 * mat3 * mat3 :=
  let dx := (vx xh - vx xd, vy xh - vy xd, vz xh - vz xd) in
  let d2inv := 1 / (vx dx * vx dx + vy dx * vy dx + vz dx * vz dx) in
  let dinv := sqrt d2inv in
  let w := d * dinv in
  let xw := (vx xd + w * vx dx, vy xd + w * vy dx, vz xd + w * vz dx) in
  let w2 := w * d2inv in
  let w1 := 1 - w in
  let e1 (i j : vec3 -> R) := - (w2 * i dx * j dx) in
  let e2 (i j : vec3 -> R) := w2 * i dx * j dx in
  (xw,
   ((e1 vx vx + w, e1 vx vy, e1 vx vz),
    (e1 vy vx, e1 vy vy + w, e1 vy vz),
    (e1 vz vx, e1 vz vy, e1 vz vz + w)),
   ((e2 vx vx + w1, e2 vx vy, e2 vx vz),
    (e2 vy vx, e2 vy vy + w1, e2 vy vz),
    (e2 vz vx, e2 vz vy, e2 vz vz + w1))).

(** The other placement routines ([agbnp3_place_wat_trigonal1] and the
    like) are taken as given: each maps the parents' positions and the
    distance to the site positions and the derivative blocks. *)
Record Placement : Type := mkPlacement {
  place_wat_trigonal1 :
    vec3 -> vec3 -> vec3 -> vec3 -> R -> vec3 * vec3 * list mat3 * list mat3;
  place_wat_trigonal_s :
    vec3 -> vec3 -> vec3 -> vec3 -> R -> vec3 * vec3 * list mat3 * list mat3;
  place_wat_trigonal_oop :
    vec3 -> vec3 -> vec3 -> vec3 -> R -> vec3 * vec3 * list mat3 * list mat3;
  place_wat_trigonal2 :
    vec3 -> vec3 -> vec3 -> R -> vec3 * list mat3;
  place_wat_tetrahedral2 :
    vec3 -> vec3 -> vec3 -> R -> vec3 * vec3 * list mat3 * list mat3;
  place_wat_tetrahedral3 :
    vec3 -> vec3 -> vec3 -> vec3 -> R -> vec3 * list mat3;
  place_wat_tetrahedral1_one :
    vec3 -> vec3 -> vec3 -> R -> vec3 * list mat3
}.

Variable K : AGBNPconsts.
Variable P : Placement.

(** [parent[0] = p0; parent[1] = p1; ...] *)
Fixpoint set_parents (i : nat) (ps : list Z) (old : list Z) : list Z :=
  match ps with
  | [] => old
  | p :: rest => set_parents (S i) rest (set_nth i p old)
  end.

(** [memcpy(wsat->dpos, der, 9*k*sizeof(float_a))]: the first [k] blocks. *)
Definition copy_blocks (k : nat) (der : list mat3) (old : list mat3)
  : list mat3 :=
  firstn k der ++ skipn k old.

(** The assignments that store one site into a slot of the buffer: position,
    radius, type, volume, parents, [iseq] when the routine sets it, the
    derivative blocks, and the hydrogen-bond coefficient. *)
Definition store_site (agb : AGBNPdata) (iat : Z) (w : WSat)
    (xw : vec3) (ty : hbtype) (ps : list Z) (sq : option Z)
    (dp : list mat3 -> list mat3) : WSat :=
  let rr := AGBNP_HB_RADIUS K in
  mkWSat xw rr ty ((4 / 3) * PI * rr ^ 3)
    (Z.of_nat (length ps)) (set_parents 0 ps (parent w))
    (match sq with Some s => s | None => iseq w end)
    (dp (dpos w)) (rd (hbcorr agb) iat)
    (free_volume w) (sp w) (dhw w) (nneigh w) (nlist_size w) (nlist w).

(** [twsatb[i] = f(twsatb[i])] *)
Definition upd_slot (i : nat) (f : WSat -> WSat) (twsatb : list WSat)
  : list WSat :=
  set_nth i (f (nth i twsatb WSat_zero)) twsatb.

(** The result of a creation routine: the return code, [*nws] and the
    buffer [twsatb]. *)
Definition created : Type := (retcode * Z * list WSat)%type.

(** [agbnp3_create_ws_atoms_ph] *)
Definition agbnp3_create_ws_atoms_ph (agb : AGBNPdata) (c : NeighList)
    (iat : Z) (nws : Z) (twsatb : list WSat) : created :=
  if (nne_at c iat <=? 0)%Z then (AGBNP_ERR, nws, twsatb)
  else
    (* find parent *)
    match find (fun j => negb (zd (isheavy agb) j =? 0)%Z)
               (firstn (Z.to_nat (nne_at c iat)) (neighl_at c iat)) with
    | None => (AGBNP_ERR, nws, twsatb)
    | Some jat =>
        let '(xw, der1, der2) :=
          agbnp3_place_wat_hydrogen (xyz agb jat) (xyz agb iat)
            (AGBNP_HB_LENGTH K) in
        (AGBNP_OK, 1%Z,
         upd_slot 0 (fun w =>
           store_site agb iat w xw AGBNP_HB_POLARH [iat; jat] (Some 0%Z)
             (fun old => set_nth 1 der2 (set_nth 0 der1 old))) twsatb)
    end.

(** The two scans of [agbnp3_create_ws_atoms_trigonal1]: the first bonded
    atom of [ir] that is not [iat], then the first that is neither [iat]
    nor [ir1]; [None] when the scan runs past [nne[ir]]. *)
Definition scan_r1 (c : NeighList) (ir iat : Z) : option Z :=
  find (fun j => negb (j =? iat)%Z)
       (firstn (Z.to_nat (nne_at c ir)) (neighl_at c ir)).

Definition scan_r2 (c : NeighList) (ir iat ir1 : Z) : option Z :=
  find (fun j => negb ((j =? iat) || (j =? ir1))%Z)
       (firstn (Z.to_nat (nne_at c ir)) (neighl_at c ir)).

(** [agbnp3_create_ws_atoms_trigonal1] *)
Definition agbnp3_create_ws_atoms_trigonal1 (agb : AGBNPdata) (c : NeighList)
    (iat : Z) (nws : Z) (twsatb : list WSat) : created :=
  if negb (nne_at c iat =? 1)%Z then (AGBNP_ERR, nws, twsatb)
  else
    let ir := zd (neighl_at c iat) 0 in
    if negb (nne_at c ir =? 3)%Z then (AGBNP_ERR, nws, twsatb)
    else
      match scan_r1 c ir iat with
      | None => (AGBNP_ERR, nws, twsatb)
      | Some ir1 =>
          match scan_r2 c ir iat ir1 with
          | None => (AGBNP_ERR, nws, twsatb)
          | Some ir2 =>
              let '(xw1, xw2, der1, der2) :=
                place_wat_trigonal1 P (xyz agb iat) (xyz agb ir)
                  (xyz agb ir1) (xyz agb ir2) (AGBNP_HB_LENGTH K) in
              let ps := [iat; ir; ir1; ir2] in
              let t1 := upd_slot 0 (fun w =>
                store_site agb iat w xw1 AGBNP_HB_TRIGONAL1 ps (Some 0%Z)
                  (copy_blocks 4 der1)) twsatb in
              let t2 := upd_slot 1 (fun w =>
                store_site agb iat w xw2 AGBNP_HB_TRIGONAL1 ps (Some 1%Z)
                  (copy_blocks 4 der2)) t1 in
              (AGBNP_OK, 2%Z, t2)
          end
      end.

(** [agbnp3_create_ws_atoms_trigonal_s] *)
Definition agbnp3_create_ws_atoms_trigonal_s (agb : AGBNPdata) (c : NeighList)
    (iat : Z) (nws : Z) (twsatb : list WSat) : created :=
  if negb (nne_at c iat =? 1)%Z then (AGBNP_ERR, nws, twsatb)
  else
    let ir := zd (neighl_at c iat) 0 in
    if negb (nne_at c ir =? 3)%Z then (AGBNP_ERR, nws, twsatb)
    else
      match scan_r1 c ir iat with
      | None => (AGBNP_ERR, nws, twsatb)
      | Some ir1 =>
          match scan_r2 c ir iat ir1 with
          | None => (AGBNP_ERR, nws, twsatb)
          | Some ir2 =>
              let ps := [iat; ir; ir1; ir2] in
              let '(xw1, xw2, der1, der2) :=
                place_wat_trigonal1 P (xyz agb iat) (xyz agb ir)
                  (xyz agb ir1) (xyz agb ir2) (AGBNP_HB_LENGTH K) in
              let t1 := upd_slot 0 (fun w =>
                store_site agb iat w xw1 AGBNP_HB_TRIGONAL_S ps (Some 0%Z)
                  (copy_blocks 4 der1)) twsatb in
              let t2 := upd_slot 1 (fun w =>
                store_site agb iat w xw2 AGBNP_HB_TRIGONAL_S ps (Some 1%Z)
                  (copy_blocks 4 der2)) t1 in
              let '(xw3, xw4, der3, der4) :=
                place_wat_trigonal_s P (xyz agb iat) (xyz agb ir)
                  (xyz agb ir1) (xyz agb ir2) (AGBNP_HB_LENGTH K) in
              let t3 := upd_slot 2 (fun w =>
                store_site agb iat w xw3 AGBNP_HB_TRIGONAL_S ps (Some 2%Z)
                  (copy_blocks 4 der3)) t2 in
              let t4 := upd_slot 3 (fun w =>
                store_site agb iat w xw4 AGBNP_HB_TRIGONAL_S ps (Some 3%Z)
                  (copy_blocks 4 der4)) t3 in
              (AGBNP_OK, 4%Z, t4)
          end
      end.

(** [agbnp3_create_ws_atoms_trigonal_oop] *)
Definition agbnp3_create_ws_atoms_trigonal_oop (agb : AGBNPdata)
    (c : NeighList) (iat : Z) (nws : Z) (twsatb : list WSat) : created :=
  if negb (nne_at c iat =? 3)%Z then (AGBNP_ERR, nws, twsatb)
  else
    let ir1 := zd (neighl_at c iat) 0 in
    let ir2 := zd (neighl_at c iat) 1 in
    let ir3 := zd (neighl_at c iat) 2 in
    let '(xw1, xw2, der1, der2) :=
      place_wat_trigonal_oop P (xyz agb iat) (xyz agb ir1) (xyz agb ir2)
        (xyz agb ir3) (AGBNP_HB_LENGTH K) in
    let ps := [iat; ir1; ir2; ir3] in
    let t1 := upd_slot 0 (fun w =>
      store_site agb iat w xw1 AGBNP_HB_TRIGONAL_OOP ps (Some 0%Z)
        (copy_blocks 4 der1)) twsatb in
    let t2 := upd_slot 1 (fun w =>
      store_site agb iat w xw2 AGBNP_HB_TRIGONAL_OOP ps (Some 1%Z)
        (copy_blocks 4 der2)) t1 in
    (AGBNP_OK, 2%Z, t2).

(** [agbnp3_create_ws_atoms_trigonal2] *)
Definition agbnp3_create_ws_atoms_trigonal2 (agb : AGBNPdata) (c : NeighList)
    (iat : Z) (nws : Z) (twsatb : list WSat) : created :=
  if negb (nne_at c iat =? 2)%Z then (AGBNP_ERR, nws, twsatb)
  else
    let ir1 := zd (neighl_at c iat) 0 in
    let ir2 := zd (neighl_at c iat) 1 in
    let '(xw, der) :=
      place_wat_trigonal2 P (xyz agb iat) (xyz agb ir1) (xyz agb ir2)
        (AGBNP_HB_LENGTH K) in
    (AGBNP_OK, 1%Z,
     upd_slot 0 (fun w =>
       store_site agb iat w xw AGBNP_HB_TRIGONAL2 [iat; ir1; ir2] (Some 0%Z)
         (copy_blocks 3 der)) twsatb).

(** [agbnp3_create_ws_atoms_tetrahedral2] *)
Definition agbnp3_create_ws_atoms_tetrahedral2 (agb : AGBNPdata)
    (c : NeighList) (iat : Z) (nws : Z) (twsatb : list WSat) : created :=
  if negb (nne_at c iat =? 2)%Z then (AGBNP_ERR, nws, twsatb)
  else
    let ir1 := zd (neighl_at c iat) 0 in
    let ir2 := zd (neighl_at c iat) 1 in
    let '(xw1, xw2, der1, der2) :=
      place_wat_tetrahedral2 P (xyz agb iat) (xyz agb ir1) (xyz agb ir2)
        (AGBNP_HB_LENGTH K) in
    let ps := [iat; ir1; ir2] in
    let t1 := upd_slot 0 (fun w =>
      store_site agb iat w xw1 AGBNP_HB_TETRAHEDRAL2 ps (Some 0%Z)
        (copy_blocks 3 der1)) twsatb in
    let t2 := upd_slot 1 (fun w =>
      store_site agb iat w xw2 AGBNP_HB_TETRAHEDRAL2 ps (Some 1%Z)
        (copy_blocks 3 der2)) t1 in
    (AGBNP_OK, 2%Z, t2).

(** [agbnp3_create_ws_atoms_tetrahedral3] *)
Definition agbnp3_create_ws_atoms_tetrahedral3 (agb : AGBNPdata)
    (c : NeighList) (iat : Z) (nws : Z) (twsatb : list WSat) : created :=
  if negb (nne_at c iat =? 3)%Z then (AGBNP_ERR, nws, twsatb)
  else
    let ir1 := zd (neighl_at c iat) 0 in
    let ir2 := zd (neighl_at c iat) 1 in
    let ir3 := zd (neighl_at c iat) 2 in
    let '(xw, der) :=
      place_wat_tetrahedral3 P (xyz agb iat) (xyz agb ir1) (xyz agb ir2)
        (xyz agb ir3) (AGBNP_HB_LENGTH K) in
    (AGBNP_OK, 1%Z,
     upd_slot 0 (fun w =>
       store_site agb iat w xw AGBNP_HB_TETRAHEDRAL3 [iat; ir1; ir2; ir3] None
         (copy_blocks 4 der)) twsatb).

(** [agbnp3_create_ws_atoms_tetrahedral1]; [irr] collects the bonded atoms
    of the central atom other than [iat]. *)
Definition agbnp3_create_ws_atoms_tetrahedral1 (agb : AGBNPdata)
    (c : NeighList) (iat : Z) (nws : Z) (twsatb : list WSat) : created :=
  if negb (nne_at c iat =? 1)%Z then (AGBNP_ERR, nws, twsatb)
  else
    let ir := zd (neighl_at c iat) 0 in
    if negb (nne_at c ir =? 4)%Z then (AGBNP_ERR, nws, twsatb)
    else
      let irr := filter (fun j => negb (j =? iat)%Z)
                   (map (fun i => zd (neighl_at c ir) i) [0; 1; 2; 3]%Z) in
      if negb (length irr =? 3)%nat then (AGBNP_ERR, nws, twsatb)
      else
        let site (k : nat) (t : list WSat) :=
          let irk := nth k irr 0%Z in
          let '(xw, der) :=
            place_wat_tetrahedral1_one P (xyz agb iat) (xyz agb ir)
              (xyz agb irk) (AGBNP_HB_LENGTH K) in
          upd_slot k (fun w =>
            store_site agb iat w xw AGBNP_HB_TETRAHEDRAL1 [iat; ir; irk]
              (Some 0%Z) (copy_blocks 4 der)) t in
        (AGBNP_OK, 3%Z, site 2%nat (site 1%nat (site 0%nat twsatb))).

(** A failed creation routine leaves [*nws = 0]:
    [if(create(...) != AGBNP_OK){ *nws = 0; }]. *)
Definition degrade (res : created) : created :=
  match res with
  | (AGBNP_OK, nws, t) => (AGBNP_OK, nws, t)
  | (AGBNP_ERR, _, t) => (AGBNP_OK, 0%Z, t)
  end.

(** [agbnp3_create_ws_ofatom]: the return code, [*nws] and the buffer. *)
Definition agbnp3_create_ws_ofatom (agb : AGBNPdata) (c : NeighList)
    (iat : Z) (twsatb : list WSat) : created :=
  let nws := 0%Z in
  match nth (Z.to_nat iat) (hbtype_ agb) AGBNP_HB_INACTIVE with
  | AGBNP_HB_INACTIVE => (AGBNP_OK, nws, twsatb)
  | AGBNP_HB_POLARH =>
      degrade (agbnp3_create_ws_atoms_ph agb c iat nws twsatb)
  | AGBNP_HB_TRIGONAL =>
      if (nne_at c iat =? 1)%Z then
        degrade (agbnp3_create_ws_atoms_trigonal1 agb c iat nws twsatb)
      else if (nne_at c iat =? 2)%Z then
        degrade (agbnp3_create_ws_atoms_trigonal2 agb c iat nws twsatb)
      else (AGBNP_OK, nws, twsatb)
  | AGBNP_HB_TRIGONAL_S =>
      degrade (agbnp3_create_ws_atoms_trigonal_s agb c iat nws twsatb)
  | AGBNP_HB_TRIGONAL_OOP =>
      match agbnp3_create_ws_atoms_trigonal_oop agb c iat nws twsatb with
      | (AGBNP_OK, n, t) => (AGBNP_OK, n, t)
      | (AGBNP_ERR, n, t) => (AGBNP_ERR, n, t)
      end
  | AGBNP_HB_TETRAHEDRAL =>
      if (nne_at c iat =? 2)%Z then
        degrade (agbnp3_create_ws_atoms_tetrahedral2 agb c iat nws twsatb)
      else if (nne_at c iat =? 3)%Z then
        degrade (agbnp3_create_ws_atoms_tetrahedral3 agb c iat nws twsatb)
      else if (nne_at c iat =? 1)%Z then
        degrade (agbnp3_create_ws_atoms_tetrahedral1 agb c iat nws twsatb)
      else (AGBNP_OK, nws, twsatb)
  | _ => (AGBNP_OK, nws, twsatb)
  end.

(** [agbnp3_cpy_wsat]: the copy owns a duplicate of the first [nneigh]
    entries of the neighbour list. *)
Definition agbnp3_cpy_wsat (w2 : WSat) : WSat :=
  mkWSat (pos w2) (ws_r w2) (type w2) (volume w2) (nparents w2) (parent w2)
    (iseq w2) (dpos w2) (khb w2) (free_volume w2) (sp w2) (dhw w2)
    (nneigh w2) (nlist_size w2) (firstn (Z.to_nat (nneigh w2)) (nlist w2)).

(** The loop of [agbnp3_create_wsatoms] over the atoms [iat .. natoms-1]:
    the state is the flag [error], the buffer [twsatb] and the master list
    [agbw->wsat[0 .. nwsat-1]].  Allocation is taken to succeed. *)
Fixpoint create_wsatoms_loop (agb : AGBNPdata) (c : NeighList)
    (iats : list Z) (error : bool) (twsatb : list WSat) (wsat : list WSat)
  : bool * list WSat * list WSat :=
  match iats with
  | [] => (error, twsatb, wsat)
  | iat :: rest =>
      if error then create_wsatoms_loop agb c rest error twsatb wsat
      else
        match nth (Z.to_nat iat) (hbtype_ agb) AGBNP_HB_INACTIVE with
        | AGBNP_HB_INACTIVE => create_wsatoms_loop agb c rest error twsatb wsat
        | _ =>
            match agbnp3_create_ws_ofatom agb c iat twsatb with
            | (AGBNP_ERR, _, t) => create_wsatoms_loop agb c rest true t wsat
            | (AGBNP_OK, nws, t) =>
                create_wsatoms_loop agb c rest error t
                  (wsat ++ map agbnp3_cpy_wsat (firstn (Z.to_nat nws) t))
            end
        end
  end.

(** The atom indices [0 .. n-1]. *)
Definition atom_range (n : Z) : list Z :=
  map Z.of_nat (seq 0 (Z.to_nat n)).

(** [agbnp3_create_wsatoms]: the return code and the master list of water
    sites. *)
Definition agbnp3_create_wsatoms (agb : AGBNPdata) : retcode * list WSat :=
  match conntbl agb with
  | None => (AGBNP_ERR, [])
  | Some c =>
      let twsatb := repeat WSat_zero 4 in
      let '(error, _, wsat) :=
        create_wsatoms_loop agb c (atom_range (natoms agb)) false twsatb [] in
      if error then (AGBNP_ERR, wsat) else (AGBNP_OK, wsat)
  end.

End WaterSiteDefs.
End WaterSites.
(** ** Index sort and near-neighbour lists ([libagbnp3.c]) *)

Module NeighborLists.
Import WaterSites.

Section NeighborDefs.
#[local] Open Scope R_scope.

(** [agbnp3_fcompare], with [fextval] as an argument: [-1], [1] or [0]. *)
Definition agbnp3_fcompare (fextval : list R) (indx1 indx2 : Z) : Z :=
  if Rlt_dec (rd fextval indx1) (rd fextval indx2) then (-1)%Z
  else if Rgt_dec (rd fextval indx1) (rd fextval indx2) then 1%Z
  else if (indx1 <? indx2)%Z then (-1)%Z
  else if (indx1 >? indx2)%Z then 1%Z
  else 0%Z.

(** [qsort] of [<stdlib.h>] puts the array in ascending order of the
    comparison function.  The model is insertion sort; the comparison used
    here is a total order on distinct indices, so every correct sort gives
    the same array. *)
Fixpoint qsort_insert (cmp : Z -> Z -> Z) (a : Z) (l : list Z) : list Z :=
  match l with
  | [] => [a]
  | b :: t =>
      if (cmp a b <=? 0)%Z then a :: b :: t else b :: qsort_insert cmp a t
  end.

Definition qsort (cmp : Z -> Z -> Z) (l : list Z) : list Z :=
  fold_right (qsort_insert cmp) [] l.

(** [agbnp3_fsortindx]: the array [indx[0 .. pnval-1]]. *)
Definition agbnp3_fsortindx (pnval : Z) (val : list R) : list Z :=
  qsort (agbnp3_fcompare val) (atom_range pnval).

(** The order [agbnp3_fcompare] decides: ascending value, ties by index. *)
Definition key_le (val : list R) (i j : Z) : Prop :=
  rd val i < rd val j \/ (rd val i = rd val j /\ (i <= j)%Z).

(** [agbnp3_nblist_reorder] and [agbnp3_int_reorder] on one list:
    [js[j] = nl[indx[j]]] for [j < n], then [nl[j] = js[j]]. *)
Definition agbnp3_int_reorder (n : Z) (nl : list Z) (indx : list Z) : list Z :=
  map (fun k => zd nl k) (firstn (Z.to_nat n) indx) ++ skipn (Z.to_nat n) nl.

Variable K : AGBNPconsts.

(** The squared distance [d2] between atoms [iat] and [jat]. *)
Definition sqdist (agb : AGBNPdata) (iat jat : Z) : R :=
  let dx := rd (x agb) jat - rd (x agb) iat in
  let dy := rd (y agb) jat - rd (y agb) iat in
  let dz := rd (z agb) jat - rd (z agb) iat in
  dx * dx + dy * dy + dz * dz.

(** The near test [d2 < u*u] with [u = (r[iat] + r[jat]) * nboffset]. *)
Definition is_near (agb : AGBNPdata) (iat jat : Z) : bool :=
  let u := (rd (r agb) iat + rd (r agb) jat) * AGBNP_NBOFFSET K in
  if Rlt_dec (sqdist agb iat jat) (u * u) then true else false.

(** The inner loop [for(jat=iat+1;jat<nheavyat;jat++)] over the atoms
    [jats]: the near neighbours appended to the list of [iat], their squared
    distances appended to [nl_r2v], and the count of far neighbours. *)
Fixpoint near_scan (agb : AGBNPdata) (iat : Z) (jats : list Z)
  : list Z * list R * Z :=
  match jats with
  | [] => ([], [], 0%Z)
  | jat :: rest =>
      let '(nl, r2v, far) := near_scan agb iat rest in
      if is_near agb iat jat
      then (jat :: nl, sqdist agb iat jat :: r2v, far)
      else (nl, r2v, (far + 1)%Z)
  end.

(** The atoms [iat+1 .. nheavyat-1]. *)
Definition atoms_after (iat nheavyat : Z) : list Z :=
  map (fun k => (iat + 1 + Z.of_nat k)%Z) (seq 0 (Z.to_nat (nheavyat - iat - 1))).

(** The near-neighbour list: [nne[iat]] and the list [neighl[iat]] of every
    atom.  Each [neighl[iat]] points at the first free entry of the shared
    array [neighl1], so the lists of different atoms do not overlap; the
    model keeps one list per atom. *)
Record near_list : Type := mkNear {
  near_nne : list Z;
  near_neighl : list (list Z)
}.

(** The state of the loop over [iat]: the counters [nnl] and [nnlrc] and
    the list under construction. *)
Record nl_state : Type := mkNlState {
  nnl : Z;
  nnlrc : Z;
  nl : near_list
}.

(** The body of the loop of [agbnp3_neighbor_lists] for one heavy atom,
    after the storage has been grown: the list of [iat] is reset, filled
    by the scan of the later atoms and sorted. *)
Definition neighbor_lists_step (agb : AGBNPdata) (st : nl_state) (iat : Z)
  : nl_state :=
  let '(cand, nl_r2v, far) :=
    near_scan agb iat (atoms_after iat (nheavyat agb)) in
  let n := Z.of_nat (length cand) in
  let sorted :=
    if (0 <? n)%Z
    then agbnp3_int_reorder n cand (agbnp3_fsortindx n nl_r2v)
    else cand in
  mkNlState (nnl st + n)%Z
    (nnlrc st + far + (natoms agb - nheavyat agb + 1))%Z
    (mkNear (set_nth (Z.to_nat iat) n (near_nne (nl st)))
            (set_nth (Z.to_nat iat) sorted (near_neighl (nl st)))).

(** Modelled from the spec: [nblist_reallocate_neighbor_list], of the
    neighbour-list storage ([nblist.c]), which is not among the sources.
    By the spec the storage "is grown geometrically, never shrunk within an
    evaluation": a call that succeeds leaves a storage of [size] entries
    that holds the lists built so far, a call that fails leaves the
    storage as it was.  [ok] is the outcome of the allocation; the result
    is whether the call returned [NBLIST_OK], and [neighl_size]. *)
Definition nblist_reallocate_neighbor_list (ok : bool) (neighl_size size : Z)
  : bool * Z :=
  if ok then (true, size) else (false, neighl_size).

(** The loop
    [while(nnl + nsym*natoms >= near_nl->neighl_size){
       nlsize = agbnp3_mymax(nlsize_increment*near_nl->neighl_size,
                             nnl + nsym*natoms);
       if(nblist_reallocate_neighbor_list(near_nl,natoms,nlsize) != NBLIST_OK)
         error = 2;
       if (error) continue; }]
    with [need = nnl + nsym*natoms]: the values of [error],
    [neighl_size], [nlsize] and the number of reallocations made so far at
    its exit.  [alloc k] is the outcome of the [k]-th allocation.  [None]:
    the loop does not end within the fuel (a failed reallocation is tried
    again, with [error] already set), or the conversion of
    [nlsize_increment*neighl_size] to [int] is undefined. *)
Fixpoint grow_near_list (fuel : nat) (alloc : nat -> bool) (need : Z)
    (error neighl_size nlsize : Z) (calls : nat)
  : option (Z * Z * Z * nat) :=
  match fuel with
  | O => None
  | S f =>
      if (need >=? neighl_size)%Z then
        match c_int (1.2 * IZR neighl_size) with
        | None => None
        | Some a =>
            let nlsize := if (a >? need)%Z then a else need in
            let '(ok, size') :=
              nblist_reallocate_neighbor_list (alloc calls) neighl_size
                nlsize in
            grow_near_list f alloc need (if ok then error else 2%Z) size'
              nlsize (S calls)
        end
      else Some (error, neighl_size, nlsize, calls)
  end.

(** The state of the loop over [iat] with the storage: the lists and their
    counters, the flag [error], [near_nl->neighl_size], [nlsize] and the
    number of reallocations made. *)
Record nb_state : Type := mkNb {
  nb_lists : nl_state;
  nb_error : Z;
  nb_size : Z;
  nb_nlsize : Z;
  nb_calls : nat
}.

(** One round of [for(iat=0;iat<nheavyat;iat++)]: skipped once [error] is
    set ([if(error) continue;]), else the storage is grown and the list of
    [iat] is built. *)
Definition neighbor_lists_iter (fuel : nat) (alloc : nat -> bool) (nsym : Z)
    (agb : AGBNPdata) (st : nb_state) (iat : Z) : option nb_state :=
  if negb (nb_error st =? 0)%Z then Some st
  else
    match grow_near_list fuel alloc
            (nnl (nb_lists st) + nsym * natoms agb)%Z
            (nb_error st) (nb_size st) (nb_nlsize st) (nb_calls st) with
    | None => None
    | Some (error, size, nlsize, calls) =>
        Some (mkNb (neighbor_lists_step agb (nb_lists st) iat)
                error size nlsize calls)
    end.

Fixpoint neighbor_lists_rounds (fuel : nat) (alloc : nat -> bool) (nsym : Z)
    (agb : AGBNPdata) (iats : list Z) (st : nb_state) : option nb_state :=
  match iats with
  | [] => Some st
  | iat :: rest =>
      match neighbor_lists_iter fuel alloc nsym agb st iat with
      | None => None
      | Some st' => neighbor_lists_rounds fuel alloc nsym agb rest st'
      end
  end.

(** [agbnp3_neighbor_lists]: the return code, the state of the near list
    at the return, and the size of [q4cache] ([None] for a NULL pointer).
    [old] and [size0] are the near list and its storage size as the
    previous evaluation left them, [nsym] is [agb->nsym], [q4cache] the
    cache on entry; [alloc] gives the outcomes of the reallocations of the
    near list and [q4alloc] the outcome of the [realloc] of [q4cache].
    The far list is not modelled.  [None]: a reallocation loop does not
    end. *)
Definition agbnp3_neighbor_lists (fuel : nat) (alloc : nat -> bool)
    (q4alloc : bool) (nsym : Z) (agb : AGBNPdata) (old : near_list)
    (size0 : Z) (q4cache : option Z)
  : option (retcode * nb_state * option Z) :=
  (* reset neighbor lists *)
  let reset :=
    mkNear (repeat 0%Z (Z.to_nat (natoms agb))) (near_neighl old) in
  match neighbor_lists_rounds fuel alloc nsym agb
          (atom_range (nheavyat agb))
          (mkNb (mkNlState 0 0 reset) 0 size0 0 0) with
  | None => None
  | Some st =>
      if (1 <=? nb_error st)%Z && (nb_error st <=? 7)%Z
      then Some (AGBNP_ERR, st, q4cache)
      else
        (* (re)allocation of i4() memory cache *)
        let n4 := (4 * (nnl (nb_lists st) + nnlrc (nb_lists st)))%Z in
        let grow :=
          match q4cache with
          | None => true
          | Some nq4cache => (n4 >? nq4cache)%Z
          end in
        if grow then
          if q4alloc then Some (AGBNP_OK, st, Some n4)
          else Some (AGBNP_ERR, st, None)
        else Some (AGBNP_OK, st, q4cache)
  end.

(** *** The stages that follow *)

Section LaterStages.
Variable W : Type.

(** The stages of [agbnp3_total_energy] after [agbnp3_neighbor_lists] that
    are among the sources: [agbnp3_scaling_factors], [agbnp3_born_radii]
    and [agbnp3_create_wsatoms].  None of them names [near_nl]; each maps
    the rest of the data, of type [W], to its return code and that data. *)
Record source_stages : Type := mkSourceStages {
  stage_scaling_factors : W -> retcode * W;
  stage_born_radii : W -> retcode * W;
  stage_create_wsatoms : W -> retcode * W
}.

(** Modelled from the spec: the eight stages of [agbnp3_total_energy]
    after [agbnp3_neighbor_lists] that are not among the sources
    ([agbnp3_self_volumes_rooti], [agbnp3_inverse_born_radii_nolist_soa],
    [agbnp3_gb_energy_nolist_ps], [agbnp3_gb_ders_constvp_nolist_ps],
    [agbnp3_ws_free_volumes_scalev_ps], [agbnp3_gb_deruv_nolist_ps],
    [agbnp3_der_vp_rooti], [agbnp3_cavity_dersgb_rooti]).  By the spec
    "each stage reads only outputs already finalized by a prior stage",
    the engines "borrow references" to the neighbour lists, whose entries
    are "sorted ascending by squared distance after construction", an
    ordering that "is later relied upon": such a stage reads the near list
    and the rest of the data and returns its code and the rest of the
    data. *)
Record spec_stages : Type := mkSpecStages {
  stage_self_volumes_rooti : near_list -> W -> retcode * W;
  stage_inverse_born_radii_nolist_soa : near_list -> W -> retcode * W;
  stage_gb_energy_nolist_ps : near_list -> W -> retcode * W;
  stage_gb_ders_constvp_nolist_ps : near_list -> W -> retcode * W;
  stage_ws_free_volumes_scalev_ps : near_list -> W -> retcode * W;
  stage_gb_deruv_nolist_ps : near_list -> W -> retcode * W;
  stage_der_vp_rooti : near_list -> W -> retcode * W;
  stage_cavity_dersgb_rooti : near_list -> W -> retcode * W
}.

(** The stages after [agbnp3_neighbor_lists], in the order of the calls,
    as maps of the near list and the rest of the data. *)
Definition later_stages (S1 : source_stages) (S2 : spec_stages)
  : list (near_list -> W -> retcode * (near_list * W)) :=
  let reads (f : near_list -> W -> retcode * W) :=
    fun nlst w => (fst (f nlst w), (nlst, snd (f nlst w))) in
  let apart (f : W -> retcode * W) :=
    fun (nlst : near_list) w => (fst (f w), (nlst, snd (f w))) in
  [reads (stage_self_volumes_rooti S2);
   apart (stage_scaling_factors S1);
   reads (stage_inverse_born_radii_nolist_soa S2);
   apart (stage_born_radii S1);
   reads (stage_gb_energy_nolist_ps S2);
   reads (stage_gb_ders_constvp_nolist_ps S2);
   apart (stage_create_wsatoms S1);
   reads (stage_ws_free_volumes_scalev_ps S2);
   reads (stage_gb_deruv_nolist_ps S2);
   reads (stage_der_vp_rooti S2);
   reads (stage_cavity_dersgb_rooti S2)].

(** [res = stage(...); if(res != AGBNP_OK) error += 1; if(error) goto
    ERROR;] for each stage in turn: the rest of the evaluation. *)
Fixpoint run_later (l : list (near_list -> W -> retcode * (near_list * W)))
    (nlst : near_list) (w : W) : retcode * (near_list * W) :=
  match l with
  | [] => (AGBNP_OK, (nlst, w))
  | stage :: rest =>
      match stage nlst w with
      | (AGBNP_OK, (nlst', w')) => run_later rest nlst' w'
      | (AGBNP_ERR, st) => (AGBNP_ERR, st)
      end
  end.

Definition rest_of_evaluation (S1 : source_stages) (S2 : spec_stages)
    (nlst : near_list) (w : W) : retcode * (near_list * W) :=
  run_later (later_stages S1 S2) nlst w.

End LaterStages.

(** The order of the sort: ascending squared distance to [iat], ties by
    index. *)
Definition nearer (agb : AGBNPdata) (iat j k : Z) : Prop :=
  sqdist agb iat j < sqdist agb iat k \/
  (sqdist agb iat j = sqdist agb iat k /\ (j < k)%Z).

(** What holds of the list of atom [iat] once it is built: the count
    matches, the list is sorted, and it holds the near atoms after [iat]. *)
Definition near_list_ok (agb : AGBNPdata) (nlst : near_list) (iat : Z)
  : Prop :=
  let l := nth (Z.to_nat iat) (near_neighl nlst) [] in
  nth (Z.to_nat iat) (near_nne nlst) 0%Z = Z.of_nat (length l) /\
  StronglySorted (nearer agb iat) l /\
  (forall jat, In jat l <->
     (iat < jat < nheavyat agb)%Z /\ is_near agb iat jat = true).

End NeighborDefs.
End NeighborLists.
(** ** Free volume of a water site ([agbnp3_ws_free_volume_of1]) *)

Module FreeVolume.
Import WaterSites NeighborLists.

Section FreeVolumeDefs.
#[local] Open Scope R_scope.

Variable K : AGBNPconsts.

(** [GParm] *)
Record GParm : Type := mkGParm {
  gp_a : R;
  gp_p : R;
  gp_c : vec3
}.

Definition GParm_zero : GParm := mkGParm 0 0 vzero.

(** The local variables of the function: the overlap order, the arrays of
    [AGBNP_MAX_OVERLAP_LEVEL] entries, the outputs of the last overlap call,
    and the free volume accumulated so far. *)
Record ws_work : Type := mkWork {
  w_order : nat;
  w_gnlist : list Z;
  w_gatlist : list Z;
  w_gx : list vec3;
  w_ga : list R;
  w_gp : list R;
  w_gr : list R;
  w_gparams : list GParm;
  w_an : R;
  w_pn : R;
  w_cn : vec3;
  w_sr : R;
  w_free_volume : R
}.

(** The loop [for(order=1;order<=AGBNP_MAX_OVERLAP_LEVEL;order++)] that
    fills [volpcoeff]: [n] entries starting from [sign]. *)
Fixpoint volpcoeff_from (n : nat) (sign : R) : list R :=
  match n with
  | O => []
  | S k => sign :: volpcoeff_from k (sign * -1)
  end.

Definition volpcoeff : list R :=
  volpcoeff_from (AGBNP_MAX_OVERLAP_LEVEL K) 1.

(** One call
    [agbnp3_ogauss_incremental(order, gx, ga, gp, gr, gparams[order-2].a,
     gparams[order-2].p, gparams[order-2].c, &an, &pn, cn, AGBNP_MIN_VOLA,
     AGBNP_MIN_VOLB, &sr, NULL, NULL, NULL)]: the returned volume and the
    locals afterwards. *)
Definition ws_overlap (w : ws_work) (order : nat) : R * ws_work :=
  let g := nth (order - 2) (w_gparams w) GParm_zero in
  let out :=
    agbnp3_ogauss_incremental (Z.of_nat order) (w_gx w) (w_ga w) (w_gp w)
      (w_gr w) (gp_a g) (gp_p g) (gp_c g) (w_an w) (w_pn w) (w_cn w)
      (AGBNP_MIN_VOLA K) (AGBNP_MIN_VOLB K) (Some (w_sr w)) None None None in
  (og_ret out,
   mkWork (w_order w) (w_gnlist w) (w_gatlist w) (w_gx w) (w_ga w) (w_gp w)
     (w_gr w) (w_gparams w) (og_an out) (og_pn out) (og_cn out)
     (match og_sr1 out with Some s => s | None => w_sr w end)
     (w_free_volume w)).

(** The assignments before the neighbour search: the site itself is the
    Gaussian of order 1. *)
Definition ws_init (wsat : WSat) (w : ws_work) : ws_work :=
  let ga0 := KFC K / (ws_r wsat * ws_r wsat) in
  mkWork (w_order w) (w_gnlist w) (set_nth 0 0%Z (w_gatlist w))
    (set_nth 0 (pos wsat) (w_gx w)) (set_nth 0 ga0 (w_ga w))
    (set_nth 0 (PFC K) (w_gp w)) (set_nth 0 (ws_r wsat) (w_gr w))
    (set_nth 0 (mkGParm ga0 (PFC K) (pos wsat)) (w_gparams w))
    (w_an w) (w_pn w) (w_cn w) (w_sr w) (volume wsat).

(** The neighbour search ([if(init)]), for the heavy atoms [heavy]: the
    atoms kept in [nlist], their squared distances in [nl_r2v], and the
    locals. *)
Fixpoint ws_gather (agb : AGBNPdata) (wsat : WSat) (heavy : list Z)
    (w : ws_work) (nlist : list Z) (nl_r2v : list R)
  : ws_work * list Z * list R :=
  match heavy with
  | [] => (w, nlist, nl_r2v)
  | iat :: rest =>
      let d2 := vnorm2 (vsub (xyz agb iat) (pos wsat)) in
      let u := (rd (r agb) iat + ws_r wsat) * AGBNP_NBOFFSET K in
      if Rlt_dec d2 (u * u) then
        let w1 :=
          mkWork 2 (w_gnlist w) (w_gatlist w)
            (set_nth 1 (xyz agb iat) (w_gx w))
            (set_nth 1 (rd (galpha agb) iat) (w_ga w))
            (set_nth 1 (rd (gprefac agb) iat) (w_gp w))
            (set_nth 1 (rd (r agb) iat) (w_gr w))
            (w_gparams w) (w_an w) (w_pn w) (w_cn w) (w_sr w)
            (w_free_volume w) in
        let '(_, w2) := ws_overlap w1 2 in
        if Rgt_dec (w_sr w2) (AGBNP_MIN_VOLA K)
        then ws_gather agb wsat rest w2 (nlist ++ [iat]) (nl_r2v ++ [d2])
        else ws_gather agb wsat rest w2 nlist nl_r2v
      else ws_gather agb wsat rest w nlist nl_r2v
  end.

(** The inner loop
    [while(order>1 && gnlist[order-1]>=nn){ order -= 1; gnlist[order-1] += 1; }]. *)
Fixpoint ws_pop (nn : Z) (order : nat) (gnlist : list Z) : nat * list Z :=
  match order with
  | S (S o as o1) =>
      if (nn <=? nth o1 gnlist 0)%Z
      then ws_pop nn o1 (set_nth o (nth o gnlist 0 + 1)%Z gnlist)
      else (order, gnlist)
  | _ => (order, gnlist)
  end.

(** One pass through the body of [while(nn && order>1)].  The second
    component records the term the pass added to the free volume, if any:
    its order and its overlap volume. *)
Definition ws_body (agb : AGBNPdata) (nn : Z) (nlist : list Z) (w : ws_work)
  : ws_work * option (nat * R) :=
  let order := w_order w in
  let j := nth (order - 1) (w_gnlist w) 0%Z in
  let jat := zd nlist j in
  let grj := rd (r agb) jat in
  let w1 :=
    mkWork order (w_gnlist w) (set_nth (order - 1) jat (w_gatlist w))
      (set_nth (order - 1) (xyz agb jat) (w_gx w))
      (set_nth (order - 1) (KFC K / (grj * grj)) (w_ga w))
      (set_nth (order - 1) (PFC K) (w_gp w))
      (set_nth (order - 1) grj (w_gr w))
      (w_gparams w) (w_an w) (w_pn w) (w_cn w) (w_sr w) (w_free_volume w) in
  let '(gvol, w2) := ws_overlap w1 order in
  let gparams' :=
    set_nth (order - 1) (mkGParm (w_an w2) (w_pn w2) (w_cn w2)) (w_gparams w2) in
  let altw := 1 in
  let '(order1, gnlist1, fv1, term) :=
    if Rgtb (altw * gvol) FLT_MIN
       && (order <? AGBNP_MAX_OVERLAP_LEVEL K)%nat
    then
      (* increment overlap level *)
      (S order,
       set_nth order (nth (order - 1) (w_gnlist w2) 0 + 1)%Z (w_gnlist w2),
       w_free_volume w2 + nth (order - 1) volpcoeff 0 * gvol,
       Some (order, gvol))
    else
      (* new neighbor at this level *)
      (order,
       set_nth (order - 1) (nth (order - 1) (w_gnlist w2) 0 + 1)%Z (w_gnlist w2),
       w_free_volume w2,
       None) in
  let '(order2, gnlist2) := ws_pop nn order1 gnlist1 in
  (mkWork order2 gnlist2 (w_gatlist w2) (w_gx w2) (w_ga w2) (w_gp w2)
     (w_gr w2) gparams' (w_an w2) (w_pn w2) (w_cn w2) (w_sr w2) fv1,
   term).

(** [while(nn && order>1)]: the locals at the exit and the terms added, in
    the order they were added. *)
Fixpoint ws_loop (fuel : nat) (agb : AGBNPdata) (nn : Z) (nlist : list Z)
    (w : ws_work) : option (ws_work * list (nat * R)) :=
  match fuel with
  | O => None
  | S f =>
      if negb (nn =? 0)%Z && (1 <? w_order w)%nat then
        let '(w', term) := ws_body agb nn nlist w in
        match ws_loop f agb nn nlist w' with
        | None => None
        | Some (wf, terms) =>
            Some (wf, match term with Some t => t :: terms | None => terms end)
        end
      else Some (w, [])
  end.

(** The neighbours used: searched and sorted when [init] is not zero, else
    the ones stored in the site. *)
Definition ws_neighbors (agb : AGBNPdata) (wsat : WSat) (init : Z)
    (w : ws_work) : ws_work * WSat :=
  if negb (init =? 0)%Z then
    let '(w1, nlist0, nl_r2v) :=
      ws_gather agb wsat
        (firstn (Z.to_nat (nheavyat agb)) (iheavyat agb)) w [] [] in
    let nn := Z.of_nat (length nlist0) in
    (* reorder by distance *)
    let nlist1 := agbnp3_int_reorder nn nlist0 (agbnp3_fsortindx nn nl_r2v) in
    (w1,
     mkWSat (pos wsat) (ws_r wsat) (type wsat) (volume wsat) (nparents wsat)
       (parent wsat) (iseq wsat) (dpos wsat) (khb wsat) (free_volume wsat)
       (sp wsat) (dhw wsat) nn
       (if (nlist_size wsat =? 0)%Z || (nlist_size wsat <? nn)%Z
        then nn else nlist_size wsat)
       nlist1)
  else (w, wsat).

(** [wsat->free_volume = wsat->volume;] *)
Definition ws_start (wsat : WSat) : WSat :=
  mkWSat (pos wsat) (ws_r wsat) (type wsat) (volume wsat) (nparents wsat)
    (parent wsat) (iseq wsat) (dpos wsat) (khb wsat) (volume wsat)
    (sp wsat) (dhw wsat) (nneigh wsat) (nlist_size wsat) (nlist wsat).

(** The number [nn] of neighbours the overlap loop runs over. *)
Definition ws_nn (agb : AGBNPdata) (wsat : WSat) (init : Z) (w0 : ws_work)
  : Z :=
  nneigh (snd (ws_neighbors agb (ws_start wsat) init (ws_init wsat w0))).

(** [agbnp3_ws_free_volume_of1]: the return code, the site with
    [free_volume] and [sp] set, and the terms the overlap loop added.
    [w0] holds the indeterminate initial contents of the locals (arrays of
    [AGBNP_MAX_OVERLAP_LEVEL] entries); the neighbour list of a site is
    taken to be allocated exactly when [nlist_size] is not zero.  [None]:
    the fuel ran out. *)
Definition agbnp3_ws_free_volume_of1 (fuel : nat) (agb : AGBNPdata)
    (wsat : WSat) (init : Z) (w0 : ws_work)
  : option (retcode * WSat * list (nat * R)) :=
  let wa := ws_init wsat w0 in
  let '(wb, wsat1) := ws_neighbors agb (ws_start wsat) init wa in
  let nn := nneigh wsat1 in
  let wc :=
    mkWork 2 (set_nth 1 0%Z (w_gnlist wb)) (w_gatlist wb) (w_gx wb) (w_ga wb)
      (w_gp wb) (w_gr wb) (w_gparams wb) (w_an wb) (w_pn wb) (w_cn wb)
      (w_sr wb) (w_free_volume wb) in
  match ws_loop fuel agb nn (nlist wsat1) wc with
  | None => None
  | Some (wf, terms) =>
      Some (AGBNP_OK,
            mkWSat (pos wsat1) (ws_r wsat1) (type wsat1) (volume wsat1)
              (nparents wsat1) (parent wsat1) (iseq wsat1) (dpos wsat1)
              (khb wsat1) (w_free_volume wf)
              (w_free_volume wf / volume wsat1) (dhw wsat1) (nneigh wsat1)
              (nlist_size wsat1) (nlist wsat1),
            terms)
  end.

(** The sum the terms stand for: a term of order [o] and volume [g] counts
    [(-1)^(o-1) * g]. *)
Definition signed_sum (terms : list (nat * R)) : R :=
  fold_right (fun t acc => (-1) ^ (fst t - 1) * snd t + acc) 0 terms.

(** The weight of a neighbour index in the termination measure of the
    overlap loop: the number of index chains that start at it or later. *)
Definition chain_weight (nn v : Z) : Z := (2 ^ (Z.max 0 (nn - v)) - 1)%Z.

Fixpoint lower_weight (nn : Z) (m : nat) (gnlist : list Z) : Z :=
  match m with
  | O => 0%Z
  | S k => (chain_weight nn (nth m gnlist 0 + 1) + lower_weight nn k gnlist)%Z
  end.

Definition loop_measure (nn : Z) (order : nat) (gnlist : list Z) : Z :=
  match order with
  | S (S o) => (lower_weight nn o gnlist + chain_weight nn (nth (S o) gnlist 0))%Z
  | _ => 0%Z
  end.

(** What holds of the locals each time the loop condition is evaluated. *)
Definition loop_inv (nn : Z) (w : ws_work) : Prop :=
  (1 <= w_order w <= AGBNP_MAX_OVERLAP_LEVEL K)%nat /\
  length (w_gnlist w) = AGBNP_MAX_OVERLAP_LEVEL K /\
  ((1 < w_order w)%nat -> (nth (w_order w - 1) (w_gnlist w) 0 < nn)%Z).

(** A term the loop may add: its order is at least 2 and below the maximum
    level, and its volume is above [FLT_MIN]. *)
Definition term_ok (t : nat * R) : Prop :=
  (2 <= fst t < AGBNP_MAX_OVERLAP_LEVEL K)%nat /\ snd t > FLT_MIN.

(** *** The sum the loop computes *)

(** The Gaussian of the site: the one of order 1 ([gparams[0]]). *)
Definition site_gaussian (wsat : WSat) : GParm :=
  mkGParm (KFC K / (ws_r wsat * ws_r wsat)) (PFC K) (pos wsat).

(** The overlap of the merged Gaussian [g] with the Gaussian the loop
    gives atom [jat] (exponent [kf_ws/r^2], prefactor [pf_ws]): the volume
    [agbnp3_ogauss_incremental] returns and the Gaussian it leaves in
    [an], [pn], [cn]. *)
Definition chain_overlap (agb : AGBNPdata) (g : GParm) (jat : Z)
  : R * GParm :=
  let grj := rd (r agb) jat in
  let out :=
    agbnp3_ogauss_incremental 2 [vzero; xyz agb jat]
      [0; KFC K / (grj * grj)] [0; PFC K] [0; grj]
      (gp_a g) (gp_p g) (gp_c g) 0 0 vzero
      (AGBNP_MIN_VOLA K) (AGBNP_MIN_VOLB K) None None None None in
  (og_ret out, mkGParm (og_an out) (og_pn out) (og_cn out)).

(** The sum of the specification, to which the loop of the source is
    compared: a depth-first enumeration with the sign alternating with
    the depth, cut at the maximum depth.  It is the inclusion-exclusion
    sum over the chains of neighbours that extend the merged Gaussian [g]
    by atoms of [js], taken in the order of [js]:
    a chain ending in [jat] at [order] counts [(-1)^(order-1)] times its
    overlap volume and is extended by the atoms after [jat], when that
    volume is above [FLT_MIN] and [order] is below
    [AGBNP_MAX_OVERLAP_LEVEL]; otherwise it counts nothing and is not
    extended. *)
Fixpoint chain_sum (agb : AGBNPdata) (order : nat) (g : GParm)
    (js : list Z) : R :=
  match js with
  | [] => 0
  | jat :: rest =>
      let '(gvol, g') := chain_overlap agb g jat in
      (if Rgtb gvol FLT_MIN && (order <? AGBNP_MAX_OVERLAP_LEVEL K)%nat
       then (-1) ^ (order - 1) * gvol + chain_sum agb (S order) g' rest
       else 0)
      + chain_sum agb order g rest
  end.

(** The neighbours the overlap loop runs over, in the order of the list:
    [nlist[0 .. nn-1]]. *)
Definition ws_chain_atoms (agb : AGBNPdata) (wsat : WSat) (init : Z)
    (w0 : ws_work) : list Z :=
  let wsat1 :=
    snd (ws_neighbors agb (ws_start wsat) init (ws_init wsat w0)) in
  map (fun j => zd (nlist wsat1) j) (atom_range (nneigh wsat1)).

(** The local arrays have [AGBNP_MAX_OVERLAP_LEVEL] entries. *)
Definition work_sized (w : ws_work) : Prop :=
  length (w_gnlist w) = AGBNP_MAX_OVERLAP_LEVEL K /\
  length (w_gatlist w) = AGBNP_MAX_OVERLAP_LEVEL K /\
  length (w_gx w) = AGBNP_MAX_OVERLAP_LEVEL K /\
  length (w_ga w) = AGBNP_MAX_OVERLAP_LEVEL K /\
  length (w_gp w) = AGBNP_MAX_OVERLAP_LEVEL K /\
  length (w_gr w) = AGBNP_MAX_OVERLAP_LEVEL K /\
  length (w_gparams w) = AGBNP_MAX_OVERLAP_LEVEL K.

(** The locals [w'] are reached from [w] by passes through the body of
    [while(nn && order>1)], each entered with [order > 1]. *)
Inductive ws_reaches (agb : AGBNPdata) (nn : Z) (nlist : list Z)
  : ws_work -> ws_work -> Prop :=
  | reaches_here (w : ws_work) : ws_reaches agb nn nlist w w
  | reaches_pass (w w' : ws_work) :
      (1 < w_order w)%nat ->
      ws_reaches agb nn nlist (fst (ws_body agb nn nlist w)) w' ->
      ws_reaches agb nn nlist w w'.

End FreeVolumeDefs.
End FreeVolume.
(** ** The energy evaluation ([agbnp3_total_energy]) *)

Module TotalEnergy.

Section EnergyDefs.
#[local] Open Scope R_scope.

(** The locations behind the seven output pointers of
    [agbnp3_total_energy].  No stage receives these pointers. *)
Record energy_out : Type := mkOut {
  mol_volume : R;
  egb : R;
  evdw : R;
  ecorr_vdw : R;
  ecav : R;
  ecorr_cav : R;
  ehb : R
}.

Variable W : Type.

(** [AGBNPdata] with its work data [agbw]: by name the fields that
    [agbnp3_total_energy] itself reads or writes, and everything else as
    [other].  Every stage receives [agb] and [agbw_h] and may write any of
    it. *)
Record agb_data : Type := mkData {
  natoms : nat;
  nheavyat : nat;
  iheavyat : list nat;
  ialpha : list R;
  salpha : list R;
  idelta : list R;
  sdelta : list R;
  igamma : list R;
  sgamma : list R;
  surf_area : list R;      (* agb->surf_area *)
  br : list R;             (* agb->br *)
  sp : list R;             (* agb->sp *)
  dgbdr : list vec3;       (* agb->dgbdr *)
  dvwdr : list vec3;
  decav : list vec3;
  dehb : list vec3;
  agb_ehb : R;             (* agb->ehb *)
  volumep : list R;        (* agbw->volumep *)
  agbw_br : list R;        (* agbw->br *)
  agbw_sp : list R;        (* agbw->sp *)
  dgbdr_h : list vec3;     (* agbw->dgbdr_h *)
  dvwdr_h : list vec3;
  decav_h : list vec3;
  agbw_dehb : list vec3;   (* agbw->dehb *)
  other : W
}.

(** The stages, in the order they are called.  Each maps the data to its
    return code and the data as it leaves them;
    [agbnp3_gb_energy_nolist_ps] also gives the values it leaves in
    [egb_self] and [egb_pair], which are 0 before the call.  Six stages
    are among the sources ([agbnp3_reset_buffers],
    [agbnp3_reset_derivatives], [agbnp3_neighbor_lists],
    [agbnp3_scaling_factors], [agbnp3_born_radii],
    [agbnp3_create_wsatoms]); the function is modelled for stages that
    behave in any way. *)
Record stages : Type := mkStages {
  agbnp3_reset_buffers : agb_data -> retcode * agb_data;
  agbnp3_reset_derivatives : agb_data -> retcode * agb_data;
  agbnp3_neighbor_lists : agb_data -> retcode * agb_data;
  agbnp3_self_volumes_rooti : agb_data -> retcode * agb_data;
  agbnp3_scaling_factors : agb_data -> retcode * agb_data;
  agbnp3_inverse_born_radii_nolist_soa : agb_data -> retcode * agb_data;
  agbnp3_born_radii : agb_data -> retcode * agb_data;
  agbnp3_gb_energy_nolist_ps : agb_data -> retcode * agb_data * (R * R);
  agbnp3_gb_ders_constvp_nolist_ps : agb_data -> retcode * agb_data;
  agbnp3_create_wsatoms : agb_data -> retcode * agb_data;
  agbnp3_ws_free_volumes_scalev_ps : agb_data -> retcode * agb_data;
  agbnp3_gb_deruv_nolist_ps : agb_data -> retcode * agb_data;
  agbnp3_der_vp_rooti : agb_data -> retcode * agb_data;
  agbnp3_cavity_dersgb_rooti : agb_data -> retcode * agb_data
}.

Variable S : stages.

(** [res = stage(...); if(res != AGBNP_OK) error += 1; if(error) goto ERROR;]
    followed by the rest of the function [k]; after [ERROR:] comes
    [if(error) return AGBNP_ERR;]. *)
Definition then_stage (stage : agb_data -> retcode * agb_data)
    (out : energy_out) (d : agb_data)
    (k : agb_data -> retcode * energy_out * agb_data)
  : retcode * energy_out * agb_data :=
  match stage d with
  | (AGBNP_OK, d') => k d'
  | (AGBNP_ERR, d') => (AGBNP_ERR, out, d')
  end.

(** [for(iat=0;iat<n;iat++) dst[iat] = src[iat]] *)
Definition copy_prefix {A : Type} (n : nat) (src dst : list A) : list A :=
  firstn n src ++ skipn n dst.

(** The sum over the heavy atoms [iheavyat[0 .. nheavyat-1]] of
    [term iat]; [nheavyat] is the local of the function, read at its
    entry. *)
Definition heavy_sum (nh : nat) (d : agb_data) (term : nat -> R) : R :=
  fold_left (fun acc iat => acc + term iat) (firstn nh (iheavyat d)) 0.

(** The three sums written after [agbnp3_scaling_factors]. *)
Definition molecule_volume (nh : nat) (d : agb_data) : R :=
  heavy_sum nh d (fun iat => nth iat (volumep d) 0).

Definition cavity_energy (nh : nat) (d : agb_data) : R :=
  heavy_sum nh d (fun iat => nth iat (igamma d) 0 * nth iat (surf_area d) 0).

Definition corr_cavity_energy (nh : nat) (d : agb_data) : R :=
  heavy_sum nh d (fun iat => nth iat (sgamma d) 0 * nth iat (surf_area d) 0).

(** [*ecav], [*ecorr_cav] and [*mol_volume] are written. *)
Definition write_cavity (nh : nat) (out : energy_out) (d : agb_data)
  : energy_out :=
  mkOut (molecule_volume nh d) (egb out) (evdw out) (ecorr_vdw out)
    (cavity_energy nh d) (corr_cavity_energy nh d) (ehb out).

(** [for(iat=0;iat<natoms;iat++) agb->br[iat] = agb->agbw->br[iat];] *)
Definition refresh_br (n : nat) (d : agb_data) : agb_data :=
  mkData (natoms d) (nheavyat d) (iheavyat d) (ialpha d) (salpha d)
    (idelta d) (sdelta d) (igamma d) (sgamma d) (surf_area d)
    (copy_prefix n (agbw_br d) (br d))
    (sp d) (dgbdr d) (dvwdr d) (decav d) (dehb d) (agb_ehb d) (volumep d)
    (agbw_br d) (agbw_sp d) (dgbdr_h d) (dvwdr_h d) (decav_h d)
    (agbw_dehb d) (other d).

(** The two sums written after [agbnp3_born_radii], from [agb->br];
    [rw = 1.4]. *)
Definition vdw_energy (n : nat) (d : agb_data) : R :=
  fold_left (fun acc iat =>
               acc + (nth iat (ialpha d) 0 * (1 / (nth iat (br d) 0 + 1.4)) ^ 3
                      + nth iat (idelta d) 0))
    (seq 0 n) 0.

Definition corr_vdw_energy (n : nat) (d : agb_data) : R :=
  fold_left (fun acc iat =>
               acc + (nth iat (salpha d) 0 * (1 / (nth iat (br d) 0 + 1.4)) ^ 3
                      + nth iat (sdelta d) 0))
    (seq 0 n) 0.

(** [*evdw] and [*ecorr_vdw] are written. *)
Definition write_vdw (n : nat) (out : energy_out) (d : agb_data)
  : energy_out :=
  mkOut (mol_volume out) (egb out) (vdw_energy n d) (corr_vdw_energy n d)
    (ecav out) (ecorr_cav out) (ehb out).

(** [egb_self *= tokcalmol; egb_pair *= tokcalmol;
    *egb = (egb_self + egb_pair);] with [tokcalmol = 332]. *)
Definition write_gb (out : energy_out) (egb_self egb_pair : R) : energy_out :=
  mkOut (mol_volume out) (egb_self * 332 + egb_pair * 332)
    (evdw out) (ecorr_vdw out) (ecav out) (ecorr_cav out) (ehb out).

(** The code after the parallel region on the success path: the
    derivatives, the scaled volume factors and the Born radii are copied
    to the arrays of [agb]. *)
Definition write_results (n nh : nat) (d : agb_data) : agb_data :=
  let sp1 := fill n (fun _ => 1) (sp d) in
  let sp2 :=
    fold_left (fun s iat => set_nth iat (nth iat (agbw_sp d) 0) s)
      (firstn nh (iheavyat d)) sp1 in
  mkData (natoms d) (nheavyat d) (iheavyat d) (ialpha d) (salpha d)
    (idelta d) (sdelta d) (igamma d) (sgamma d) (surf_area d)
    (copy_prefix n (agbw_br d) (br d))
    sp2
    (copy_prefix n (map (vscale 332) (dgbdr_h d)) (dgbdr d))
    (copy_prefix n (dvwdr_h d) (dvwdr d))
    (copy_prefix n (decav_h d) (decav d))
    (copy_prefix n (agbw_dehb d) (dehb d))
    (agb_ehb d) (volumep d)
    (agbw_br d) (agbw_sp d) (dgbdr_h d) (dvwdr_h d) (decav_h d)
    (agbw_dehb d) (other d).

(** [*ehb = agb->ehb;] *)
Definition write_ehb (out : energy_out) (d : agb_data) : energy_out :=
  mkOut (mol_volume out) (egb out) (evdw out) (ecorr_vdw out) (ecav out)
    (ecorr_cav out) (agb_ehb d).

(** [agbnp3_total_energy]: the return code, the seven locations and the
    data at the return.  [natoms] and [nheavyat] are read once, at the
    entry; the arrays are read where the function reads them (the
    addresses of the arrays it takes at its entry are those the stages
    write to). *)
Definition agbnp3_total_energy (out : energy_out) (d : agb_data)
  : retcode * energy_out * agb_data :=
  let n := natoms d in
  let nh := nheavyat d in
  then_stage (agbnp3_reset_buffers S) out d (fun d =>
  then_stage (agbnp3_reset_derivatives S) out d (fun d =>
  then_stage (agbnp3_neighbor_lists S) out d (fun d =>
  then_stage (agbnp3_self_volumes_rooti S) out d (fun d =>
  then_stage (agbnp3_scaling_factors S) out d (fun d =>
  let out := write_cavity nh out d in
  then_stage (agbnp3_inverse_born_radii_nolist_soa S) out d (fun d =>
  then_stage (agbnp3_born_radii S) out d (fun d =>
  let d := refresh_br n d in
  let out := write_vdw n out d in
  match agbnp3_gb_energy_nolist_ps S d with
  | (AGBNP_ERR, d, _) => (AGBNP_ERR, out, d)
  | (AGBNP_OK, d, (egb_self, egb_pair)) =>
  let out := write_gb out egb_self egb_pair in
  then_stage (agbnp3_gb_ders_constvp_nolist_ps S) out d (fun d =>
  then_stage (agbnp3_create_wsatoms S) out d (fun d =>
  then_stage (agbnp3_ws_free_volumes_scalev_ps S) out d (fun d =>
  then_stage (agbnp3_gb_deruv_nolist_ps S) out d (fun d =>
  then_stage (agbnp3_der_vp_rooti S) out d (fun d =>
  then_stage (agbnp3_cavity_dersgb_rooti S) out d (fun d =>
  (AGBNP_OK, write_ehb out d, write_results n nh d)))))))
  end))))))).

(** The stages alone, run in order until one fails. *)
Fixpoint run_stages (l : list (agb_data -> retcode * agb_data))
    (d : agb_data) : retcode * agb_data :=
  match l with
  | [] => (AGBNP_OK, d)
  | stage :: rest =>
      match stage d with
      | (AGBNP_OK, d') => run_stages rest d'
      | (AGBNP_ERR, d') => (AGBNP_ERR, d')
      end
  end.

(** The position in [l] of the first stage that fails, if one does. *)
Fixpoint failed_at (l : list (agb_data -> retcode * agb_data))
    (d : agb_data) : option nat :=
  match l with
  | [] => None
  | stage :: rest =>
      match stage d with
      | (AGBNP_OK, d') => option_map Datatypes.S (failed_at rest d')
      | (AGBNP_ERR, _) => Some 0%nat
      end
  end.

(** The fourteen stages in the order of the calls; the refresh of
    [agb->br] that follows [agbnp3_born_radii] is counted with it. *)
Definition stage_list (n : nat) : list (agb_data -> retcode * agb_data) :=
  [agbnp3_reset_buffers S; agbnp3_reset_derivatives S;
   agbnp3_neighbor_lists S; agbnp3_self_volumes_rooti S;
   agbnp3_scaling_factors S; agbnp3_inverse_born_radii_nolist_soa S;
   (fun d => match agbnp3_born_radii S d with
             | (AGBNP_OK, d') => (AGBNP_OK, refresh_br n d')
             | (AGBNP_ERR, d') => (AGBNP_ERR, d')
             end);
   (fun d => fst (agbnp3_gb_energy_nolist_ps S d));
   agbnp3_gb_ders_constvp_nolist_ps S; agbnp3_create_wsatoms S;
   agbnp3_ws_free_volumes_scalev_ps S; agbnp3_gb_deruv_nolist_ps S;
   agbnp3_der_vp_rooti S; agbnp3_cavity_dersgb_rooti S].

End EnergyDefs.
End TotalEnergy.
(** ** Sample inputs *)

Module Samples.
Import WaterSites.
#[local] Open Scope R_scope.

Definition sample_consts : AGBNPconsts :=
  mkConsts 2.5 1.4 2.227 2.5 0.01 0.1 1.2 4.

(** A heavy donor at the origin (atom 0) bonded to a polar hydrogen one unit
    away on the x axis (atom 1). *)
Definition donor_hydrogen : AGBNPdata :=
  mkAGBNPdata 2 1 [0%Z] [0; 1] [0; 0] [0; 0] [1.5; 1.2]
    [AGBNP_HB_INACTIVE; AGBNP_HB_POLARH] [0; 1]
    (Some (mkNeighList [1; 1]%Z [[1%Z]; [0%Z]]))
    [1; 0]%Z [1; 1] [1; 1].

Definition donor_hydrogen_conntbl : NeighList :=
  mkNeighList [1; 1]%Z [[1%Z]; [0%Z]].

(** A placement collaborator that puts every site at the origin. *)
Definition sample_placement : Placement :=
  mkPlacement
    (fun _ _ _ _ _ => (vzero, vzero, [], []))
    (fun _ _ _ _ _ => (vzero, vzero, [], []))
    (fun _ _ _ _ _ => (vzero, vzero, [], []))
    (fun _ _ _ _ => (vzero, []))
    (fun _ _ _ _ => (vzero, vzero, [], []))
    (fun _ _ _ _ _ => (vzero, []))
    (fun _ _ _ _ => (vzero, [])).

(** Two atoms with malformed topology: an isolated polar hydrogen (atom 0)
    and a trigonal out-of-plane atom with two bonded atoms (atom 1). *)
Definition malformed_conntbl : NeighList :=
  mkNeighList [0; 2]%Z [[]; [0%Z; 0%Z]].

Definition malformed : AGBNPdata :=
  mkAGBNPdata 2 1 [1%Z] [0; 1] [0; 0] [0; 0] [1.2; 1.5]
    [AGBNP_HB_POLARH; AGBNP_HB_TRIGONAL_OOP] [1; 1]
    (Some malformed_conntbl)
    [0; 1]%Z [1; 1] [1; 1].

(** Three heavy atoms on the x axis, at 0, 2 and 1, radius 1.5. *)
Definition three_atoms : AGBNPdata :=
  mkAGBNPdata 3 3 [0; 1; 2]%Z [0; 2; 1] [0; 0; 0] [0; 0; 0] [1.5; 1.5; 1.5]
    [AGBNP_HB_INACTIVE; AGBNP_HB_INACTIVE; AGBNP_HB_INACTIVE] [0; 0; 0]
    None [1; 1; 1]%Z [1; 1; 1] [1; 1; 1].

Definition empty_near_list : NeighborLists.near_list :=
  NeighborLists.mkNear [0; 0; 0]%Z [[]; []; []].

(** A water site near atom 0 of the three-atom sample, with that atom as
    its stored neighbour, and zeroed locals for the free-volume routine. *)
Definition sample_site : WSat :=
  mkWSat (1, 1, 0) 1.4 AGBNP_HB_POLARH 11.5 2 [0; 0; 0; 0]%Z 0
    [mzero; mzero; mzero; mzero] 1 0 0 0 1 1 [0%Z].

Definition sample_work : FreeVolume.ws_work :=
  FreeVolume.mkWork 0 [0; 0; 0; 0]%Z [0; 0; 0; 0]%Z
    [vzero; vzero; vzero; vzero] [0; 0; 0; 0] [0; 0; 0; 0] [0; 0; 0; 0]
    (repeat FreeVolume.GParm_zero 4) 0 0 vzero 0 0.

(** An evaluation of the malformed sample.  Atom 1 is the one heavy atom,
    with surface area 2, self volume 3 and cavity coefficients 1; the van
    der Waals coefficients are [alpha = 0] and [delta = 1]. *)
Definition sample_data : TotalEnergy.agb_data AGBNPdata :=
  TotalEnergy.mkData AGBNPdata 2 1 [1%nat]
    [0; 0] [0; 0] [1; 1] [1; 1] [1; 1] [1; 1] [2; 2]
    [1; 1] [1; 1] [vzero; vzero] [vzero; vzero] [vzero; vzero] [vzero; vzero]
    0 [3; 3] [1; 1] [1; 1]
    [vzero; vzero] [vzero; vzero] [vzero; vzero] [vzero; vzero]
    malformed.

(** Every stage succeeds and leaves the data alone, except water-site
    creation, which is the model of [agbnp3_create_wsatoms] above. *)
Definition sample_stages : TotalEnergy.stages AGBNPdata :=
  let ok := fun d : TotalEnergy.agb_data AGBNPdata => (AGBNP_OK, d) in
  TotalEnergy.mkStages AGBNPdata ok ok ok ok ok ok ok
    (fun d => (AGBNP_OK, d, (0, 0))) ok
    (fun d =>
       (fst (agbnp3_create_wsatoms sample_consts sample_placement
               (TotalEnergy.other _ d)), d))
    ok ok ok ok.

(** The seven locations as the caller has them before the call. *)
Definition sample_out : TotalEnergy.energy_out :=
  TotalEnergy.mkOut 7 7 7 7 7 7 7.

End Samples.
(** ** More switching functions and the simple two-body overlap *)

Module Filters.
Section FilterDefs.
#[local] Open Scope R_scope.

(** [agbnp3_swf_area]: the pair [(f, *fp)]. *)
Definition agbnp3_swf_area (x : R) : R * R :=
  let a2 := 5 * 5 in
  if Rlt_dec x 0 then (0, 0)
  else
    let x2 := x * x in
    let t := x / (a2 + x2) in
    let f := x * t in
    (f, (2 * t) * (1 - f)).

(** [agbnp3_ogauss_2body_smpl].  The C [pow(x, 1.5)] is [Rpower x 1.5]; the
    two agree for a positive [x] only. *)
Definition agbnp3_ogauss_2body_smpl (d2 p1 p2 c1 c2 : R) : R :=
  let deltai := 1 / (c1 + c2) in
  let p := p1 * p2 in
  let kappa := exp (- c1 * c2 * d2 * deltai) in
  p * kappa * Rpower (PI * deltai) 1.5.

End FilterDefs.
End Filters.

(** ** Small vector and matrix routines ([libagbnp3.c]) *)

Module Geometry.
Import WaterSites.
Section GeometryDefs.
#[local] Open Scope R_scope.

(** [v[i]] and [m[i][j]] for [i], [j] in 0, 1, 2. *)
Definition vget (v : vec3) (i : nat) : R :=
  match i with
  | O => vx v
  | S O => vy v
  | _ => vz v
  end.

Definition mrow (m : mat3) (i : nat) : vec3 :=
  match i with
  | O => fst (fst m)
  | S O => snd (fst m)
  | _ => snd m
  end.

Definition mget (m : mat3) (i j : nat) : R := vget (mrow m i) j.

(** The 3x3 block whose entry [i][j] is [f i j]. *)
Definition mbuild (f : nat -> nat -> R) : mat3 :=
  ((f 0 0, f 0 1, f 0 2)%nat,
   (f 1 0, f 1 1, f 1 2)%nat,
   (f 2 0, f 2 1, f 2 2)%nat).

Definition mneg (m : mat3) : mat3 := mbuild (fun i j => - mget m i j).

(** [agbnp3_mymax] *)
Definition agbnp3_mymax (a b : Z) : Z := if (a >? b)%Z then a else b.

(** [agbnp3_rtvec]: [y[i] = sum_j x[j]*rot[j][i]]. *)
Definition agbnp3_rtvec (rot : mat3) (x : vec3) : vec3 :=
  let y i := 0 + vget x 0 * mget rot 0 i + vget x 1 * mget rot 1 i
               + vget x 2 * mget rot 2 i in
  (y 0%nat, y 1%nat, y 2%nat).

(** [agbnp3_matmul]: [c[i][j] = sum_k a[i][k]*b[k][j]]. *)
Definition agbnp3_matmul (a b : mat3) : mat3 :=
  mbuild (fun i j =>
    0 + mget a i 0 * mget b 0 j + mget a i 1 * mget b 1 j
      + mget a i 2 * mget b 2 j).

(** [agbnp3_cross_product]: the product [c] and the blocks [dera], [derb]. *)
Definition agbnp3_cross_product (a b : vec3) : vec3 * mat3 * mat3 :=
  ((vy a * vz b - vz a * vy b,
    vz a * vx b - vx a * vz b,
    vx a * vy b - vy a * vx b),
   ((0, vz b, - vy b),
    (- vz b, 0, vx b),
    (vy b, - vx b, 0)),
   ((0, - vz a, vy a),
    (vz a, 0, - vx a),
    (- vy a, vx a, 0))).

(** [agbnp3_der_unitvector]: [der[i][j] = -invr*u[i]*u[j]], plus [invr] on
    the diagonal. *)
Definition agbnp3_der_unitvector (u : vec3) (invr : R) : mat3 :=
  let s := - invr in
  mbuild (fun i j =>
    if Nat.eqb i j then s * vget u i * vget u j + invr
    else s * vget u i * vget u j).

(** The unit vector of a bond and the inverse of its length, as the
    placement routines compute them:
    [idist = 1./sqrt(dx*dx+dy*dy+dz*dz); d[i] = idist*dx[i]]. *)
Definition bond_unit (xfrom xto : vec3) : vec3 * R :=
  let dx := vx xto - vx xfrom in
  let dy := vy xto - vy xfrom in
  let dz := vz xto - vz xfrom in
  let idist := 1 / sqrt (dx * dx + dy * dy + dz * dz) in
  ((idist * dx, idist * dy, idist * dz), idist).

(** [dw[i] *= idistw] with [idistw = 1./sqrt(dw.dw)]. *)
Definition normalize (dw : vec3) : vec3 * R :=
  let idistw := 1 / sqrt (vx dw * vx dw + vy dw * vy dw + vz dw * vz dw) in
  ((vx dw * idistw, vy dw * idistw, vz dw * idistw), idistw).

(** [agbnp3_place_wat_trigonal1]: the two sites and their four derivative
    blocks each (acceptor, R, R1, R2). *)
Definition agbnp3_place_wat_trigonal1 (xa xr xr1 xr2 : vec3) (d : R)
  : vec3 * vec3 * list mat3 * list mat3 :=
  let site (xrk : vec3) :=
    let dx := (vx xrk - vx xr, vy xrk - vy xr, vz xrk - vz xr) in
    let di := 1 / sqrt (vx dx * vx dx + vy dx * vy dx + vz dx * vz dx) in
    let w := - d * di in
    let xw := (vx xa + w * vx dx, vy xa + w * vy dx, vz xa + w * vz dx) in
    (* unit vector *)
    let u := (vx dx * di, vy dx * di, vz dx * di) in
    let derR := mbuild (fun i j =>
      if Nat.eqb i j then - w + w * vget u i * vget u j
      else 0 + w * vget u i * vget u j) in
    (xw, derR) in
  let '(xw1, derR1) := site xr1 in
  let '(xw2, derR2) := site xr2 in
  (xw1, xw2,
   [mident; derR1; mneg derR1; mzero],
   [mident; derR2; mzero; mneg derR2]).

(** [agbnp3_place_wat_trigonal2]: the site and its three derivative blocks
    (acceptor, R1, R2). *)
Definition agbnp3_place_wat_trigonal2 (xa xr1 xr2 : vec3) (d : R)
  : vec3 * list mat3 :=
  let '(d1, idist1) := bond_unit xa xr1 in
  let '(d2, idist2) := bond_unit xa xr2 in
  (* water site along the negative of the sum of the bond vectors *)
  let '(dw, idistw) :=
    normalize (vx d1 + vx d2, vy d1 + vy d2, vz d1 + vz d2) in
  let xw := (vx xa - d * vx dw, vy xa - d * vy dw, vz xa - d * vz dw) in
  let drprp := agbnp3_der_unitvector dw idistw in
  let dr1r1 := agbnp3_der_unitvector d1 idist1 in
  let dr2r2 := agbnp3_der_unitvector d2 idist2 in
  let drp1 := agbnp3_matmul drprp dr1r1 in
  let drp2 := agbnp3_matmul drprp dr2r2 in
  let w := - d in
  (xw,
   [mbuild (fun i j =>
      if Nat.eqb i j
      then - (w * mget drp1 i j + w * mget drp2 i j) + 1
      else - (w * mget drp1 i j + w * mget drp2 i j));
    mbuild (fun i j => w * mget drp1 i j);
    mbuild (fun i j => w * mget drp2 i j)]).

(** [agbnp3_place_wat_tetrahedral3]: the site and its four derivative
    blocks (acceptor, R1, R2, R3). *)
Definition agbnp3_place_wat_tetrahedral3 (xa xr1 xr2 xr3 : vec3) (d : R)
  : vec3 * list mat3 :=
  let '(d1, idist1) := bond_unit xa xr1 in
  let '(d2, idist2) := bond_unit xa xr2 in
  let '(d3, idist3) := bond_unit xa xr3 in
  let '(dw, idistw) :=
    normalize (vx d1 + vx d2 + vx d3, vy d1 + vy d2 + vy d3,
               vz d1 + vz d2 + vz d3) in
  let xw := (vx xa - d * vx dw, vy xa - d * vy dw, vz xa - d * vz dw) in
  let drprp := agbnp3_der_unitvector dw idistw in
  let drp1 := agbnp3_matmul drprp (agbnp3_der_unitvector d1 idist1) in
  let drp2 := agbnp3_matmul drprp (agbnp3_der_unitvector d2 idist2) in
  let drp3 := agbnp3_matmul drprp (agbnp3_der_unitvector d3 idist3) in
  let w := - d in
  let w1 i j := w * mget drp1 i j in
  let w2 i j := w * mget drp2 i j in
  let w3 i j := w * mget drp3 i j in
  (xw,
   [mbuild (fun i j =>
      if Nat.eqb i j then - (w1 i j + w2 i j + w3 i j) + 1
      else - (w1 i j + w2 i j + w3 i j));
    mbuild w1; mbuild w2; mbuild w3]).

(** [agbnp3_place_wat_tetrahedral1_one]: the site and the blocks [der[0]],
    [der[1]], [der[2]]; [der[3]] is not written and keeps [der3]. *)
Definition agbnp3_place_wat_tetrahedral1_one (xa xr xr1 : vec3) (d : R)
    (der3 : mat3) : vec3 * list mat3 :=
  let rs1 := (vx xr1 - vx xr, vy xr1 - vy xr, vz xr1 - vz xr) in
  let rsn1 :=
    sqrt (0 + vx rs1 * vx rs1 + vy rs1 * vy rs1 + vz rs1 * vz rs1) in
  let rsu1 := (vx rs1 / rsn1, vy rs1 / rsn1, vz rs1 / rsn1) in
  (* center on oxygen *)
  let xw := (vx xa - d * vx rsu1, vy xa - d * vy rsu1, vz xa - d * vz rsu1) in
  let u := - d / rsn1 in
  let der1 := mbuild (fun i j =>
    if Nat.eqb i j then u * vget rsu1 i * vget rsu1 j - u
    else u * vget rsu1 i * vget rsu1 j) in
  (xw, [mident; der1; mneg der1; der3]).

(** The sum of a list of blocks. *)
Definition msum (l : list mat3) : mat3 := fold_right madd mzero l.

End GeometryDefs.
End Geometry.

(** ** Size of the hash table ([agbnp3_two2n_size]) *)

Module HashSize.
Import HTable.

(** [while(s<l) s = (s<<1);] on [unsigned int]. *)
Fixpoint two2n_loop (fuel : nat) (s l : Z) : option Z :=
  match fuel with
  | O => None
  | S f => if s <? l then two2n_loop f (u32 (Z.shiftl s 1)) l else Some s
  end.

(** [agbnp3_two2n_size]; [m] is the [unsigned int] argument. *)
Definition agbnp3_two2n_size (fuel : nat) (m : Z) : option Z :=
  let s := 1 in
  let l := u32 (2 * m) in
  if m <=? 0 then Some 0 else two2n_loop fuel s l.

(** The number of occupied slots of a key array. *)
Definition occupied (keys : list Z) : nat :=
  length (filter (fun v => 0 <=? v) keys).

(** [agbnp3_h_find] returns a slot that holds the key. *)
Definition found (fuel : nat) (ht : HTable) (q : Z) : Prop :=
  exists k, agbnp3_h_find fuel ht q = Some k /\ 0 <= k /\
            key_at ht k = Some q.

(** A key as the cache makes them: a non-negative [int]. *)
Definition in_range (w : Z) : Prop := 0 <= w < 2 ^ 31.

End HashSize.

(** ** Spline coefficients ([agbnp3_cspline_setup]) *)

Module SplineSetup.
Section SplineSetupDefs.
#[local] Open Scope R_scope.

(** The first loop, [for(i = 1; i < n-1; i++)], after [rounds] rounds;
    the state is the pair of arrays [(y2, u)]. *)
Fixpoint setup_forward (rounds : nat) (dx : R) (y : list R)
    (st : list R * list R) : list R * list R :=
  match rounds with
  | O => st
  | S r =>
      let '(y2, u) := setup_forward r dx y st in
      let i := S r in
      let sig := 0.5 in
      let p := sig * nth (i - 1) y2 0 + 2 in
      let y2 := set_nth i ((sig - 1) / p) y2 in
      let u :=
        set_nth i ((nth (i + 1) y 0 - nth i y 0) / dx
                   - (nth i y 0 - nth (i - 1) y 0) / dx) u in
      let u :=
        set_nth i ((6 * nth i u 0 / (2 * dx) - sig * nth (i - 1) u 0) / p) u in
      (y2, u)
  end.

(** The last loop, [for(k = n-2; k >= 0; k--)], started at
    [k = rounds - 1]. *)
Fixpoint setup_back (rounds : nat) (u y2 : list R) : list R :=
  match rounds with
  | O => y2
  | S k =>
      setup_back k u
        (set_nth k (nth k y2 0 * nth (k + 1) y2 0 + nth k u 0) y2)
  end.

(** [agbnp3_cspline_setup]: the array [y2] on return.  [y2] and [u] are
    the arrays as they are on entry and after [malloc]; a table of fewer
    than two nodes makes the routine read outside its arrays and is not
    modelled. *)
Definition agbnp3_cspline_setup (dx : R) (n : Z) (y : list R) (yp1 ypn : R)
    (y2 u : list R) : list R :=
  let nn := Z.to_nat n in
  let '(y2, u) :=
    if Rgt_dec yp1 0.99e30 then (set_nth 0 0 y2, set_nth 0 0 u)
    else (set_nth 0 (-0.5) y2,
          set_nth 0 ((3 / dx) * ((nth 1 y 0 - nth 0 y 0) / dx - yp1)) u) in
  let '(y2, u) := setup_forward (nn - 2) dx y (y2, u) in
  let '(qn, un) :=
    if Rgt_dec ypn 0.99e30 then (0, 0)
    else (0.5,
          (3 / dx) * (ypn - (nth (nn - 1) y 0 - nth (nn - 2) y 0) / (2 * dx)))
  in
  let y2 :=
    set_nth (nn - 1)
      ((un - qn * nth (nn - 2) u 0) / (qn * nth (nn - 2) y2 0 + 1)) y2 in
  setup_back (nn - 1) u y2.

(** The cubic of the interval that starts at node [k], evaluated at [x]:
    the value and slope [agbnp3_cspline_interpolate_soa] computes for an
    entry with [kv = k], and [agbnp3_cspline_interpolate] for an [x] whose
    index is [k]. *)
Definition piece (dx : R) (y y2 : list R) (k : nat) (x : R) : R * R :=
  Spline.cspline_soa1 dx
    (Spline.mkRow (INR k) (x * (1 / dx))
       (nth (k + 1) y 0) (nth k y 0) (nth (k + 1) y2 0) (nth k y2 0)).

End SplineSetupDefs.
End SplineSetup.

(** ** The placement routines built on the cross product *)

Module Placements.
Import WaterSites Geometry.
Section PlacementDefs.
#[local] Open Scope R_scope.

(** The product alone, for the calls that pass NULL for both blocks. *)
Definition cross (a b : vec3) : vec3 := fst (fst (agbnp3_cross_product a b)).

(** [for(i=0;i<3;i++) agbnp3_cross_product(f(i), ..., drt[i], NULL, NULL)]:
    the block whose row [i] is [rowf i]. *)
Definition mrows (rowf : nat -> vec3) : mat3 :=
  (rowf 0%nat, rowf 1%nat, rowf 2%nat).

(** [agbnp3_place_wat_trigonal_s]: the two sites and their four derivative
    blocks each.  The position of R2 is not read. *)
Definition agbnp3_place_wat_trigonal_s (xa xr xr1 xr2 : vec3) (d : R)
  : vec3 * vec3 * list mat3 * list mat3 :=
  let costh := 0.5 in
  let sinth := 0.866025 in
  let dx0 := (vx xa - vx xr, vy xa - vy xr, vz xa - vz xr) in
  let dx1 := (vx xr1 - vx xr, vy xr1 - vy xr, vz xr1 - vz xr) in
  (* in plane direction given by ar *)
  let d0i := 1 / sqrt (vx dx0 * vx dx0 + vy dx0 * vy dx0 + vz dx0 * vz dx0) in
  let uin := (vx dx0 * d0i, vy dx0 * d0i, vz dx0 * d0i) in
  (* out of plane given by (r1r x ar) *)
  let c := cross dx1 dx0 in
  let d2i := 1 / sqrt (vx c * vx c + vy c * vy c + vz c * vz c) in
  let uout := (vx c * d2i, vy c * d2i, vz c * d2i) in
  let xw1 := (vx xa + d * (costh * vx uin + sinth * vx uout),
              vy xa + d * (costh * vy uin + sinth * vy uout),
              vz xa + d * (costh * vz uin + sinth * vz uout)) in
  let xw2 := (vx xa + d * (costh * vx uin - sinth * vx uout),
              vy xa + d * (costh * vy uin - sinth * vy uout),
              vz xa + d * (costh * vz uin - sinth * vz uout)) in
  (* gradient from uin *)
  let drin := agbnp3_der_unitvector uin d0i in
  let wc := d * costh in
  (* gradient from uout *)
  let drout := agbnp3_der_unitvector uout d2i in
  let drt1 := mrows (fun i => cross dx1 (mrow drout i)) in
  let drt2 := mrows (fun i => cross dx0 (mrow drout i)) in
  let ws := d * sinth in
  let w1 i j := - ws * mget drt1 i j in
  let w2 i j := ws * mget drt2 i j in
  let diag (i j : nat) (v : R) := if Nat.eqb i j then v + 1 else v in
  (xw1, xw2,
   [mbuild (fun i j => diag i j (wc * mget drin i j + w1 i j));
    mbuild (fun i j => - (wc * mget drin i j) - (w1 i j + w2 i j));
    mbuild (fun i j => 0 + w2 i j);
    mzero],
   [mbuild (fun i j => diag i j (wc * mget drin i j - w1 i j));
    mbuild (fun i j => - (wc * mget drin i j) + (w1 i j + w2 i j));
    mbuild (fun i j => 0 - w2 i j);
    mzero]).

(** [agbnp3_place_wat_trigonal_oop]: the two sites, above and below the
    plane of the three neighbours, and their four derivative blocks
    (acceptor, R1, R2, R3). *)
Definition agbnp3_place_wat_trigonal_oop (xa xr1 xr2 xr3 : vec3) (d1 : R)
  : vec3 * vec3 * list mat3 * list mat3 :=
  let d := d1 + 0.2 in
  (* displacements relative to x1 *)
  let v1 := (vx xr2 - vx xr1, vy xr2 - vy xr1, vz xr2 - vz xr1) in
  let v2 := (vx xr3 - vx xr1, vy xr3 - vy xr1, vz xr3 - vz xr1) in
  (* unit vector normal to 1,2,3 plane *)
  let '(nu0, dernu2, dernu1) := agbnp3_cross_product v2 v1 in
  let nun := sqrt (vx nu0 * vx nu0 + vy nu0 * vy nu0 + vz nu0 * vz nu0) in
  let nu := (vx nu0 / nun, vy nu0 / nun, vz nu0 / nun) in
  let xw1 := (vx xa + d * vx nu, vy xa + d * vy nu, vz xa + d * vz nu) in
  let xw2 := (vx xa - d * vx nu, vy xa - d * vy nu, vz xa - d * vz nu) in
  (* I - nu x nu *)
  let nu_outer := mbuild (fun i j =>
    (if Nat.eqb i j then 1 else 0) - vget nu i * vget nu j) in
  let dn := d / nun in
  let derxv1 := agbnp3_matmul nu_outer dernu1 in
  let derxv2 := agbnp3_matmul nu_outer dernu2 in
  let a2 := mbuild (fun i j => dn * mget derxv1 i j) in
  let b2 := mbuild (fun i j => - dn * mget derxv1 i j) in
  let a3 := mbuild (fun i j => dn * mget derxv2 i j) in
  let b3 := mbuild (fun i j => - dn * mget derxv2 i j) in
  (xw1, xw2,
   [mident; mbuild (fun i j => - (mget a2 i j + mget a3 i j)); a2; a3],
   [mident; mbuild (fun i j => - (mget b2 i j + mget b3 i j)); b2; b3]).

(** [agbnp3_place_wat_tetrahedral2]: the two lone-pair sites and their
    three derivative blocks each (acceptor, R1, R2). *)
Definition agbnp3_place_wat_tetrahedral2 (xa xr1 xr2 : vec3) (d : R)
  : vec3 * vec3 * list mat3 * list mat3 :=
  let costh := - 0.577350269 in
  let sinth := 0.816496581 in
  (* unit vectors of bonds *)
  let r1 := (vx xr1 - vx xa, vy xr1 - vy xa, vz xr1 - vz xa) in
  let dist1 := 1 / sqrt (vx r1 * vx r1 + vy r1 * vy r1 + vz r1 * vz r1) in
  let d1 := (dist1 * vx r1, dist1 * vy r1, dist1 * vz r1) in
  let r2 := (vx xr2 - vx xa, vy xr2 - vy xa, vz xr2 - vz xa) in
  let dist2 := 1 / sqrt (vx r2 * vx r2 + vy r2 * vy r2 + vz r2 * vz r2) in
  let d2 := (dist2 * vx r2, dist2 * vy r2, dist2 * vz r2) in
  (* in plane direction (sum of bond unit vectors) *)
  let s := (vx d1 + vx d2, vy d1 + vy d2, vz d1 + vz d2) in
  let distin := 1 / sqrt (vx s * vx s + vy s * vy s + vz s * vz s) in
  let dpin := (distin * vx s, distin * vy s, distin * vz s) in
  (* out of plane projection (cross product between bond vectors) *)
  let o := (vy r2 * vz r1 - vz r2 * vy r1,
            vz r2 * vx r1 - vx r2 * vz r1,
            vx r2 * vy r1 - vy r2 * vx r1) in
  let distout := 1 / sqrt (vx o * vx o + vy o * vy o + vz o * vz o) in
  let dout := (distout * vx o, distout * vy o, distout * vz o) in
  (* first and second LP position *)
  let u1 := (costh * vx dpin + sinth * vx dout,
             costh * vy dpin + sinth * vy dout,
             costh * vz dpin + sinth * vz dout) in
  let xw1 := (vx xa + d * vx u1, vy xa + d * vy u1, vz xa + d * vz u1) in
  let u2 := (costh * vx dpin - sinth * vx dout,
             costh * vy dpin - sinth * vy dout,
             costh * vz dpin - sinth * vz dout) in
  let xw2 := (vx xa + d * vx u2, vy xa + d * vy u2, vz xa + d * vz u2) in
  let drprp := agbnp3_der_unitvector dpin distin in
  let drp1 := agbnp3_matmul drprp (agbnp3_der_unitvector d1 dist1) in
  let drp2 := agbnp3_matmul drprp (agbnp3_der_unitvector d2 dist2) in
  let wc := d * costh in
  let c1 i j := wc * mget drp1 i j in
  let c2 i j := wc * mget drp2 i j in
  let drtrt := agbnp3_der_unitvector dout distout in
  let drt1 := mrows (fun i => cross (mrow drtrt i) r2) in
  let drt2 := mrows (fun i => cross r1 (mrow drtrt i)) in
  let ws := d * sinth in
  let s1 i j := ws * mget drt1 i j in
  let s2 i j := ws * mget drt2 i j in
  let diag (i j : nat) (v : R) := if Nat.eqb i j then v + 1 else v in
  (xw1, xw2,
   [mbuild (fun i j => diag i j (- (c1 i j + c2 i j) - (s1 i j + s2 i j)));
    mbuild (fun i j => c1 i j + s1 i j);
    mbuild (fun i j => c2 i j + s2 i j)],
   [mbuild (fun i j => diag i j (- (c1 i j + c2 i j) + (s1 i j + s2 i j)));
    mbuild (fun i j => c1 i j - s1 i j);
    mbuild (fun i j => c2 i j - s2 i j)]).

(** The placement routines of the source, as the creation routines use
    them.  [der3] is the content of the block [der[3]] of the local array
    of [agbnp3_create_ws_atoms_tetrahedral1], which
    [agbnp3_place_wat_tetrahedral1_one] does not write. *)
Definition source_placement (der3 : mat3) : Placement :=
  mkPlacement
    agbnp3_place_wat_trigonal1
    agbnp3_place_wat_trigonal_s
    agbnp3_place_wat_trigonal_oop
    agbnp3_place_wat_trigonal2
    agbnp3_place_wat_tetrahedral2
    agbnp3_place_wat_tetrahedral3
    (fun xa xr xr1 d => agbnp3_place_wat_tetrahedral1_one xa xr xr1 d der3).

End PlacementDefs.
End Placements.

(** ** Translation invariance of a water site *)

Module SiteInvariance.
Import WaterSites Geometry Placements.
#[local] Open Scope R_scope.

(** The derivative blocks of a site with respect to its parents sum to the
    identity: moving all the parents by one vector moves the site by that
    vector. *)
Definition translation_invariant (w : WSat) : Prop :=
  msum (firstn (Z.to_nat (nparents w)) (dpos w)) = mident.

(** Every site a creation routine reports is translation invariant. *)
Definition sites_invariant (res : created) : Prop :=
  fst (fst res) = AGBNP_OK ->
  forall k, (k < Z.to_nat (snd (fst res)))%nat ->
  translation_invariant (nth k (snd res) WSat_zero).

(** The atoms [agbnp3_create_ws_atoms_trigonal1] and
    [agbnp3_create_ws_atoms_trigonal_s] pick around the central atom [ir]
    of [iat], and the conditions under which no placement routine they
    call divides by zero: R is away from R1 and from R2, and for the
    second routine also from the acceptor, which is off the line through R
    and R1. *)
Definition central_defined (agb : AGBNPdata) (c : NeighList) (iat : Z)
    (with_s : bool) : Prop :=
  let ir := zd (neighl_at c iat) 0 in
  forall ir1 ir2,
    scan_r1 c ir iat = Some ir1 -> scan_r2 c ir iat ir1 = Some ir2 ->
    xyz agb ir <> xyz agb ir1 /\ xyz agb ir <> xyz agb ir2 /\
    (with_s = true ->
     xyz agb ir <> xyz agb iat /\
     0 < vnorm2 (cross (vsub (xyz agb ir1) (xyz agb ir))
                       (vsub (xyz agb iat) (xyz agb ir)))).

(** The geometry around atom [iat] is not degenerate: the positions
    [agbnp3_create_ws_ofatom] hands to the placement routine of the class
    of [iat] keep every divisor of that routine away from zero (bonded
    atoms do not coincide, bonds that are averaged do not cancel, atoms
    that span a plane are not on one line).  Where this fails the C code
    divides by zero and the sites are infinities or NaN. *)
Definition placements_defined (agb : AGBNPdata) (c : NeighList) (iat : Z)
  : Prop :=
  let xa := xyz agb iat in
  let nb (k : Z) := xyz agb (zd (neighl_at c iat) k) in
  let unit (k : Z) := fst (bond_unit xa (nb k)) in
  match nth (Z.to_nat iat) (hbtype_ agb) AGBNP_HB_INACTIVE with
  | AGBNP_HB_POLARH =>
      forall jat,
        find (fun j => negb (zd (isheavy agb) j =? 0)%Z)
          (firstn (Z.to_nat (nne_at c iat)) (neighl_at c iat)) = Some jat ->
        xyz agb jat <> xa
  | AGBNP_HB_TRIGONAL =>
      if (nne_at c iat =? 1)%Z then central_defined agb c iat false
      else if (nne_at c iat =? 2)%Z then
        xa <> nb 0%Z /\ xa <> nb 1%Z /\
        0 < vnorm2 (vadd (unit 0%Z) (unit 1%Z))
      else True
  | AGBNP_HB_TRIGONAL_S => central_defined agb c iat true
  | AGBNP_HB_TRIGONAL_OOP =>
      0 < vnorm2 (cross (vsub (nb 2%Z) (nb 0%Z)) (vsub (nb 1%Z) (nb 0%Z)))
  | AGBNP_HB_TETRAHEDRAL =>
      if (nne_at c iat =? 2)%Z then
        0 < vnorm2 (vadd (unit 0%Z) (unit 1%Z)) /\
        0 < vnorm2 (cross (vsub (nb 1%Z) xa) (vsub (nb 0%Z) xa))
      else if (nne_at c iat =? 3)%Z then
        xa <> nb 0%Z /\ xa <> nb 1%Z /\ xa <> nb 2%Z /\
        0 < vnorm2 (vadd (vadd (unit 0%Z) (unit 1%Z)) (unit 2%Z))
      else if (nne_at c iat =? 1)%Z then
        let ir := zd (neighl_at c iat) 0 in
        forall j, In j (map (fun i => zd (neighl_at c ir) i) [0; 1; 2; 3]%Z) ->
                  j <> iat -> xyz agb ir <> xyz agb j
      else True
  | _ => True
  end.

End SiteInvariance.

(** ** Water-site correction energy ([agbnp3_ws_correction]) *)

Module Correction.
Import WaterSites.
Section CorrectionDefs.
#[local] Open Scope R_scope.

(** [AGBNP_HB_SWA] and [AGBNP_HB_SWB] of [agbnp3_private.h], which is not
    among the sources. *)
Variable AGBNP_HB_SWA : R.
Variable AGBNP_HB_SWB : R.

(** [wsat->dhw = v] *)
Definition set_dhw (w : WSat) (v : R) : WSat :=
  mkWSat (pos w) (ws_r w) (type w) (volume w) (nparents w) (parent w)
    (iseq w) (dpos w) (khb w) (free_volume w) (sp w) v
    (nneigh w) (nlist_size w) (nlist w).

(** The body of the loop for one site: the site with its [dhw], and the
    term added to [ce_h]. *)
Definition ws_correction_site (w : WSat) : WSat * R :=
  let xa := AGBNP_HB_SWA in
  let xb := AGBNP_HB_SWB in
  let '(s, fp, _) := agbnp3_pol_switchfunc (sp w) xa xb in
  (set_dhw w (khb w * fp / volume w), khb w * s).

(** [for(iws=0;iws<agbw->nwsat;iws++)] over the sites [ws], with [ce_h] as
    it is on entry. *)
Fixpoint ws_correction_loop (ws : list WSat) (ce_h : R) : list WSat * R :=
  match ws with
  | [] => ([], ce_h)
  | w :: rest =>
      let '(w', e) := ws_correction_site w in
      let '(rest', ce) := ws_correction_loop rest (ce_h + e) in
      (w' :: rest', ce)
  end.

(** [agbnp3_ws_correction]: the return code, the sites and [*ce].  The
    verbose printout changes nothing and is left out. *)
Definition agbnp3_ws_correction (nwsat : Z) (wsat : list WSat)
  : retcode * list WSat * R :=
  let '(ws, ce_h) := ws_correction_loop (firstn (Z.to_nat nwsat) wsat) 0 in
  (AGBNP_OK, ws ++ skipn (Z.to_nat nwsat) wsat, ce_h).

(** The sum of the negative, and of the positive, coefficients [khb]. *)
Definition khb_neg (ws : list WSat) : R :=
  fold_right (fun w acc => Rmin (khb w) 0 + acc) 0 ws.
Definition khb_pos (ws : list WSat) : R :=
  fold_right (fun w acc => Rmax (khb w) 0 + acc) 0 ws.
Definition khb_sum (ws : list WSat) : R :=
  fold_right (fun w acc => khb w + acc) 0 ws.

End CorrectionDefs.
End Correction.

(** ** Volume scaling factors ([agbnp3_scaling_factors]) *)

Module Scaling.
Import WaterSites Filters.
Section ScalingDefs.
#[local] Open Scope R_scope.

(** [AGBNP_RADIUS_INCREMENT] of [agbnp3_private.h]. *)
Variable AGBNP_RADIUS_INCREMENT : R.

(** The arrays the routine reads and writes: [agb->surf_area] and, of the
    work data, [surf_area], [surf_area_f], [gamma], [gammap], [volumep],
    [vols], [sp], [spe] and [psvol]. *)
Record sf_arrays : Type := mkSf {
  agb_surf_area : list R;
  surf_area : list R;
  surf_area_f : list R;
  gamma : list R;
  gammap : list R;
  volumep : list R;
  vols : list R;
  sp_ : list R;
  spe : list R;
  psvol : list R
}.

(** [pr = r[iat]*(1. - pow(rvdw/r[iat],3))/3.] with [rvdw = r[iat] - Rw]. *)
Definition subtended (riat : R) : R :=
  let rvdw := riat - AGBNP_RADIUS_INCREMENT in
  riat * (1 - (rvdw / riat) ^ 3) / 3.

(** [agbnp3_scaling_factors] in the default build, where [agbw_h] is
    [agbw]. *)
Definition agbnp3_scaling_factors (natoms nheavyat : Z) (r : list R)
    (a : sf_arrays) : retcode * sf_arrays :=
  let n := Z.to_nat natoms in
  let nh := Z.to_nat nheavyat in
  let at_ (l : list R) (i : nat) := nth i l 0 in
  (* filters surface areas to avoid negative surface areas *)
  let area0 := fill n (fun _ => 0) (agb_surf_area a) in
  let areaf0 := fill n (fun _ => 0) (surf_area_f a) in
  let area1 :=
    fill nh (fun i =>
      at_ (surf_area a) i * fst (agbnp3_swf_area (at_ (surf_area a) i)))
      area0 in
  let areaf1 := fill nh (fun i => at_ area1 i) areaf0 in
  let gammap1 :=
    fill nh (fun i =>
      let ar := at_ (surf_area a) i in
      at_ (gamma a) i
      * (fst (agbnp3_swf_area ar) + ar * snd (agbnp3_swf_area ar)))
      (gammap a) in
  (* scaled volume factors for enlarged atomic radii *)
  let spe1 :=
    fill nh (fun i => at_ (volumep a) i / at_ (vols a) i) (spe a) in
  (* subtract volume subtended by surface area *)
  let psvol1 :=
    fill nh (fun i =>
      let ar := at_ (surf_area a) i in
      (snd (agbnp3_swf_area ar) * ar + fst (agbnp3_swf_area ar))
      * subtended (at_ r i)) (psvol a) in
  let volumep1 :=
    fill nh (fun i =>
      at_ (volumep a) i - at_ areaf1 i * subtended (at_ r i)) (volumep a) in
  (* scaled volume factors *)
  let sp1 := fill nh (fun i => at_ volumep1 i / at_ (vols a) i) (sp_ a) in
  (AGBNP_OK,
   mkSf area1 (surf_area a) areaf1 (gamma a) gammap1 volumep1 (vols a)
     sp1 spe1 psvol1).

End ScalingDefs.
End Scaling.

(** ** The radius types of the lookup tables ([agbnp3_list_radius_types]) *)

Module RadiusTypes.
Import WaterSites.
Section RadiusDefs.
#[local] Open Scope R_scope.

(** [fabs(riat-radius[i]) < FLT_MIN] *)
Definition same_radius (riat ri : R) : bool :=
  if Rlt_dec (Rabs (riat - ri)) FLT_MIN then true else false.

(** The search [for(i=0;i<ntypes;i++)] through the radii found so far. *)
Definition radius_found (riat : R) (radius : list R) : bool :=
  existsb (same_radius riat) radius.

(** One round of the loop over the atoms; [radius] is the filled part of
    the array, [radius[0 .. ntypes-1]]. *)
Definition radius_step (radius : list R) (riat : R) : list R :=
  if radius_found riat radius then radius else radius ++ [riat].

(** [agbnp3_list_radius_types]: [ntypes] and the filled part of the array
    it hands over in [*radii] (the rest of the [natoms] entries is
    whatever [malloc] left there). *)
Definition agbnp3_list_radius_types (natoms : Z) (r : list R)
  : Z * list R :=
  let radius := fold_left radius_step (map (rd r) (atom_range natoms)) [] in
  (Z.of_nat (length radius), radius).

End RadiusDefs.
End RadiusTypes.

(** ** Hydrogens last ([agbnp3_atom_reorder]) *)

Module Reorder.
Import WaterSites.

(** [for(i = 0; i < nhydrogen; i++) ishydrogen[ihydrogen[i]] = 1;] on the
    array [calloc] returned. *)
Definition mark_hydrogens (natoms nhydrogen : Z) (ihydrogen : list Z)
  : list Z :=
  fold_left (fun ish ih => set_nth (Z.to_nat ih) 1 ish)
    (firstn (Z.to_nat nhydrogen) ihydrogen)
    (repeat 0 (Z.to_nat natoms)).

(** The arrays and counters of the last loop. *)
Record reorder_state : Type := mkReorder {
  int2ext : list Z;
  ext2int : list Z;
  nc : Z;
  nh : Z
}.

(** One round of the last loop. *)
Definition reorder_step (nheavy : Z) (ishydrogen : list Z)
    (st : reorder_state) (i : Z) : reorder_state :=
  if negb (zd ishydrogen i =? 0) then
    mkReorder (set_nth (Z.to_nat (nheavy + nh st)) i (int2ext st))
      (set_nth (Z.to_nat i) (nheavy + nh st) (ext2int st))
      (nc st) (nh st + 1)
  else
    mkReorder (set_nth (Z.to_nat (nc st)) i (int2ext st))
      (set_nth (Z.to_nat i) (nc st) (ext2int st))
      (nc st + 1) (nh st).

(** [agbnp3_atom_reorder]: the return code and the arrays [int2ext] and
    [ext2int].  An index outside an array is not modelled: the write is
    dropped. *)
Definition agbnp3_atom_reorder (natoms nhydrogen : Z) (ihydrogen : list Z)
    (int2ext0 ext2int0 : list Z) : retcode * list Z * list Z :=
  let ishydrogen := mark_hydrogens natoms nhydrogen ihydrogen in
  let nheavy := natoms - nhydrogen in
  let ident (l : list Z) := fill (Z.to_nat natoms) Z.of_nat l in
  let st :=
    fold_left (reorder_step nheavy ishydrogen) (atom_range natoms)
      (mkReorder (ident int2ext0) (ident ext2int0) 0 0) in
  (AGBNP_OK, int2ext st, ext2int st).

(** Atom [j] is marked as a hydrogen; the number of marked and of unmarked
    atoms below [m]. *)
Definition isH (ishydrogen : list Z) (j : nat) : bool :=
  negb (zd ishydrogen (Z.of_nat j) =? 0).
Definition count_h (ishydrogen : list Z) (m : nat) : nat :=
  length (filter (isH ishydrogen) (seq 0 m)).
Definition count_c (ishydrogen : list Z) (m : nat) : nat :=
  length (filter (fun j => negb (isH ishydrogen j)) (seq 0 m)).

(** The state of the last loop after [m] rounds: the counters count the
    atoms seen, and every atom seen has its internal index, in the heavy
    or in the hydrogen range, with [int2ext] pointing back at it. *)
Definition reorder_inv (n : nat) (nheavy : Z) (ishydrogen : list Z)
    (m : nat) (st : reorder_state) : Prop :=
  length (int2ext st) = n /\ length (ext2int st) = n /\
  nc st = Z.of_nat (count_c ishydrogen m) /\
  nh st = Z.of_nat (count_h ishydrogen m) /\
  forall j, (j < m)%nat ->
    let e := nth j (ext2int st) 0 in
    (if isH ishydrogen j then nheavy <= e < nheavy + nh st
     else 0 <= e < nc st) /\
    nth (Z.to_nat e) (int2ext st) 0 = Z.of_nat j.

End Reorder.

(** ** The copy loops of [agbnp3_ener] *)

Module EnerCopy.
Import WaterSites.

(** [for(iat=0; iat < agb->natoms; iat++) agb->x[iat] = x[int2ext[iat]];]
    on one coordinate array: [caller] is the array of the caller, [loc]
    the array of the library. *)
Definition gather (int2ext : list Z) (natoms : Z) (caller loc : list R)
  : list R :=
  fill (Z.to_nat natoms)
    (fun iat => rd caller (zd int2ext (Z.of_nat iat))) loc.

(** [for(iat=0; iat < agb->natoms; iat++) br[int2ext[iat]] = agb->br[iat];]
    on one output array. *)
Definition scatter (int2ext : list Z) (natoms : Z) (loc caller : list R)
  : list R :=
  fold_left
    (fun out iat => set_nth (Z.to_nat (zd int2ext iat)) (rd loc iat) out)
    (atom_range natoms) caller.

End EnerCopy.

(** ** The pair integral [agbnp3_i4] and its lookup table *)

Module I4.
Section I4Defs.
#[local] Open Scope R_scope.

(** [agbnp3_i4]: the pair [(q, *dr)]; [pi] of the header is [PI]. *)
Definition agbnp3_i4 (rij Ri Rj : R) : R * R :=
  let rij2 := rij * rij in
  let twopi := 2 * PI in
  let twothirds := 2 / 3 in
  if Rgt_dec rij (Ri + Rj) then
    let u1 := rij + Rj in
    let u2 := rij - Rj in
    let u3 := u1 * u2 in
    let u4 := 0.5 * ln (u1 / u2) in
    (twopi * (Rj / u3 - u4 / rij),
     twopi * ((Rj / (rij * u3)) * (1 - 2 * rij2 / u3) + u4 / rij2))
  else
    let u1 := Rj - Ri in
    if Rgt_dec rij2 (u1 * u1) then
      (* overlap *)
      let u1 := rij + Rj in
      let u2 := rij - Rj in
      let u3 := u1 * u2 in
      let u4 := 1 / u1 in
      let u4sq := u4 * u4 in
      let u5 := 1 / Ri in
      let u5sq := u5 * u5 in
      let u6 := 0.5 * ln (u1 / Ri) in
      (twopi * (- (u4 - u5) + (0.25 * u3 * (u4sq - u5sq) - u6) / rij),
       twopi * (0.5 * (1 - 0.5 * u3 / rij2) * (u4sq - u5sq) + u6 / rij2))
    else
      (* inclusion *)
      if Rgt_dec Ri Rj then (0, 0)
      else
        let u1 := rij + Rj in
        let u2 := Rj - rij in
        let u3 := - u1 * u2 in
        if Rlt_dec rij (0.001 * Rj) then
          let a := rij / Rj in
          let ad := a * a - 1 in
          let u6 := (1 + twothirds * a * a) / Rj in
          (twopi * (2 / Ri + Rj / u3 - u6),
           - (2 * twopi * a / (Rj * Rj)) * (1 / ad + twothirds))
        else
          let u6 := 0.5 * ln (u1 / u2) in
          (twopi * (2 / Ri + Rj / u3 - u6 / rij),
           twopi * (- (Rj / u3) * (2 * rij / u3 - 1 / rij) + u6 / rij2)).

(** The loop [for(i=0;i<n-1;i++){ q1 = agbnp3_i4(a,b,Rj,&dr); y[i] = q1;
    a += da; }] of [agbnp3_create_ctablef4]: [rounds] rounds from index [i]
    and abscissa [a], on the array [y]. *)
Fixpoint ctable_fill (rounds i : nat) (a da b : R) (y : list R) : list R :=
  match rounds with
  | O => y
  | S k =>
      ctable_fill k (S i) (a + da) da b (set_nth i (fst (agbnp3_i4 a b 1)) y)
  end.

(** [agbnp3_create_ctablef4]: the return code and the table, if one is
    made.  [ymem] and [y2mem] are what [agbnp3_memalloc] returned for [y]
    and [y2], and [tbl] tells whether [malloc] returned a table structure:
    [None] and [false] stand for a failed allocation, [Some] holds the
    content of the block of [n] entries.  [u] is the block of the work
    array of [agbnp3_cspline_setup], whose [malloc] the source does not
    check. *)
Definition agbnp3_create_ctablef4 (n : Z) (amax b : R)
    (ymem y2mem : option (list R)) (tbl : bool) (u : list R)
  : retcode * option Spline.C1Table :=
  let da := amax / IZR (n - 1) in
  let yinf := 0 in
  let ypn := 0 in
  match ymem, y2mem with
  | Some y, Some y2 =>
      if negb tbl then (AGBNP_ERR, None)
      else
        let yp1 := snd (agbnp3_i4 0 b 1) in
        let y := ctable_fill (Z.to_nat (n - 1)) 0 0 da b y in
        let y := set_nth (Z.to_nat (n - 1)) yinf y in
        (AGBNP_OK,
         Some (Spline.mkC1Table n da (1 / da) yinf y
                 (SplineSetup.agbnp3_cspline_setup da n y yp1 ypn y2 u)))
  | _, _ => (AGBNP_ERR, None)
  end.

End I4Defs.
End I4.
(** * Properties *)

(** ** Array helpers *)

Lemma set_nth_length {A : Type} (i : nat) (v : A) (l : list A) :
  length (set_nth i v l) = length l.
Proof.
  revert i; induction l as [|h t IH]; intros [|j]; simpl; auto.
Qed.

Lemma nth_set_nth_same {A : Type} (i : nat) (v d : A) (l : list A) :
  (i < length l)%nat -> nth i (set_nth i v l) d = v.
Proof.
  revert i; induction l as [|h t IH]; intros [|j] H; simpl in *; try lia; auto.
  apply IH; lia.
Qed.

Lemma nth_set_nth_other {A : Type} (i j : nat) (v d : A) (l : list A) :
  i <> j -> nth j (set_nth i v l) d = nth j l d.
Proof.
  revert i j; induction l as [|h t IH]; intros [|i] [|j] H; simpl; auto; try lia.
Qed.

Lemma In_set_nth {A : Type} (i : nat) (v x : A) (l : list A) :
  In x (set_nth i v l) -> x = v \/ In x l.
Proof.
  revert i; induction l as [|h t IH]; intros [|j]; simpl; auto.
  - intros [->|H]; auto.
  - intros [->|H]; auto. destruct (IH _ H); auto.
Qed.


Lemma nth_error_set_nth_same {A : Type} (i : nat) (v : A) (l : list A) :
  (i < length l)%nat -> nth_error (set_nth i v l) i = Some v.
Proof.
  revert i; induction l as [|h t IH]; intros [|j] H; simpl in *; try lia; auto.
  apply IH; lia.
Qed.

Lemma nth_error_set_nth_other {A : Type} (i j : nat) (v : A) (l : list A) :
  i <> j -> nth_error (set_nth i v l) j = nth_error l j.
Proof.
  revert i j; induction l as [|h t IH]; intros [|i] [|j] H; simpl; auto; try lia.
Qed.

(** ** Hash table *)

Section HTableFacts.
Import HTable.

Lemma u32_small (z : Z) : 0 <= z < 2 ^ 32 -> u32 z = z.
Proof. intros H; unfold u32; apply Z.mod_small; exact H. Qed.

Lemma to_int_small (z : Z) : 0 <= z < 2 ^ 31 -> to_int z = z.
Proof.
  intros H; unfold to_int.
  destruct (z <? 2 ^ 31) eqn:E; [reflexivity | apply Z.ltb_ge in E; lia].
Qed.

Lemma pow2_bounds (p : Z) : 0 <= p <= 30 -> 0 < 2 ^ p <= 2 ^ 30.
Proof.
  intros H; split; [apply Z.pow_pos_nonneg; lia|].
  apply Z.pow_le_mono_r; lia.
Qed.

(** With [hmask = 2^p - 1] and [hjump = 1] the next probe is the next slot,
    cyclically. *)
Lemma probe_step (p k : Z) :
  0 <= p <= 30 -> 0 <= k < 2 ^ p ->
  Z.land (u32 (k + u32 1)) (u32 (2 ^ p - 1)) = (k + 1) mod 2 ^ p.
Proof.
  intros Hp Hk. pose proof (pow2_bounds p Hp) as HM.
  assert (H30 : 2 ^ 30 < 2 ^ 32) by (apply Z.pow_lt_mono_r; lia).
  rewrite (u32_small 1) by (split; [lia|]; lia).
  rewrite (u32_small (k + 1)) by lia.
  rewrite (u32_small (2 ^ p - 1)) by lia.
  replace (2 ^ p - 1) with (Z.ones p) by (rewrite Z.ones_equiv; lia).
  apply Z.land_ones; lia.
Qed.

Lemma probe_home (p q : Z) :
  0 <= p <= 30 -> 0 <= q ->
  0 <= Z.land q (u32 (2 ^ p - 1)) < 2 ^ p.
Proof.
  intros Hp Hq. pose proof (pow2_bounds p Hp) as HM.
  assert (H30 : 2 ^ 30 < 2 ^ 32) by (apply Z.pow_lt_mono_r; lia).
  rewrite (u32_small (2 ^ p - 1)) by lia.
  replace (2 ^ p - 1) with (Z.ones p) by (rewrite Z.ones_equiv; lia).
  rewrite Z.land_ones by lia. apply Z.mod_pos_bound; lia.
Qed.

(** Where the probing loop stops, its condition is false. *)
Lemma h_probe_stops fuel keys mask jump q :
  forall k r, h_probe fuel keys mask jump q k = Some r ->
  exists v, nth_error keys (Z.to_nat r) = Some v /\
            (0 <=? v) && negb (u32 v =? q) = false.
Proof.
  induction fuel as [|f IH]; intros k r H; simpl in H; [discriminate|].
  destruct (nth_error keys (Z.to_nat k)) as [v|] eqn:E; [|discriminate].
  destruct ((0 <=? v) && negb (u32 v =? q)) eqn:C.
  - eapply IH; eauto.
  - inversion H; subst. exists v; auto.
Qed.

(** More fuel does not change a result. *)
Lemma h_probe_fuel_mono fuel keys mask jump q :
  forall k r fuel', h_probe fuel keys mask jump q k = Some r ->
  (fuel <= fuel')%nat -> h_probe fuel' keys mask jump q k = Some r.
Proof.
  induction fuel as [|f IH]; intros k r fuel' H Hle; simpl in H; [discriminate|].
  destruct fuel' as [|f']; [lia|]. simpl.
  destruct (nth_error keys (Z.to_nat k)) as [v|]; [|discriminate].
  destruct ((0 <=? v) && negb (u32 v =? q)); auto.
  apply IH; auto; lia.
Qed.

(** The cyclic probe reaches a slot where the loop stops within [d + 1]
    steps, [d] being the cyclic distance to such a slot. *)
Lemma h_probe_reaches (p q e ve : Z) (keys : list Z) :
  0 <= p <= 30 ->
  length keys = Z.to_nat (2 ^ p) ->
  0 <= e < 2 ^ p ->
  nth_error keys (Z.to_nat e) = Some ve ->
  (0 <=? ve) && negb (u32 ve =? q) = false ->
  forall (d : nat) (k : Z) (fuel : nat),
    0 <= k < 2 ^ p -> (e - k) mod 2 ^ p = Z.of_nat d -> (d < fuel)%nat ->
    exists r, h_probe fuel keys (u32 (2 ^ p - 1)) (u32 1) q k = Some r
              /\ 0 <= r < 2 ^ p.
Proof.
  intros Hp Hlen He Hve Hstop. pose proof (pow2_bounds p Hp) as HM.
  induction d as [|d IH]; intros k fuel Hk Hd Hf.
  - assert (k = e).
    { assert (e - k = 0 \/ e - k <> 0) as [|Hne] by lia; [lia|].
      exfalso. apply Z.mod_divide in Hd; [|lia].
      destruct Hd as [c Hc].
      assert (c = 0 \/ 1 <= c \/ c <= -1) as [Hc0|[Hc1|Hc1]] by lia;
        [subst c; lia | nia | nia]. }
    subst k. destruct fuel as [|f]; [lia|]. simpl.
    rewrite Hve, Hstop. eauto.
  - destruct fuel as [|f]; [lia|]. simpl.
    assert (Hin : (Z.to_nat k < length keys)%nat) by (rewrite Hlen; lia).
    destruct (nth_error keys (Z.to_nat k)) as [v|] eqn:E;
      [|apply nth_error_None in E; lia].
    destruct ((0 <=? v) && negb (u32 v =? q)) eqn:C; [|eauto].
    rewrite probe_step by auto.
    apply IH; [apply Z.mod_pos_bound; lia| |lia].
    rewrite Zminus_mod_idemp_r.
    replace (e - (k + 1)) with ((e - k) - 1) by lia.
    rewrite <- Zminus_mod_idemp_l, Hd.
    pose proof (Z.mod_pos_bound (e - k) (2 ^ p) ltac:(lia)) as Hb.
    rewrite Hd in Hb. rewrite Z.mod_small; lia.
Qed.

(** Writing the key into the slot where the probe stopped does not change
    where the probe stops. *)
Lemma h_probe_after_store fuel keys mask jump q r w :
  (0 <=? w) && negb (u32 w =? q) = false ->
  forall k, h_probe fuel keys mask jump q k = Some r ->
  h_probe fuel (set_nth (Z.to_nat r) w keys) mask jump q k = Some r.
Proof.
  intros Hw. induction fuel as [|f IH]; intros k H; simpl in *; [discriminate|].
  destruct (nth_error keys (Z.to_nat k)) as [v|] eqn:E; [|discriminate].
  destruct ((0 <=? v) && negb (u32 v =? q)) eqn:C.
  - destruct (h_probe_stops _ _ _ _ _ _ _ H) as [vr [Er Cr]].
    assert (Hne : Z.to_nat r <> Z.to_nat k) by (intros Heq; congruence).
    rewrite nth_error_set_nth_other by auto. rewrite E, C. auto.
  - inversion H; subst r.
    rewrite nth_error_set_nth_same by (apply nth_error_Some; congruence).
    rewrite Hw. reflexivity.
Qed.

Lemma stop_of_key (q : Z) :
  0 <= q < 2 ^ 31 -> (0 <=? to_int q) && negb (u32 (to_int q) =? q) = false.
Proof.
  intros H. rewrite to_int_small by auto.
  assert (2 ^ 31 < 2 ^ 32) by (apply Z.pow_lt_mono_r; lia).
  rewrite u32_small by lia. rewrite Z.eqb_refl. apply andb_false_r.
Qed.

(** The cyclic probe stays inside the table. *)
Lemma h_probe_range (p q : Z) (keys : list Z) :
  0 <= p <= 30 ->
  forall fuel k r,
    0 <= k < 2 ^ p ->
    h_probe fuel keys (u32 (2 ^ p - 1)) (u32 1) q k = Some r ->
    0 <= r < 2 ^ p.
Proof.
  intros Hp. pose proof (pow2_bounds p Hp) as HM.
  induction fuel as [|f IH]; intros k r Hk H; simpl in H; [discriminate|].
  destruct (nth_error keys (Z.to_nat k)) as [v|]; [|discriminate].
  destruct ((0 <=? v) && negb (u32 v =? q)).
  - rewrite probe_step in H by auto.
    eapply IH; [|exact H]. apply Z.mod_pos_bound; lia.
  - inversion H; subst; auto.
Qed.

(** What one [agbnp3_h_enter] that returns does to the table. *)
Lemma h_enter_effect (p : Z) fuel ht q k ht' :
  0 <= p <= 30 -> cache_table p ht -> 0 <= q < 2 ^ 31 ->
  agbnp3_h_enter fuel ht q = Some (k, ht') ->
  cache_table p ht' /\ 0 <= k < 2 ^ p /\ key_at ht' k = Some q /\
  agbnp3_h_find fuel ht' q = Some k /\
  (forall ks, stored_from ks ht -> stored_from (q :: ks) ht').
Proof.
  intros Hp (Hs & Hm & Hj & keys & Hk & Hlen) Hq H.
  pose proof (pow2_bounds p Hp) as HM.
  unfold agbnp3_h_enter in H. rewrite Hk, Hm, Hj in H.
  destruct (h_probe fuel keys (u32 (2 ^ p - 1)) (u32 1) q
              (Z.land q (u32 (2 ^ p - 1)))) as [r|] eqn:Ep; [|discriminate].
  inversion H; subst k ht'; clear H.
  destruct (h_probe_stops _ _ _ _ _ _ _ Ep) as [v [Ev Cv]].
  assert (Hr : (Z.to_nat r < length keys)%nat)
    by (apply nth_error_Some; congruence).
  pose proof (h_probe_range p q keys Hp _ _ _ (probe_home p q Hp (proj1 Hq)) Ep)
    as Hrange.
  repeat split; simpl; try lia.
  - exists (set_nth (Z.to_nat r) (to_int q) keys); split; auto.
    rewrite set_nth_length; auto.
  - unfold key_at; simpl. rewrite nth_error_set_nth_same by auto.
    rewrite to_int_small; auto.
  - unfold agbnp3_h_find; simpl.
    rewrite (h_probe_after_store _ _ _ _ _ _ _ (stop_of_key q Hq) _ Ep).
    rewrite nth_error_set_nth_same by auto.
    rewrite to_int_small by auto.
    destruct (q <? 0) eqn:E; [apply Z.ltb_lt in E; lia | reflexivity].
  - intros ks Hst keys' w Hk' Hin; simpl in Hk'. inversion Hk'; subst keys'.
    apply In_set_nth in Hin. destruct Hin as [->|Hin].
    + right; left. symmetry; apply to_int_small; auto.
    + destruct (Hst keys w Hk Hin) as [->|Hw]; [left|right; right]; auto.
Qed.

(** On a table with an empty slot [agbnp3_h_enter] returns. *)
Lemma h_enter_returns (p : Z) fuel ht q :
  0 <= p <= 30 -> cache_table p ht -> has_empty ht -> 0 <= q ->
  (Z.to_nat (2 ^ p) <= fuel)%nat ->
  exists k ht', agbnp3_h_enter fuel ht q = Some (k, ht').
Proof.
  intros Hp (Hs & Hm & Hj & keys & Hk & Hlen) (e & ve & He & Hve & Hneg) Hq Hf.
  pose proof (pow2_bounds p Hp) as HM.
  unfold key_at in Hve; rewrite Hk in Hve. rewrite Hs in He.
  assert (Hstop : (0 <=? ve) && negb (u32 ve =? q) = false).
  { destruct (0 <=? ve) eqn:E; [apply Z.leb_le in E; lia | reflexivity]. }
  pose proof (probe_home p q Hp Hq) as Hh.
  set (k0 := Z.land q (u32 (2 ^ p - 1))) in *.
  pose proof (Z.mod_pos_bound (e - k0) (2 ^ p) ltac:(lia)) as Hd.
  destruct (h_probe_reaches p q e ve keys Hp Hlen He Hve Hstop
              (Z.to_nat ((e - k0) mod 2 ^ p)) k0 fuel Hh ltac:(lia) ltac:(lia))
    as [r [Hr _]].
  unfold agbnp3_h_enter. rewrite Hk, Hm, Hj. fold k0. rewrite Hr. eauto.
Qed.

(** A key that is in no slot is not found, when a slot is empty. *)
Lemma h_find_absent (p : Z) fuel ht ks q :
  0 <= p <= 30 -> cache_table p ht -> has_empty ht ->
  Forall (fun w => 0 <= w < 2 ^ 31) ks -> stored_from ks ht ->
  0 <= q < 2 ^ 32 -> ~ In q ks ->
  (Z.to_nat (2 ^ p) <= fuel)%nat ->
  agbnp3_h_find fuel ht q = Some (-1).
Proof.
  intros Hp (Hs & Hm & Hj & keys & Hk & Hlen) (e & ve & He & Hve & Hneg)
         Hks Hst Hq Hnin Hf.
  pose proof (pow2_bounds p Hp) as HM.
  unfold key_at in Hve; rewrite Hk in Hve. rewrite Hs in He.
  assert (Hstop : (0 <=? ve) && negb (u32 ve =? q) = false).
  { destruct (0 <=? ve) eqn:E; [apply Z.leb_le in E; lia | reflexivity]. }
  pose proof (probe_home p q Hp (proj1 Hq)) as Hh.
  set (k0 := Z.land q (u32 (2 ^ p - 1))) in *.
  pose proof (Z.mod_pos_bound (e - k0) (2 ^ p) ltac:(lia)) as Hd.
  destruct (h_probe_reaches p q e ve keys Hp Hlen He Hve Hstop
              (Z.to_nat ((e - k0) mod 2 ^ p)) k0 fuel Hh ltac:(lia) ltac:(lia))
    as [r [Hr _]].
  unfold agbnp3_h_find. rewrite Hk, Hm, Hj. fold k0. rewrite Hr.
  destruct (h_probe_stops _ _ _ _ _ _ _ Hr) as [v [Ev Cv]]. rewrite Ev.
  destruct (v <? 0) eqn:E; [reflexivity|]. exfalso.
  apply Z.ltb_ge in E.
  destruct (Hst keys v Hk (nth_error_In _ _ Ev)) as [->|Hin]; [lia|].
  rewrite Forall_forall in Hks. specialize (Hks v Hin).
  assert (2 ^ 31 < 2 ^ 32) by (apply Z.pow_lt_mono_r; lia).
  rewrite u32_small in Cv by lia.
  destruct (0 <=? v) eqn:E1; [|apply Z.leb_gt in E1; lia].
  simpl in Cv. apply negb_false_iff, Z.eqb_eq in Cv. subst v. auto.
Qed.

(** The freshly initialised table of the cache. *)
Lemma h_init_cache_table (p : Z) (mem : list Z) :
  0 <= p <= 30 -> length mem = Z.to_nat (2 ^ p) ->
  cache_table p (agbnp3_h_init (agbnp3_h_create 0 (2 ^ p) 1 mem)) /\
  stored_from [] (agbnp3_h_init (agbnp3_h_create 0 (2 ^ p) 1 mem)).
Proof.
  intros Hp Hlen. pose proof (pow2_bounds p Hp) as HM.
  unfold agbnp3_h_create.
  destruct (2 ^ p <=? 0) eqn:E; [apply Z.leb_le in E; lia|].
  unfold agbnp3_h_init; simpl.
  rewrite <- Hlen, skipn_all, app_nil_r.
  split.
  - repeat split; simpl; auto.
    eexists; split; [reflexivity|]. rewrite repeat_length; auto.
  - intros keys v Hk Hin; simpl in Hk. inversion Hk; subst keys.
    apply repeat_spec in Hin. auto.
Qed.

(** The invariant along a run of [agbnp3_h_enter] calls. *)
Lemma h_enter_all_invariant (p : Z) fuel :
  0 <= p <= 30 ->
  forall ks ht acc ht',
    cache_table p ht -> stored_from acc ht ->
    Forall (fun w => 0 <= w < 2 ^ 31) ks ->
    h_enter_all fuel ht ks = Some ht' ->
    cache_table p ht' /\ stored_from (ks ++ acc) ht'.
Proof.
  intros Hp. induction ks as [|q rest IH]; intros ht acc ht' Hc Hst Hks H.
  - simpl in H. inversion H; subst; auto.
  - simpl in H. inversion Hks as [|? ? Hq Hrest]; subst.
    destruct (agbnp3_h_enter fuel ht q) as [[k ht1]|] eqn:E; [|discriminate].
    destruct (h_enter_effect p fuel ht q k ht1 Hp Hc Hq E)
      as (Hc1 & _ & _ & _ & Hst1).
    destruct (IH ht1 (q :: acc) ht' Hc1 (Hst1 acc Hst) Hrest H) as [Hc' Hst'].
    split; auto.
    intros keys v Hk Hin. destruct (Hst' keys v Hk Hin) as [->|Hv]; auto.
    right. apply in_app_or in Hv. simpl.
    destruct Hv as [Hv|[Hv|Hv]]; auto.
    right. apply in_or_app; auto. right. apply in_or_app; auto.
Qed.

(** C10. Round trip of the spline-table cache's hash table.  On the table
    built by [agbnp3_h_create(0, 2^p, 1)], [agbnp3_h_init] and any run of
    [agbnp3_h_enter] calls that leaves a slot empty, [agbnp3_h_enter] of a
    non-negative key returns a slot [k]; afterwards [ht->key[k]] is the key
    and [agbnp3_h_find] of the key returns the same [k]; and, as long as a
    slot is still empty, [agbnp3_h_find] returns [-1] for every key that was
    never entered. *)
Theorem h_enter_find_roundtrip (p : Z) (mem ks : list Z) (fuel : nat)
    (ht : HTable) (q : Z) :
  0 <= p <= 30 ->
  length mem = Z.to_nat (2 ^ p) ->
  Forall (fun w => 0 <= w < 2 ^ 31) ks ->
  h_enter_all fuel (agbnp3_h_init (agbnp3_h_create 0 (2 ^ p) 1 mem)) ks
    = Some ht ->
  has_empty ht ->
  0 <= q < 2 ^ 31 ->
  (Z.to_nat (2 ^ p) <= fuel)%nat ->
  exists k ht',
    agbnp3_h_enter fuel ht q = Some (k, ht') /\
    0 <= k /\
    key_at ht' k = Some q /\
    agbnp3_h_find fuel ht' q = Some k /\
    (forall q', 0 <= q' < 2 ^ 32 -> ~ In q' (q :: ks) -> has_empty ht' ->
                agbnp3_h_find fuel ht' q' = Some (-1)) /\
    (forall q', 0 <= q' < 2 ^ 32 -> ~ In q' ks ->
                agbnp3_h_find fuel ht q' = Some (-1)).
Proof.
  intros Hp Hlen Hks Hrun Hemp Hq Hf.
  destruct (h_init_cache_table p mem Hp Hlen) as [Hc0 Hst0].
  destruct (h_enter_all_invariant p fuel Hp ks _ [] ht Hc0 Hst0 Hks Hrun)
    as [Hc Hst].
  rewrite app_nil_r in Hst.
  destruct (h_enter_returns p fuel ht q Hp Hc Hemp (proj1 Hq) Hf)
    as (k & ht' & He).
  destruct (h_enter_effect p fuel ht q k ht' Hp Hc Hq He)
    as (Hc' & Hk & Hkey & Hfind & Hst').
  exists k, ht'. repeat split; auto; try lia.
  - intros q' Hq' Hnin Hemp'.
    eapply h_find_absent with (ks := q :: ks); eauto.
  - intros q' Hq' Hnin.
    eapply h_find_absent with (ks := ks); eauto.
Qed.

(** The theorem at work: a four-slot table, keys 5 and 9 entered, key 6
    entered next. *)
Lemma h_enter_find_roundtrip_witness :
  exists k ht',
    agbnp3_h_enter 4
      (mkHTable 4 3 1 0 (Some [-1; 5; 9; -1])) 6 = Some (k, ht') /\
    0 <= k /\
    key_at ht' k = Some 6 /\
    agbnp3_h_find 4 ht' 6 = Some k /\
    (forall q', 0 <= q' < 2 ^ 32 -> ~ In q' [6; 5; 9] -> has_empty ht' ->
                agbnp3_h_find 4 ht' q' = Some (-1)) /\
    (forall q', 0 <= q' < 2 ^ 32 -> ~ In q' [5; 9] ->
                agbnp3_h_find 4 (mkHTable 4 3 1 0 (Some [-1; 5; 9; -1])) q'
                = Some (-1)).
Proof.
  apply (h_enter_find_roundtrip 2 [0; 0; 0; 0] [5; 9] 4
           (mkHTable 4 3 1 0 (Some [-1; 5; 9; -1])) 6).
  - lia.
  - reflexivity.
  - repeat constructor; lia.
  - reflexivity.
  - exists 0, (-1). repeat split; simpl; lia.
  - lia.
  - simpl; lia.
Defined.

End HTableFacts.

(** ** Cubic-spline evaluation *)

Section SplineFacts.
Import Spline.
#[local] Open Scope R_scope.

Lemma Int_part_IZR (z : Z) : Int_part (IZR z) = z.
Proof. symmetry; apply Int_part_spec; lra. Qed.

Lemma c_trunc_IZR (z : Z) : c_trunc (IZR z) = z.
Proof.
  unfold c_trunc. destruct (Rle_dec 0 (IZR z)).
  - apply Int_part_IZR.
  - rewrite <- opp_IZR, Int_part_IZR. lia.
Qed.

(** Truncation toward zero is never below the floor. *)
Lemma Int_part_le_c_trunc (x : R) : (Int_part x <= c_trunc x)%Z.
Proof.
  unfold c_trunc. destruct (Rle_dec 0 x) as [H|H]; [lia|].
  destruct (base_Int_part x) as [H1 _].
  destruct (base_Int_part (- x)) as [H2 _].
  apply le_IZR. rewrite opp_IZR. lra.
Qed.

Lemma cspline_soa1_zero (dx : R) (kv xh : R) :
  cspline_soa1 dx (mkRow kv xh 0 0 0 0) = (0, 0).
Proof. unfold cspline_soa1; simpl. f_equal; ring. Qed.

Lemma soa_gather_nth fuel table2d :
  forall xy dx0 rows dxl i x ym,
    soa_gather fuel table2d xy dx0 = Some (rows, dxl) ->
    nth_error xy i = Some (x, ym) ->
    exists row dx', soa_gather1 fuel table2d x ym = Some (row, dx') /\
                    nth_error rows i = Some row.
Proof.
  induction xy as [|[x0 ym0] rest IH]; intros dx0 rows dxl i x ym H Hn.
  - destruct i; discriminate.
  - simpl in H.
    destruct (soa_gather1 fuel table2d x0 ym0) as [[row dx']|] eqn:E1;
      [|discriminate].
    destruct (soa_gather fuel table2d rest dx') as [[rows' dxl']|] eqn:E2;
      [|discriminate].
    inversion H; subst rows dxl; clear H.
    destruct i as [|i]; simpl in Hn.
    + inversion Hn; subst. eauto.
    + destruct (IH _ _ _ _ _ _ E2 Hn) as (row' & dx'' & G1 & G2). eauto.
Qed.

(** Where the conversion is defined, [c_int] is [c_trunc]. *)
Lemma c_int_defined (x : R) : int_range x -> c_int x = Some (c_trunc x).
Proof.
  intros [H1 H2]. unfold c_int.
  destruct (Rlt_dec (IZR (- 2 ^ 31) - 1) x) as [_|H]; [|contradiction].
  destruct (Rlt_dec x (IZR (2 ^ 31))) as [_|H]; [reflexivity|contradiction].
Qed.

Lemma c_trunc_nonneg (x : R) : 0 <= x -> (0 <= c_trunc x)%Z.
Proof.
  intros H. unfold c_trunc. destruct (Rle_dec 0 x) as [_|H']; [|contradiction].
  destruct (base_Int_part x) as [_ H2].
  apply Z.lt_succ_r. apply lt_IZR. rewrite succ_IZR. lra.
Qed.

(** The gather loop returns when its body does for every entry. *)
Lemma soa_gather_total fuel table2d :
  forall xy dx0,
    (forall x ym, In (x, ym) xy ->
       exists row dx', soa_gather1 fuel table2d x ym = Some (row, dx')) ->
    exists rows dxl,
      soa_gather fuel table2d xy dx0 = Some (rows, dxl) /\
      length rows = length xy.
Proof.
  induction xy as [|[x0 ym0] rest IH]; intros dx0 H.
  - exists [], dx0. split; reflexivity.
  - destruct (H x0 ym0 (or_introl eq_refl)) as (row & dx' & E1).
    destruct (IH dx' (fun x ym Hin => H x ym (or_intror Hin)))
      as (rows & dxl & E2 & L).
    exists (row :: rows), dxl. simpl. rewrite E1, E2.
    split; [reflexivity|]. simpl. rewrite L. reflexivity.
Qed.

End SplineFacts.

(** ** Born radii *)

Section BornFacts.
#[local] Open Scope R_scope.

(** The filtered inverse Born radius is at least the constant [a]. *)
Lemma swf_invbr_floor (beta : R) : swf_invbr_a <= fst (agbnp3_swf_invbr beta).
Proof.
  unfold agbnp3_swf_invbr, swf_invbr_a.
  destruct (Rlt_dec beta 0) as [H|H]; simpl; [lra|].
  rewrite <- (sqrt_square 0.02) at 1 by lra.
  apply sqrt_le_1; nra.
Qed.

(** C2, as the code has it.  For every raw inverse-Born-radius sum,
    negative ones included, the filtered inverse Born radius is at least the
    floor constant [a = 0.02], so every Born radius [agbnp3_born_radii]
    produces is positive and at most [1/a = 50]. *)
Theorem born_radius_bounded (br1_in : list R) :
  fst (agbnp3_born_radii br1_in) = AGBNP_OK /\
  Forall (fun b1 => swf_invbr_a <= b1) (br1 (snd (agbnp3_born_radii br1_in))) /\
  Forall (fun b => 0 < b <= 50) (br (snd (agbnp3_born_radii br1_in))) /\
  br (snd (agbnp3_born_radii br1_in))
    = map (fun beta => 1 / fst (agbnp3_swf_invbr beta)) br1_in.
Proof.
  unfold agbnp3_born_radii; simpl. repeat split.
  - rewrite map_map. apply Forall_forall. intros b Hb.
    apply in_map_iff in Hb. destruct Hb as [beta [<- _]].
    apply swf_invbr_floor.
  - rewrite !map_map. apply Forall_forall. intros b Hb.
    apply in_map_iff in Hb. destruct Hb as [beta [<- _]].
    pose proof (swf_invbr_floor beta) as H. unfold swf_invbr_a in H.
    set (t := fst (agbnp3_swf_invbr beta)) in *.
    assert (Ht : 0 < t) by lra.
    split.
    + unfold Rdiv. rewrite Rmult_1_l. apply Rinv_0_lt_compat; auto.
    + apply (Rmult_le_reg_r t); auto.
      unfold Rdiv. rewrite Rmult_1_l, Rinv_l by lra. lra.
  - rewrite !map_map. reflexivity.
Qed.

(** C2, as stated, fails: the raw sum [100] gives a Born radius below the
    floor constant [0.02]. *)
Lemma born_radius_floor_counterexample :
  exists b, br (snd (agbnp3_born_radii [100])) = [b] /\ b < swf_invbr_a.
Proof.
  eexists; split; [reflexivity|].
  unfold agbnp3_swf_invbr, swf_invbr_a.
  destruct (Rlt_dec 100 0) as [H|H]; [lra|]. simpl.
  assert (Hs : 100 <= sqrt (0.02 * 0.02 + 100 * 100)).
  { rewrite <- (sqrt_square 100) at 1 by lra. apply sqrt_le_1; lra. }
  set (t := sqrt (0.02 * 0.02 + 100 * 100)) in *.
  unfold Rdiv. rewrite Rmult_1_l.
  apply (Rmult_lt_reg_r t); [lra|].
  rewrite Rinv_l by lra. lra.
Qed.

End BornFacts.

(** ** Incremental Gaussian overlap *)

Section OgaussFacts.
#[local] Open Scope R_scope.

(** C4. For [n >= 2], one call of [agbnp3_ogauss_incremental] merges the
    Gaussian of the one atom [n-1] into the blob [(anm1, pnm1, cnm1)] by the
    two-Gaussian product rule: the new exponent is the sum of the two
    exponents, the new centre is the exponent-weighted average of the old
    centre and the atom's position, and the new prefactor is the product of
    the two prefactors times [exp(-(anm1*a/(anm1+a)) * d2)], [d2] being the
    squared distance between the old centre and the atom's position. *)
Theorem ogauss_incremental_product_rule
    (n : Z) (x : list vec3) (a p r : list R)
    (anm1 pnm1 : R) (cnm1 : vec3) (an0 pn0 : R) (cn0 : vec3)
    (volmina volminb : R) (sr1 : option R)
    (dr : option (list vec3)) (dR : option (list R))
    (d2rR : option (list (list vec3))) :
  (2 <= n)%Z ->
  let out := agbnp3_ogauss_incremental n x a p r anm1 pnm1 cnm1 an0 pn0 cn0
               volmina volminb sr1 dr dR d2rR in
  let ai := nth (Z.to_nat n - 1) a 0 in
  let pi_ := nth (Z.to_nat n - 1) p 0 in
  let xi := nth (Z.to_nat n - 1) x vzero in
  og_an out = anm1 + ai /\
  og_cn out = ((anm1 * vx cnm1 + ai * vx xi) / (anm1 + ai),
               (anm1 * vy cnm1 + ai * vy xi) / (anm1 + ai),
               (anm1 * vz cnm1 + ai * vz xi) / (anm1 + ai)) /\
  og_pn out = pnm1 * pi_ * exp (- (anm1 * ai / (anm1 + ai)) * vnorm2 (vsub xi cnm1)).
Proof.
  intros Hn out ai pi_ xi. subst out.
  unfold agbnp3_ogauss_incremental.
  destruct (n <? 2)%Z eqn:E; [apply Z.ltb_lt in E; lia|].
  fold ai pi_ xi.
  destruct (agbnp3_swf_vol3 (og_vol anm1 pnm1 cnm1 ai pi_ xi) volmina volminb)
    as [[volp fp] fpp].
  assert (Hc : og_center anm1 cnm1 ai xi =
               ((anm1 * vx cnm1 + ai * vx xi) / (anm1 + ai),
                (anm1 * vy cnm1 + ai * vy xi) / (anm1 + ai),
                (anm1 * vz cnm1 + ai * vz xi) / (anm1 + ai))).
  { unfold og_center, og_delta, Rdiv. cbv zeta.
    f_equal; [f_equal|]; ring. }
  assert (Hp : og_prefactor anm1 pnm1 cnm1 ai pi_ xi =
               pnm1 * pi_ * exp (- (anm1 * ai / (anm1 + ai)) * vnorm2 (vsub xi cnm1))).
  { unfold og_prefactor, og_delta, vnorm2, vsub, Rdiv; cbv zeta; simpl.
    f_equal. f_equal. unfold vx, vy, vz; simpl. ring. }
  destruct (Rlt_dec volp FLT_MIN); [simpl; auto|].
  destruct dr, dR; simpl; auto.
Qed.

(** The theorem at work: the unit Gaussian at the origin merged with a unit
    Gaussian at distance 1. *)
Lemma ogauss_incremental_product_rule_witness :
  let out := agbnp3_ogauss_incremental 2 [vzero; (1, 0, 0)] [1; 1] [1; 1]
               [1; 1] 1 1 vzero 0 0 vzero 0 1 None None None None in
  og_an out = 1 + 1 /\
  og_cn out = ((1 * 0 + 1 * 1) / (1 + 1),
               (1 * 0 + 1 * 0) / (1 + 1),
               (1 * 0 + 1 * 0) / (1 + 1)) /\
  og_pn out = 1 * 1 * exp (- (1 * 1 / (1 + 1)) * vnorm2 (vsub (1, 0, 0) vzero)).
Proof.
  apply (ogauss_incremental_product_rule 2 [vzero; (1, 0, 0)] [1; 1] [1; 1]
           [1; 1] 1 1 vzero 0 0 vzero 0 1 None None None None).
  lia.
Defined.

Lemma FLT_MIN_pos : 0 < FLT_MIN.
Proof. unfold FLT_MIN. apply Rinv_0_lt_compat. apply pow_lt. lra. Qed.

(** C6. When the switched overlap volume is below [FLT_MIN],
    [agbnp3_ogauss_incremental] returns exactly 0 and the derivative arrays
    [dr], [dR] and [d2rR] hold what they held on entry; the result is a
    floating-point value, not an error code. *)
Theorem ogauss_incremental_underflow
    (n : Z) (x : list vec3) (a p r : list R)
    (anm1 pnm1 : R) (cnm1 : vec3) (an0 pn0 : R) (cn0 : vec3)
    (volmina volminb : R) (sr1 : option R)
    (dr : option (list vec3)) (dR : option (list R))
    (d2rR : option (list (list vec3))) :
  (2 <= n)%Z ->
  fst (fst (agbnp3_swf_vol3
              (og_vol anm1 pnm1 cnm1 (nth (Z.to_nat n - 1) a 0)
                 (nth (Z.to_nat n - 1) p 0) (nth (Z.to_nat n - 1) x vzero))
              volmina volminb)) < FLT_MIN ->
  let out := agbnp3_ogauss_incremental n x a p r anm1 pnm1 cnm1 an0 pn0 cn0
               volmina volminb sr1 dr dR d2rR in
  og_ret out = 0 /\ og_dr out = dr /\ og_dR out = dR /\ og_d2rR out = d2rR.
Proof.
  intros Hn Hv out. subst out. unfold agbnp3_ogauss_incremental.
  destruct (n <? 2)%Z eqn:E; [apply Z.ltb_lt in E; lia|].
  destruct (agbnp3_swf_vol3 _ volmina volminb) as [[volp fp] fpp].
  simpl in Hv.
  destruct (Rlt_dec volp FLT_MIN); [simpl; auto | contradiction].
Qed.

(** The theorem at work: two Gaussians with zero prefactor overlap in zero
    volume, below the lower switching threshold. *)
Lemma ogauss_incremental_underflow_witness :
  let out := agbnp3_ogauss_incremental 2 [vzero; (1, 0, 0)] [1; 1] [0; 0]
               [1; 1] 1 0 vzero 0 0 vzero 1 2 None
               (Some [(7, 7, 7); (7, 7, 7)]) (Some [7; 7]) None in
  og_ret out = 0 /\ og_dr out = Some [(7, 7, 7); (7, 7, 7)] /\
  og_dR out = Some [7; 7] /\ og_d2rR out = None.
Proof.
  apply (ogauss_incremental_underflow 2 [vzero; (1, 0, 0)] [1; 1] [0; 0]
           [1; 1] 1 0 vzero 0 0 vzero 1 2 None
           (Some [(7, 7, 7); (7, 7, 7)]) (Some [7; 7]) None).
  - lia.
  - simpl. unfold og_vol, og_prefactor.
    match goal with |- context [agbnp3_swf_vol3 ?v 1 2] =>
      replace v with 0 by ring end.
    unfold agbnp3_swf_vol3.
    destruct (Rlt_dec 2 0); [lra|]. destruct (Rlt_dec 0 1); [|lra].
    simpl. apply FLT_MIN_pos.
Defined.

End OgaussFacts.

(** ** Water-site placement for a polar hydrogen *)

Section PlaceFacts.
Import WaterSites.
#[local] Open Scope R_scope.

Lemma vnorm2_pos (u v : vec3) : u <> v -> 0 < vnorm2 (vsub v u).
Proof.
  destruct u as [[u0 u1] u2], v as [[v0 v1] v2]. intros Hne.
  unfold vnorm2, vsub, vx, vy, vz; simpl.
  assert (H : v0 - u0 <> 0 \/ v1 - u1 <> 0 \/ v2 - u2 <> 0).
  { destruct (Req_dec (v0 - u0) 0) as [H0|H0]; [|auto].
    destruct (Req_dec (v1 - u1) 0) as [H1|H1]; [|auto].
    destruct (Req_dec (v2 - u2) 0) as [H2|H2]; [|auto].
    exfalso; apply Hne. f_equal; [f_equal|]; lra. }
  pose proof (Rle_0_sqr (v0 - u0)) as S0.
  pose proof (Rle_0_sqr (v1 - u1)) as S1.
  pose proof (Rle_0_sqr (v2 - u2)) as S2.
  destruct H as [H|[H|H]]; apply Rsqr_pos_lt in H; unfold Rsqr in *; lra.
Qed.

(** The site, the weight [w = d / |xh - xd|] and the blocks, in closed
    form. *)
Lemma place_wat_hydrogen_site (xd xh : vec3) (d : R) :
  fst (fst (agbnp3_place_wat_hydrogen xd xh d))
  = vadd xd (vscale (d * sqrt (1 / vnorm2 (vsub xh xd))) (vsub xh xd)).
Proof.
  destruct xd as [[a0 a1] a2], xh as [[b0 b1] b2].
  unfold agbnp3_place_wat_hydrogen, vadd, vscale, vsub, vnorm2, vx, vy, vz.
  simpl. reflexivity.
Qed.

Lemma place_wat_hydrogen_blocks (xd xh : vec3) (d : R) :
  madd (snd (fst (agbnp3_place_wat_hydrogen xd xh d)))
       (snd (agbnp3_place_wat_hydrogen xd xh d)) = mident.
Proof.
  destruct xd as [[a0 a1] a2], xh as [[b0 b1] b2].
  unfold agbnp3_place_wat_hydrogen, madd, mident, vadd, vx, vy, vz. simpl.
  repeat (first [ring | f_equal]).
Qed.

Lemma place_wat_hydrogen_distance (xd xh : vec3) (d : R) :
  xd <> xh -> 0 <= d ->
  sqrt (vnorm2 (vsub (fst (fst (agbnp3_place_wat_hydrogen xd xh d))) xd)) = d.
Proof.
  intros Hne Hd. rewrite place_wat_hydrogen_site.
  pose proof (vnorm2_pos xd xh Hne) as HS.
  set (S := vnorm2 (vsub xh xd)) in *.
  assert (Hi : 0 <= 1 / S).
  { unfold Rdiv. rewrite Rmult_1_l. left. apply Rinv_0_lt_compat; auto. }
  pose proof (sqrt_sqrt (1 / S) Hi) as Hq.
  set (q := sqrt (1 / S)) in *.
  assert (E : vnorm2 (vsub (vadd xd (vscale (d * q) (vsub xh xd))) xd)
              = (d * d) * ((q * q) * S)).
  { subst S. destruct xd as [[a0 a1] a2], xh as [[b0 b1] b2].
    unfold vnorm2, vsub, vadd, vscale, vx, vy, vz; simpl. ring. }
  rewrite E, Hq.
  replace (1 / S * S) with 1 by (field; lra).
  rewrite Rmult_1_r. apply sqrt_square; auto.
Qed.

Lemma place_wat_hydrogen_translate (xd xh tv : vec3) (d : R) :
  agbnp3_place_wat_hydrogen (vadd xd tv) (vadd xh tv) d
  = (vadd (fst (fst (agbnp3_place_wat_hydrogen xd xh d))) tv,
     snd (fst (agbnp3_place_wat_hydrogen xd xh d)),
     snd (agbnp3_place_wat_hydrogen xd xh d)).
Proof.
  destruct xd as [[a0 a1] a2], xh as [[b0 b1] b2], tv as [[t0 t1] t2].
  unfold agbnp3_place_wat_hydrogen, vadd, vx, vy, vz. simpl.
  replace (b0 + t0 - (a0 + t0)) with (b0 - a0) by ring.
  replace (b1 + t1 - (a1 + t1)) with (b1 - a1) by ring.
  replace (b2 + t2 - (a2 + t2)) with (b2 - a2) by ring.
  repeat (apply injective_projections; simpl); try reflexivity; ring.
Qed.

(** C9. A polar hydrogen [iat] whose one bonded atom is the heavy donor
    [jat], at a different position: [agbnp3_create_ws_atoms_ph] succeeds with
    one site, built by [agbnp3_place_wat_hydrogen]; the site lies on the ray
    from the donor through the hydrogen, at the hydrogen-bond distance from
    the donor; the two derivative blocks (with respect to the hydrogen and
    to the donor) sum to the identity; and translating both parents by one
    vector translates the site by that vector and leaves the blocks as they
    are. *)
Theorem polar_hydrogen_site_on_ray
    (K : AGBNPconsts) (agb : AGBNPdata) (c : NeighList) (iat jat : Z)
    (w0 : WSat) (rest : list WSat) :
  nne_at c iat = 1%Z ->
  neighl_at c iat = [jat] ->
  zd (isheavy agb) jat <> 0%Z ->
  xyz agb jat <> xyz agb iat ->
  0 <= AGBNP_HB_LENGTH K ->
  (2 <= length (dpos w0))%nat ->
  let xd := xyz agb jat in
  let xh := xyz agb iat in
  let d := AGBNP_HB_LENGTH K in
  exists site t,
    agbnp3_create_ws_atoms_ph K agb c iat 0 (w0 :: rest)
      = (AGBNP_OK, 1%Z, site :: t) /\
    pos site = fst (fst (agbnp3_place_wat_hydrogen xd xh d)) /\
    (exists s, 0 <= s /\ pos site = vadd xd (vscale s (vsub xh xd))) /\
    sqrt (vnorm2 (vsub (pos site) xd)) = d /\
    madd (nth 0 (dpos site) mzero) (nth 1 (dpos site) mzero) = mident /\
    firstn 2 (parent site) = firstn 2 (set_parents 0 [iat; jat] (parent w0)) /\
    (forall tv,
       agbnp3_place_wat_hydrogen (vadd xd tv) (vadd xh tv) d
       = (vadd (pos site) tv, nth 0 (dpos site) mzero, nth 1 (dpos site) mzero)).
Proof.
  intros Hn Hl Hh Hne Hd Hlen xd xh d.
  destruct (agbnp3_place_wat_hydrogen xd xh d) as [[xw der1] der2] eqn:Ep.
  set (site := store_site K agb iat w0 xw AGBNP_HB_POLARH [iat; jat]
                 (Some 0%Z) (fun old => set_nth 1 der2 (set_nth 0 der1 old))).
  assert (Hrun : agbnp3_create_ws_atoms_ph K agb c iat 0 (w0 :: rest)
                 = (AGBNP_OK, 1%Z, site :: rest)).
  { unfold agbnp3_create_ws_atoms_ph. rewrite Hn, Hl.
    destruct (1 <=? 0)%Z eqn:E1; [discriminate|].
    change (firstn (Z.to_nat 1) [jat]) with [jat].
    unfold find.
    destruct (zd (isheavy agb) jat =? 0)%Z eqn:E;
      [apply Z.eqb_eq in E; tauto|].
    cbn [negb]. fold xd xh d. rewrite Ep. reflexivity. }
  assert (Hpos : pos site = xw) by reflexivity.
  assert (Hxw : xw = fst (fst (agbnp3_place_wat_hydrogen xd xh d)))
    by (rewrite Ep; reflexivity).
  assert (Hd1 : der1 = snd (fst (agbnp3_place_wat_hydrogen xd xh d)))
    by (rewrite Ep; reflexivity).
  assert (Hd2 : der2 = snd (agbnp3_place_wat_hydrogen xd xh d))
    by (rewrite Ep; reflexivity).
  assert (Hb0 : nth 0 (dpos site) mzero = der1).
  { change (dpos site) with (set_nth 1 der2 (set_nth 0 der1 (dpos w0))).
    rewrite nth_set_nth_other by lia. apply nth_set_nth_same. lia. }
  assert (Hb1 : nth 1 (dpos site) mzero = der2).
  { change (dpos site) with (set_nth 1 der2 (set_nth 0 der1 (dpos w0))).
    apply nth_set_nth_same. rewrite set_nth_length. lia. }
  exists site, rest.
  split; [exact Hrun|].
  split; [reflexivity|].
  split.
  { exists (d * sqrt (1 / vnorm2 (vsub xh xd))). split.
    - apply Rmult_le_pos; [exact Hd | apply sqrt_pos].
    - rewrite Hpos, Hxw. apply place_wat_hydrogen_site. }
  split; [rewrite Hpos, Hxw; apply place_wat_hydrogen_distance; auto|].
  split; [rewrite Hb0, Hb1, Hd1, Hd2; apply place_wat_hydrogen_blocks|].
  split; [reflexivity|].
  intros tv. rewrite Hb0, Hb1, Hpos, place_wat_hydrogen_translate, Ep.
  reflexivity.
Qed.

(** The theorem at work: a donor at the origin, its hydrogen at
    [(1, 0, 0)], hydrogen-bond distance 2.5. *)
Lemma polar_hydrogen_site_on_ray_witness :
  let K := Samples.sample_consts in
  let agb := Samples.donor_hydrogen in
  let xd := xyz agb 0 in
  let xh := xyz agb 1 in
  let d := AGBNP_HB_LENGTH K in
  exists site t,
    agbnp3_create_ws_atoms_ph K agb Samples.donor_hydrogen_conntbl 1 0
      (WSat_zero :: repeat WSat_zero 3) = (AGBNP_OK, 1%Z, site :: t) /\
    pos site = fst (fst (agbnp3_place_wat_hydrogen xd xh d)) /\
    (exists s, 0 <= s /\ pos site = vadd xd (vscale s (vsub xh xd))) /\
    sqrt (vnorm2 (vsub (pos site) xd)) = d /\
    madd (nth 0 (dpos site) mzero) (nth 1 (dpos site) mzero) = mident /\
    firstn 2 (parent site)
      = firstn 2 (set_parents 0 [1; 0]%Z (parent WSat_zero)) /\
    (forall tv,
       agbnp3_place_wat_hydrogen (vadd xd tv) (vadd xh tv) d
       = (vadd (pos site) tv, nth 0 (dpos site) mzero, nth 1 (dpos site) mzero)).
Proof.
  apply (polar_hydrogen_site_on_ray Samples.sample_consts
           Samples.donor_hydrogen Samples.donor_hydrogen_conntbl 1 0
           WSat_zero (repeat WSat_zero 3)).
  - reflexivity.
  - reflexivity.
  - unfold Samples.donor_hydrogen, zd; simpl. lia.
  - unfold Samples.donor_hydrogen, xyz, rd; simpl. intros H. inversion H. lra.
  - unfold Samples.sample_consts; simpl. lra.
  - unfold WSat_zero; simpl. lia.
Defined.

End PlaceFacts.

(** ** Water-site creation and malformed topology *)

Section CreateFacts.
Import WaterSites.
Variable K : AGBNPconsts.
Variable P : Placement.

Lemma degrade_ok (res : created) : fst (fst (degrade res)) = AGBNP_OK.
Proof. destruct res as [[[|] n] t]; reflexivity. Qed.

Lemma degrade_err (res : created) :
  fst (fst res) = AGBNP_ERR -> degrade res = (AGBNP_OK, 0%Z, snd res).
Proof. destruct res as [[[|] n] t]; simpl; intros H; congruence. Qed.






End CreateFacts.


(** ** Index sort *)

Section SortFacts.
Import WaterSites NeighborLists.
#[local] Open Scope R_scope.

Variable val : list R.

Lemma fcompare_le_iff (i j : Z) :
  (agbnp3_fcompare val i j <= 0)%Z <-> (key_le val) i j.
Proof.
  unfold agbnp3_fcompare, key_le.
  destruct (Rlt_dec (rd val i) (rd val j)) as [H|H]; [split; [auto|lia]|].
  destruct (Rgt_dec (rd val i) (rd val j)) as [H'|H'];
    [split; [lia | intros [?|[? ?]]; lra]|].
  assert (E : rd val i = rd val j) by lra.
  destruct (i <? j)%Z eqn:E1.
  - apply Z.ltb_lt in E1. split; [right; split; auto; lia | lia].
  - apply Z.ltb_ge in E1. destruct (i >? j)%Z eqn:E2.
    + rewrite Z.gtb_ltb in E2. apply Z.ltb_lt in E2.
      split; [lia | intros [?|[? ?]]; [lra | lia]].
    + rewrite Z.gtb_ltb in E2. apply Z.ltb_ge in E2.
      split; [right; split; auto; lia | lia].
Qed.

Lemma key_le_total (i j : Z) : (key_le val) i j \/ (key_le val) j i.
Proof.
  unfold key_le.
  destruct (Rtotal_order (rd val i) (rd val j)) as [H|[H|H]]; auto.
  destruct (Z.le_ge_cases i j); [left | right]; right; split; auto.
Qed.

Lemma key_le_trans (i j k : Z) : (key_le val) i j -> (key_le val) j k -> (key_le val) i k.
Proof.
  unfold key_le. intros [H1|[H1 H1']] [H2|[H2 H2']].
  - left; lra.
  - left; lra.
  - left; lra.
  - right; split; [lra | lia].
Qed.

Lemma qsort_insert_perm (a : Z) (l : list Z) :
  Permutation (a :: l) (qsort_insert (agbnp3_fcompare val) a l).
Proof.
  induction l as [|b t IH]; simpl; auto.
  destruct (agbnp3_fcompare val a b <=? 0)%Z; auto.
  eapply perm_trans; [apply perm_swap|]. auto.
Qed.

Lemma qsort_perm (l : list Z) : Permutation l (qsort (agbnp3_fcompare val) l).
Proof.
  induction l as [|a t IH]; simpl; auto.
  eapply perm_trans; [|apply qsort_insert_perm]. auto.
Qed.

Lemma qsort_insert_sorted (a : Z) (l : list Z) :
  Sorted (key_le val) l -> Sorted (key_le val) (qsort_insert (agbnp3_fcompare val) a l).
Proof.
  induction 1 as [|b t Hs IH Hhd]; simpl; auto.
  destruct (agbnp3_fcompare val a b <=? 0)%Z eqn:E.
  - apply Z.leb_le, fcompare_le_iff in E. auto.
  - apply Z.leb_gt in E.
    assert (Hba : (key_le val) b a).
    { destruct (key_le_total a b) as [H|H]; auto.
      apply fcompare_le_iff in H. lia. }
    constructor; auto.
    destruct t as [|c t']; simpl in *; auto.
    destruct (agbnp3_fcompare val a c <=? 0)%Z; constructor; auto.
    inversion Hhd; auto.
Qed.

Lemma qsort_sorted (l : list Z) :
  StronglySorted (key_le val) (qsort (agbnp3_fcompare val) l).
Proof.
  apply Sorted_StronglySorted; [exact key_le_trans|].
  induction l as [|a t IH]; simpl; [constructor|].
  apply qsort_insert_sorted; auto.
Qed.

End SortFacts.

Section ListOrderFacts.

Lemma StronglySorted_map {A B : Type} (R : A -> A -> Prop)
    (Q : B -> B -> Prop) (f : A -> B) (l : list A) :
  (forall a b, In a l -> In b l -> R a b -> Q (f a) (f b)) ->
  StronglySorted R l -> StronglySorted Q (map f l).
Proof.
  intros Hf Hs. induction Hs as [|a t Hs IH Hall]; simpl; constructor.
  - apply IH. intros; apply Hf; simpl; auto.
  - rewrite Forall_forall in *. intros y Hy.
    apply in_map_iff in Hy. destruct Hy as [b [<- Hb]].
    apply Hf; simpl; auto.
Qed.

Lemma StronglySorted_NoDup_strict {A : Type} (R : A -> A -> Prop)
    (l : list A) :
  StronglySorted R l -> NoDup l ->
  StronglySorted (fun a b => R a b /\ a <> b) l.
Proof.
  intros Hs Hn. induction Hs as [|a t Hs IH Hall]; constructor.
  - inversion Hn; auto.
  - inversion Hn as [|? ? Hnin Hnd]; subst.
    rewrite Forall_forall in *. intros y Hy. split; auto.
    intros ->. contradiction.
Qed.

Lemma StronglySorted_filter {A : Type} (R : A -> A -> Prop)
    (f : A -> bool) (l : list A) :
  StronglySorted R l -> StronglySorted R (filter f l).
Proof.
  induction 1 as [|a t Hs IH Hall]; simpl; [constructor|].
  destruct (f a); auto. constructor; auto.
  rewrite Forall_forall in *. intros y Hy.
  apply filter_In in Hy. apply Hall; tauto.
Qed.

(** In a strictly increasing list, positions and values are ordered
    alike. *)
Lemma StronglySorted_nth_lt (l : list Z) (i j : nat) :
  StronglySorted Z.lt l -> (i < j < length l)%nat ->
  (nth i l 0 < nth j l 0)%Z.
Proof.
  intros Hs. revert i j. induction Hs as [|a t Hs IH Hall]; intros i j H.
  - simpl in H; lia.
  - destruct j as [|j]; [lia|]. destruct i as [|i]; simpl in *.
    + rewrite Forall_forall in Hall. apply Hall. apply nth_In. lia.
    + apply IH. lia.
Qed.

End ListOrderFacts.

(** ** Near-neighbour lists *)

Section NeighborFacts.
Import WaterSites NeighborLists.
#[local] Open Scope R_scope.

Variable K : AGBNPconsts.
Variable agb : AGBNPdata.

Lemma atom_range_spec (n i : Z) : In i (atom_range n) <-> (0 <= i < n)%Z.
Proof.
  unfold atom_range. rewrite in_map_iff. split.
  - intros [k [<- Hk]]. apply in_seq in Hk. lia.
  - intros H. exists (Z.to_nat i). split; [lia|]. apply in_seq. lia.
Qed.

Lemma atom_range_NoDup (n : Z) : NoDup (atom_range n).
Proof.
  unfold atom_range. apply Finite.Injective_map_NoDup.
  - intros a b H. lia.
  - apply seq_NoDup.
Qed.

Lemma atom_range_length (n : Z) : length (atom_range n) = Z.to_nat n.
Proof. unfold atom_range. rewrite length_map, length_seq. reflexivity. Qed.

Lemma atoms_after_spec (iat nh j : Z) :
  In j (atoms_after iat nh) <-> (iat < j < nh)%Z.
Proof.
  unfold atoms_after. rewrite in_map_iff. split.
  - intros [k [<- Hk]]. apply in_seq in Hk. lia.
  - intros H. exists (Z.to_nat (j - iat - 1)). split; [lia|].
    apply in_seq. lia.
Qed.

Lemma atoms_after_increasing (iat nh : Z) :
  StronglySorted Z.lt (atoms_after iat nh).
Proof.
  unfold atoms_after. generalize (Z.to_nat (nh - iat - 1)) as m.
  intros m. generalize 0%nat as s. induction m as [|m IH]; intros s; simpl.
  - constructor.
  - constructor; [apply IH|].
    apply Forall_forall. intros y Hy. apply in_map_iff in Hy.
    destruct Hy as [k [<- Hk]]. apply in_seq in Hk. lia.
Qed.

(** The inner loop keeps the near atoms, in the order met, with their
    squared distances. *)
Lemma near_scan_spec (iat : Z) (jats : list Z) :
  fst (fst (near_scan K agb iat jats)) = filter (is_near K agb iat) jats /\
  snd (fst (near_scan K agb iat jats))
    = map (sqdist agb iat) (filter (is_near K agb iat) jats).
Proof.
  induction jats as [|j rest [IH1 IH2]]; simpl; auto.
  destruct (near_scan K agb iat rest) as [[nl0 r2v] far]. simpl in *.
  destruct (is_near K agb iat j); simpl; subst; auto.
Qed.

(** The list [neighl[iat]] the loop body writes for atom [iat]. *)
Lemma step_writes (st : nl_state) (iat : Z) :
  exists l,
    near_neighl (nl (neighbor_lists_step K agb st iat))
      = set_nth (Z.to_nat iat) l (near_neighl (nl st)) /\
    near_nne (nl (neighbor_lists_step K agb st iat))
      = set_nth (Z.to_nat iat) (Z.of_nat (length l)) (near_nne (nl st)) /\
    StronglySorted (nearer agb iat) l /\
    (forall jat, In jat l <->
       (iat < jat < nheavyat agb)%Z /\ is_near K agb iat jat = true).
Proof.
  unfold neighbor_lists_step.
  pose proof (near_scan_spec iat (atoms_after iat (nheavyat agb))) as [Hc Hr].
  destruct (near_scan K agb iat (atoms_after iat (nheavyat agb)))
    as [[cand r2v] far]. simpl in Hc, Hr.
  assert (Hinc : StronglySorted Z.lt cand).
  { rewrite Hc. apply StronglySorted_filter, atoms_after_increasing. }
  assert (Hmem : forall jat, In jat cand <->
            (iat < jat < nheavyat agb)%Z /\ is_near K agb iat jat = true).
  { intros jat. rewrite Hc, filter_In, atoms_after_spec. tauto. }
  assert (Hr' : r2v = map (sqdist agb iat) cand) by (rewrite Hr, Hc; auto).
  clear Hc Hr.
  set (n := Z.of_nat (length cand)).
  destruct (0 <? n)%Z eqn:En.
  - set (indx := agbnp3_fsortindx n r2v).
    assert (Hperm : Permutation (atom_range n) indx) by apply qsort_perm.
    assert (Hlen : length indx = length cand).
    { rewrite <- (Permutation_length Hperm), atom_range_length.
      subst n; lia. }
    assert (Hre : agbnp3_int_reorder n cand indx = map (fun k => zd cand k) indx).
    { unfold agbnp3_int_reorder.
      replace (Z.to_nat n) with (length indx) by (subst n; lia).
      rewrite firstn_all, Hlen, skipn_all, app_nil_r. reflexivity. }
    exists (map (fun k => zd cand k) indx). simpl. rewrite Hre.
    split; [reflexivity|]. split; [rewrite length_map, Hlen; reflexivity|].
    assert (Hrange : forall k, In k indx -> (0 <= k < n)%Z).
    { intros k Hk. apply atom_range_spec.
      eapply Permutation_in; [apply Permutation_sym; exact Hperm | exact Hk]. }
    split.
    + apply StronglySorted_map with
        (R := fun a b => key_le r2v a b /\ a <> b).
      * intros a b Ha Hb [Hle Hne].
        pose proof (Hrange a Ha) as Ra. pose proof (Hrange b Hb) as Rb.
        assert (Hv : forall k, (0 <= k < n)%Z ->
                  rd r2v k = sqdist agb iat (zd cand k)).
        { intros k Hk. unfold rd, zd. rewrite Hr'.
          rewrite (nth_indep _ 0 (sqdist agb iat 0%Z))
            by (rewrite length_map; subst n; lia).
          apply map_nth. }
        unfold key_le in Hle. rewrite !Hv in Hle by auto.
        unfold nearer. destruct Hle as [Hlt|[Heq Hij]]; [left; auto|].
        right; split; auto. unfold zd.
        apply StronglySorted_nth_lt; auto. subst n; lia.
      * apply StronglySorted_NoDup_strict; [apply qsort_sorted|].
        eapply Permutation_NoDup; [exact Hperm | apply atom_range_NoDup].
    + intros jat. rewrite <- Hmem. rewrite in_map_iff. split.
      * intros [k [<- Hk]]. unfold zd. apply nth_In.
        specialize (Hrange k Hk). subst n; lia.
      * intros Hj. destruct (In_nth _ _ 0%Z Hj) as [p [Hp Hnth]].
        exists (Z.of_nat p). split.
        -- unfold zd. rewrite Nat2Z.id. exact Hnth.
        -- eapply Permutation_in; [exact Hperm|].
           apply atom_range_spec. subst n; lia.
  - apply Z.ltb_ge in En. assert (cand = []) by (destruct cand; simpl in *; [auto | subst n; simpl in En; lia]).
    subst cand. exists []. simpl.
    split; [reflexivity|]. split; [reflexivity|]. split; [constructor|].
    intros jat. rewrite <- Hmem. simpl. tauto.
Qed.

Lemma step_lengths (st : nl_state) (iat : Z) :
  length (near_neighl (nl (neighbor_lists_step K agb st iat)))
    = length (near_neighl (nl st)) /\
  length (near_nne (nl (neighbor_lists_step K agb st iat)))
    = length (near_nne (nl st)).
Proof.
  destruct (step_writes st iat) as (l & H1 & H2 & _).
  rewrite H1, H2, !set_nth_length. auto.
Qed.

(** The loop over the heavy atoms: the list of an atom is as its own
    iteration left it. *)
Lemma neighbor_lists_loop (iats : list Z) :
  forall st i,
    (forall a, In a iats -> (0 <= a)%Z) -> (0 <= i)%Z ->
    (Z.to_nat i < length (near_neighl (nl st)))%nat ->
    (Z.to_nat i < length (near_nne (nl st)))%nat ->
    In i iats \/ near_list_ok K agb (nl st) i ->
    near_list_ok K agb (nl (fold_left (neighbor_lists_step K agb) iats st)) i.
Proof.
  induction iats as [|a rest IH]; intros st i Hpos Hi Hl1 Hl2 H; simpl.
  - destruct H as [[]|H]; exact H.
  - destruct (step_lengths st a) as [L1 L2].
    apply IH; try (rewrite ?L1, ?L2; auto); [intros; apply Hpos; simpl; auto|].
    destruct (in_dec Z.eq_dec i rest) as [Hin|Hnin]; [left; exact Hin|].
    right. destruct (step_writes st a) as (l & H1 & H2 & H3 & H4).
    unfold near_list_ok. rewrite H1, H2.
    destruct (Z.eq_dec i a) as [->|Hne].
    + rewrite !nth_set_nth_same by auto. auto.
    + assert (Z.to_nat a <> Z.to_nat i).
      { assert (0 <= a)%Z by (apply Hpos; simpl; auto). lia. }
      rewrite !nth_set_nth_other by auto.
      destruct H as [[Heq|Hin]|H]; [congruence | contradiction | exact H].
Qed.

(** *** The storage and the error flag *)

Lemma grow_error (fuel : nat) (alloc : nat -> bool) (need : Z) :
  forall error size nlsize calls e s n c,
    grow_near_list fuel alloc need error size nlsize calls
      = Some (e, s, n, c) ->
    e = error \/ e = 2%Z.
Proof.
  induction fuel as [|f IH]; intros error size nlsize calls e s n c H;
    simpl in H; [discriminate|].
  destruct (need >=? size)%Z.
  - destruct (c_int (1.2 * IZR size)) as [a|]; [|discriminate].
    unfold nblist_reallocate_neighbor_list in H.
    destruct (alloc calls); apply IH in H; destruct H; auto.
  - injection H as <- _ _ _. auto.
Qed.

Lemma grow_failed (fuel : nat) (alloc : nat -> bool) (need : Z) :
  forall size nlsize calls e s n c,
    grow_near_list fuel alloc need 2 size nlsize calls = Some (e, s, n, c) ->
    e = 2%Z.
Proof.
  intros size nlsize calls e s n c H. apply grow_error in H. tauto.
Qed.

Lemma iter_error (fuel : nat) (alloc : nat -> bool) (nsym : Z)
    (st st' : nb_state) (a : Z) :
  neighbor_lists_iter K fuel alloc nsym agb st a = Some st' ->
  (nb_error st <> 0%Z /\ st' = st) \/
  (nb_error st = 0%Z /\
   nb_lists st' = neighbor_lists_step K agb (nb_lists st) a /\
   (nb_error st' = 0%Z \/ nb_error st' = 2%Z)).
Proof.
  unfold neighbor_lists_iter. intros H.
  destruct (nb_error st =? 0)%Z eqn:E; simpl in H.
  - apply Z.eqb_eq in E. right. split; [exact E|].
    destruct (grow_near_list fuel alloc _ _ _ _ _) as [[[[e s] n] c]|] eqn:G;
      [|discriminate].
    injection H as <-. simpl. split; [reflexivity|].
    apply grow_error in G. rewrite E in G. exact G.
  - apply Z.eqb_neq in E. left. injection H as <-. auto.
Qed.

(** A run of the loop that ends with [error] clear has built the list of
    every atom in turn. *)
Lemma rounds_lists (fuel : nat) (alloc : nat -> bool) (nsym : Z)
    (iats : list Z) :
  forall st st',
    neighbor_lists_rounds K fuel alloc nsym agb iats st = Some st' ->
    nb_error st' = 0%Z ->
    nb_error st = 0%Z /\
    nb_lists st'
      = fold_left (neighbor_lists_step K agb) iats (nb_lists st).
Proof.
  induction iats as [|a rest IH]; intros st st' H E; simpl in H.
  - injection H as <-. auto.
  - destruct (neighbor_lists_iter K fuel alloc nsym agb st a) as [st1|] eqn:I;
      [|discriminate].
    destruct (IH _ _ H E) as [E1 L]. apply iter_error in I.
    destruct I as [[N ->]|(E0 & L1 & _)]; [contradiction|].
    split; [exact E0|]. simpl. rewrite <- L1. exact L.
Qed.

Lemma rounds_error (fuel : nat) (alloc : nat -> bool) (nsym : Z)
    (iats : list Z) :
  forall st st',
    neighbor_lists_rounds K fuel alloc nsym agb iats st = Some st' ->
    nb_error st = 0%Z \/ nb_error st = 2%Z ->
    nb_error st' = 0%Z \/ nb_error st' = 2%Z.
Proof.
  induction iats as [|a rest IH]; intros st st' H E; simpl in H.
  - injection H as <-. exact E.
  - destruct (neighbor_lists_iter K fuel alloc nsym agb st a) as [st1|] eqn:I;
      [|discriminate].
    apply (IH _ _ H). apply iter_error in I.
    destruct I as [[_ ->]|(_ & _ & E1)]; assumption.
Qed.

(** Once [error] is set the remaining atoms are skipped. *)
Lemma rounds_skipped (fuel : nat) (alloc : nat -> bool) (nsym : Z)
    (iats : list Z) (st : nb_state) :
  nb_error st <> 0%Z ->
  neighbor_lists_rounds K fuel alloc nsym agb iats st = Some st.
Proof.
  intros N. induction iats as [|a rest IH]; simpl; [reflexivity|].
  unfold neighbor_lists_iter. apply Z.eqb_neq in N. rewrite N. simpl.
  exact IH.
Qed.

(** With allocations that succeed the reallocation loop ends after at most
    two reallocations, with room for the lists of one more atom. *)
Lemma grow_returns (fuel : nat) (alloc : nat -> bool) (need : Z)
    (size nlsize : Z) (calls : nat) :
  (forall k, alloc k = true) ->
  (3 <= fuel)%nat -> (0 <= size)%Z -> (5 <= need < 2 ^ 30)%Z ->
  exists s n c,
    grow_near_list fuel alloc need 0 size nlsize calls = Some (0%Z, s, n, c) /\
    (0 <= s)%Z.
Proof.
  intros Hall Hf Hs Hn.
  assert (Hc : forall z, (0 <= z <= need)%Z ->
            c_int (1.2 * IZR z) = Some (c_trunc (1.2 * IZR z)) /\
            (z <= c_trunc (1.2 * IZR z))%Z).
  { intros z Hz.
    assert (0 <= IZR z <= IZR need) by (split; apply IZR_le; lia).
    assert (IZR need < IZR (2 ^ 30)) by (apply IZR_lt; lia).
    assert (IZR (2 ^ 30) * 2 = IZR (2 ^ 31))
      by (rewrite <- mult_IZR; f_equal).
    assert (IZR (- 2 ^ 31) = - IZR (2 ^ 31)) by (rewrite <- opp_IZR; f_equal).
    assert (0 < IZR (2 ^ 31)) by (apply IZR_lt; lia).
    split.
    - apply c_int_defined. unfold int_range. split; lra.
    - eapply Z.le_trans; [|apply Int_part_le_c_trunc].
      destruct (base_Int_part (1.2 * IZR z)) as [_ B].
      assert (IZR z < IZR (Int_part (1.2 * IZR z)) + 1) by lra.
      rewrite <- plus_IZR in *. apply lt_IZR in H4. lia. }
  assert (Hc5 : (need < c_trunc (1.2 * IZR need))%Z).
  { eapply Z.lt_le_trans; [|apply Int_part_le_c_trunc].
    destruct (base_Int_part (1.2 * IZR need)) as [_ B].
    assert (5 <= IZR need) by (apply IZR_le; lia).
    assert (IZR need < IZR (Int_part (1.2 * IZR need))) by lra.
    apply lt_IZR in H0. exact H0. }
  destruct fuel as [|[|[|f]]]; try lia.
  cbn [grow_near_list].
  destruct (need >=? size)%Z eqn:E1.
  2:{ exists size, nlsize, calls. split; [reflexivity | exact Hs]. }
  apply Z.geb_le in E1.
  destruct (Hc size (conj Hs E1)) as [-> Ha].
  unfold nblist_reallocate_neighbor_list. rewrite !Hall.
  set (a := c_trunc (1.2 * IZR size)) in *.
  destruct (a >? need)%Z eqn:E2.
  - apply Z.gtb_lt in E2.
    replace (need >=? a)%Z with false by (rewrite Z.geb_leb; symmetry; apply Z.leb_gt; lia).
    exists a, a, (S calls). split; [reflexivity | lia].
  - replace (need >=? need)%Z with true by (symmetry; apply Z.geb_le; lia).
    destruct (Hc need) as [-> _]; [lia|].
    replace (c_trunc (1.2 * IZR need) >? need)%Z with true
      by (symmetry; apply Z.gtb_lt; exact Hc5).
    replace (need >=? c_trunc (1.2 * IZR need))%Z with false
      by (rewrite Z.geb_leb; symmetry; apply Z.leb_gt; lia).
    eexists _, _, _. split; [reflexivity | lia].
Qed.

Lemma step_count (st : nl_state) (a : Z) :
  (0 <= a)%Z -> (0 <= nheavyat agb)%Z ->
  (nnl st <= nnl (neighbor_lists_step K agb st a)
          <= nnl st + nheavyat agb)%Z.
Proof.
  intros Ha Hn. unfold neighbor_lists_step.
  pose proof (near_scan_spec a (atoms_after a (nheavyat agb))) as [Hc _].
  destruct (near_scan K agb a (atoms_after a (nheavyat agb)))
    as [[cand r2v] far]. simpl in Hc. simpl.
  assert (length cand <= length (atoms_after a (nheavyat agb)))%nat
    by (rewrite Hc; apply filter_length_le).
  unfold atoms_after in H. rewrite length_map, length_seq in H. lia.
Qed.

Lemma rounds_return (fuel : nat) (alloc : nat -> bool) (nsym : Z)
    (iats : list Z) :
  (forall k, alloc k = true) -> (3 <= fuel)%nat ->
  (5 <= nsym * natoms agb)%Z -> (0 <= nheavyat agb)%Z ->
  forall st,
    (forall a, In a iats -> (0 <= a)%Z) ->
    nb_error st = 0%Z -> (0 <= nb_size st)%Z -> (0 <= nnl (nb_lists st))%Z ->
    (nnl (nb_lists st) + Z.of_nat (length iats) * nheavyat agb
       + nsym * natoms agb < 2 ^ 30)%Z ->
    exists st',
      neighbor_lists_rounds K fuel alloc nsym agb iats st = Some st' /\
      nb_error st' = 0%Z.
Proof.
  intros Hall Hf Hsym Hnh.
  induction iats as [|a rest IH]; intros st Hpos E Hs Hn Hb.
  - exists st. auto.
  - cbn [neighbor_lists_rounds]. unfold neighbor_lists_iter.
    rewrite E. cbn [Z.eqb negb].
    assert (Hl : (0 <= Z.of_nat (length rest) * nheavyat agb)%Z) by nia.
    cbn [length] in Hb. rewrite Nat2Z.inj_succ in Hb.
    destruct (grow_returns fuel alloc (nnl (nb_lists st) + nsym * natoms agb)
                (nb_size st) (nb_nlsize st) (nb_calls st) Hall Hf Hs)
      as (s & n & c & -> & Hs'); [nia|].
    pose proof (step_count (nb_lists st) a (Hpos a (or_introl eq_refl)) Hnh).
    apply IH; cbn [nb_error nb_size nb_lists]; try lia; try nia.
    intros b Hb'. apply Hpos. right. exact Hb'.
Qed.

(** *** The stages that follow *)

Lemma run_later_near (W : Type)
    (l : list (near_list -> W -> retcode * (near_list * W))) :
  Forall (fun stage => forall nlst w, fst (snd (stage nlst w)) = nlst) l ->
  forall nlst w, fst (snd (run_later W l nlst w)) = nlst.
Proof.
  induction 1 as [|stage rest Hs _ IH]; intros nlst w; simpl; [reflexivity|].
  specialize (Hs nlst w).
  destruct (stage nlst w) as [[|] [nlst' w']]; simpl in Hs; subst.
  - apply IH.
  - reflexivity.
Qed.

Lemma rest_of_evaluation_near (W : Type) (S1 : source_stages W)
    (S2 : spec_stages W) (nlst : near_list) (w : W) :
  fst (snd (rest_of_evaluation W S1 S2 nlst w)) = nlst.
Proof.
  unfold rest_of_evaluation. apply run_later_near.
  unfold later_stages. repeat constructor.
Qed.

(** C7. Whenever [agbnp3_neighbor_lists] returns [AGBNP_OK], the
    near-neighbour list of every heavy atom holds exactly the near atoms of
    higher index, in ascending order of squared distance to that atom, ties
    in ascending index, whatever reallocations of the storage took place
    on the way; the stages that follow in the evaluation leave the near
    list as it is, so the order holds until the next call resets the
    lists.  The call does return [AGBNP_OK] when the allocations succeed,
    and returns [AGBNP_ERR] when the first reallocation of a storage that
    is too small fails, or when there is no [q4cache] and its allocation
    fails. *)
Theorem near_lists_sorted (fuel : nat) (alloc : nat -> bool)
    (q4alloc : bool) (nsym : Z) (old : near_list) (size0 : Z)
    (q4cache : option Z) (iat : Z) :
  (0 <= iat < nheavyat agb)%Z ->
  (nheavyat agb <= natoms agb)%Z ->
  (Z.to_nat (natoms agb) <= length (near_neighl old))%nat ->
  let run :=
    agbnp3_neighbor_lists K fuel alloc q4alloc nsym agb old size0 q4cache in
  (forall st q4,
     run = Some (AGBNP_OK, st, q4) ->
     near_list_ok K agb (nl (nb_lists st)) iat /\
     forall (W : Type) (S1 : source_stages W) (S2 : spec_stages W) (w : W),
       let after := rest_of_evaluation W S1 S2 (nl (nb_lists st)) w in
       fst (snd after) = nl (nb_lists st) /\
       near_list_ok K agb (fst (snd after)) iat) /\
  ((forall k, alloc k = true) -> q4alloc = true ->
   (0 <= size0)%Z -> (5 <= nsym * natoms agb)%Z ->
   (nheavyat agb * nheavyat agb + nsym * natoms agb < 2 ^ 30)%Z ->
   (3 <= fuel)%nat ->
   exists st q4, run = Some (AGBNP_OK, st, q4)) /\
  (forall r,
     run = Some r ->
     (alloc 0%nat = false /\ (size0 <= nsym * natoms agb)%Z) \/
     (q4alloc = false /\ q4cache = None) ->
     fst (fst r) = AGBNP_ERR).
Proof.
  intros Hi Hn Hlen run. subst run. unfold agbnp3_neighbor_lists.
  set (st0 := mkNb (mkNlState 0 0
                      (mkNear (repeat 0%Z (Z.to_nat (natoms agb)))
                         (near_neighl old))) 0 size0 0 0).
  split; [|split].
  - intros st q4 H.
    destruct (neighbor_lists_rounds K fuel alloc nsym agb
                (atom_range (nheavyat agb)) st0) as [st1|] eqn:R;
      [|discriminate].
    assert (E : nb_error st1 = 0%Z /\ st1 = st).
    { pose proof (rounds_error _ _ _ _ _ _ R (or_introl eq_refl)) as [E|E];
        rewrite E in H; simpl in H.
      - split; [exact E|].
        destruct q4cache as [nq|]; [destruct (_ >? nq)%Z|];
          try destruct q4alloc; congruence.
      - discriminate. }
    destruct E as [E ->].
    destruct (rounds_lists _ _ _ _ _ _ R E) as [_ L].
    assert (Hok : near_list_ok K agb (nl (nb_lists st)) iat).
    { rewrite L. apply neighbor_lists_loop; simpl.
      - intros a Ha. apply atom_range_spec in Ha. lia.
      - lia.
      - lia.
      - rewrite repeat_length. lia.
      - left. apply atom_range_spec. exact Hi. }
    split; [exact Hok|]. intros W S1 S2 w.
    rewrite rest_of_evaluation_near. auto.
  - intros Hall Hq Hs Hsym Hb Hf.
    destruct (rounds_return fuel alloc nsym (atom_range (nheavyat agb))
                Hall Hf Hsym ltac:(lia) st0) as (st1 & -> & E);
      simpl; try lia.
    + intros a Ha. apply atom_range_spec in Ha. lia.
    + rewrite atom_range_length. lia.
    + rewrite E, Hq. simpl.
      destruct q4cache as [nq|]; [destruct (_ >? nq)%Z|]; eauto.
  - intros r H Hfail.
    destruct (neighbor_lists_rounds K fuel alloc nsym agb
                (atom_range (nheavyat agb)) st0) as [st1|] eqn:R;
      [|discriminate].
    destruct Hfail as [[Ha Hs]|[-> ->]].
    + assert (E : nb_error st1 = 2%Z).
      { assert (Hr : atom_range (nheavyat agb)
                     = 0%Z :: map (fun k => Z.of_nat k)
                                (seq 1 (Z.to_nat (nheavyat agb) - 1))).
        { unfold atom_range.
          destruct (Z.to_nat (nheavyat agb)) as [|m] eqn:Em; [lia|].
          simpl. rewrite Nat.sub_0_r. reflexivity. }
        rewrite Hr in R. cbn [neighbor_lists_rounds] in R.
        unfold neighbor_lists_iter in R. simpl nb_error in R.
        cbn [Z.eqb negb] in R. simpl in R.
        destruct fuel as [|f]; [discriminate|]. cbn [grow_near_list] in R.
        replace (nsym * natoms agb >=? size0)%Z with true in R
          by (symmetry; apply Z.geb_le; lia).
        destruct (c_int (1.2 * IZR size0)) as [a|]; [|discriminate].
        unfold nblist_reallocate_neighbor_list in R. rewrite Ha in R.
        destruct (grow_near_list f alloc _ 2 _ _ _)
          as [[[[e s] n] c]|] eqn:G; [|discriminate].
        apply grow_failed in G. subst e.
        rewrite rounds_skipped in R by (simpl; lia).
        injection R as <-. reflexivity. }
      rewrite E in H. simpl in H. injection H as <-. reflexivity.
    + destruct ((1 <=? nb_error st1)%Z && (nb_error st1 <=? 7)%Z);
        injection H as <-; reflexivity.
Qed.

End NeighborFacts.

Section NeighborExamples.
Import WaterSites NeighborLists.
#[local] Open Scope R_scope.

Ltac decide_reals :=
  repeat match goal with
         | |- context [Rlt_dec ?a ?b] => destruct (Rlt_dec a b); try lra
         | |- context [Rgt_dec ?a ?b] => destruct (Rgt_dec a b); try lra
         end.

(** Atom 0 of the sample has atoms 1 and 2 as near neighbours; atom 2 is
    the nearer one and comes first.  The storage has room, there is no
    [q4cache] yet and its allocation succeeds. *)
Example near_lists_three_atoms :
  option_map (fun r => (fst (fst r), near_neighl (nl (nb_lists (snd (fst r))))))
    (agbnp3_neighbor_lists Samples.sample_consts 3 (fun _ => true) true 2
       Samples.three_atoms Samples.empty_near_list 100 None)
  = Some (AGBNP_OK, [[2; 1]%Z; [2%Z]; []]).
Proof.
  unfold agbnp3_neighbor_lists, Samples.three_atoms. simpl.
  unfold neighbor_lists_iter. simpl.
  unfold neighbor_lists_step. simpl.
  unfold is_near, sqdist, rd; simpl. decide_reals. simpl.
  unfold agbnp3_int_reorder, agbnp3_fsortindx, qsort, agbnp3_fcompare, rd, zd.
  simpl. decide_reals. simpl. decide_reals. reflexivity.
Qed.

(** The theorem at work on the three-atom sample. *)
Lemma near_lists_sorted_witness :
  exists st q4,
    agbnp3_neighbor_lists Samples.sample_consts 3 (fun _ => true) true 2
      Samples.three_atoms Samples.empty_near_list 100 None
      = Some (AGBNP_OK, st, q4) /\
    near_list_ok Samples.sample_consts Samples.three_atoms
      (nl (nb_lists st)) 0.
Proof.
  destruct (near_lists_sorted Samples.sample_consts Samples.three_atoms
              3 (fun _ => true) true 2 Samples.empty_near_list 100 None 0)
    as [Hok [Hret _]]; [simpl; lia | simpl; lia | simpl; lia |].
  destruct Hret as (st & q4 & E);
    [reflexivity | reflexivity | lia | simpl; lia | simpl; lia | lia |].
  exists st, q4. split; [exact E|]. exact (proj1 (Hok st q4 E)).
Defined.

End NeighborExamples.

(** ** Free volume of a water site *)

Section FreeVolumeFacts.
Import WaterSites NeighborLists FreeVolume.
#[local] Open Scope R_scope.

Variable K : AGBNPconsts.

Lemma volpcoeff_from_nth (n : nat) :
  forall (sign : R) (k : nat),
    (k < n)%nat -> nth k (volpcoeff_from n sign) 0 = sign * (-1) ^ k.
Proof.
  induction n as [|n IH]; intros sign k Hk; [lia|].
  destruct k as [|k]; simpl; [ring|].
  rewrite IH by lia. ring.
Qed.

(** The coefficient of order [order] is [(-1)^(order-1)]. *)
Lemma volpcoeff_sign (order : nat) :
  (1 <= order <= AGBNP_MAX_OVERLAP_LEVEL K)%nat ->
  nth (order - 1) (volpcoeff K) 0 = (-1) ^ (order - 1).
Proof.
  intros H. unfold volpcoeff. rewrite volpcoeff_from_nth by lia. ring.
Qed.

#[local] Open Scope Z_scope.

Lemma chain_weight_nonneg (nn v : Z) : 0 <= chain_weight nn v.
Proof.
  unfold chain_weight.
  assert (0 < 2 ^ Z.max 0 (nn - v)) by (apply Z.pow_pos_nonneg; lia). lia.
Qed.

Lemma chain_weight_out (nn v : Z) : nn <= v -> chain_weight nn v = 0.
Proof.
  intros H. unfold chain_weight. replace (Z.max 0 (nn - v)) with 0 by lia.
  reflexivity.
Qed.

Lemma chain_weight_step (nn v : Z) :
  v < nn -> chain_weight nn v = 2 * chain_weight nn (v + 1) + 1.
Proof.
  intros H. unfold chain_weight.
  replace (Z.max 0 (nn - v)) with (Z.succ (nn - (v + 1))) by lia.
  replace (Z.max 0 (nn - (v + 1))) with (nn - (v + 1)) by lia.
  rewrite Z.pow_succ_r by lia. lia.
Qed.

Lemma lower_weight_nonneg (nn : Z) (m : nat) (g : list Z) :
  0 <= lower_weight nn m g.
Proof.
  induction m as [|m IH]; simpl; [lia|].
  pose proof (chain_weight_nonneg nn (nth (S m) g 0 + 1)). lia.
Qed.

Lemma lower_weight_set_above (nn : Z) (m i : nat) (v : Z) (g : list Z) :
  (m < i)%nat -> lower_weight nn m (set_nth i v g) = lower_weight nn m g.
Proof.
  intros H. induction m as [|m IH]; simpl; [reflexivity|].
  rewrite nth_set_nth_other by lia. rewrite IH by lia. reflexivity.
Qed.

Lemma ws_pop_eq (nn : Z) (o : nat) (g : list Z) :
  ws_pop nn (S (S o)) g =
  if nn <=? nth (S o) g 0
  then ws_pop nn (S o) (set_nth o (nth o g 0 + 1) g)
  else (S (S o), g).
Proof. reflexivity. Qed.

(** The inner loop keeps the measure and the length of [gnlist]; at its
    exit the order is 1 or the index at the top is a valid one. *)
Lemma ws_pop_spec (nn : Z) (order : nat) :
  forall g,
    (order <= length g)%nat ->
    let '(o', g') := ws_pop nn order g in
    length g' = length g /\
    (o' <= order)%nat /\
    ((1 <= order)%nat -> (1 <= o')%nat) /\
    ((1 < o')%nat -> nth (o' - 1) g' 0 < nn) /\
    loop_measure nn o' g' = loop_measure nn order g.
Proof.
  induction order as [|o1 IH]; intros g Hlen.
  - simpl. repeat split; auto; lia.
  - destruct o1 as [|o].
    + simpl. repeat split; auto; lia.
    + rewrite ws_pop_eq.
      destruct (nn <=? nth (S o) g 0) eqn:E.
      * apply Z.leb_le in E.
        set (g1 := set_nth o (nth o g 0 + 1) g).
        assert (Hl1 : length g1 = length g) by apply set_nth_length.
        specialize (IH g1 ltac:(lia)).
        destruct (ws_pop nn (S o) g1) as [o' g'].
        destruct IH as (I1 & I2 & I3 & I4 & I5).
        split; [congruence|]. split; [lia|].
        split; [intros _; apply I3; lia|]. split; [exact I4|].
        rewrite I5. subst g1.
        destruct o as [|o'']; cbn [loop_measure lower_weight].
        -- rewrite chain_weight_out by lia. reflexivity.
        -- rewrite lower_weight_set_above by lia.
           rewrite nth_set_nth_same by lia.
           rewrite (chain_weight_out nn (nth (S (S o'')) g 0)) by lia. lia.
      * apply Z.leb_gt in E.
        split; [reflexivity|]. split; [lia|]. split; [lia|].
        split; [|reflexivity].
        intros _. replace (S (S o) - 1)%nat with (S o) by lia. lia.
Qed.

Lemma ws_overlap_frame (w : ws_work) (order : nat) :
  w_order (snd (ws_overlap K w order)) = w_order w /\
  w_gnlist (snd (ws_overlap K w order)) = w_gnlist w /\
  w_free_volume (snd (ws_overlap K w order)) = w_free_volume w.
Proof. unfold ws_overlap; simpl; auto. Qed.

(** One pass through the loop body: the invariant is kept, the measure
    goes down, and the free volume changes by the recorded term only. *)
Lemma ws_body_spec (agb : AGBNPdata) (nn : Z) (nlist : list Z) (w : ws_work) :
  loop_inv K nn w -> (1 < w_order w)%nat ->
  let '(w', term) := ws_body K agb nn nlist w in
  loop_inv K nn w' /\
  loop_measure nn (w_order w') (w_gnlist w')
    < loop_measure nn (w_order w) (w_gnlist w) /\
  match term with
  | Some t =>
      fst t = w_order w /\ term_ok K t /\
      w_free_volume w'
        = (w_free_volume w + nth (fst t - 1) (volpcoeff K) 0 * snd t)%R
  | None => w_free_volume w' = w_free_volume w
  end.
Proof.
  intros (Hord & Hlen & Htop) Hgt. specialize (Htop Hgt).
  unfold ws_body.
  match goal with |- context [ws_overlap K ?w1 ?o] =>
    pose proof (ws_overlap_frame w1 o) as (F1 & F2 & F3);
    destruct (ws_overlap K w1 o) as [gvol w2] end.
  simpl in F1, F2, F3.
  destruct (w_order w) as [|[|o]] eqn:Eo; try lia.
  replace (S (S o) - 1)%nat with (S o) in * by lia.
  rewrite F2, F3.
  set (g := w_gnlist w) in *.
  destruct (Rgtb (1 * gvol) FLT_MIN && (S (S o) <? AGBNP_MAX_OVERLAP_LEVEL K)%nat)
    eqn:Ec.
  - apply andb_prop in Ec. destruct Ec as [Eg El].
    apply Nat.ltb_lt in El.
    unfold Rgtb in Eg. destruct (Rgt_dec (1 * gvol) FLT_MIN) as [Hg|]; [|discriminate].
    set (g1 := set_nth (S (S o)) (nth (S o) g 0 + 1) g).
    assert (Hl1 : length g1 = length g) by apply set_nth_length.
    pose proof (ws_pop_spec nn (S (S (S o))) g1 ltac:(lia)) as Hp.
    destruct (ws_pop nn (S (S (S o))) g1) as [o2 g2].
    destruct Hp as (P1 & P2 & P3 & P4 & P5).
    cbn [w_order w_gnlist w_free_volume fst snd].
    split; [|split].
    + unfold loop_inv. cbn [w_order w_gnlist].
      split; [lia|]. split; [lia|]. exact P4.
    + rewrite P5. subst g1. cbn [loop_measure lower_weight].
      rewrite lower_weight_set_above by lia.
      rewrite nth_set_nth_other by lia.
      rewrite nth_set_nth_same by lia.
      rewrite (chain_weight_step nn (nth (S o) g 0)) by lia. lia.
    + split; [reflexivity|]. split; [|reflexivity].
      unfold term_ok; simpl. split; [lia|]. lra.
  - set (g1 := set_nth (S o) (nth (S o) g 0 + 1) g).
    assert (Hl1 : length g1 = length g) by apply set_nth_length.
    pose proof (ws_pop_spec nn (S (S o)) g1 ltac:(lia)) as Hp.
    destruct (ws_pop nn (S (S o)) g1) as [o2 g2].
    destruct Hp as (P1 & P2 & P3 & P4 & P5).
    cbn [w_order w_gnlist w_free_volume fst snd].
    split; [|split; [|reflexivity]].
    + unfold loop_inv. cbn [w_order w_gnlist].
      split; [lia|]. split; [lia|]. exact P4.
    + rewrite P5. subst g1. cbn [loop_measure].
      rewrite lower_weight_set_above by lia.
      rewrite nth_set_nth_same by lia.
      rewrite (chain_weight_step nn (nth (S o) g 0)) by lia.
      pose proof (chain_weight_nonneg nn (nth (S o) g 0 + 1)). lia.
Qed.

Lemma loop_measure_nonneg (nn : Z) (order : nat) (g : list Z) :
  0 <= loop_measure nn order g.
Proof.
  destruct order as [|[|o]]; simpl; try lia.
  pose proof (lower_weight_nonneg nn o g).
  pose proof (chain_weight_nonneg nn (nth (S o) g 0)). lia.
Qed.

(** The loop returns once the fuel exceeds the measure; the free volume at
    its exit is the one at its entry plus the signed sum of the recorded
    terms. *)
Lemma ws_loop_spec (agb : AGBNPdata) (nn : Z) (nlist : list Z) :
  forall (fuel : nat) (w : ws_work),
    loop_inv K nn w ->
    loop_measure nn (w_order w) (w_gnlist w) < Z.of_nat fuel ->
    exists wf terms,
      ws_loop K fuel agb nn nlist w = Some (wf, terms) /\
      w_free_volume wf = (w_free_volume w + signed_sum terms)%R /\
      Forall (term_ok K) terms.
Proof.
  induction fuel as [|f IH]; intros w Hinv Hm.
  - pose proof (loop_measure_nonneg nn (w_order w) (w_gnlist w)). lia.
  - cbn [ws_loop].
    destruct (negb (nn =? 0) && (1 <? w_order w)%nat) eqn:Ec.
    + apply andb_prop in Ec. destruct Ec as [_ Eo]. apply Nat.ltb_lt in Eo.
      pose proof (ws_body_spec agb nn nlist w Hinv Eo) as Hb.
      destruct (ws_body K agb nn nlist w) as [w' term].
      destruct Hb as (Hinv' & Hdec & Hterm).
      destruct (IH w' Hinv' ltac:(lia)) as (wf & terms & Hrun & Hfv & Hok).
      rewrite Hrun. destruct term as [t|].
      * exists wf, (t :: terms). destruct Hterm as (Ht1 & Ht2 & Ht3).
        split; [reflexivity|]. split; [|constructor; auto].
        rewrite Hfv, Ht3. cbn [signed_sum fold_right].
        rewrite volpcoeff_sign by (unfold term_ok in Ht2; lia).
        fold (signed_sum terms). ring.
      * exists wf, terms. split; [reflexivity|]. split; [|auto].
        rewrite Hfv, Hterm. reflexivity.
    + exists w, []. split; [reflexivity|]. split; [|constructor].
      simpl. ring.
Qed.

Lemma ws_gather_frame (agb : AGBNPdata) (wsat : WSat) (heavy : list Z) :
  forall w nlist r2v,
    w_gnlist (fst (fst (ws_gather K agb wsat heavy w nlist r2v))) = w_gnlist w /\
    w_free_volume (fst (fst (ws_gather K agb wsat heavy w nlist r2v)))
      = w_free_volume w.
Proof.
  induction heavy as [|iat rest IH]; intros w nlist r2v;
    [simpl; auto|]. cbn [ws_gather].
  destruct (Rlt_dec _ _); [|apply IH].
  match goal with |- context [ws_overlap K ?w1 ?o] =>
    pose proof (ws_overlap_frame w1 o) as (F1 & F2 & F3);
    destruct (ws_overlap K w1 o) as [gvol w2] end.
  simpl in F2, F3.
  destruct (Rgt_dec _ _);
    match goal with |- context [ws_gather K agb wsat rest w2 ?a ?b] =>
      destruct (IH w2 a b) as [G1 G2] end;
    rewrite G1, G2; auto.
Qed.

Lemma ws_neighbors_frame (agb : AGBNPdata) (wsat : WSat) (init : Z)
    (w : ws_work) :
  (0 <= nneigh wsat)%Z ->
  let res := ws_neighbors K agb wsat init w in
  w_gnlist (fst res) = w_gnlist w /\
  w_free_volume (fst res) = w_free_volume w /\
  volume (snd res) = volume wsat /\
  (0 <= nneigh (snd res))%Z.
Proof.
  intros Hn. unfold ws_neighbors.
  destruct (negb (init =? 0)); simpl; auto.
  pose proof (ws_gather_frame agb wsat
                (firstn (Z.to_nat (nheavyat agb)) (iheavyat agb)) w [] [])
    as [G1 G2].
  destruct (ws_gather K agb wsat _ w [] []) as [[w1 nlist0] r2v].
  simpl in *. repeat split; auto. lia.
Qed.

End FreeVolumeFacts.

(** ** The overlap loop computes the inclusion-exclusion sum *)

Section ChainSumFacts.
Import WaterSites NeighborLists FreeVolume.
#[local] Open Scope R_scope.

Variable K : AGBNPconsts.
Variable agb : AGBNPdata.
Variable nn : Z.
Variable nlist : list Z.

(** One call of the overlap routine inside the loop reads the entries
    [order-1] of its arrays and [gparams[order-2]] only. *)
Lemma ws_overlap_chain (w1 : ws_work) (o : nat) (g : GParm) (jat : Z) :
  (2 <= o)%nat ->
  nth (o - 1) (w_gx w1) vzero = xyz agb jat ->
  nth (o - 1) (w_ga w1) 0 = KFC K / (rd (r agb) jat * rd (r agb) jat) ->
  nth (o - 1) (w_gp w1) 0 = PFC K ->
  nth (o - 2) (w_gparams w1) GParm_zero = g ->
  let res := ws_overlap K w1 o in
  fst res = fst (chain_overlap K agb g jat) /\
  mkGParm (w_an (snd res)) (w_pn (snd res)) (w_cn (snd res))
  = snd (chain_overlap K agb g jat) /\
  w_order (snd res) = w_order w1 /\ w_gnlist (snd res) = w_gnlist w1 /\
  w_gatlist (snd res) = w_gatlist w1 /\ w_gx (snd res) = w_gx w1 /\
  w_ga (snd res) = w_ga w1 /\ w_gp (snd res) = w_gp w1 /\
  w_gr (snd res) = w_gr w1 /\ w_gparams (snd res) = w_gparams w1 /\
  w_free_volume (snd res) = w_free_volume w1.
Proof.
  intros Ho Hx Ha Hp Hg res. subst res.
  unfold ws_overlap, chain_overlap, agbnp3_ogauss_incremental.
  rewrite Hg.
  destruct (Z.of_nat o <? 2)%Z eqn:E; [apply Z.ltb_lt in E; lia|].
  change (2 <? 2)%Z with false. cbv iota.
  rewrite Nat2Z.id. change (Z.to_nat 2 - 1)%nat with 1%nat.
  cbn [nth]. rewrite Hx, Ha, Hp.
  destruct (agbnp3_swf_vol3 _ _ _) as [[volp fp] fpp].
  destruct (Rlt_dec volp FLT_MIN); cbn; repeat split; reflexivity.
Qed.

Lemma ws_pop_above (o : nat) :
  forall (G : list Z) (i : nat),
    (o - 1 <= i)%nat ->
    nth i (snd (ws_pop nn o G)) 0%Z = nth i G 0%Z.
Proof.
  induction o as [|o1 IH]; intros G i Hi; [reflexivity|].
  destruct o1 as [|o]; [reflexivity|].
  rewrite ws_pop_eq.
  destruct (nn <=? nth (S o) G 0)%Z; [|reflexivity].
  rewrite IH by lia. apply nth_set_nth_other. lia.
Qed.

Lemma length_ws_pop (o : nat) :
  forall G : list Z, length (snd (ws_pop nn o G)) = length G.
Proof.
  induction o as [|o1 IH]; intros G; [reflexivity|].
  destruct o1 as [|o]; [reflexivity|].
  rewrite ws_pop_eq.
  destruct (nn <=? nth (S o) G 0)%Z; [|reflexivity].
  rewrite IH. apply set_nth_length.
Qed.

(** The inner loop reads the entries below [order] only. *)
Lemma ws_pop_agree (o : nat) :
  forall G1 G2 : list Z,
    (o <= length G1)%nat -> (o <= length G2)%nat ->
    (forall i, (i < o)%nat -> nth i G1 0%Z = nth i G2 0%Z) ->
    fst (ws_pop nn o G1) = fst (ws_pop nn o G2) /\
    forall i, (i < o)%nat ->
      nth i (snd (ws_pop nn o G1)) 0%Z = nth i (snd (ws_pop nn o G2)) 0%Z.
Proof.
  induction o as [|o1 IH]; intros G1 G2 L1 L2 H.
  - split; [reflexivity|]. intros i Hi. lia.
  - destruct o1 as [|o].
    + split; [reflexivity|]. exact H.
    + rewrite !ws_pop_eq. rewrite <- (H (S o)) by lia.
      destruct (nn <=? nth (S o) G1 0)%Z; [|split; [reflexivity | exact H]].
      set (G1' := set_nth o (nth o G1 0 + 1)%Z G1).
      set (G2' := set_nth o (nth o G2 0 + 1)%Z G2).
      assert (H' : forall i, (i < S o)%nat -> nth i G1' 0%Z = nth i G2' 0%Z).
      { intros i Hi. unfold G1', G2'.
        destruct (Nat.eq_dec i o) as [->|Hne].
        - rewrite !nth_set_nth_same by lia. rewrite (H o) by lia. reflexivity.
        - rewrite !nth_set_nth_other by lia. apply H. lia. }
      destruct (IH G1' G2') as [I1 I2];
        [unfold G1'; rewrite set_nth_length; lia
        |unfold G2'; rewrite set_nth_length; lia | exact H' |].
      split; [exact I1|]. intros i Hi.
      destruct (Nat.eq_dec i (S o)) as [->|Hne]; [|apply I2; lia].
      rewrite !ws_pop_above by lia. unfold G1', G2'.
      rewrite !nth_set_nth_other by lia. apply H. lia.
Qed.

Lemma ws_reaches_trans (w1 w2 w3 : ws_work) :
  ws_reaches K agb nn nlist w1 w2 -> ws_reaches K agb nn nlist w2 w3 ->
  ws_reaches K agb nn nlist w1 w3.
Proof.
  intros H12 H23. induction H12 as [w|w w' Ho H IH]; [exact H23|].
  apply reaches_pass; [exact Ho|]. apply IH. exact H23.
Qed.

(** The loop returns the locals the passes reach, once they reach an order
    that ends it. *)
Lemma ws_loop_reaches (w w' : ws_work) :
  ws_reaches K agb nn nlist w w' -> (w_order w' <= 1)%nat -> nn <> 0%Z ->
  forall fuel wf terms,
    ws_loop K fuel agb nn nlist w = Some (wf, terms) -> wf = w'.
Proof.
  intros H Hend Hnn. induction H as [w|w w' Ho H IH]; intros fuel wf terms E.
  - destruct fuel as [|f]; [discriminate|]. cbn [ws_loop] in E.
    replace (1 <? w_order w)%nat with false in E
      by (symmetry; apply Nat.ltb_ge; exact Hend).
    rewrite andb_false_r in E. injection E as <- _. reflexivity.
  - destruct fuel as [|f]; [discriminate|]. cbn [ws_loop] in E.
    replace (1 <? w_order w)%nat with true in E
      by (symmetry; apply Nat.ltb_lt; exact Ho).
    replace (nn =? 0)%Z with false in E
      by (symmetry; apply Z.eqb_neq; exact Hnn).
    cbn [negb andb] in E.
    destruct (ws_body K agb nn nlist w) as [w1 term] eqn:Eb.
    cbn [fst] in H, IH.
    destruct (ws_loop K f agb nn nlist w1) as [[wf' terms']|] eqn:El;
      [|discriminate].
    injection E as <- _. apply (IH Hend f wf' terms' El).
Qed.

(** One pass through the body, in terms of [chain_overlap]. *)
Lemma ws_body_chain (w : ws_work) (o : nat) :
  (2 <= o <= AGBNP_MAX_OVERLAP_LEVEL K)%nat -> work_sized K w -> w_order w = o ->
  let j := nth (o - 1) (w_gnlist w) 0%Z in
  let g := nth (o - 2) (w_gparams w) GParm_zero in
  let ov := chain_overlap K agb g (zd nlist j) in
  let w' := fst (ws_body K agb nn nlist w) in
  work_sized K w' /\
  (forall i, (i < o - 1)%nat ->
     nth i (w_gparams w') GParm_zero = nth i (w_gparams w) GParm_zero) /\
  nth (o - 1) (w_gparams w') GParm_zero = snd ov /\
  (if Rgtb (fst ov) FLT_MIN && (o <? AGBNP_MAX_OVERLAP_LEVEL K)%nat
   then
     w_free_volume w' = w_free_volume w + (-1) ^ (o - 1) * fst ov /\
     w_order w' = fst (ws_pop nn (S o) (set_nth o (j + 1)%Z (w_gnlist w))) /\
     w_gnlist w' = snd (ws_pop nn (S o) (set_nth o (j + 1)%Z (w_gnlist w)))
   else
     w_free_volume w' = w_free_volume w /\
     w_order w'
     = fst (ws_pop nn o (set_nth (o - 1) (j + 1)%Z (w_gnlist w))) /\
     w_gnlist w'
     = snd (ws_pop nn o (set_nth (o - 1) (j + 1)%Z (w_gnlist w)))).
Proof.
  intros Ho (L1 & L2 & L3 & L4 & L5 & L6 & L7) Eo. cbv zeta.
  unfold ws_body. rewrite Eo.
  set (j := nth (o - 1) (w_gnlist w) 0%Z).
  set (g := nth (o - 2) (w_gparams w) GParm_zero).
  set (jat := zd nlist j).
  set (ov := chain_overlap K agb g jat).
  set (grj := rd (r agb) jat).
  match goal with |- context [ws_overlap K ?x o] => set (w1 := x) end.
  destruct (ws_overlap_chain w1 o g jat) as
    (C1 & C2 & C3 & C4 & C5 & C6 & C7 & C8 & C9 & C10 & C11).
  { lia. }
  { unfold w1. cbn [w_gx]. apply nth_set_nth_same. lia. }
  { unfold w1. cbn [w_ga]. apply nth_set_nth_same. lia. }
  { unfold w1. cbn [w_gp]. apply nth_set_nth_same. lia. }
  { unfold w1. cbn [w_gparams]. reflexivity. }
  fold ov in C1, C2.
  destruct (ws_overlap K w1 o) as [gvol w2]. cbn [fst snd] in *.
  subst gvol. rewrite C4, C5, C6, C7, C8, C9, C10, C11.
  unfold w1. cbn [w_gnlist w_gatlist w_gx w_ga w_gp w_gr w_gparams
                  w_free_volume].
  rewrite Rmult_1_l. fold j.
  assert (Hsz : forall (o' : nat) (G : list Z),
            length G = AGBNP_MAX_OVERLAP_LEVEL K ->
            work_sized K
              (mkWork o' G (set_nth (o - 1) jat (w_gatlist w))
                 (set_nth (o - 1) (xyz agb jat) (w_gx w))
                 (set_nth (o - 1) (KFC K / (grj * grj)) (w_ga w))
                 (set_nth (o - 1) (PFC K) (w_gp w))
                 (set_nth (o - 1) grj (w_gr w))
                 (set_nth (o - 1) (mkGParm (w_an w2) (w_pn w2) (w_cn w2))
                    (w_gparams w))
                 (w_an w2) (w_pn w2) (w_cn w2) (w_sr w2)
                 (w_free_volume w))).
  { intros o' G LG. unfold work_sized.
    cbn [w_gnlist w_gatlist w_gx w_ga w_gp w_gr w_gparams].
    rewrite !set_nth_length. auto 10. }
  destruct (Rgtb (fst ov) FLT_MIN && (o <? AGBNP_MAX_OVERLAP_LEVEL K)%nat) eqn:Ec.
  - apply andb_prop in Ec. destruct Ec as [_ El]. apply Nat.ltb_lt in El.
    destruct (ws_pop nn (S o) (set_nth o (j + 1)%Z (w_gnlist w)))
      as [o2 G2] eqn:Ep.
    cbn [fst snd w_order w_gnlist w_gparams w_free_volume].
    assert (LG : length G2 = AGBNP_MAX_OVERLAP_LEVEL K).
    { replace G2 with (snd (ws_pop nn (S o)
                              (set_nth o (j + 1)%Z (w_gnlist w))))
        by (rewrite Ep; reflexivity).
      rewrite length_ws_pop, set_nth_length. exact L1. }
    split; [|split; [|split; [|split; [|split]]]]; try reflexivity.
    + pose proof (Hsz o2 G2 LG) as Hs. unfold work_sized in *.
      cbn [w_gnlist w_gatlist w_gx w_ga w_gp w_gr w_gparams] in *.
      exact Hs.
    + intros i Hi. apply nth_set_nth_other. lia.
    + rewrite nth_set_nth_same by lia. exact C2.
    + rewrite volpcoeff_sign by lia. reflexivity.
  - destruct (ws_pop nn o (set_nth (o - 1) (j + 1)%Z (w_gnlist w)))
      as [o2 G2] eqn:Ep.
    cbn [fst snd w_order w_gnlist w_gparams w_free_volume].
    assert (LG : length G2 = AGBNP_MAX_OVERLAP_LEVEL K).
    { replace G2 with (snd (ws_pop nn o
                              (set_nth (o - 1) (j + 1)%Z (w_gnlist w))))
        by (rewrite Ep; reflexivity).
      rewrite length_ws_pop, set_nth_length. exact L1. }
    split; [|split; [|split; [|split; [|split]]]]; try reflexivity.
    + pose proof (Hsz o2 G2 LG) as Hs. unfold work_sized in *.
      cbn [w_gnlist w_gatlist w_gx w_ga w_gp w_gr w_gparams] in *.
      exact Hs.
    + intros i Hi. apply nth_set_nth_other. lia.
    + rewrite nth_set_nth_same by lia. exact C2.
Qed.

(** The passes spent on one level: entered with [order = o], index [j] at
    that level and the merged Gaussian [g] of the level below, the loop
    adds the sum over the chains that extend [g] by the atoms
    [nlist[j .. nn-1]], and leaves the level as the inner loop does once
    the index has run out. *)
Lemma ws_level :
  forall (js : list Z) (o : nat) (g : GParm) (j : Z) (w : ws_work),
    (2 <= o <= AGBNP_MAX_OVERLAP_LEVEL K)%nat ->
    work_sized K w -> w_order w = o ->
    nth (o - 1) (w_gnlist w) 0%Z = j -> (0 <= j)%Z ->
    (j + Z.of_nat (length js) = nn)%Z -> js <> [] ->
    (forall i, (i < length js)%nat ->
       nth i js 0%Z = zd nlist (j + Z.of_nat i)) ->
    nth (o - 2) (w_gparams w) GParm_zero = g ->
    exists w',
      ws_reaches K agb nn nlist w w' /\ work_sized K w' /\
      w_free_volume w' = w_free_volume w + chain_sum K agb o g js /\
      (forall i, (i < o - 1)%nat ->
         nth i (w_gparams w') GParm_zero = nth i (w_gparams w) GParm_zero) /\
      w_order w' = fst (ws_pop nn o (set_nth (o - 1) nn (w_gnlist w))) /\
      (forall i, (i < o)%nat ->
         nth i (w_gnlist w') 0%Z
         = nth i (snd (ws_pop nn o (set_nth (o - 1) nn (w_gnlist w)))) 0%Z).
Proof.
  induction js as [|jat rest IH]; intros o g j w Ho Hsz Eo Ej Hj Hlen Hne Hjs Hg;
    [congruence|].
  assert (Ejat : jat = zd nlist j).
  { specialize (Hjs 0%nat ltac:(simpl; lia)). simpl in Hjs.
    rewrite Z.add_0_r in Hjs. exact Hjs. }
  assert (Hrest : forall i, (i < length rest)%nat ->
            nth i rest 0%Z = zd nlist (j + 1 + Z.of_nat i)).
  { intros i Hi. specialize (Hjs (S i) ltac:(simpl; lia)).
    cbn [nth] in Hjs. rewrite Hjs. f_equal. lia. }
  pose proof Hsz as (L1 & _).
  destruct (ws_body_chain w o Ho Hsz Eo) as (S1 & P1 & P2 & Hb).
  rewrite Ej, Hg, <- Ejat in P2, Hb.
  set (w1 := fst (ws_body K agb nn nlist w)) in *.
  assert (R1 : ws_reaches K agb nn nlist w w1).
  { apply reaches_pass; [lia|]. apply reaches_here. }
  set (G := w_gnlist w) in *.
  cbn [chain_sum].
  destruct (chain_overlap K agb g jat) as [gvol g'] eqn:Eov.
  cbn [fst snd] in P2, Hb.
  destruct o as [|[|o']]; [lia|lia|].
  replace (S (S o') - 1)%nat with (S o') in * by lia.
  replace (S (S o') - 2)%nat with o' in * by lia.
  (* the entries below the level agree whatever was stored above *)
  assert (Hagree : forall (G1 : list Z) (v : Z),
            length G1 = length G ->
            (forall i, (i < S o')%nat -> nth i G1 0%Z = nth i G 0%Z) ->
            fst (ws_pop nn (S (S o')) (set_nth (S o') v G1))
            = fst (ws_pop nn (S (S o')) (set_nth (S o') v G)) /\
            forall i, (i < S (S o'))%nat ->
              nth i (snd (ws_pop nn (S (S o')) (set_nth (S o') v G1))) 0%Z
              = nth i (snd (ws_pop nn (S (S o')) (set_nth (S o') v G))) 0%Z).
  { intros G1 v LG HG. apply ws_pop_agree.
    - rewrite set_nth_length. lia.
    - rewrite set_nth_length. lia.
    - intros i Hi. destruct (Nat.eq_dec i (S o')) as [->|Hn].
      + rewrite !nth_set_nth_same by lia. reflexivity.
      + rewrite !nth_set_nth_other by lia. apply HG. lia. }
  destruct (Rgtb gvol FLT_MIN && (S (S o') <? AGBNP_MAX_OVERLAP_LEVEL K)%nat)
    eqn:Ec.
  - (* the chain is accumulated and extended *)
    destruct Hb as (F1 & O1 & G1).
    apply andb_prop in Ec. destruct Ec as [_ El]. apply Nat.ltb_lt in El.
    set (GA := set_nth (S (S o')) (j + 1)%Z G) in *.
    assert (LGA : length GA = length G) by apply set_nth_length.
    assert (TA : nth (S (S o')) GA 0%Z = (j + 1)%Z).
    { unfold GA. apply nth_set_nth_same. lia. }
    assert (BA : forall i, (i < S (S o'))%nat -> nth i GA 0%Z = nth i G 0%Z).
    { intros i Hi. unfold GA. apply nth_set_nth_other. lia. }
    rewrite ws_pop_eq, TA in O1, G1.
    destruct rest as [|jat2 rest2].
    + (* no atom is left: the new level is left at once *)
      cbn [length] in Hlen. cbn [chain_sum].
      assert (Hnn : (j + 1 = nn)%Z) by lia.
      replace (nn <=? j + 1)%Z with true in O1, G1
        by (symmetry; apply Z.leb_le; lia).
      rewrite (BA (S o')) in O1, G1 by lia. rewrite Ej, Hnn in O1, G1.
      destruct (Hagree GA nn LGA ltac:(intros i Hi; apply BA; lia))
        as [A1 A2].
      exists w1. split; [exact R1|]. split; [exact S1|].
      split; [rewrite F1; ring|]. split; [exact P1|].
      split; [rewrite O1; exact A1|].
      intros i Hi. rewrite G1. apply A2. exact Hi.
    + (* the level above runs over the atoms left, then this level does *)
      assert (Hlt : (j + 1 < nn)%Z) by (cbn [length] in Hlen; lia).
      replace (nn <=? j + 1)%Z with false in O1, G1
        by (symmetry; apply Z.leb_gt; lia).
      cbn [fst snd] in O1, G1.
      assert (Hlen2 : (j + 1 + Z.of_nat (length (jat2 :: rest2)) = nn)%Z)
        by (cbn [length] in *; lia).
      assert (Hne2 : jat2 :: rest2 <> []) by discriminate.
      assert (Ej2 : nth (S (S (S o')) - 1) (w_gnlist w1) 0%Z = (j + 1)%Z).
      { replace (S (S (S o')) - 1)%nat with (S (S o')) by lia.
        rewrite G1. exact TA. }
      assert (Hg2 : nth (S (S (S o')) - 2) (w_gparams w1) GParm_zero = g').
      { replace (S (S (S o')) - 2)%nat with (S o') by lia. exact P2. }
      destruct (IH (S (S (S o'))) g' (j + 1)%Z w1 ltac:(lia) S1 O1 Ej2
                  ltac:(lia) Hlen2 Hne2 Hrest Hg2) as
        (w2 & R2 & S2 & F2 & P2' & O2 & G2).
      replace (S (S (S o')) - 1)%nat with (S (S o')) in * by lia.
      rewrite G1 in O2, G2.
      (* leaving the level above puts this level at index [j + 1] *)
      assert (Epop : ws_pop nn (S (S (S o'))) (set_nth (S (S o')) nn GA)
                     = (S (S o'),
                        set_nth (S o') (j + 1)%Z
                          (set_nth (S (S o')) nn GA))).
      { rewrite ws_pop_eq. rewrite nth_set_nth_same by lia.
        replace (nn <=? nn)%Z with true by (symmetry; apply Z.leb_le; lia).
        rewrite nth_set_nth_other by lia. rewrite (BA (S o')) by lia.
        rewrite Ej. rewrite ws_pop_eq.
        rewrite nth_set_nth_same by (rewrite set_nth_length; lia).
        replace (nn <=? j + 1)%Z with false
          by (symmetry; apply Z.leb_gt; lia).
        reflexivity. }
      rewrite Epop in O2, G2. cbn [fst snd] in O2, G2.
      assert (T2 : nth (S o') (w_gnlist w2) 0%Z = (j + 1)%Z).
      { rewrite G2 by lia. apply nth_set_nth_same.
        rewrite set_nth_length. lia. }
      assert (B2 : forall i, (i < S o')%nat ->
                nth i (w_gnlist w2) 0%Z = nth i G 0%Z).
      { intros i Hi. rewrite G2 by lia.
        rewrite !nth_set_nth_other by lia. apply BA. lia. }
      pose proof S2 as (L2 & _).
      assert (Ej3 : nth (S (S o') - 1) (w_gnlist w2) 0%Z = (j + 1)%Z).
      { replace (S (S o') - 1)%nat with (S o') by lia. exact T2. }
      assert (Hg3 : nth (S (S o') - 2) (w_gparams w2) GParm_zero = g).
      { replace (S (S o') - 2)%nat with o' by lia.
        rewrite P2' by lia. rewrite P1 by lia. exact Hg. }
      destruct (IH (S (S o')) g (j + 1)%Z w2 ltac:(lia) S2 O2 Ej3
                  ltac:(lia) Hlen2 Hne2 Hrest Hg3) as
        (w3 & R3 & S3 & F3 & P3 & O3 & G3).
      replace (S (S o') - 1)%nat with (S o') in * by lia.
      destruct (Hagree (w_gnlist w2) nn ltac:(lia) B2) as [A1 A2].
      exists w3. split; [|split; [exact S3|split; [|split; [|split]]]].
      * eapply ws_reaches_trans; [exact R1|].
        eapply ws_reaches_trans; [exact R2 | exact R3].
      * rewrite F3, F2, F1. ring.
      * intros i Hi. rewrite P3 by lia. rewrite P2' by lia.
        apply P1. lia.
      * rewrite O3. exact A1.
      * intros i Hi. rewrite G3 by lia. apply A2. exact Hi.
  - (* the chain is dropped *)
    destruct Hb as (F1 & O1 & G1).
    set (GB := set_nth (S o') (j + 1)%Z G) in *.
    assert (LGB : length GB = length G) by apply set_nth_length.
    assert (BB : forall i, (i < S o')%nat -> nth i GB 0%Z = nth i G 0%Z).
    { intros i Hi. unfold GB. apply nth_set_nth_other. lia. }
    destruct rest as [|jat2 rest2].
    + cbn [length] in Hlen. cbn [chain_sum].
      assert (Hnn : (j + 1 = nn)%Z) by lia.
      assert (EG : GB = set_nth (S o') nn G) by (unfold GB; rewrite Hnn; reflexivity).
      rewrite EG in O1, G1.
      exists w1. split; [exact R1|]. split; [exact S1|].
      split; [rewrite F1; ring|]. split; [exact P1|].
      split; [exact O1|]. intros i Hi. rewrite G1. reflexivity.
    + assert (Hlt : (j + 1 < nn)%Z) by (cbn [length] in Hlen; lia).
      assert (TB : nth (S o') GB 0%Z = (j + 1)%Z).
      { unfold GB. apply nth_set_nth_same. lia. }
      rewrite ws_pop_eq, TB in O1, G1.
      replace (nn <=? j + 1)%Z with false in O1, G1
        by (symmetry; apply Z.leb_gt; lia).
      cbn [fst snd] in O1, G1.
      assert (Hlen2 : (j + 1 + Z.of_nat (length (jat2 :: rest2)) = nn)%Z)
        by (cbn [length] in *; lia).
      assert (Hne2 : jat2 :: rest2 <> []) by discriminate.
      assert (Ej2 : nth (S (S o') - 1) (w_gnlist w1) 0%Z = (j + 1)%Z).
      { replace (S (S o') - 1)%nat with (S o') by lia.
        rewrite G1. exact TB. }
      assert (Hg2 : nth (S (S o') - 2) (w_gparams w1) GParm_zero = g).
      { replace (S (S o') - 2)%nat with o' by lia.
        rewrite P1 by lia. exact Hg. }
      destruct (IH (S (S o')) g (j + 1)%Z w1 ltac:(lia) S1 O1 Ej2
                  ltac:(lia) Hlen2 Hne2 Hrest Hg2) as
        (w2 & R2 & S2 & F2 & P2' & O2 & G2).
      replace (S (S o') - 1)%nat with (S o') in * by lia.
      rewrite G1 in O2, G2.
      destruct (Hagree GB nn LGB BB) as [A1 A2].
      exists w2. split; [|split; [exact S2|split; [|split; [|split]]]].
      * eapply ws_reaches_trans; [exact R1 | exact R2].
      * rewrite F2, F1. ring.
      * intros i Hi. rewrite P2' by lia. apply P1. lia.
      * rewrite O2. exact A1.
      * intros i Hi. rewrite G2 by lia. apply A2. exact Hi.
Qed.

End ChainSumFacts.

Section FreeVolumeMain.
Import WaterSites NeighborLists FreeVolume.
#[local] Open Scope R_scope.

Variable K : AGBNPconsts.

Lemma ws_init_sized (wsat : WSat) (w0 : ws_work) :
  (1 <= AGBNP_MAX_OVERLAP_LEVEL K)%nat -> work_sized K w0 ->
  work_sized K (ws_init K wsat w0) /\
  nth 0 (w_gparams (ws_init K wsat w0)) GParm_zero = site_gaussian K wsat.
Proof.
  intros Hm (L1 & L2 & L3 & L4 & L5 & L6 & L7). split.
  - unfold work_sized, ws_init.
    cbn [w_gnlist w_gatlist w_gx w_ga w_gp w_gr w_gparams].
    rewrite !set_nth_length. auto 10.
  - unfold ws_init. cbn [w_gparams]. rewrite nth_set_nth_same by lia.
    reflexivity.
Qed.

Lemma ws_overlap_sized (w : ws_work) (order : nat) :
  work_sized K w ->
  work_sized K (snd (ws_overlap K w order)) /\
  w_gparams (snd (ws_overlap K w order)) = w_gparams w.
Proof. intros H. unfold ws_overlap, work_sized in *. cbn. auto. Qed.

Lemma ws_gather_sized (agb : AGBNPdata) (wsat : WSat) (heavy : list Z) :
  forall w nlist r2v,
    work_sized K w ->
    work_sized K (fst (fst (ws_gather K agb wsat heavy w nlist r2v))) /\
    w_gparams (fst (fst (ws_gather K agb wsat heavy w nlist r2v)))
    = w_gparams w.
Proof.
  induction heavy as [|iat rest IH]; intros w nlist r2v Hs;
    [simpl; auto|]. cbn [ws_gather].
  destruct (Rlt_dec _ _); [|apply IH; exact Hs].
  match goal with |- context [ws_overlap K ?w1 ?o] =>
    assert (Hs1 : work_sized K w1);
      [|destruct (ws_overlap_sized w1 o Hs1) as [S2 P2];
        destruct (ws_overlap K w1 o) as [gvol w2]] end.
  { destruct Hs as (L1 & L2 & L3 & L4 & L5 & L6 & L7).
    unfold work_sized. cbn [w_gnlist w_gatlist w_gx w_ga w_gp w_gr w_gparams].
    rewrite !set_nth_length. auto 10. }
  cbn [snd] in S2, P2. cbn [w_gparams] in P2.
  destruct (Rgt_dec _ _);
    match goal with |- context [ws_gather K agb wsat rest w2 ?a ?b] =>
      destruct (IH w2 a b S2) as [G1 G2] end;
    (split; [exact G1 | rewrite G2; exact P2]).
Qed.

Lemma ws_neighbors_sized (agb : AGBNPdata) (wsat : WSat) (init : Z)
    (w : ws_work) :
  work_sized K w ->
  work_sized K (fst (ws_neighbors K agb wsat init w)) /\
  w_gparams (fst (ws_neighbors K agb wsat init w)) = w_gparams w.
Proof.
  intros Hs. unfold ws_neighbors.
  destruct (negb (init =? 0)%Z); [|simpl; auto].
  pose proof (ws_gather_sized agb wsat
                (firstn (Z.to_nat (nheavyat agb)) (iheavyat agb)) w [] [] Hs)
    as [G1 G2].
  destruct (ws_gather K agb wsat _ w [] []) as [[w1 nlist0] r2v].
  exact (conj G1 G2).
Qed.

Lemma nth_chain_atoms (nl : list Z) (n : Z) (i : nat) :
  (i < Z.to_nat n)%nat ->
  nth i (map (fun j => zd nl j) (atom_range n)) 0%Z = zd nl (Z.of_nat i).
Proof.
  intros Hi. unfold atom_range. rewrite map_map.
  rewrite (nth_indep _ 0%Z (zd nl (Z.of_nat 0)))
    by (rewrite length_map, length_seq; exact Hi).
  rewrite (map_nth (fun k => zd nl (Z.of_nat k)) (seq 0 (Z.to_nat n)) 0%nat).
  rewrite seq_nth by exact Hi. reflexivity.
Qed.

(** C3. [agbnp3_ws_free_volume_of1], with local arrays of
    [AGBNP_MAX_OVERLAP_LEVEL] entries, returns [AGBNP_OK] once the fuel
    covers the [2^nn] index chains, and never an error.  The free volume
    it stores is the nominal volume of the site plus the
    inclusion-exclusion sum [chain_sum] over the chains of its neighbours
    taken in the order of the list: a chain of order [o] counts
    [(-1)^(o-1)] times the overlap volume [agbnp3_ogauss_incremental]
    returns for it (subtracted at order 2, added at order 3, and so on, the
    coefficient of order [o] being [volpcoeff[o-1]]) and is extended when
    that volume is above [FLT_MIN] and [o] is below
    [AGBNP_MAX_OVERLAP_LEVEL]; a chain that reaches that order adds
    nothing and is not extended.  The terms the loop recorded add up to
    the same sum, each with an order below the maximum.  The scaled volume
    [sp] is the free volume over the nominal volume. *)
Theorem ws_free_volume_alternating (fuel : nat) (agb : AGBNPdata)
    (wsat : WSat) (init : Z) (w0 : ws_work) :
  (2 <= AGBNP_MAX_OVERLAP_LEVEL K)%nat ->
  work_sized K w0 ->
  (0 <= nneigh wsat)%Z ->
  (2 ^ ws_nn K agb wsat init w0 <= Z.of_nat fuel)%Z ->
  (forall order, (1 <= order <= AGBNP_MAX_OVERLAP_LEVEL K)%nat ->
     nth (order - 1) (volpcoeff K) 0 = (-1) ^ (order - 1)) /\
  exists wsat' terms,
    agbnp3_ws_free_volume_of1 K fuel agb wsat init w0
      = Some (AGBNP_OK, wsat', terms) /\
    free_volume wsat'
    = volume wsat
      + chain_sum K agb 2 (site_gaussian K wsat)
          (ws_chain_atoms K agb wsat init w0) /\
    free_volume wsat' = volume wsat + signed_sum terms /\
    Forall (term_ok K) terms /\
    sp wsat' = free_volume wsat' / volume wsat.
Proof.
  intros Hmax Hsz Hnn Hfuel. split; [exact (volpcoeff_sign K)|].
  pose proof Hsz as (Hlen & _).
  unfold agbnp3_ws_free_volume_of1, ws_chain_atoms. unfold ws_nn in Hfuel.
  destruct (ws_init_sized wsat w0 ltac:(lia) Hsz) as [Si Gi].
  pose proof (ws_neighbors_frame K agb (ws_start wsat) init (ws_init K wsat w0)
                Hnn) as Hfr.
  pose proof (ws_neighbors_sized agb (ws_start wsat) init (ws_init K wsat w0)
                Si) as [Sb Gb].
  destruct (ws_neighbors K agb (ws_start wsat) init (ws_init K wsat w0))
    as [wb wsat1].
  cbn [fst snd] in Hfr, Hfuel, Sb, Gb. destruct Hfr as (F1 & F2 & F3 & F4).
  cbn [ws_init w_gnlist w_free_volume ws_start volume] in F1, F2, F3.
  set (nn := nneigh wsat1) in *.
  set (wc := mkWork 2 (set_nth 1 0%Z (w_gnlist wb)) (w_gatlist wb) (w_gx wb)
               (w_ga wb) (w_gp wb) (w_gr wb) (w_gparams wb) (w_an wb)
               (w_pn wb) (w_cn wb) (w_sr wb) (w_free_volume wb)).
  assert (Sc : work_sized K wc).
  { destruct Sb as (L1 & L2 & L3 & L4 & L5 & L6 & L7).
    unfold work_sized, wc.
    cbn [w_gnlist w_gatlist w_gx w_ga w_gp w_gr w_gparams].
    rewrite set_nth_length. auto 10. }
  assert (Hrun : exists wf terms,
            ws_loop K fuel agb nn (nlist wsat1) wc = Some (wf, terms) /\
            w_free_volume wf = w_free_volume wc + signed_sum terms /\
            Forall (term_ok K) terms /\
            w_free_volume wf
            = w_free_volume wc
              + chain_sum K agb 2 (site_gaussian K wsat)
                  (map (fun j => zd (nlist wsat1) j) (atom_range nn))).
  { destruct (Z.eq_dec nn 0) as [E0|E0].
    - destruct fuel as [|f]; [rewrite E0 in Hfuel; simpl in Hfuel; lia|].
      exists wc, []. cbn [ws_loop]. rewrite E0. simpl.
      split; [reflexivity|]. split; [ring|]. split; [constructor | ring].
    - destruct (ws_loop_spec K agb nn (nlist wsat1) fuel wc)
        as (wf & terms & Hrun & Hfv & Hok).
      + unfold loop_inv, wc. cbn [w_order w_gnlist].
        rewrite set_nth_length, F1. split; [lia|]. split; [exact Hlen|].
        intros _. replace (2 - 1)%nat with 1%nat by lia.
        rewrite nth_set_nth_same by (rewrite ?F1; lia). lia.
      + unfold wc. cbn [w_order w_gnlist loop_measure lower_weight].
        rewrite nth_set_nth_same by (rewrite ?F1; lia).
        unfold chain_weight. replace (Z.max 0 (nn - 0)) with nn by lia. lia.
      + exists wf, terms. split; [exact Hrun|]. split; [exact Hfv|].
        split; [exact Hok|].
        set (js := map (fun j => zd (nlist wsat1) j) (atom_range nn)).
        assert (Ljs : length js = Z.to_nat nn).
        { unfold js, atom_range. rewrite !length_map, length_seq.
          reflexivity. }
        destruct (ws_level K agb nn (nlist wsat1) js 2 (site_gaussian K wsat)
                    0%Z wc) as (w' & Rw & _ & Fw & _ & Ow & _).
        * lia.
        * exact Sc.
        * reflexivity.
        * unfold wc. cbn [w_gnlist]. apply nth_set_nth_same.
          rewrite F1. lia.
        * lia.
        * rewrite Ljs. lia.
        * intros E. rewrite E in Ljs. simpl in Ljs. lia.
        * intros i Hi. unfold js. rewrite nth_chain_atoms by lia.
          reflexivity.
        * unfold wc. cbn [w_gparams]. rewrite Gb. exact Gi.
        * assert (Eend : w_order w' = 1%nat).
          { rewrite Ow. replace (2 - 1)%nat with 1%nat by lia.
            rewrite ws_pop_eq.
            rewrite nth_set_nth_same
              by (unfold wc; cbn [w_gnlist]; rewrite set_nth_length, F1; lia).
            replace (nn <=? nn)%Z with true by (symmetry; apply Z.leb_le; lia).
            reflexivity. }
          rewrite (ws_loop_reaches K agb nn (nlist wsat1) wc w' Rw
                     ltac:(lia) E0 fuel wf terms Hrun).
          exact Fw. }
  destruct Hrun as (wf & terms & Hrun & Hfv & Hok & Hch).
  rewrite Hrun. eexists; eexists. split; [reflexivity|].
  cbn [free_volume sp].
  assert (Ewc : w_free_volume wc = volume wsat)
    by (unfold wc; cbn [w_free_volume]; exact F2).
  split; [rewrite Hch, Ewc; reflexivity|].
  split; [rewrite Hfv, Ewc; reflexivity|].
  split; [exact Hok|]. rewrite F3. reflexivity.
Qed.

End FreeVolumeMain.

(** The theorem at work: the sample site with one stored neighbour. *)
Lemma ws_free_volume_alternating_witness :
  let K := Samples.sample_consts in
  (forall order, (1 <= order <= WaterSites.AGBNP_MAX_OVERLAP_LEVEL K)%nat ->
     nth (order - 1) (FreeVolume.volpcoeff K) 0%R = ((-1) ^ (order - 1))%R) /\
  exists wsat' terms,
    FreeVolume.agbnp3_ws_free_volume_of1 K 2 Samples.three_atoms
      Samples.sample_site 0 Samples.sample_work
      = Some (AGBNP_OK, wsat', terms) /\
    WaterSites.free_volume wsat'
    = (WaterSites.volume Samples.sample_site
       + FreeVolume.chain_sum K Samples.three_atoms 2
           (FreeVolume.site_gaussian K Samples.sample_site)
           (FreeVolume.ws_chain_atoms K Samples.three_atoms
              Samples.sample_site 0 Samples.sample_work))%R /\
    WaterSites.free_volume wsat'
      = (WaterSites.volume Samples.sample_site + FreeVolume.signed_sum terms)%R /\
    Forall (FreeVolume.term_ok K) terms /\
    WaterSites.sp wsat'
      = (WaterSites.free_volume wsat' / WaterSites.volume Samples.sample_site)%R.
Proof.
  apply (ws_free_volume_alternating Samples.sample_consts 2
           Samples.three_atoms Samples.sample_site 0 Samples.sample_work).
  - simpl. lia.
  - unfold FreeVolume.work_sized. simpl. auto 10.
  - simpl. lia.
  - unfold FreeVolume.ws_nn, FreeVolume.ws_neighbors. simpl. lia.
Defined.

(** ** Failure of a stage of the energy evaluation *)

Section EnergyFacts.
Import TotalEnergy.
#[local] Open Scope R_scope.

Variable W : Type.
Variable S : stages W.

Ltac step_stage :=
  match goal with
  | |- context [match agbnp3_gb_energy_nolist_ps W S ?x with _ => _ end] =>
      destruct (agbnp3_gb_energy_nolist_ps W S x) as [[[|] ?d] [? ?]]
  | |- context [match ?stage ?x with _ => _ end] =>
      destruct (stage x) as [[|] ?d]
  end; cbn [fst snd option_map].

Ltac side :=
  intros;
  solve [reflexivity | lia | discriminate | congruence
        | repeat split; reflexivity].

Ltac failed_case :=
  split; [reflexivity|];
  split; [split; side|];
  let k := fresh "k" in
  let Hk := fresh "Hk" in
  intros k Hk; try discriminate Hk; injection Hk as <-;
  repeat (split; [side|]); side.

(** C1, as the code has it.  [agbnp3_total_energy] returns the error code
    exactly when a stage, taken in the order of the calls, fails; then no
    later stage runs and the function writes nothing more: the data are as
    the failing stage left them and [*ehb] is not written.  What the seven
    locations hold then depends on the stage that failed.  When it is one
    of the first five (up to [agbnp3_scaling_factors]) they are as before
    the call.  From the sixth on, [*mol_volume], [*ecav] and [*ecorr_cav]
    hold the sums over the data that [agbnp3_scaling_factors] left; from
    the eighth on, [*evdw] and [*ecorr_vdw] hold the sums over the Born
    radii that [agbnp3_born_radii] left; from the ninth on, [*egb] holds
    the energy that [agbnp3_gb_energy_nolist_ps] returned.  None of them is
    restored. *)
Theorem total_energy_failure (out : energy_out) (d : agb_data W) :
  let l := stage_list W S (natoms W d) in
  let res := agbnp3_total_energy W S out d in
  let out' := snd (fst res) in
  let d5 := snd (run_stages W (firstn 5 l) d) in
  let d7 := snd (run_stages W (firstn 7 l) d) in
  let e := snd (agbnp3_gb_energy_nolist_ps W S d7) in
  fst (fst res) = fst (run_stages W l d) /\
  (fst (fst res) = AGBNP_ERR <-> failed_at W l d <> None) /\
  (forall k : nat,
     failed_at W l d = Some k ->
     fst (fst res) = AGBNP_ERR /\
     snd res = snd (run_stages W l d) /\
     ehb out' = ehb out /\
     ((k < 5)%nat -> out' = out) /\
     ((5 <= k)%nat ->
        mol_volume out' = molecule_volume W (nheavyat W d) d5 /\
        ecav out' = cavity_energy W (nheavyat W d) d5 /\
        ecorr_cav out' = corr_cavity_energy W (nheavyat W d) d5) /\
     ((k < 7)%nat -> evdw out' = evdw out /\ ecorr_vdw out' = ecorr_vdw out) /\
     ((7 <= k)%nat ->
        evdw out' = vdw_energy W (natoms W d) d7 /\
        ecorr_vdw out' = corr_vdw_energy W (natoms W d) d7) /\
     ((k < 8)%nat -> egb out' = egb out) /\
     ((8 <= k)%nat -> egb out' = fst e * 332 + snd e * 332)).
Proof.
  cbv zeta.
  unfold agbnp3_total_energy, then_stage, stage_list.
  cbn [run_stages failed_at firstn].
  repeat (step_stage; [|solve [failed_case]]).
  failed_case.
Qed.

End EnergyFacts.

(** The theorem at work: on the malformed sample water-site creation, the
    tenth stage, fails; the locations of the volume, of the cavity and van
    der Waals energies and of the GB energy hold what the evaluation
    computed before it failed. *)
Lemma total_energy_failure_witness :
  let res := TotalEnergy.agbnp3_total_energy _ Samples.sample_stages
               Samples.sample_out Samples.sample_data in
  fst (fst res) = AGBNP_ERR /\
  TotalEnergy.ehb (snd (fst res)) = 7%R /\
  TotalEnergy.mol_volume (snd (fst res))
    = TotalEnergy.molecule_volume _ 1 Samples.sample_data /\
  TotalEnergy.egb (snd (fst res)) = (0 * 332 + 0 * 332)%R.
Proof.
  cbv zeta.
  destruct (proj2 (proj2
              (total_energy_failure _ Samples.sample_stages
                 Samples.sample_out Samples.sample_data)) 9%nat eq_refl)
    as (H1 & _ & H3 & _ & H5 & _ & _ & _ & H9).
  split; [exact H1|]. split; [exact H3|].
  split; [exact (proj1 (H5 ltac:(lia)))|].
  exact (H9 ltac:(lia)).
Defined.

(** C1, as stated, fails: on the malformed sample the evaluation returns
    the error code, and yet of the seven locations, which all held 7
    before the call, [*mol_volume], [*ecav], [*ecorr_cav], [*evdw],
    [*ecorr_vdw] and [*egb] hold the values the failed evaluation computed
    (3, 2, 2, 2, 2 and 0). *)
Lemma total_energy_partial_outputs_counterexample :
  let res := TotalEnergy.agbnp3_total_energy _ Samples.sample_stages
               Samples.sample_out Samples.sample_data in
  fst (fst res) = AGBNP_ERR /\
  Samples.sample_out = TotalEnergy.mkOut 7 7 7 7 7 7 7 /\
  snd (fst res) = TotalEnergy.mkOut 3 0 2 2 2 2 7.
Proof.
  cbv zeta. split; [reflexivity|]. split; [reflexivity|].
  simpl. unfold TotalEnergy.write_gb, TotalEnergy.write_vdw,
    TotalEnergy.write_cavity, TotalEnergy.molecule_volume,
    TotalEnergy.cavity_energy, TotalEnergy.corr_cavity_energy,
    TotalEnergy.vdw_energy, TotalEnergy.corr_vdw_energy,
    TotalEnergy.heavy_sum. simpl.
  f_equal; lra.
Qed.

(** * Further properties of the code *)

(** ** Switching functions *)

Section FilterFacts.
Import Filters.
#[local] Open Scope R_scope.

Lemma pol_switchfunc_range (x xa xb : R) :
  xa < xb ->
  let f := fst (fst (agbnp3_pol_switchfunc x xa xb)) in
  let fp := snd (fst (agbnp3_pol_switchfunc x xa xb)) in
  0 <= f <= 1 /\ 0 <= fp /\
  (x <= xa -> f = 0 /\ fp = 0) /\
  (xb <= x -> f = 1 /\ fp = 0).
Proof.
  intros Hab f fp. subst f fp. unfold agbnp3_pol_switchfunc.
  destruct (Rlt_dec xb x) as [H1|H1]; [simpl; repeat split; lra|].
  destruct (Rlt_dec x xa) as [H2|H2]; [simpl; repeat split; lra|].
  cbn [fst snd].
  assert (Hd : 0 < 1 / (xb - xa)).
  { unfold Rdiv. rewrite Rmult_1_l. apply Rinv_0_lt_compat. lra. }
  set (d := 1 / (xb - xa)) in *.
  assert (Hdd : (xb - xa) * d = 1) by (unfold d; field; lra).
  set (u := (x - xa) * d).
  assert (Hu : 0 <= u <= 1).
  { unfold u. split; [apply Rmult_le_pos; lra|].
    rewrite <- Hdd. apply Rmult_le_compat_r; lra. }
  assert (Hq : 0 <= 10 - 15 * u + 6 * (u * u)) by nra.
  assert (H3 : 0 <= u * (u * u)).
  { apply Rmult_le_pos; [lra|]. apply Rle_0_sqr. }
  split; [split|].
  - apply Rmult_le_pos; auto.
  - assert (E : 1 - u * (u * u) * (10 - 15 * u + 6 * (u * u))
                = (1 - u) * ((1 - u) * (1 - u)) * (6 * (u * u) + 3 * u + 1))
      by ring.
    assert (0 <= (1 - u) * ((1 - u) * (1 - u)) * (6 * (u * u) + 3 * u + 1)).
    { apply Rmult_le_pos; [|nra].
      apply Rmult_le_pos; [lra|]. apply Rle_0_sqr. }
    lra.
  - split; [|split].
    + replace (d * 30 * (u * u) * (1 - 2 * u + u * u))
        with (d * 30 * ((u * (1 - u)) * (u * (1 - u)))) by ring.
      apply Rmult_le_pos; [lra|]. apply Rle_0_sqr.
    + intros Hx. assert (x = xa) by lra. subst x.
      assert (u = 0) by (unfold u; ring). rewrite H. split; ring.
    + intros Hx. assert (x = xb) by lra. subst x.
      assert (u = 1) by (unfold u; lra). rewrite H. split; ring.
Qed.

(** X1. The polynomial switch goes from 0 at [xa] to 1 at [xb]: its value stays
    between 0 and 1, its slope is never negative, and value and slope are
    0 and 0 up to [xa], 1 and 0 from [xb] on. *)
Theorem pol_switchfunc_bounds (x xa xb : R) :
  xa < xb ->
  let f := fst (fst (agbnp3_pol_switchfunc x xa xb)) in
  let fp := snd (fst (agbnp3_pol_switchfunc x xa xb)) in
  0 <= f <= 1 /\ 0 <= fp /\
  (x <= xa -> f = 0 /\ fp = 0) /\
  (xb <= x -> f = 1 /\ fp = 0).
Proof. apply pol_switchfunc_range. Qed.

(** The theorem at work between the thresholds 1 and 3. *)
Lemma pol_switchfunc_bounds_witness :
  let f := fst (fst (agbnp3_pol_switchfunc 2 1 3)) in
  let fp := snd (fst (agbnp3_pol_switchfunc 2 1 3)) in
  0 <= f <= 1 /\ 0 <= fp /\
  (2 <= 1 -> f = 0 /\ fp = 0) /\
  (3 <= 2 -> f = 1 /\ fp = 0).
Proof. apply (pol_switchfunc_bounds 2 1 3). lra. Defined.

Lemma swf_area_range (x : R) :
  let f := fst (agbnp3_swf_area x) in
  let fp := snd (agbnp3_swf_area x) in
  0 <= f < 1 /\ 0 <= fp /\ (x <= 0 -> f = 0) /\
  0 <= x * f /\ (0 <= x -> x * f <= x).
Proof.
  intros f fp. subst f fp. unfold agbnp3_swf_area.
  destruct (Rlt_dec x 0) as [H|H]; cbn [fst snd].
  - repeat split; try lra; intros; ring.
  - assert (Hx : 0 <= x) by lra.
    assert (Hp : 0 < 5 * 5 + x * x) by nra.
    set (q := 5 * 5 + x * x) in *.
    assert (Ht : 0 <= x / q).
    { unfold Rdiv. apply Rmult_le_pos; [lra|].
      left. apply Rinv_0_lt_compat; lra. }
    assert (Hf : x * (x / q) * q = x * x) by (field; lra).
    assert (Hf0 : 0 <= x * (x / q)) by (apply Rmult_le_pos; lra).
    assert (Hf1 : x * (x / q) < 1).
    { apply (Rmult_lt_reg_r q); [lra|]. rewrite Hf. unfold q. lra. }
    split; [split; lra|]. split; [|split; [|split]].
    + apply Rmult_le_pos; lra.
    + intros Hx0. assert (x = 0) by lra. subst x. ring.
    + apply Rmult_le_pos; lra.
    + intros _. nra.
Qed.

(** X2. The surface-area filter: its value is in [0, 1), it is 0 for every
    area that is negative or zero, its slope is never negative, and the
    filtered area [x * f(x)] is never negative and never above a
    non-negative raw area. *)
Theorem swf_area_bounds (x : R) :
  let f := fst (agbnp3_swf_area x) in
  let fp := snd (agbnp3_swf_area x) in
  0 <= f < 1 /\ 0 <= fp /\ (x <= 0 -> f = 0) /\
  0 <= x * f /\ (0 <= x -> x * f <= x).
Proof. apply swf_area_range. Qed.

(** X3. The volume switch with thresholds [0 <= a < b]: the switched volume is
    never negative, never above a non-negative raw volume, 0 below [a] and
    the raw volume above [b]. *)
Theorem swf_vol3_bounds (x a b : R) :
  0 <= a < b ->
  let f := fst (fst (agbnp3_swf_vol3 x a b)) in
  0 <= f /\ (0 <= x -> f <= x) /\ (x < a -> f = 0) /\ (b < x -> f = x).
Proof.
  intros Hab f. subst f. unfold agbnp3_swf_vol3.
  destruct (Rlt_dec b x) as [H1|H1]; [simpl; repeat split; lra|].
  destruct (Rlt_dec x a) as [H2|H2]; [simpl; repeat split; lra|].
  pose proof (pol_switchfunc_range x a b ltac:(lra)) as Hs.
  destruct (agbnp3_pol_switchfunc x a b) as [[s sp] spp].
  cbn [fst snd] in *. destruct Hs as ((Hs0 & Hs1) & _).
  repeat split; try lra; nra.
Qed.

(** The theorem at work with thresholds 1 and 3. *)
Lemma swf_vol3_bounds_witness :
  let f := fst (fst (agbnp3_swf_vol3 2 1 3)) in
  0 <= f /\ (0 <= 2 -> f <= 2) /\ (2 < 1 -> f = 0) /\ (3 < 2 -> f = 2).
Proof. apply (swf_vol3_bounds 2 1 3). lra. Defined.

(** X4. The inverse-Born-radius filter never lowers its argument, and its slope
    is at least 0 and below 1. *)
Theorem swf_invbr_monotone (beta : R) :
  beta <= fst (agbnp3_swf_invbr beta) /\
  0 <= snd (agbnp3_swf_invbr beta) < 1.
Proof.
  unfold agbnp3_swf_invbr, swf_invbr_a.
  destruct (Rlt_dec beta 0) as [H|H]; cbn [fst snd]; [lra|].
  assert (Hb : 0 <= beta) by lra.
  assert (Hlt : beta < sqrt (0.02 * 0.02 + beta * beta)).
  { rewrite <- (sqrt_square beta) at 1 by lra. apply sqrt_lt_1; nra. }
  set (t := sqrt (0.02 * 0.02 + beta * beta)) in *.
  assert (Ht : 0 < t) by lra.
  split; [lra|]. split.
  - unfold Rdiv. apply Rmult_le_pos; [lra|].
    left. apply Rinv_0_lt_compat; lra.
  - apply (Rmult_lt_reg_r t); [lra|].
    unfold Rdiv. rewrite Rmult_assoc, Rinv_l by lra. lra.
Qed.

Lemma Rpower_three_halves (u : R) : 0 < u -> Rpower u 1.5 = u * sqrt u.
Proof.
  intros Hu. replace 1.5 with (1 + / 2) by lra.
  rewrite Rpower_plus, Rpower_1, Rpower_sqrt by lra. reflexivity.
Qed.

(** X5. The simple two-body overlap is the raw overlap volume that
    [agbnp3_ogauss_incremental] reports through [sr1] at order 2, and it
    does not depend on the order of the two Gaussians. *)
Theorem ogauss_2body_smpl_agrees (x1 x2 : vec3) (p1 p2 c1 c2 : R)
    (r : list R) (s0 : R) :
  0 < c1 + c2 ->
  og_sr1 (agbnp3_ogauss_incremental 2 [x1; x2] [c1; c2] [p1; p2] r
            c1 p1 x1 0 0 vzero 0 1 (Some s0) None None None)
  = Some (agbnp3_ogauss_2body_smpl (vnorm2 (vsub x2 x1)) p1 p2 c1 c2) /\
  agbnp3_ogauss_2body_smpl (vnorm2 (vsub x2 x1)) p1 p2 c1 c2
  = agbnp3_ogauss_2body_smpl (vnorm2 (vsub x1 x2)) p2 p1 c2 c1.
Proof.
  intros Hc.
  assert (Hu : 0 < PI * (1 / (c1 + c2))).
  { apply Rmult_lt_0_compat; [apply PI_RGT_0|].
    unfold Rdiv. rewrite Rmult_1_l. apply Rinv_0_lt_compat; lra. }
  assert (Hu' : 0 < PI * (1 / (c2 + c1))) by (rewrite (Rplus_comm c2 c1); auto).
  split.
  - unfold agbnp3_ogauss_incremental. cbn [Z.ltb Z.compare Pos.compare
      Pos.compare_cont Z.to_nat Pos.to_nat Pos.iter_op Nat.add Nat.sub nth].
    simpl nth.
    destruct (agbnp3_swf_vol3 _ 0 1) as [[volp fp] fpp].
    assert (E : og_vol c1 p1 x1 c2 p2 x2
                = agbnp3_ogauss_2body_smpl (vnorm2 (vsub x2 x1)) p1 p2 c1 c2).
    { unfold og_vol, og_prefactor, og_delta, agbnp3_ogauss_2body_smpl.
      cbv zeta. rewrite Rpower_three_halves by auto.
      destruct x1 as [[a0 a1] a2], x2 as [[b0 b1] b2].
      unfold vnorm2, vsub, vx, vy, vz; simpl.
      replace (- (c1 * c2 * ((b0 - a0) * (b0 - a0) + (b1 - a1) * (b1 - a1)
                             + (b2 - a2) * (b2 - a2)) * (1 / (c1 + c2))))
        with (- c1 * c2 * ((b0 - a0) * (b0 - a0) + (b1 - a1) * (b1 - a1)
                           + (b2 - a2) * (b2 - a2)) * (1 / (c1 + c2)))
        by ring.
      ring. }
    destruct (Rlt_dec volp FLT_MIN); simpl; rewrite E; reflexivity.
  - unfold agbnp3_ogauss_2body_smpl. cbv zeta.
    rewrite (Rplus_comm c2 c1).
    destruct x1 as [[a0 a1] a2], x2 as [[b0 b1] b2].
    unfold vnorm2, vsub, vx, vy, vz; simpl.
    replace (- c2 * c1 * ((a0 - b0) * (a0 - b0) + (a1 - b1) * (a1 - b1)
                          + (a2 - b2) * (a2 - b2)) * (1 / (c1 + c2)))
      with (- c1 * c2 * ((b0 - a0) * (b0 - a0) + (b1 - a1) * (b1 - a1)
                         + (b2 - a2) * (b2 - a2)) * (1 / (c1 + c2)))
      by ring.
    ring.
Qed.

(** The theorem at work for two unit Gaussians one unit apart. *)
Lemma ogauss_2body_smpl_agrees_witness :
  og_sr1 (agbnp3_ogauss_incremental 2 [vzero; (1, 0, 0)] [1; 1] [1; 1] [1; 1]
            1 1 vzero 0 0 vzero 0 1 (Some 0) None None None)
  = Some (agbnp3_ogauss_2body_smpl (vnorm2 (vsub (1, 0, 0) vzero)) 1 1 1 1) /\
  agbnp3_ogauss_2body_smpl (vnorm2 (vsub (1, 0, 0) vzero)) 1 1 1 1
  = agbnp3_ogauss_2body_smpl (vnorm2 (vsub vzero (1, 0, 0))) 1 1 1 1.
Proof.
  apply (ogauss_2body_smpl_agrees vzero (1, 0, 0) 1 1 1 1 [1; 1] 0). lra.
Defined.

End FilterFacts.

(** ** Vector routines and the remaining placement routines *)

Section GeometryFacts.
Import WaterSites Geometry Placements.
#[local] Open Scope R_scope.

Lemma inv_sqrt_sq (S : R) :
  0 < S -> (1 / sqrt S) * (1 / sqrt S) * S = 1 /\ 0 < 1 / sqrt S.
Proof.
  intros HS. pose proof (sqrt_lt_R0 S HS) as Hq.
  pose proof (sqrt_sqrt S (Rlt_le _ _ HS)) as Hs.
  split.
  - rewrite <- Hs at 3. field. lra.
  - unfold Rdiv. rewrite Rmult_1_l. apply Rinv_0_lt_compat; auto.
Qed.

Lemma normalize_unit (v : vec3) :
  0 < vnorm2 v -> vnorm2 (fst (normalize v)) = 1.
Proof.
  intros Hv. destruct (inv_sqrt_sq _ Hv) as [Hi _].
  unfold normalize. cbv zeta. cbn [fst].
  unfold vnorm2 in *. cbn [vx vy vz fst snd].
  set (i := 1 / sqrt (vx v * vx v + vy v * vy v + vz v * vz v)) in *.
  rewrite <- Hi. ring.
Qed.

Lemma bond_unit_unit (a b : vec3) :
  a <> b -> vnorm2 (fst (bond_unit a b)) = 1.
Proof.
  intros Hne. pose proof (vnorm2_pos a b Hne) as Hv.
  destruct (inv_sqrt_sq _ Hv) as [Hi _].
  unfold bond_unit. cbv zeta. cbn [fst].
  unfold vnorm2, vsub in *. cbn [vx vy vz fst snd] in *.
  set (i := 1 / sqrt _) in *.
  rewrite <- Hi. ring.
Qed.

(** Component-by-component proof of an equation between tuples of reals. *)
Ltac tuple_ring :=
  repeat (apply injective_projections; cbn [fst snd]); ring.

(** The derivative blocks enter a sum of blocks only through their
    entries: name them, then compare entry by entry. *)
Ltac hide_blocks :=
  repeat match goal with
  | |- context [agbnp3_matmul ?a ?b] =>
      let m := fresh "m" in set (m := agbnp3_matmul a b); clearbody m
  | |- context [mrows ?f] =>
      let m := fresh "m" in set (m := mrows f); clearbody m
  | |- context [agbnp3_der_unitvector ?a ?b] =>
      let m := fresh "m" in set (m := agbnp3_der_unitvector a b); clearbody m
  end.

Ltac blocks_sum :=
  hide_blocks;
  repeat match goal with
  | m : mat3 |- _ => destruct m as [[[[? ?] ?] [[? ?] ?]] [[? ?] ?]]
  end;
  unfold msum, mneg, mbuild, mget, mrow, vget, madd, vadd, mident, mzero,
    vzero;
  cbn [fold_right firstn vx vy vz fst snd Nat.eqb]; tuple_ring.

(** X6. [agbnp3_cross_product]: the product is orthogonal to both factors and
    changes sign when they are swapped, and the two blocks are its
    derivatives: applied to any vector put in place of the first (second)
    factor they give the product with that vector. *)
Theorem cross_product_derivatives (a b a' b' : vec3) :
  let c := fst (fst (agbnp3_cross_product a b)) in
  let dera := snd (fst (agbnp3_cross_product a b)) in
  let derb := snd (agbnp3_cross_product a b) in
  vdot c a = 0 /\ vdot c b = 0 /\
  fst (fst (agbnp3_cross_product b a)) = vscale (-1) c /\
  mapply dera a' = fst (fst (agbnp3_cross_product a' b)) /\
  mapply derb b' = fst (fst (agbnp3_cross_product a b')).
Proof.
  destruct a as [[a0 a1] a2], b as [[b0 b1] b2].
  destruct a' as [[x0 x1] x2], b' as [[y0 y1] y2].
  unfold agbnp3_cross_product, mapply, vdot, vscale, vx, vy, vz.
  cbn [fst snd].
  repeat split; try ring; repeat (first [ring | f_equal]).
Qed.

(** X7. [agbnp3_der_unitvector] at the unit vector of a bond between two
    distinct points: the vector has length 1, the block is symmetric, and
    the block applied to the vector is zero (moving along the bond does not
    turn it). *)
Theorem der_unitvector_bond (a b : vec3) :
  a <> b ->
  let u := fst (bond_unit a b) in
  let der := agbnp3_der_unitvector u (snd (bond_unit a b)) in
  vnorm2 u = 1 /\
  (forall i j, mget der i j = mget der j i) /\
  mapply der u = vzero.
Proof.
  intros Hne u der.
  pose proof (bond_unit_unit a b Hne) as Hu. fold u in Hu.
  split; [exact Hu|]. subst der.
  generalize dependent u. intros u Hu.
  generalize (snd (bond_unit a b)). intros invr.
  destruct u as [[u0 u1] u2].
  unfold vnorm2, vx, vy, vz in Hu. cbn [fst snd] in Hu.
  split.
  - intros i j.
    assert (Hs : forall i j, (i < 3)%nat -> (j < 3)%nat ->
              mget (agbnp3_der_unitvector (u0, u1, u2) invr) i j
              = mget (agbnp3_der_unitvector (u0, u1, u2) invr) j i).
    { intros [|[|[|i']]] [|[|[|j']]] Hi Hj; try lia;
        unfold agbnp3_der_unitvector, mbuild, mget, mrow, vget, vx, vy, vz;
        cbn [fst snd Nat.eqb]; ring. }
    set (k := fun n : nat => match n with
                             | O => O | S O => S O | _ => 2%nat end).
    assert (Hk : forall m n,
              mget (agbnp3_der_unitvector (u0, u1, u2) invr) m n
              = mget (agbnp3_der_unitvector (u0, u1, u2) invr) (k m) (k n)).
    { intros m n. unfold mget, mrow, vget.
      destruct m as [|[|m]], n as [|[|n]]; reflexivity. }
    rewrite (Hk i j), (Hk j i). apply Hs.
    + destruct i as [|[|i]]; simpl; lia.
    + destruct j as [|[|j]]; simpl; lia.
  - unfold agbnp3_der_unitvector, mbuild, mapply, vdot, vzero, vget,
      vx, vy, vz. cbn [fst snd Nat.eqb].
    f_equal; [f_equal|].
    + replace (_ + _ + _)
        with (invr * u0 * (1 - (u0 * u0 + u1 * u1 + u2 * u2))) by ring.
      rewrite Hu. ring.
    + replace (_ + _ + _)
        with (invr * u1 * (1 - (u0 * u0 + u1 * u1 + u2 * u2))) by ring.
      rewrite Hu. ring.
    + replace (_ + _ + _)
        with (invr * u2 * (1 - (u0 * u0 + u1 * u1 + u2 * u2))) by ring.
      rewrite Hu. ring.
Qed.

(** The theorem at work for the bond from the origin to (0, 0, 2). *)
Lemma der_unitvector_bond_witness :
  let u := fst (bond_unit vzero (0, 0, 2)) in
  let der := agbnp3_der_unitvector u (snd (bond_unit vzero (0, 0, 2))) in
  vnorm2 u = 1 /\
  (forall i j, mget der i j = mget der j i) /\
  mapply der u = vzero.
Proof.
  apply (der_unitvector_bond vzero (0, 0, 2)).
  unfold vzero. intros H. injection H as H. lra.
Defined.

(** [agbnp3_matmul] and [agbnp3_rtvec] compose: rotating by a product is
    rotating by the first factor and then by the second, the product is
    associative, and the identity block is neutral on both sides. *)
Theorem matmul_rtvec_compose (a b c : mat3) (x : vec3) :
  agbnp3_rtvec (agbnp3_matmul a b) x = agbnp3_rtvec b (agbnp3_rtvec a x) /\
  agbnp3_matmul (agbnp3_matmul a b) c = agbnp3_matmul a (agbnp3_matmul b c) /\
  agbnp3_matmul mident a = a /\ agbnp3_matmul a mident = a /\
  agbnp3_rtvec mident x = x.
Proof.
  destruct a as [[[[a00 a01] a02] [[a10 a11] a12]] [[a20 a21] a22]].
  destruct b as [[[[b00 b01] b02] [[b10 b11] b12]] [[b20 b21] b22]].
  destruct c as [[[[c00 c01] c02] [[c10 c11] c12]] [[c20 c21] c22]].
  destruct x as [[x0 x1] x2].
  unfold agbnp3_rtvec, agbnp3_matmul, mbuild, mget, mrow, vget, mident,
    vx, vy, vz. cbn [fst snd].
  repeat split; tuple_ring.
Qed.

Lemma place_wat_trigonal1_blocks (xa xr xr1 xr2 : vec3) (d : R) :
  let res := agbnp3_place_wat_trigonal1 xa xr xr1 xr2 d in
  msum (snd (fst res)) = mident /\ msum (snd res) = mident.
Proof.
  unfold agbnp3_place_wat_trigonal1. cbv zeta. cbn [fst snd].
  split; blocks_sum.
Qed.

Lemma place_wat_trigonal2_blocks (xa xr1 xr2 : vec3) (d : R) :
  msum (snd (agbnp3_place_wat_trigonal2 xa xr1 xr2 d)) = mident.
Proof.
  unfold agbnp3_place_wat_trigonal2, bond_unit, normalize. cbv zeta.
  cbn [fst snd]. blocks_sum.
Qed.

Lemma place_wat_tetrahedral3_blocks (xa xr1 xr2 xr3 : vec3) (d : R) :
  msum (snd (agbnp3_place_wat_tetrahedral3 xa xr1 xr2 xr3 d)) = mident.
Proof.
  unfold agbnp3_place_wat_tetrahedral3, bond_unit, normalize. cbv zeta.
  cbn [fst snd]. blocks_sum.
Qed.

Lemma place_wat_tetrahedral1_one_blocks (xa xr xr1 : vec3) (d : R)
    (der3 : mat3) :
  msum (firstn 3 (snd (agbnp3_place_wat_tetrahedral1_one xa xr xr1 d der3)))
  = mident.
Proof.
  unfold agbnp3_place_wat_tetrahedral1_one. cbv zeta. cbn [fst snd].
  blocks_sum.
Qed.

Lemma sqrt_inv_mult (S : R) : 0 < S -> (1 / sqrt S) * S = sqrt S.
Proof.
  intros HS. pose proof (sqrt_lt_R0 S HS) as Hq.
  pose proof (sqrt_sqrt S (Rlt_le _ _ HS)) as Hs.
  rewrite <- Hs at 2. field. lra.
Qed.

(** X8. [agbnp3_place_wat_trigonal1], for a central atom R distinct from its
    neighbours R1 and R2: each site is at distance [d] from the acceptor,
    displaced from it along the direction from R1 (R2) to R, and the four
    derivative blocks of each site sum to the identity. *)
Theorem place_wat_trigonal1_sites (xa xr xr1 xr2 : vec3) (d : R) :
  xr <> xr1 -> xr <> xr2 ->
  let res := agbnp3_place_wat_trigonal1 xa xr xr1 xr2 d in
  let xw1 := fst (fst (fst res)) in
  let xw2 := snd (fst (fst res)) in
  vnorm2 (vsub xw1 xa) = d * d /\
  vnorm2 (vsub xw2 xa) = d * d /\
  vdot (vsub xw1 xa) (vsub xr xr1) = d * sqrt (vnorm2 (vsub xr1 xr)) /\
  vdot (vsub xw2 xa) (vsub xr xr2) = d * sqrt (vnorm2 (vsub xr2 xr)) /\
  msum (snd (fst res)) = mident /\ msum (snd res) = mident.
Proof.
  intros H1 H2 res xw1 xw2. subst xw1 xw2 res.
  pose proof (vnorm2_pos _ _ H1) as P1. pose proof (vnorm2_pos _ _ H2) as P2.
  destruct (inv_sqrt_sq _ P1) as [I1 _]. destruct (inv_sqrt_sq _ P2) as [I2 _].
  pose proof (sqrt_inv_mult _ P1) as Q1. pose proof (sqrt_inv_mult _ P2) as Q2.
  destruct xa as [[a0 a1] a2], xr as [[r0 r1] r2].
  destruct xr1 as [[s0 s1] s2], xr2 as [[t0 t1] t2].
  unfold agbnp3_place_wat_trigonal1. cbv zeta.
  unfold vnorm2, vsub, vdot in *. cbn [vx vy vz fst snd] in *.
  set (S1 := (s0 - r0) * (s0 - r0) + (s1 - r1) * (s1 - r1)
             + (s2 - r2) * (s2 - r2)) in *.
  set (S2 := (t0 - r0) * (t0 - r0) + (t1 - r1) * (t1 - r1)
             + (t2 - r2) * (t2 - r2)) in *.
  set (i1 := 1 / sqrt S1) in *. set (i2 := 1 / sqrt S2) in *.
  repeat split.
  - transitivity (d * d * (i1 * i1 * S1)); [unfold S1; ring|].
    rewrite I1; ring.
  - transitivity (d * d * (i2 * i2 * S2)); [unfold S2; ring|].
    rewrite I2; ring.
  - transitivity (d * (i1 * S1)); [unfold S1; ring|]. rewrite Q1; ring.
  - transitivity (d * (i2 * S2)); [unfold S2; ring|]. rewrite Q2; ring.
  - unfold msum, mneg, mbuild, mget, mrow, vget, madd, vadd, mident, mzero,
      vzero. cbn [fold_right vx vy vz fst snd Nat.eqb]. tuple_ring.
  - unfold msum, mneg, mbuild, mget, mrow, vget, madd, vadd, mident, mzero,
      vzero. cbn [fold_right vx vy vz fst snd Nat.eqb]. tuple_ring.
Qed.

(** The theorem at work for a carbonyl-like arrangement in the plane. *)
Lemma place_wat_trigonal1_sites_witness :
  let res := agbnp3_place_wat_trigonal1 (0, 0, 1) vzero (1, 0, 0) (0, 1, 0) 2 in
  let xw1 := fst (fst (fst res)) in
  let xw2 := snd (fst (fst res)) in
  vnorm2 (vsub xw1 (0, 0, 1)) = 2 * 2 /\
  vnorm2 (vsub xw2 (0, 0, 1)) = 2 * 2 /\
  vdot (vsub xw1 (0, 0, 1)) (vsub vzero (1, 0, 0))
  = 2 * sqrt (vnorm2 (vsub (1, 0, 0) vzero)) /\
  vdot (vsub xw2 (0, 0, 1)) (vsub vzero (0, 1, 0))
  = 2 * sqrt (vnorm2 (vsub (0, 1, 0) vzero)) /\
  msum (snd (fst res)) = mident /\ msum (snd res) = mident.
Proof.
  apply (place_wat_trigonal1_sites (0, 0, 1) vzero (1, 0, 0) (0, 1, 0) 2);
    unfold vzero; intros H; injection H as H; lra.
Defined.

Lemma normalize_ext (u v : vec3) :
  vx u = vx v -> vy u = vy v -> vz u = vz v -> normalize u = normalize v.
Proof.
  destruct u as [[u0 u1] u2], v as [[v0 v1] v2].
  unfold vx, vy, vz; cbn [fst snd]. intros -> -> ->. reflexivity.
Qed.

(** The site of [agbnp3_place_wat_trigonal2] in closed form. *)
Lemma place_wat_trigonal2_site (xa xr1 xr2 : vec3) (d : R) :
  fst (agbnp3_place_wat_trigonal2 xa xr1 xr2 d)
  = vsub xa (vscale d (fst (normalize
      (vadd (fst (bond_unit xa xr1)) (fst (bond_unit xa xr2)))))).
Proof. reflexivity. Qed.

Lemma away_site_distance (xa n : vec3) (d : R) :
  vnorm2 n = 1 -> vnorm2 (vsub (vsub xa (vscale d n)) xa) = d * d.
Proof.
  intros Hn. destruct xa as [[a0 a1] a2], n as [[n0 n1] n2].
  unfold vnorm2, vsub, vscale in *. cbn [vx vy vz fst snd] in *.
  transitivity (d * d * (n0 * n0 + n1 * n1 + n2 * n2)); [ring|].
  rewrite Hn; ring.
Qed.

(** X9. [agbnp3_place_wat_trigonal2], for an acceptor distinct from its two
    neighbours whose bonds are not exactly opposite: the site is at
    distance [d] from the acceptor, makes the same angle with both bonds,
    does not depend on the order of the neighbours, and the three
    derivative blocks sum to the identity. *)
Theorem place_wat_trigonal2_site_bisects (xa xr1 xr2 : vec3) (d : R) :
  xa <> xr1 -> xa <> xr2 ->
  0 < vnorm2 (vadd (fst (bond_unit xa xr1)) (fst (bond_unit xa xr2))) ->
  let xw := fst (agbnp3_place_wat_trigonal2 xa xr1 xr2 d) in
  vnorm2 (vsub xw xa) = d * d /\
  vdot (vsub xw xa) (fst (bond_unit xa xr1))
  = vdot (vsub xw xa) (fst (bond_unit xa xr2)) /\
  fst (agbnp3_place_wat_trigonal2 xa xr2 xr1 d) = xw /\
  msum (snd (agbnp3_place_wat_trigonal2 xa xr1 xr2 d)) = mident.
Proof.
  intros H1 H2 HN xw. subst xw.
  rewrite !place_wat_trigonal2_site.
  pose proof (bond_unit_unit _ _ H1) as U1.
  pose proof (bond_unit_unit _ _ H2) as U2.
  pose proof (normalize_unit _ HN) as UN.
  split; [apply away_site_distance; exact UN|].
  split; [|split].
  - clear UN HN.
    generalize dependent (fst (bond_unit xa xr1)). intros u U1.
    generalize dependent (fst (bond_unit xa xr2)). intros v U2.
    destruct xa as [[a0 a1] a2], u as [[u0 u1] u2], v as [[v0 v1] v2].
    unfold normalize, vnorm2, vsub, vscale, vadd, vdot in *.
    cbv zeta. cbn [vx vy vz fst snd] in *.
    set (i := 1 / sqrt _).
    transitivity (- d * i * ((u0 * u0 + u1 * u1 + u2 * u2)
                             + (u0 * v0 + u1 * v1 + u2 * v2))); [ring|].
    transitivity (- d * i * ((v0 * v0 + v1 * v1 + v2 * v2)
                             + (u0 * v0 + u1 * v1 + u2 * v2))); [|ring].
    rewrite U1, U2. reflexivity.
  - f_equal. f_equal. f_equal. apply normalize_ext;
      unfold vadd; cbn [vx vy vz fst snd]; ring.
  - unfold agbnp3_place_wat_trigonal2.
    destruct (bond_unit xa xr1) as [d1 idist1].
    destruct (bond_unit xa xr2) as [d2 idist2].
    destruct (normalize _) as [dw idistw]. cbv zeta. cbn [snd].
    set (drp1 := agbnp3_matmul _ (agbnp3_der_unitvector d1 idist1)).
    set (drp2 := agbnp3_matmul _ (agbnp3_der_unitvector d2 idist2)).
    destruct drp1 as [[[[p00 p01] p02] [[p10 p11] p12]] [[p20 p21] p22]].
    destruct drp2 as [[[[q00 q01] q02] [[q10 q11] q12]] [[q20 q21] q22]].
    unfold msum, mbuild, mget, mrow, vget, madd, vadd, mident, mzero, vzero.
    cbn [fold_right vx vy vz fst snd Nat.eqb]. tuple_ring.
Qed.

Lemma bond_unit_axis_x :
  fst (bond_unit vzero (1, 0, 0)) = (1, 0, 0).
Proof.
  unfold bond_unit, vzero. cbv zeta. cbn [vx vy vz fst snd].
  replace ((1 - 0) * (1 - 0) + (0 - 0) * (0 - 0) + (0 - 0) * (0 - 0))
    with 1 by ring.
  rewrite sqrt_1.
  repeat (apply injective_projections; cbn [fst snd]); field.
Qed.

Lemma bond_unit_axis_y :
  fst (bond_unit vzero (0, 1, 0)) = (0, 1, 0).
Proof.
  unfold bond_unit, vzero. cbv zeta. cbn [vx vy vz fst snd].
  replace ((0 - 0) * (0 - 0) + (1 - 0) * (1 - 0) + (0 - 0) * (0 - 0))
    with 1 by ring.
  rewrite sqrt_1.
  repeat (apply injective_projections; cbn [fst snd]); field.
Qed.

Lemma bond_unit_axis_z :
  fst (bond_unit vzero (0, 0, 1)) = (0, 0, 1).
Proof.
  unfold bond_unit, vzero. cbv zeta. cbn [vx vy vz fst snd].
  replace ((0 - 0) * (0 - 0) + (0 - 0) * (0 - 0) + (1 - 0) * (1 - 0))
    with 1 by ring.
  rewrite sqrt_1.
  repeat (apply injective_projections; cbn [fst snd]); field.
Qed.

(** The theorem at work for an acceptor at the origin with neighbours on
    the x and y axes. *)
Lemma place_wat_trigonal2_site_bisects_witness :
  let xw := fst (agbnp3_place_wat_trigonal2 vzero (1, 0, 0) (0, 1, 0) 2) in
  vnorm2 (vsub xw vzero) = 2 * 2 /\
  vdot (vsub xw vzero) (fst (bond_unit vzero (1, 0, 0)))
  = vdot (vsub xw vzero) (fst (bond_unit vzero (0, 1, 0))) /\
  fst (agbnp3_place_wat_trigonal2 vzero (0, 1, 0) (1, 0, 0) 2) = xw /\
  msum (snd (agbnp3_place_wat_trigonal2 vzero (1, 0, 0) (0, 1, 0) 2)) = mident.
Proof.
  apply (place_wat_trigonal2_site_bisects vzero (1, 0, 0) (0, 1, 0) 2).
  - unfold vzero. intros H; injection H as H; lra.
  - unfold vzero. intros H; injection H as H; lra.
  - rewrite bond_unit_axis_x, bond_unit_axis_y.
    unfold vnorm2, vadd. cbn [vx vy vz fst snd]. lra.
Defined.

(** The site of [agbnp3_place_wat_tetrahedral3] in closed form. *)
Lemma place_wat_tetrahedral3_site (xa xr1 xr2 xr3 : vec3) (d : R) :
  fst (agbnp3_place_wat_tetrahedral3 xa xr1 xr2 xr3 d)
  = vsub xa (vscale d (fst (normalize
      (vadd (vadd (fst (bond_unit xa xr1)) (fst (bond_unit xa xr2)))
            (fst (bond_unit xa xr3)))))).
Proof. reflexivity. Qed.

(** X10. [agbnp3_place_wat_tetrahedral3], when the three bond unit vectors do
    not cancel: the site is at distance [d] from the acceptor, for a
    non-negative [d] it lies on the side away from the sum of the three
    bond directions, and the four derivative blocks sum to the identity. *)
Theorem place_wat_tetrahedral3_site_away (xa xr1 xr2 xr3 : vec3) (d : R) :
  let s := vadd (vadd (fst (bond_unit xa xr1)) (fst (bond_unit xa xr2)))
                (fst (bond_unit xa xr3)) in
  0 < vnorm2 s -> 0 <= d ->
  let xw := fst (agbnp3_place_wat_tetrahedral3 xa xr1 xr2 xr3 d) in
  vnorm2 (vsub xw xa) = d * d /\
  vdot (vsub xw xa) s = - d * sqrt (vnorm2 s) /\
  msum (snd (agbnp3_place_wat_tetrahedral3 xa xr1 xr2 xr3 d)) = mident.
Proof.
  intros s HN Hd xw. subst xw.
  rewrite place_wat_tetrahedral3_site. fold s.
  pose proof (normalize_unit _ HN) as UN.
  split; [apply away_site_distance; exact UN|]. split.
  - pose proof (sqrt_inv_mult _ HN) as Q. clear UN.
    generalize dependent s. intros s HN Q.
    destruct xa as [[a0 a1] a2], s as [[s0 s1] s2].
    unfold normalize, vnorm2, vsub, vscale, vdot in *.
    cbv zeta. cbn [vx vy vz fst snd] in *.
    set (i := 1 / sqrt _) in *.
    transitivity (- d * (i * (s0 * s0 + s1 * s1 + s2 * s2))); [ring|].
    rewrite Q. reflexivity.
  - unfold agbnp3_place_wat_tetrahedral3.
    destruct (bond_unit xa xr1) as [d1 idist1].
    destruct (bond_unit xa xr2) as [d2 idist2].
    destruct (bond_unit xa xr3) as [d3 idist3].
    destruct (normalize _) as [dw idistw]. cbv zeta. cbn [snd].
    set (drp1 := agbnp3_matmul _ (agbnp3_der_unitvector d1 idist1)).
    set (drp2 := agbnp3_matmul _ (agbnp3_der_unitvector d2 idist2)).
    set (drp3 := agbnp3_matmul _ (agbnp3_der_unitvector d3 idist3)).
    destruct drp1 as [[[[p00 p01] p02] [[p10 p11] p12]] [[p20 p21] p22]].
    destruct drp2 as [[[[q00 q01] q02] [[q10 q11] q12]] [[q20 q21] q22]].
    destruct drp3 as [[[[r00 r01] r02] [[r10 r11] r12]] [[r20 r21] r22]].
    unfold msum, mbuild, mget, mrow, vget, madd, vadd, mident, mzero, vzero.
    cbn [fold_right vx vy vz fst snd Nat.eqb]. tuple_ring.
Qed.

(** The theorem at work for an acceptor at the origin with neighbours on
    the three axes. *)
Lemma place_wat_tetrahedral3_site_away_witness :
  let s := vadd (vadd (fst (bond_unit vzero (1, 0, 0)))
                      (fst (bond_unit vzero (0, 1, 0))))
                (fst (bond_unit vzero (0, 0, 1))) in
  let xw := fst (agbnp3_place_wat_tetrahedral3 vzero (1, 0, 0) (0, 1, 0)
                   (0, 0, 1) 2) in
  vnorm2 (vsub xw vzero) = 2 * 2 /\
  vdot (vsub xw vzero) s = - 2 * sqrt (vnorm2 s) /\
  msum (snd (agbnp3_place_wat_tetrahedral3 vzero (1, 0, 0) (0, 1, 0)
               (0, 0, 1) 2)) = mident.
Proof.
  apply (place_wat_tetrahedral3_site_away vzero (1, 0, 0) (0, 1, 0)
           (0, 0, 1) 2).
  - rewrite bond_unit_axis_x, bond_unit_axis_y, bond_unit_axis_z.
    unfold vnorm2, vadd. cbn [vx vy vz fst snd]. lra.
  - lra.
Defined.

(** X11. [agbnp3_place_wat_tetrahedral1_one], for a central atom R distinct
    from its neighbour R1: the site is at distance [d] from the acceptor,
    displaced from it along the direction from R1 to R; the three blocks
    the routine writes sum to the identity, and the fourth block is left
    as the caller had it. *)
Theorem place_wat_tetrahedral1_one_site (xa xr xr1 : vec3) (d : R)
    (der3 : mat3) :
  xr <> xr1 ->
  let res := agbnp3_place_wat_tetrahedral1_one xa xr xr1 d der3 in
  vnorm2 (vsub (fst res) xa) = d * d /\
  vdot (vsub (fst res) xa) (vsub xr xr1) = d * sqrt (vnorm2 (vsub xr1 xr)) /\
  msum (firstn 3 (snd res)) = mident /\
  nth_error (snd res) 3 = Some der3.
Proof.
  intros H1 res. subst res.
  pose proof (vnorm2_pos _ _ H1) as P1.
  pose proof (sqrt_lt_R0 _ P1) as Hq.
  pose proof (sqrt_sqrt _ (Rlt_le _ _ P1)) as Hs.
  destruct xa as [[a0 a1] a2], xr as [[r0 r1] r2], xr1 as [[s0 s1] s2].
  unfold agbnp3_place_wat_tetrahedral1_one. cbv zeta.
  unfold vnorm2, vsub, vdot in *. cbn [vx vy vz fst snd] in *.
  replace (0 + (s0 - r0) * (s0 - r0) + (s1 - r1) * (s1 - r1)
           + (s2 - r2) * (s2 - r2))
    with ((s0 - r0) * (s0 - r0) + (s1 - r1) * (s1 - r1)
          + (s2 - r2) * (s2 - r2)) by ring.
  set (S1 := (s0 - r0) * (s0 - r0) + (s1 - r1) * (s1 - r1)
             + (s2 - r2) * (s2 - r2)) in *.
  set (q := sqrt S1) in *.
  repeat split.
  - transitivity (d * d * (S1 / (q * q))); [unfold S1; field; lra|].
    rewrite Hs. field. lra.
  - transitivity (d * (S1 / q)); [unfold S1; field; lra|].
    rewrite <- Hs. field. lra.
  - unfold msum, mneg, mbuild, mget, mrow, vget, madd, vadd, mident, mzero,
      vzero. cbn [firstn fold_right vx vy vz fst snd Nat.eqb]. tuple_ring.
Qed.

(** The theorem at work for a sulphone-like arrangement. *)
Lemma place_wat_tetrahedral1_one_site_witness :
  let res := agbnp3_place_wat_tetrahedral1_one (0, 0, 1) vzero (1, 0, 0) 2
               mzero in
  vnorm2 (vsub (fst res) (0, 0, 1)) = 2 * 2 /\
  vdot (vsub (fst res) (0, 0, 1)) (vsub vzero (1, 0, 0))
  = 2 * sqrt (vnorm2 (vsub (1, 0, 0) vzero)) /\
  msum (firstn 3 (snd res)) = mident /\
  nth_error (snd res) 3 = Some mzero.
Proof.
  apply (place_wat_tetrahedral1_one_site (0, 0, 1) vzero (1, 0, 0) 2 mzero).
  unfold vzero. intros H; injection H as H; lra.
Defined.

(** *** The placement routines built on the cross product *)

Lemma scaled_unit (v : vec3) :
  0 < vnorm2 v ->
  let i := 1 / sqrt (vx v * vx v + vy v * vy v + vz v * vz v) in
  vnorm2 (i * vx v, i * vy v, i * vz v) = 1 /\
  vnorm2 (vx v * i, vy v * i, vz v * i) = 1.
Proof.
  intros Hv i. destruct (inv_sqrt_sq _ Hv) as [Hi _].
  unfold vnorm2 in *. fold i in Hi. cbn [vx vy vz fst snd].
  split; rewrite <- Hi; ring.
Qed.

(** A site displaced from [xa] by [d (c u + s v)] with [u], [v] orthogonal
    unit vectors. *)
Lemma two_axis_distance (xa u v : vec3) (d c s : R) :
  vnorm2 u = 1 -> vnorm2 v = 1 -> vdot u v = 0 ->
  vnorm2 (vsub (vx xa + d * (c * vx u + s * vx v),
                vy xa + d * (c * vy u + s * vy v),
                vz xa + d * (c * vz u + s * vz v)) xa)
  = d * d * (c * c + s * s) /\
  vnorm2 (vsub (vx xa + d * (c * vx u - s * vx v),
                vy xa + d * (c * vy u - s * vy v),
                vz xa + d * (c * vz u - s * vz v)) xa)
  = d * d * (c * c + s * s).
Proof.
  destruct xa as [[a0 a1] a2], u as [[u0 u1] u2], v as [[v0 v1] v2].
  unfold vnorm2, vdot, vsub. cbn [vx vy vz fst snd]. intros Hu Hv Huv.
  split.
  - transitivity (d * d * (c * c * (u0 * u0 + u1 * u1 + u2 * u2)
                           + s * s * (v0 * v0 + v1 * v1 + v2 * v2)
                           + 2 * c * s * (u0 * v0 + u1 * v1 + u2 * v2)));
      [ring|]. rewrite Hu, Hv, Huv. ring.
  - transitivity (d * d * (c * c * (u0 * u0 + u1 * u1 + u2 * u2)
                           + s * s * (v0 * v0 + v1 * v1 + v2 * v2)
                           - 2 * c * s * (u0 * v0 + u1 * v1 + u2 * v2)));
      [ring|]. rewrite Hu, Hv, Huv. ring.
Qed.

Lemma place_wat_trigonal_s_blocks (xa xr xr1 xr2 : vec3) (d : R) :
  let res := agbnp3_place_wat_trigonal_s xa xr xr1 xr2 d in
  msum (snd (fst res)) = mident /\ msum (snd res) = mident.
Proof.
  unfold agbnp3_place_wat_trigonal_s. cbv zeta. cbn [fst snd].
  split; blocks_sum.
Qed.

Lemma place_wat_trigonal_oop_blocks (xa xr1 xr2 xr3 : vec3) (d1 : R) :
  let res := agbnp3_place_wat_trigonal_oop xa xr1 xr2 xr3 d1 in
  msum (snd (fst res)) = mident /\ msum (snd res) = mident.
Proof.
  unfold agbnp3_place_wat_trigonal_oop, agbnp3_cross_product. cbv zeta.
  cbn [fst snd]. split; blocks_sum.
Qed.

Lemma place_wat_tetrahedral2_blocks (xa xr1 xr2 : vec3) (d : R) :
  let res := agbnp3_place_wat_tetrahedral2 xa xr1 xr2 d in
  msum (snd (fst res)) = mident /\ msum (snd res) = mident.
Proof.
  unfold agbnp3_place_wat_tetrahedral2. cbv zeta. cbn [fst snd].
  split; blocks_sum.
Qed.

(** X12. [agbnp3_place_wat_trigonal_s], for an acceptor A distinct from the
    central atom R and not on the line through R and R1: both sites are at
    the same distance from the acceptor, [d * sqrt(0.5^2 + 0.866025^2)]
    (the rounded sine makes it a little less than [d]), they lie
    symmetrically about the line from R through A, and the four derivative
    blocks of each site sum to the identity. *)
Theorem place_wat_trigonal_s_sites (xa xr xr1 xr2 : vec3) (d : R) :
  xr <> xa ->
  0 < vnorm2 (cross (vsub xr1 xr) (vsub xa xr)) ->
  let res := agbnp3_place_wat_trigonal_s xa xr xr1 xr2 d in
  let xw1 := fst (fst (fst res)) in
  let xw2 := snd (fst (fst res)) in
  vnorm2 (vsub xw1 xa) = d * d * (0.5 * 0.5 + 0.866025 * 0.866025) /\
  vnorm2 (vsub xw2 xa) = d * d * (0.5 * 0.5 + 0.866025 * 0.866025) /\
  vadd (vsub xw1 xa) (vsub xw2 xa)
  = vscale (d * (1 / sqrt (vnorm2 (vsub xa xr)))) (vsub xa xr) /\
  msum (snd (fst res)) = mident /\ msum (snd res) = mident.
Proof.
  intros Hne Hc res xw1 xw2. subst xw1 xw2 res.
  pose proof (vnorm2_pos _ _ Hne) as H0.
  set (dx0 := vsub xa xr) in *. set (dx1 := vsub xr1 xr) in *.
  destruct (scaled_unit dx0 H0) as [_ Uin].
  destruct (scaled_unit _ Hc) as [_ Uout].
  cbv zeta in Uin, Uout.
  set (d0i := 1 / sqrt (vx dx0 * vx dx0 + vy dx0 * vy dx0 + vz dx0 * vz dx0))
    in *.
  set (c := cross dx1 dx0) in *.
  set (d2i := 1 / sqrt (vx c * vx c + vy c * vy c + vz c * vz c)) in *.
  set (uin := (vx dx0 * d0i, vy dx0 * d0i, vz dx0 * d0i)) in *.
  set (uout := (vx c * d2i, vy c * d2i, vz c * d2i)) in *.
  assert (Hperp : vdot uin uout = 0).
  { unfold uin, uout, c, cross, agbnp3_cross_product, vdot.
    destruct dx0 as [[p0 p1] p2], dx1 as [[q0 q1] q2].
    cbn [vx vy vz fst snd]. ring. }
  destruct (two_axis_distance xa uin uout d 0.5 0.866025 Uin Uout Hperp)
    as [D1 D2].
  split; [exact D1|]. split; [exact D2|]. split; [|split].
  - change (fst (fst (fst (agbnp3_place_wat_trigonal_s xa xr xr1 xr2 d))))
      with (vx xa + d * (0.5 * vx uin + 0.866025 * vx uout),
            vy xa + d * (0.5 * vy uin + 0.866025 * vy uout),
            vz xa + d * (0.5 * vz uin + 0.866025 * vz uout)).
    change (snd (fst (fst (agbnp3_place_wat_trigonal_s xa xr xr1 xr2 d))))
      with (vx xa + d * (0.5 * vx uin - 0.866025 * vx uout),
            vy xa + d * (0.5 * vy uin - 0.866025 * vy uout),
            vz xa + d * (0.5 * vz uin - 0.866025 * vz uout)).
    unfold uin. fold d0i.
    replace (vnorm2 dx0)
      with (vx dx0 * vx dx0 + vy dx0 * vy dx0 + vz dx0 * vz dx0)
      by reflexivity.
    fold d0i.
    destruct xa as [[a0 a1] a2], dx0 as [[p0 p1] p2], uout as [[o0 o1] o2].
    unfold vadd, vsub, vscale. cbn [vx vy vz fst snd].
    repeat (apply injective_projections; cbn [fst snd]); lra.
  - apply place_wat_trigonal_s_blocks.
  - apply place_wat_trigonal_s_blocks.
Qed.

(** The theorem at work for a planar arrangement. *)
Lemma place_wat_trigonal_s_sites_witness :
  let res := agbnp3_place_wat_trigonal_s (1, 0, 0) vzero (0, 1, 0) (0, 0, 0) 2
  in
  let xw1 := fst (fst (fst res)) in
  let xw2 := snd (fst (fst res)) in
  vnorm2 (vsub xw1 (1, 0, 0)) = 2 * 2 * (0.5 * 0.5 + 0.866025 * 0.866025) /\
  vnorm2 (vsub xw2 (1, 0, 0)) = 2 * 2 * (0.5 * 0.5 + 0.866025 * 0.866025) /\
  vadd (vsub xw1 (1, 0, 0)) (vsub xw2 (1, 0, 0))
  = vscale (2 * (1 / sqrt (vnorm2 (vsub (1, 0, 0) vzero))))
      (vsub (1, 0, 0) vzero) /\
  msum (snd (fst res)) = mident /\ msum (snd res) = mident.
Proof.
  apply (place_wat_trigonal_s_sites (1, 0, 0) vzero (0, 1, 0) (0, 0, 0) 2).
  - unfold vzero. intros H; injection H as H; lra.
  - unfold cross, agbnp3_cross_product, vsub, vnorm2, vzero.
    cbn [vx vy vz fst snd]. lra.
Defined.

(** The sites of [agbnp3_place_wat_trigonal_oop] in closed form. *)
Lemma place_wat_trigonal_oop_site1 (xa xr1 xr2 xr3 : vec3) (d1 : R) :
  fst (fst (fst (agbnp3_place_wat_trigonal_oop xa xr1 xr2 xr3 d1)))
  = let nu0 := cross (vsub xr3 xr1) (vsub xr2 xr1) in
    let nun := sqrt (vnorm2 nu0) in
    (vx xa + (d1 + 0.2) * (vx nu0 / nun),
     vy xa + (d1 + 0.2) * (vy nu0 / nun),
     vz xa + (d1 + 0.2) * (vz nu0 / nun)).
Proof. reflexivity. Qed.

Lemma place_wat_trigonal_oop_site2 (xa xr1 xr2 xr3 : vec3) (d1 : R) :
  snd (fst (fst (agbnp3_place_wat_trigonal_oop xa xr1 xr2 xr3 d1)))
  = let nu0 := cross (vsub xr3 xr1) (vsub xr2 xr1) in
    let nun := sqrt (vnorm2 nu0) in
    (vx xa - (d1 + 0.2) * (vx nu0 / nun),
     vy xa - (d1 + 0.2) * (vy nu0 / nun),
     vz xa - (d1 + 0.2) * (vz nu0 / nun)).
Proof. reflexivity. Qed.

(** X13. [agbnp3_place_wat_trigonal_oop], for three neighbours that are not on
    one line: the two sites are at distance [d1 + 0.2] from the acceptor,
    opposite to each other, displaced along the normal of the plane
    through the three neighbours, and the four derivative blocks of each
    site sum to the identity. *)
Theorem place_wat_trigonal_oop_sites (xa xr1 xr2 xr3 : vec3) (d1 : R) :
  0 < vnorm2 (cross (vsub xr3 xr1) (vsub xr2 xr1)) ->
  let res := agbnp3_place_wat_trigonal_oop xa xr1 xr2 xr3 d1 in
  let xw1 := fst (fst (fst res)) in
  let xw2 := snd (fst (fst res)) in
  vnorm2 (vsub xw1 xa) = (d1 + 0.2) * (d1 + 0.2) /\
  vnorm2 (vsub xw2 xa) = (d1 + 0.2) * (d1 + 0.2) /\
  vadd (vsub xw1 xa) (vsub xw2 xa) = vzero /\
  vdot (vsub xw1 xa) (vsub xr2 xr1) = 0 /\
  vdot (vsub xw1 xa) (vsub xr3 xr1) = 0 /\
  msum (snd (fst res)) = mident /\ msum (snd res) = mident.
Proof.
  intros Hc res xw1 xw2. subst xw1 xw2 res.
  pose proof (sqrt_lt_R0 _ Hc) as Hq.
  pose proof (sqrt_sqrt _ (Rlt_le _ _ Hc)) as Hs.
  rewrite place_wat_trigonal_oop_site1, place_wat_trigonal_oop_site2.
  set (nu0 := cross (vsub xr3 xr1) (vsub xr2 xr1)) in *.
  set (nun := sqrt (vnorm2 nu0)) in *.
  assert (Hn : vnorm2 nu0 = vx nu0 * vx nu0 + vy nu0 * vy nu0 + vz nu0 * vz nu0)
    by reflexivity.
  rewrite Hn in Hs. cbv zeta. fold nu0 nun.
  set (dd := d1 + 0.2).
  split; [|split; [|split; [|split; [|split]]]];
    [| | | | |apply place_wat_trigonal_oop_blocks].
  - destruct xa as [[a0 a1] a2], nu0 as [[n0 n1] n2].
    unfold vnorm2, vsub. cbn [vx vy vz fst snd] in *.
    transitivity (dd * dd * ((n0 * n0 + n1 * n1 + n2 * n2) / (nun * nun)));
      [field; lra|]. rewrite Hs. field. lra.
  - destruct xa as [[a0 a1] a2], nu0 as [[n0 n1] n2].
    unfold vnorm2, vsub. cbn [vx vy vz fst snd] in *.
    transitivity (dd * dd * ((n0 * n0 + n1 * n1 + n2 * n2) / (nun * nun)));
      [field; lra|]. rewrite Hs. field. lra.
  - destruct xa as [[a0 a1] a2], nu0 as [[n0 n1] n2].
    unfold vadd, vsub, vzero. cbn [vx vy vz fst snd].
    repeat (apply injective_projections; cbn [fst snd]); ring.
  - clear Hs Hn. unfold nu0, cross, agbnp3_cross_product.
    destruct xa as [[a0 a1] a2], xr1 as [[p0 p1] p2], xr2 as [[q0 q1] q2],
      xr3 as [[r0 r1] r2].
    unfold vdot, vsub. cbn [vx vy vz fst snd]. field. lra.
  - clear Hs Hn. unfold nu0, cross, agbnp3_cross_product.
    destruct xa as [[a0 a1] a2], xr1 as [[p0 p1] p2], xr2 as [[q0 q1] q2],
      xr3 as [[r0 r1] r2].
    unfold vdot, vsub. cbn [vx vy vz fst snd]. field. lra.
Qed.

(** The theorem at work for neighbours in the x-y plane. *)
Lemma place_wat_trigonal_oop_sites_witness :
  let res := agbnp3_place_wat_trigonal_oop (0, 0, 1) vzero (1, 0, 0)
               (0, 1, 0) 2 in
  let xw1 := fst (fst (fst res)) in
  let xw2 := snd (fst (fst res)) in
  vnorm2 (vsub xw1 (0, 0, 1)) = (2 + 0.2) * (2 + 0.2) /\
  vnorm2 (vsub xw2 (0, 0, 1)) = (2 + 0.2) * (2 + 0.2) /\
  vadd (vsub xw1 (0, 0, 1)) (vsub xw2 (0, 0, 1)) = vzero /\
  vdot (vsub xw1 (0, 0, 1)) (vsub (1, 0, 0) vzero) = 0 /\
  vdot (vsub xw1 (0, 0, 1)) (vsub (0, 1, 0) vzero) = 0 /\
  msum (snd (fst res)) = mident /\ msum (snd res) = mident.
Proof.
  apply (place_wat_trigonal_oop_sites (0, 0, 1) vzero (1, 0, 0) (0, 1, 0) 2).
  unfold cross, agbnp3_cross_product, vsub, vnorm2, vzero.
  cbn [vx vy vz fst snd]. lra.
Defined.

(** X14. [agbnp3_place_wat_tetrahedral2], for an acceptor whose two bonds are
    not on one line: both lone-pair sites are at the same distance from
    the acceptor, [d * sqrt(0.577350269^2 + 0.816496581^2)] (the rounded
    sine and cosine make it a little less than [d]), and the three
    derivative blocks of each site sum to the identity. *)
Theorem place_wat_tetrahedral2_sites (xa xr1 xr2 : vec3) (d : R) :
  0 < vnorm2 (vadd (fst (bond_unit xa xr1)) (fst (bond_unit xa xr2))) ->
  0 < vnorm2 (cross (vsub xr2 xa) (vsub xr1 xa)) ->
  let res := agbnp3_place_wat_tetrahedral2 xa xr1 xr2 d in
  let xw1 := fst (fst (fst res)) in
  let xw2 := snd (fst (fst res)) in
  vnorm2 (vsub xw1 xa)
  = d * d * (0.577350269 * 0.577350269 + 0.816496581 * 0.816496581) /\
  vnorm2 (vsub xw2 xa)
  = d * d * (0.577350269 * 0.577350269 + 0.816496581 * 0.816496581) /\
  msum (snd (fst res)) = mident /\ msum (snd res) = mident.
Proof.
  intros Hs Ho res xw1 xw2. subst xw1 xw2 res.
  destruct (place_wat_tetrahedral2_blocks xa xr1 xr2 d) as [B1 B2].
  destruct (scaled_unit _ Hs) as [Uin _].
  destruct (scaled_unit _ Ho) as [Uout _].
  cbv zeta in Uin, Uout.
  set (s := vadd (fst (bond_unit xa xr1)) (fst (bond_unit xa xr2))) in *.
  set (o := cross (vsub xr2 xa) (vsub xr1 xa)) in *.
  set (distin := 1 / sqrt (vx s * vx s + vy s * vy s + vz s * vz s)) in *.
  set (distout := 1 / sqrt (vx o * vx o + vy o * vy o + vz o * vz o)) in *.
  set (dpin := (distin * vx s, distin * vy s, distin * vz s)) in *.
  set (dout := (distout * vx o, distout * vy o, distout * vz o)) in *.
  assert (Hperp : vdot dpin dout = 0).
  { unfold dpin, dout, s, o, cross, agbnp3_cross_product, bond_unit, vdot,
      vadd, vsub.
    destruct xa as [[a0 a1] a2], xr1 as [[p0 p1] p2], xr2 as [[q0 q1] q2].
    cbv zeta. cbn [vx vy vz fst snd]. ring. }
  destruct (two_axis_distance xa dpin dout d (- 0.577350269) 0.816496581
              Uin Uout Hperp) as [D1 D2].
  replace (- 0.577350269 * - 0.577350269)
    with (0.577350269 * 0.577350269) in D1, D2 by lra.
  split; [exact D1|]. split; [exact D2|]. split; assumption.
Qed.

(** The theorem at work for bonds along the x and y axes. *)
Lemma place_wat_tetrahedral2_sites_witness :
  let res := agbnp3_place_wat_tetrahedral2 vzero (1, 0, 0) (0, 1, 0) 2 in
  let xw1 := fst (fst (fst res)) in
  let xw2 := snd (fst (fst res)) in
  vnorm2 (vsub xw1 vzero)
  = 2 * 2 * (0.577350269 * 0.577350269 + 0.816496581 * 0.816496581) /\
  vnorm2 (vsub xw2 vzero)
  = 2 * 2 * (0.577350269 * 0.577350269 + 0.816496581 * 0.816496581) /\
  msum (snd (fst res)) = mident /\ msum (snd res) = mident.
Proof.
  apply (place_wat_tetrahedral2_sites vzero (1, 0, 0) (0, 1, 0) 2).
  - rewrite bond_unit_axis_x, bond_unit_axis_y.
    unfold vnorm2, vadd. cbn [vx vy vz fst snd]. lra.
  - unfold cross, agbnp3_cross_product, vsub, vnorm2, vzero.
    cbn [vx vy vz fst snd]. lra.
Defined.

End GeometryFacts.

(** ** The size of the hash table and what it can hold *)

Section HashSizeFacts.
Import HTable HashSize.

Lemma two2n_loop_reaches (l : Z) :
  0 < l <= 2 ^ 31 ->
  forall (n : nat) (k : Z) (fuel : nat),
    0 <= k -> 2 ^ k < 2 * l -> (2 ^ k < l -> Z.of_nat n + k <= 31) ->
    (forall j, 2 ^ j < l -> 0 <= j -> j < k + Z.of_nat n) ->
    (n < fuel)%nat ->
    exists p, k <= p <= 31 /\ two2n_loop fuel (2 ^ k) l = Some (2 ^ p) /\
              l <= 2 ^ p /\ 2 ^ p < 2 * l.
Proof.
  intros Hl. induction n as [|n IH]; intros k fuel Hk Hlt Hb Hj Hf.
  - destruct fuel as [|f]; [lia|]. cbn [two2n_loop].
    destruct (2 ^ k <? l) eqn:E.
    + apply Z.ltb_lt in E. specialize (Hj k E Hk). lia.
    + apply Z.ltb_ge in E. exists k. repeat split; auto; try lia.
      destruct (Z_lt_le_dec k 32) as [H|H]; [lia|].
      assert (2 ^ 32 <= 2 ^ k) by (apply Z.pow_le_mono_r; lia).
      assert (2 ^ 31 < 2 ^ 32) by (apply Z.pow_lt_mono_r; lia). lia.
  - destruct fuel as [|f]; [lia|]. cbn [two2n_loop].
    destruct (2 ^ k <? l) eqn:E.
    + apply Z.ltb_lt in E. specialize (Hb E).
      rewrite Z.shiftl_mul_pow2 by lia.
      replace (2 ^ k * 2 ^ 1) with (2 ^ (k + 1))
        by (rewrite Z.pow_add_r by lia; lia).
      assert (Hp : 2 ^ (k + 1) = 2 * 2 ^ k)
        by (rewrite Z.pow_add_r by lia; lia).
      assert (H32 : 2 ^ (k + 1) < 2 ^ 32) by (apply Z.pow_lt_mono_r; lia).
      rewrite u32_small by (split; [apply Z.pow_nonneg|]; lia).
      destruct (IH (k + 1) f) as (p & Hp1 & Hp2 & Hp3 & Hp4); try lia.
      * intros j Hjl Hj0. specialize (Hj j Hjl Hj0). lia.
      * exists p. repeat split; auto; lia.
    + apply Z.ltb_ge in E. exists k. repeat split; auto; try lia.
      destruct (Z_lt_le_dec k 32) as [H|H]; [lia|].
      assert (2 ^ 32 <= 2 ^ k) by (apply Z.pow_le_mono_r; lia).
      assert (2 ^ 31 < 2 ^ 32) by (apply Z.pow_lt_mono_r; lia). lia.
Qed.


Lemma two2n_size_spec (m : Z) (fuel : nat) :
  1 <= m <= 2 ^ 30 -> (32 <= fuel)%nat ->
  exists p, 1 <= p <= 31 /\
            agbnp3_two2n_size fuel m = Some (2 ^ p) /\
            2 * m <= 2 ^ p < 4 * m.
Proof.
  intros Hm Hf. unfold agbnp3_two2n_size. cbv zeta.
  destruct (m <=? 0) eqn:E; [apply Z.leb_le in E; lia|].
  assert (H31 : 2 ^ 31 = 2 * 2 ^ 30) by reflexivity.
  assert (H32 : 2 ^ 32 = 4 * 2 ^ 30) by reflexivity.
  rewrite u32_small by lia.
  destruct (two2n_loop_reaches (2 * m) ltac:(lia) 31 0 fuel)
    as (p & Hp1 & Hp2 & Hp3 & Hp4); try lia.
  - intros j Hj Hj0. destruct (Z_lt_le_dec j 31) as [H|H]; [lia|].
    assert (2 ^ 31 <= 2 ^ j) by (apply Z.pow_le_mono_r; lia). lia.
  - exists p. change (2 ^ 0) with 1 in Hp2. repeat split; auto; try lia.
    destruct (Z_lt_le_dec p 1) as [H|H]; [|lia].
    assert (p = 0) by lia. subst p. change (2 ^ 0) with 1 in Hp3. lia.
Qed.

Lemma two2n_loop_fuel_mono (l : Z) :
  forall fuel s r fuel', two2n_loop fuel s l = Some r ->
  (fuel <= fuel')%nat -> two2n_loop fuel' s l = Some r.
Proof.
  induction fuel as [|f IH]; intros s r fuel' H Hle; [discriminate|].
  destruct fuel' as [|f']; [lia|]. cbn [two2n_loop] in *.
  destruct (s <? l); auto. apply (IH _ _ f' H). lia.
Qed.

(** X16. [agbnp3_two2n_size] for a request of at most [2^30] entries: the loop
    ends within 32 rounds and the result is the power of two [s] with
    [2m <= s < 4m], so a table of that size is at most half full with [m]
    keys; more rounds do not change the result. *)
Theorem two2n_size_power (m : Z) (fuel : nat) :
  1 <= m <= 2 ^ 30 -> (32 <= fuel)%nat ->
  exists p, 1 <= p <= 31 /\
            agbnp3_two2n_size fuel m = Some (2 ^ p) /\
            agbnp3_two2n_size 32 m = Some (2 ^ p) /\
            2 * m <= 2 ^ p < 4 * m.
Proof.
  intros Hm Hf.
  destruct (two2n_size_spec m 32 Hm (le_n _)) as (p & Hp & H32 & Hb).
  exists p. repeat split; try lia; auto.
  unfold agbnp3_two2n_size in *. cbv zeta in *.
  destruct (m <=? 0); auto.
  eapply two2n_loop_fuel_mono; eauto.
Qed.

(** The theorem at work for a request of 9 entries: a 32-slot table. *)
Lemma two2n_size_power_witness :
  exists p, 1 <= p <= 31 /\
            agbnp3_two2n_size 40 9 = Some (2 ^ p) /\
            agbnp3_two2n_size 32 9 = Some (2 ^ p) /\
            2 * 9 <= 2 ^ p < 4 * 9.
Proof. apply (two2n_size_power 9 40); [simpl; lia | lia]. Defined.

Lemma two2n_loop_wraps (l : Z) :
  2 ^ 31 < l ->
  forall fuel s, (s = 0 \/ exists k, 0 <= k <= 31 /\ s = 2 ^ k) ->
  two2n_loop fuel s l = None.
Proof.
  intros Hl. induction fuel as [|f IH]; intros s Hs; [reflexivity|].
  cbn [two2n_loop].
  assert (Hlt : s < l).
  { destruct Hs as [->|(k & Hk & ->)]; [lia|].
    assert (2 ^ k <= 2 ^ 31) by (apply Z.pow_le_mono_r; lia). lia. }
  apply Z.ltb_lt in Hlt. rewrite Hlt. apply IH.
  destruct Hs as [->|(k & Hk & ->)]; [left; reflexivity|].
  rewrite Z.shiftl_mul_pow2 by lia.
  replace (2 ^ k * 2 ^ 1) with (2 ^ (k + 1))
    by (rewrite Z.pow_add_r by lia; lia).
  destruct (Z.eq_dec k 31) as [->|Hne].
  - left. reflexivity.
  - right. exists (k + 1). split; [lia|].
    assert (2 ^ (k + 1) <= 2 ^ 31) by (apply Z.pow_le_mono_r; lia).
    assert (2 ^ 31 < 2 ^ 32) by (apply Z.pow_lt_mono_r; lia).
    apply u32_small. split; [apply Z.pow_nonneg; lia|lia].
Qed.

(** X17. [agbnp3_two2n_size] for a request between [2^30] and [2^31] entries
    never returns: [2m] is above [2^31], so [s] is shifted out to 0 before
    it reaches [2m] and stays below it. *)
Theorem two2n_size_never_returns (m : Z) (fuel : nat) :
  2 ^ 30 < m < 2 ^ 31 -> agbnp3_two2n_size fuel m = None.
Proof.
  intros Hm. unfold agbnp3_two2n_size. cbv zeta.
  destruct (m <=? 0) eqn:E.
  { apply Z.leb_le in E. assert (0 < 2 ^ 30) by reflexivity. lia. }
  assert (H31 : 2 ^ 31 = 2 * 2 ^ 30) by reflexivity.
  assert (H32 : 2 ^ 32 = 4 * 2 ^ 30) by reflexivity.
  rewrite u32_small by lia.
  apply two2n_loop_wraps; [lia|].
  right. exists 0. split; [lia|reflexivity].
Qed.

(** The theorem at work for a request of [2^30 + 1] entries. *)
Lemma two2n_size_never_returns_witness :
  agbnp3_two2n_size 100 (2 ^ 30 + 1) = None.
Proof.
  apply (two2n_size_never_returns (2 ^ 30 + 1) 100).
  split; [lia|reflexivity].
Defined.

(** *** A table of that size takes the keys *)

Lemma set_nth_unchanged {A : Type} (l : list A) (i : nat) (v : A) :
  nth_error l i = Some v -> set_nth i v l = l.
Proof.
  revert i. induction l as [|a l IH]; intros [|i] H; simpl in *;
    try discriminate.
  - injection H as ->. reflexivity.
  - rewrite IH; auto.
Qed.

Lemma occupied_set_nth (keys : list Z) (i : nat) (w : Z) :
  (occupied (set_nth i w keys) <= S (occupied keys))%nat.
Proof.
  unfold occupied. revert i.
  induction keys as [|a l IH]; intros [|i]; simpl; try lia.
  - destruct (0 <=? w), (0 <=? a); simpl; lia.
  - specialize (IH i). destruct (0 <=? a); simpl; lia.
Qed.

Lemma occupied_repeat (n : nat) : occupied (repeat (-1) n) = O.
Proof. unfold occupied. induction n; simpl; auto. Qed.

Lemma occupied_empty_slot (keys : list Z) :
  (occupied keys < length keys)%nat ->
  exists e v, nth_error keys e = Some v /\ v < 0 /\ (e < length keys)%nat.
Proof.
  unfold occupied. induction keys as [|a l IH]; simpl; [lia|].
  destruct (0 <=? a) eqn:E; simpl; intros H.
  - destruct IH as (e & v & He & Hv & Hl); [lia|].
    exists (S e), v. repeat split; auto; lia.
  - apply Z.leb_gt in E. exists O, a. repeat split; auto; lia.
Qed.

(** A probe that ends on an occupied slot never looks at an empty one, so
    filling an empty slot does not change it. *)
Lemma h_probe_fill_empty fuel keys mask jump q0 r w v v0 k0 :
  nth_error keys r = Some v -> v < 0 ->
  nth_error keys (Z.to_nat k0) = Some v0 -> 0 <= v0 ->
  forall k, h_probe fuel keys mask jump q0 k = Some k0 ->
  h_probe fuel (set_nth r w keys) mask jump q0 k = Some k0.
Proof.
  intros Hr Hv Hk0 Hv0.
  induction fuel as [|f IH]; intros k H; simpl in *; [discriminate|].
  destruct (nth_error keys (Z.to_nat k)) as [vk|] eqn:E; [|discriminate].
  destruct (Nat.eq_dec (Z.to_nat k) r) as [Heq|Hne].
  - subst r. rewrite Hr in E. injection E as <-.
    assert (C : (0 <=? v) && negb (u32 v =? q0) = false).
    { destruct (0 <=? v) eqn:C; [apply Z.leb_le in C; lia|reflexivity]. }
    rewrite C in H. injection H as <-. rewrite Hr in Hk0.
    injection Hk0 as <-. lia.
  - rewrite nth_error_set_nth_other by auto. rewrite E.
    destruct ((0 <=? vk) && negb (u32 vk =? q0)); auto.
Qed.


Lemma found_inv fuel ht keys q0 :
  key ht = Some keys -> found fuel ht q0 ->
  exists k0, 0 <= k0 /\
    h_probe fuel keys (u32 (hmask ht)) (u32 (hjump ht)) q0
      (Z.land q0 (u32 (hmask ht))) = Some k0 /\
    nth_error keys (Z.to_nat k0) = Some q0 /\ 0 <= q0.
Proof.
  intros Hk (k0 & Hf & Hk0 & Hkey).
  unfold agbnp3_h_find in Hf. unfold key_at in Hkey. rewrite Hk in *.
  cbv zeta in Hf.
  destruct (h_probe _ _ _ _ _ _) as [k'|] eqn:P; [|discriminate].
  destruct (nth_error keys (Z.to_nat k')) as [v|] eqn:E; [|discriminate].
  destruct (v <? 0) eqn:C; injection Hf as Hf; [lia|]. subst k'.
  apply Z.ltb_ge in C. rewrite E in Hkey. injection Hkey as <-.
  exists k0. auto.
Qed.

Lemma found_intro fuel ht keys q0 k0 :
  key ht = Some keys -> 0 <= k0 -> 0 <= q0 ->
  h_probe fuel keys (u32 (hmask ht)) (u32 (hjump ht)) q0
    (Z.land q0 (u32 (hmask ht))) = Some k0 ->
  nth_error keys (Z.to_nat k0) = Some q0 ->
  found fuel ht q0.
Proof.
  intros Hk Hk0 Hq0 P E. exists k0.
  unfold agbnp3_h_find, key_at. rewrite Hk. cbv zeta. rewrite P, E.
  destruct (q0 <? 0) eqn:C; [apply Z.ltb_lt in C; lia|]. auto.
Qed.

(** One more key in a table that is not full. *)
Lemma h_enter_step (p : Z) (fuel : nat) (ht : HTable) (acc : list Z)
    (q : Z) (n : nat) :
  0 <= p <= 30 -> cache_table p ht -> stored_from acc ht ->
  Forall in_range acc -> in_range q ->
  (forall keys, key ht = Some keys -> (occupied keys <= n)%nat) ->
  (n < Z.to_nat (2 ^ p))%nat -> (Z.to_nat (2 ^ p) <= fuel)%nat ->
  exists k ht',
    agbnp3_h_enter fuel ht q = Some (k, ht') /\
    cache_table p ht' /\ stored_from (q :: acc) ht' /\
    (forall keys, key ht' = Some keys -> (occupied keys <= S n)%nat) /\
    found fuel ht' q /\
    (forall q0, found fuel ht q0 -> found fuel ht' q0).
Proof.
  intros Hp Hc Hst Hacc Hq Hocc Hn Hf.
  pose proof (pow2_bounds p Hp) as HM.
  pose proof Hc as (Hs & Hm & Hj & keys & Hk & Hlen).
  specialize (Hocc keys Hk).
  destruct (occupied_empty_slot keys) as (e & ve & He & Hve & Hel); [lia|].
  assert (Hemp : has_empty ht).
  { exists (Z.of_nat e), ve. unfold key_at. rewrite Hk, Nat2Z.id.
    repeat split; auto; lia. }
  destruct (h_enter_returns p fuel ht q Hp Hc Hemp (proj1 Hq) Hf)
    as (k & ht' & Hen).
  destruct (h_enter_effect p fuel ht q k ht' Hp Hc Hq Hen)
    as (Hc' & Hkr & Hkey & Hfind & Hst').
  exists k, ht'. split; [exact Hen|]. split; [exact Hc'|].
  split; [apply Hst'; exact Hst|].
  unfold agbnp3_h_enter in Hen. rewrite Hk in Hen. cbv zeta in Hen.
  destruct (h_probe _ _ _ _ _ _) as [k'|] eqn:P; [|discriminate].
  injection Hen as Hk' Hht'. subst k'.
  split; [|split].
  - intros keys' Hkeys'. rewrite <- Hht' in Hkeys'. simpl in Hkeys'.
    injection Hkeys' as <-. pose proof (occupied_set_nth keys (Z.to_nat k)
      (to_int q)). lia.
  - exists k. repeat split; auto; lia.
  - intros q0 Hq0.
    destruct (found_inv fuel ht keys q0 Hk Hq0) as (k0 & Hk0 & P0 & E0 & Hq0').
    destruct (h_probe_stops _ _ _ _ _ _ _ P) as (vr & Er & Cr).
    assert (Hti : to_int q = q) by (apply to_int_small; exact Hq).
    destruct (Z_lt_le_dec vr 0) as [Hneg|Hpos].
    + apply (found_intro fuel ht' (set_nth (Z.to_nat k) (to_int q) keys)
               q0 k0); auto.
      * rewrite <- Hht'. reflexivity.
      * rewrite <- Hht'. simpl.
        eapply h_probe_fill_empty; eauto.
      * rewrite nth_error_set_nth_other; auto.
        intros Heq. rewrite Heq, E0 in Er. injection Er as <-. lia.
    + assert (Hvr : vr = q).
      { assert (Hin : In vr keys) by (eapply nth_error_In; eauto).
        destruct (Hst keys vr Hk Hin) as [->|Hin']; [lia|].
        rewrite Forall_forall in Hacc. specialize (Hacc _ Hin').
        unfold in_range in Hacc.
        assert (2 ^ 31 < 2 ^ 32) by (apply Z.pow_lt_mono_r; lia).
        apply andb_false_iff in Cr. destruct Cr as [Cr|Cr].
        - apply Z.leb_gt in Cr. lia.
        - apply negb_false_iff, Z.eqb_eq in Cr.
          rewrite u32_small in Cr by lia. exact Cr. }
      subst vr.
      assert (Hsame : ht' = ht).
      { rewrite <- Hht', Hti, set_nth_unchanged by exact Er.
        destruct ht; simpl in *. rewrite Hk. reflexivity. }
      rewrite Hsame. exact Hq0.
Qed.

(** A run of keys into a table with room for them. *)
Lemma h_enter_all_sized (p : Z) (fuel : nat) :
  0 <= p <= 30 -> (Z.to_nat (2 ^ p) <= fuel)%nat ->
  forall (ks : list Z) (ht : HTable) (acc : list Z) (n : nat),
    cache_table p ht -> stored_from acc ht ->
    Forall in_range acc -> Forall in_range ks ->
    (forall keys, key ht = Some keys -> (occupied keys <= n)%nat) ->
    (n + length ks < Z.to_nat (2 ^ p))%nat ->
    (forall q, In q acc -> found fuel ht q) ->
    exists ht',
      h_enter_all fuel ht ks = Some ht' /\ cache_table p ht' /\
      (forall keys, key ht' = Some keys ->
                    (occupied keys <= n + length ks)%nat) /\
      (forall q, In q (ks ++ acc) -> found fuel ht' q).
Proof.
  intros Hp Hf. induction ks as [|q rest IH];
    intros ht acc n Hc Hst Hacc Hks Hocc Hn Hfound.
  - exists ht. simpl. split; [reflexivity|]. split; [exact Hc|].
    split; [|exact Hfound].
    intros keys Hk. specialize (Hocc keys Hk). lia.
  - inversion Hks as [|? ? Hq Hrest]; subst. simpl in Hn.
    destruct (h_enter_step p fuel ht acc q n Hp Hc Hst Hacc Hq Hocc
                ltac:(lia) Hf)
      as (k & ht1 & Hen & Hc1 & Hst1 & Hocc1 & Hfq & Hkeep).
    destruct (IH ht1 (q :: acc) (S n) Hc1 Hst1) as (ht' & Hrun & Hc' & Hocc' & Hall);
      auto; try lia.
    + intros q0 [<-|Hin]; auto.
    + exists ht'. simpl. rewrite Hen. split; [exact Hrun|].
      split; [exact Hc'|]. split.
      * intros keys Hk. specialize (Hocc' keys Hk). lia.
      * intros q0 Hin. apply Hall.
        destruct Hin as [<-|Hin]; [apply in_or_app; right; left; reflexivity|].
        apply in_app_or in Hin. apply in_or_app.
        destruct Hin; [left|right; right]; auto.
Qed.

(** X18. A table sized by [agbnp3_two2n_size] for [m] entries (at most [2^29])
    takes any run of at most [m] non-negative keys: every
    [agbnp3_h_enter] returns, a slot is still empty at the end, and
    [agbnp3_h_find] finds every key of the run, the early ones too, at a
    slot that holds it. *)
Theorem sized_table_takes_keys (m : Z) (fuel0 fuel : nat) (size : Z)
    (mem ks : list Z) :
  1 <= m <= 2 ^ 29 ->
  agbnp3_two2n_size fuel0 m = Some size ->
  length mem = Z.to_nat size ->
  Forall (fun w => 0 <= w < 2 ^ 31) ks ->
  Z.of_nat (length ks) <= m ->
  (Z.to_nat size <= fuel)%nat ->
  exists ht,
    h_enter_all fuel (agbnp3_h_init (agbnp3_h_create 0 size 1 mem)) ks
      = Some ht /\
    has_empty ht /\
    forall q, In q ks ->
      exists k, agbnp3_h_find fuel ht q = Some k /\ 0 <= k /\
                key_at ht k = Some q.
Proof.
  intros Hm Hsz Hlen Hks Hn Hf.
  assert (H30 : 2 ^ 30 = 2 * 2 ^ 29) by reflexivity.
  assert (H31 : 2 ^ 31 = 4 * 2 ^ 29) by reflexivity.
  destruct (two2n_size_spec m (Nat.max fuel0 32) ltac:(lia) ltac:(lia))
    as (p & Hp & Hsz' & Hb).
  assert (size = 2 ^ p).
  { unfold agbnp3_two2n_size in *. cbv zeta in *.
    destruct (m <=? 0) eqn:E; [apply Z.leb_le in E; lia|].
    apply (two2n_loop_fuel_mono _ _ _ _ (Nat.max fuel0 32)) in Hsz; [|lia].
    congruence. }
  subst size.
  assert (Hp30 : 0 <= p <= 30).
  { split; [lia|]. destruct (Z_lt_le_dec p 31) as [H|H]; [lia|].
    assert (2 ^ 31 <= 2 ^ p) by (apply Z.pow_le_mono_r; lia). lia. }
  destruct (h_init_cache_table p mem Hp30 Hlen) as [Hc0 Hst0].
  destruct (h_enter_all_sized p fuel Hp30 Hf ks _ [] O Hc0 Hst0)
    as (ht & Hrun & Hc & Hocc & Hall); auto.
  - intros keys Hk. unfold agbnp3_h_create in Hk.
    destruct (2 ^ p <=? 0) eqn:E; [apply Z.leb_le in E; lia|].
    unfold agbnp3_h_init in Hk. simpl in Hk. injection Hk as <-.
    rewrite <- Hlen, skipn_all, app_nil_r, occupied_repeat. lia.
  - simpl. lia.
  - intros q [].
  - exists ht. split; [exact Hrun|]. split.
    + destruct Hc as (Hs & _ & _ & keys & Hk & Hl).
      destruct (occupied_empty_slot keys) as (e & ve & He & Hve & Hel).
      { specialize (Hocc keys Hk). simpl in Hocc. lia. }
      exists (Z.of_nat e), ve. unfold key_at. rewrite Hk, Nat2Z.id.
      repeat split; auto; lia.
    + intros q Hin. apply Hall. rewrite app_nil_r. exact Hin.
Qed.

(** The theorem at work: three keys into the table sized for three. *)
Lemma sized_table_takes_keys_witness :
  exists ht,
    h_enter_all 8 (agbnp3_h_init (agbnp3_h_create 0 8 1
                                    [0; 0; 0; 0; 0; 0; 0; 0])) [5; 13; 5]
      = Some ht /\
    has_empty ht /\
    forall q, In q [5; 13; 5] ->
      exists k, agbnp3_h_find 8 ht q = Some k /\ 0 <= k /\
                key_at ht k = Some q.
Proof.
  apply (sized_table_takes_keys 3 32 8 8 [0; 0; 0; 0; 0; 0; 0; 0] [5; 13; 5]).
  - simpl; lia.
  - reflexivity.
  - reflexivity.
  - repeat constructor; lia.
  - simpl; lia.
  - simpl; lia.
Defined.

End HashSizeFacts.

(** ** Spline coefficients and evaluation at the nodes *)

Section SplineSetupFacts.
Import Spline SplineSetup.
#[local] Open Scope R_scope.

(** The first loop: what it leaves in [y2] and [u]. *)
Lemma setup_forward_spec (dx : R) (y g0 u0 : list R) (r : nat) :
  length g0 = length u0 -> (r < length g0)%nat ->
  - 0.5 <= nth 0 g0 0 <= 0 ->
  let G := fst (setup_forward r dx y (g0, u0)) in
  let U := snd (setup_forward r dx y (g0, u0)) in
  length G = length g0 /\ length U = length u0 /\
  (forall j, (r < j)%nat -> nth j G 0 = nth j g0 0 /\ nth j U 0 = nth j u0 0) /\
  nth 0 G 0 = nth 0 g0 0 /\ nth 0 U 0 = nth 0 u0 0 /\
  (forall j, (j <= r)%nat -> - 0.5 <= nth j G 0 <= 0) /\
  (forall i, (1 <= i <= r)%nat ->
     let p := 0.5 * nth (i - 1) G 0 + 2 in
     nth i G 0 = (0.5 - 1) / p /\
     nth i U 0 =
       (6 * ((nth (i + 1) y 0 - nth i y 0) / dx
             - (nth i y 0 - nth (i - 1) y 0) / dx) / (2 * dx)
        - 0.5 * nth (i - 1) U 0) / p).
Proof.
  intros Hlen. induction r as [|r IH]; intros Hr H0; cbv zeta.
  - cbn [setup_forward fst snd].
    split; [reflexivity|]. split; [reflexivity|].
    split; [intros j Hj; split; reflexivity|].
    split; [reflexivity|]. split; [reflexivity|]. split.
    + intros j Hj. assert (j = 0%nat) by lia. subst j. exact H0.
    + intros i Hi. lia.
  - specialize (IH ltac:(lia) H0). cbv zeta in IH.
    destruct IH as (LG & LU & Hab & HG0 & HU0 & Hb & Hrec).
    cbn [setup_forward].
    destruct (setup_forward r dx y (g0, u0)) as [G U].
    cbn [fst snd] in *.
    replace (S r - 1)%nat with r by lia.
    set (p := 0.5 * nth r G 0 + 2).
    assert (Hp : 1.75 <= p <= 2) by (specialize (Hb r (le_n _)); unfold p; lra).
    set (gi := (0.5 - 1) / p).
    assert (Hgi : - 0.5 <= gi <= 0).
    { unfold gi. split.
      - apply (Rmult_le_reg_r p); [lra|].
        unfold Rdiv. rewrite Rmult_assoc, Rinv_l by lra. lra.
      - apply (Rmult_le_reg_r p); [lra|].
        unfold Rdiv. rewrite Rmult_assoc, Rinv_l by lra. lra. }
    rewrite !set_nth_length.
    split; [exact LG|]. split; [exact LU|].
    split; [|split; [|split; [|split]]].
    + intros j Hj. rewrite !nth_set_nth_other by lia. apply Hab. lia.
    + rewrite nth_set_nth_other by lia. exact HG0.
    + rewrite !nth_set_nth_other by lia. exact HU0.
    + intros j Hj. destruct (Nat.eq_dec j (S r)) as [->|Hne].
      * rewrite nth_set_nth_same by lia. exact Hgi.
      * rewrite nth_set_nth_other by lia. apply Hb. lia.
    + intros i Hi. destruct (Nat.eq_dec i (S r)) as [->|Hne].
      * replace (S r - 1)%nat with r by lia.
        rewrite (nth_set_nth_same (S r)) by lia.
        rewrite (nth_set_nth_other (S r) r) by lia.
        split; [reflexivity|].
        rewrite (nth_set_nth_same (S r))
          by (rewrite set_nth_length; lia).
        rewrite (nth_set_nth_same (S r)) by lia.
        rewrite !(nth_set_nth_other (S r) r) by lia.
        reflexivity.
      * rewrite !(nth_set_nth_other (S r) i) by lia.
        rewrite !(nth_set_nth_other (S r) (i - 1)) by lia.
        apply Hrec. lia.
Qed.

(** The last loop: every entry below the start is the product of the old
    entry with the new entry above it, plus [u]. *)
Lemma setup_back_spec (u : list R) (k : nat) :
  forall y0 : list R, (k < length y0)%nat ->
  let Y := setup_back k u y0 in
  length Y = length y0 /\
  (forall j, (k <= j)%nat -> nth j Y 0 = nth j y0 0) /\
  (forall j, (j < k)%nat ->
     nth j Y 0 = nth j y0 0 * nth (j + 1) Y 0 + nth j u 0).
Proof.
  induction k as [|k IH]; intros y0 Hk; cbv zeta.
  - simpl. repeat split; auto. intros j Hj; lia.
  - cbn [setup_back].
    set (y1 := set_nth k _ y0).
    assert (L1 : length y1 = length y0) by apply set_nth_length.
    destruct (IH y1 ltac:(lia)) as (LY & Hhi & Hlo).
    split; [lia|]. split.
    + intros j Hj. rewrite Hhi by lia. unfold y1.
      apply nth_set_nth_other. lia.
    + intros j Hj. destruct (Nat.eq_dec j k) as [->|Hne].
      * rewrite (Hhi k) by lia. rewrite (Hhi (k + 1)%nat) by lia.
        unfold y1. rewrite nth_set_nth_same by lia.
        rewrite nth_set_nth_other by lia. reflexivity.
      * rewrite (Hlo j) by lia. unfold y1.
        rewrite nth_set_nth_other by lia. reflexivity.
Qed.

(** The arrays of [agbnp3_cspline_setup] before the last loop: the factors
    [g], the right-hand sides [u] and the last coefficient. *)
Lemma cspline_setup_equations_gen (dx : R) (n : Z) (y : list R)
    (yp1 ypn : R) (y2 u : list R) :
  (2 <= n)%Z -> length y2 = Z.to_nat n -> length u = Z.to_nat n ->
  let nn := Z.to_nat n in
  let Y := agbnp3_cspline_setup dx n y yp1 ypn y2 u in
  let d i := (nth (i + 1) y 0 - nth i y 0) / dx
             - (nth i y 0 - nth (i - 1) y 0) / dx in
  length Y = nn /\
  (forall i, (1 <= i <= nn - 2)%nat ->
     0.5 * nth (i - 1) Y 0 + 2 * nth i Y 0 + 0.5 * nth (i + 1) Y 0
     = 6 * d i / (2 * dx)) /\
  (if Rgt_dec yp1 0.99e30 then nth 0 Y 0 = 0
   else nth 0 Y 0 + 0.5 * nth 1 Y 0
        = (3 / dx) * ((nth 1 y 0 - nth 0 y 0) / dx - yp1)) /\
  (if Rgt_dec ypn 0.99e30 then nth (nn - 1) Y 0 = 0
   else 0.5 * nth (nn - 2) Y 0 + nth (nn - 1) Y 0
        = (3 / dx) * (ypn - (nth (nn - 1) y 0 - nth (nn - 2) y 0) / (2 * dx))).
Proof.
  intros Hn Ly2 Lu nn Y d. subst Y. unfold agbnp3_cspline_setup.
  fold nn. cbv zeta.
  assert (Hnn : (2 <= nn)%nat) by (unfold nn; lia).
  set (st0 := if Rgt_dec yp1 0.99e30 then (set_nth 0 0 y2, set_nth 0 0 u)
              else (set_nth 0 (-0.5) y2,
                    set_nth 0 ((3 / dx) * ((nth 1 y 0 - nth 0 y 0) / dx - yp1))
                      u)).
  assert (Hst0 : length (fst st0) = nn /\ length (snd st0) = nn /\
                 - 0.5 <= nth 0 (fst st0) 0 <= 0 /\
                 (if Rgt_dec yp1 0.99e30
                  then nth 0 (fst st0) 0 = 0 /\ nth 0 (snd st0) 0 = 0
                  else nth 0 (fst st0) 0 = - 0.5 /\
                       nth 0 (snd st0) 0
                       = (3 / dx) * ((nth 1 y 0 - nth 0 y 0) / dx - yp1))).
  { unfold st0. destruct (Rgt_dec yp1 0.99e30); cbn [fst snd];
      rewrite !set_nth_length, !nth_set_nth_same by lia;
      repeat split; auto; lra. }
  destruct st0 as [g0 u0]. cbn [fst snd] in Hst0.
  destruct Hst0 as (Lg0 & Lu0 & Hg0 & Hstart).
  pose proof (setup_forward_spec dx y g0 u0 (nn - 2) ltac:(lia) ltac:(lia) Hg0)
    as HF.
  cbv zeta in HF.
  destruct (setup_forward (nn - 2) dx y (g0, u0)) as [G U].
  cbn [fst snd] in HF.
  destruct HF as (LG & LU & Hab & HG0 & HU0 & Hb & Hrec).
  set (qu := if Rgt_dec ypn 0.99e30 then (0, 0)
             else (0.5, (3 / dx) * (ypn - (nth (nn - 1) y 0
                                           - nth (nn - 2) y 0) / (2 * dx)))).
  assert (Hqu : qu = (fst qu, snd qu)) by (destruct qu; reflexivity).
  rewrite Hqu.
  set (qn := fst qu). set (un := snd qu).
  set (last := (un - qn * nth (nn - 2) U 0) / (qn * nth (nn - 2) G 0 + 1)).
  set (y1 := set_nth (nn - 1) last G).
  assert (L1 : length y1 = nn) by (unfold y1; rewrite set_nth_length; lia).
  destruct (setup_back_spec U (nn - 1) y1 ltac:(lia)) as (LY & Hhi & Hlo).
  set (Y := setup_back (nn - 1) U y1) in *.
  assert (Hy1 : forall j, (j <= nn - 2)%nat -> nth j y1 0 = nth j G 0).
  { intros j Hj. unfold y1. apply nth_set_nth_other. lia. }
  assert (Hlast : nth (nn - 1) Y 0 = last).
  { rewrite Hhi by lia. unfold y1. apply nth_set_nth_same. lia. }
  split; [lia|]. split; [|split].
  - intros i Hi.
    destruct (Hrec i Hi) as [Hgi Hui].
    pose proof (Hb (i - 1)%nat ltac:(lia)) as Hbi.
    set (p := 0.5 * nth (i - 1) G 0 + 2) in *.
    assert (Hp : p <> 0) by (unfold p; lra).
    pose proof (Hlo (i - 1)%nat ltac:(lia)) as E1.
    replace (i - 1 + 1)%nat with i in E1 by lia.
    rewrite (Hy1 (i - 1)%nat) in E1 by lia.
    assert (E2 : nth i Y 0 = nth i G 0 * nth (i + 1) Y 0 + nth i U 0).
    { destruct (Nat.eq_dec i (nn - 1)) as [Heq|Hne]; [lia|].
      rewrite (Hlo i) by lia. rewrite (Hy1 i) by lia. reflexivity. }
    rewrite Hgi, Hui in E2. fold (d i) in E2.
    set (ri := 6 * d i / (2 * dx)) in *.
    assert (E3 : p * nth i Y 0
                 = (0.5 - 1) * nth (i + 1) Y 0
                   + (ri - 0.5 * nth (i - 1) U 0)).
    { rewrite E2. field. exact Hp. }
    rewrite E1. unfold p in E3. lra.
  - pose proof (Hlo 0%nat ltac:(lia)) as E0. simpl in E0.
    rewrite (Hy1 0%nat) in E0 by lia. rewrite HG0, HU0 in E0.
    destruct (Rgt_dec yp1 0.99e30); destruct Hstart as [Hs1 Hs2];
      rewrite Hs1, Hs2 in E0; lra.
  - rewrite Hlast.
    pose proof (Hlo (nn - 2)%nat ltac:(lia)) as E1.
    replace (nn - 2 + 1)%nat with (nn - 1)%nat in E1 by lia.
    rewrite (Hy1 (nn - 2)%nat) in E1 by lia. rewrite Hlast in E1.
    pose proof (Hb (nn - 2)%nat (le_n _)) as Hbn.
    unfold last, qn, un, qu in *.
    destruct (Rgt_dec ypn 0.99e30); cbn [fst snd] in *.
    + unfold Rdiv. ring.
    + set (unv := 3 / dx * (ypn - _)) in *.
      set (gg := nth (nn - 2) G 0) in *. set (uu := nth (nn - 2) U 0) in *.
      rewrite E1. field. lra.
Qed.


(** X19. [agbnp3_cspline_setup] solves the spline equations.  For a table of
    [n >= 2] nodes the coefficients it returns satisfy, at every interior
    node, [y2[i-1]/2 + 2 y2[i] + y2[i+1]/2 = 3 (y[i+1] - 2 y[i] + y[i-1]) /
    dx^2]; at the first node [y2[0] = 0] for a natural start and
    [y2[0] + y2[1]/2 = (3/dx) ((y[1]-y[0])/dx - yp1)] otherwise; at the last
    node [y2[n-1] = 0] for a natural end and
    [y2[n-2]/2 + y2[n-1] = (3/dx) (ypn - (y[n-1]-y[n-2])/(2 dx))]
    otherwise. *)
Theorem cspline_setup_equations (dx : R) (n : Z) (y : list R)
    (yp1 ypn : R) (y2 u : list R) :
  (2 <= n)%Z -> length y2 = Z.to_nat n -> length u = Z.to_nat n ->
  let nn := Z.to_nat n in
  let Y := agbnp3_cspline_setup dx n y yp1 ypn y2 u in
  length Y = nn /\
  (forall i, (1 <= i <= nn - 2)%nat ->
     0.5 * nth (i - 1) Y 0 + 2 * nth i Y 0 + 0.5 * nth (i + 1) Y 0
     = 6 * ((nth (i + 1) y 0 - nth i y 0) / dx
            - (nth i y 0 - nth (i - 1) y 0) / dx) / (2 * dx)) /\
  (if Rgt_dec yp1 0.99e30 then nth 0 Y 0 = 0
   else nth 0 Y 0 + 0.5 * nth 1 Y 0
        = (3 / dx) * ((nth 1 y 0 - nth 0 y 0) / dx - yp1)) /\
  (if Rgt_dec ypn 0.99e30 then nth (nn - 1) Y 0 = 0
   else 0.5 * nth (nn - 2) Y 0 + nth (nn - 1) Y 0
        = (3 / dx) * (ypn - (nth (nn - 1) y 0 - nth (nn - 2) y 0) / (2 * dx))).
Proof. intros Hn L2 Lu. apply cspline_setup_equations_gen; assumption. Qed.

(** The theorem at work for a four-node table clamped at both ends. *)
Lemma cspline_setup_equations_witness :
  let nn := Z.to_nat 4 in
  let y := [1; 2; 4; 8] in
  let Y := agbnp3_cspline_setup 1 4 y 0 0 [0; 0; 0; 0] [0; 0; 0; 0] in
  length Y = nn /\
  (forall i, (1 <= i <= nn - 2)%nat ->
     0.5 * nth (i - 1) Y 0 + 2 * nth i Y 0 + 0.5 * nth (i + 1) Y 0
     = 6 * ((nth (i + 1) y 0 - nth i y 0) / 1
            - (nth i y 0 - nth (i - 1) y 0) / 1) / (2 * 1)) /\
  (if Rgt_dec 0 0.99e30 then nth 0 Y 0 = 0
   else nth 0 Y 0 + 0.5 * nth 1 Y 0
        = (3 / 1) * ((nth 1 y 0 - nth 0 y 0) / 1 - 0)) /\
  (if Rgt_dec 0 0.99e30 then nth (nn - 1) Y 0 = 0
   else 0.5 * nth (nn - 2) Y 0 + nth (nn - 1) Y 0
        = (3 / 1) * (0 - (nth (nn - 1) y 0 - nth (nn - 2) y 0) / (2 * 1))).
Proof.
  apply (cspline_setup_equations 1 4 [1; 2; 4; 8] 0 0 [0; 0; 0; 0]
           [0; 0; 0; 0]); [lia | reflexivity | reflexivity].
Defined.

(** *** The cubic pieces *)

Lemma interpolate_is_piece (x dx : R) (n : Z) (y y2 : list R) (k : nat) :
  c_trunc (x * (1 / dx)) = Z.of_nat k -> (Z.of_nat k <= n - 2)%Z ->
  agbnp3_cspline_interpolate x dx n y y2 = piece dx y y2 k x.
Proof.
  intros Hk Hn. unfold agbnp3_cspline_interpolate, piece, cspline_soa1.
  cbv zeta. rewrite Hk.
  destruct (Z.of_nat k >? n - 2)%Z eqn:E.
  { rewrite Z.gtb_ltb in E. apply Z.ltb_lt in E. lia. }
  cbn [row_kv row_xh row_yp row_y row_y2p row_y2].
  rewrite Nat2Z.id.
  replace (Z.to_nat (Z.of_nat k + 1)) with (k + 1)%nat by lia.
  rewrite <- INR_IZR_INZ. reflexivity.
Qed.

Lemma piece_left_node (dx : R) (y y2 : list R) (k : nat) :
  dx <> 0 -> fst (piece dx y y2 k (INR k * dx)) = nth k y 0.
Proof.
  intros Hdx. unfold piece, cspline_soa1. cbv zeta.
  cbn [fst row_kv row_xh row_yp row_y row_y2p row_y2]. field. exact Hdx.
Qed.

Lemma piece_right_node (dx : R) (y y2 : list R) (k : nat) :
  dx <> 0 -> fst (piece dx y y2 k (INR (k + 1) * dx)) = nth (k + 1) y 0.
Proof.
  intros Hdx. unfold piece, cspline_soa1. cbv zeta.
  cbn [fst row_kv row_xh row_yp row_y row_y2p row_y2].
  rewrite plus_INR. simpl INR. field. exact Hdx.
Qed.

(** The derivative of the value of a piece. *)
Lemma piece_derivative (dx : R) (y y2 : list R) (k : nat) (x : R) :
  dx <> 0 ->
  let a := (INR k + 1) - x * (1 / dx) in
  let b := x * (1 / dx) - INR k in
  derivable_pt_lim (fun t => fst (piece dx y y2 k t)) x
    ((nth (k + 1) y 0 - nth k y 0) * (1 / dx)
     - (3 * (a * a) - 1) * nth k y2 0 * (dx / 6)
     + (3 * (b * b) - 1) * nth (k + 1) y2 0 * (dx / 6)).
Proof.
  intros Hdx a b.
  set (c := 1 / dx).
  set (Af := (fct_cte (INR k + 1) - id * fct_cte c)%F).
  set (Bf := (id * fct_cte c - fct_cte (INR k))%F).
  set (G := (Af * fct_cte (nth k y 0) + Bf * fct_cte (nth (k + 1) y 0)
             + ((Af * Af * Af - Af) * fct_cte (nth k y2 0)
                + (Bf * Bf * Bf - Bf) * fct_cte (nth (k + 1) y2 0))
               * fct_cte (dx * (dx / 6)))%F).
  assert (HA : derivable_pt_lim Af x (0 - (1 * c + x * 0))).
  { unfold Af. apply derivable_pt_lim_minus;
      [apply derivable_pt_lim_const|].
    apply (derivable_pt_lim_mult id (fct_cte c) x 1 0);
      [apply derivable_pt_lim_id | apply derivable_pt_lim_const]. }
  assert (HB : derivable_pt_lim Bf x (1 * c + x * 0 - 0)).
  { unfold Bf. apply derivable_pt_lim_minus;
      [|apply derivable_pt_lim_const].
    apply (derivable_pt_lim_mult id (fct_cte c) x 1 0);
      [apply derivable_pt_lim_id | apply derivable_pt_lim_const]. }
  set (la := 0 - (1 * c + x * 0)) in *. set (lb := 1 * c + x * 0 - 0) in *.
  assert (HG : derivable_pt_lim G x
    (la * nth k y 0 + Af x * 0 + (lb * nth (k + 1) y 0 + Bf x * 0)
     + ((((la * Af x + Af x * la) * Af x + (Af x * Af x) * la - la)
           * nth k y2 0 + ((Af * Af * Af - Af)%F x) * 0
         + (((lb * Bf x + Bf x * lb) * Bf x + (Bf x * Bf x) * lb - lb)
              * nth (k + 1) y2 0 + ((Bf * Bf * Bf - Bf)%F x) * 0))
          * (dx * (dx / 6))
        + ((Af * Af * Af - Af) * fct_cte (nth k y2 0)
           + (Bf * Bf * Bf - Bf) * fct_cte (nth (k + 1) y2 0))%F x * 0))).
  { unfold G.
    apply derivable_pt_lim_plus; [apply derivable_pt_lim_plus|].
    - apply (derivable_pt_lim_mult Af (fct_cte (nth k y 0)) x la 0);
        [exact HA | apply derivable_pt_lim_const].
    - apply (derivable_pt_lim_mult Bf (fct_cte (nth (k + 1) y 0)) x lb 0);
        [exact HB | apply derivable_pt_lim_const].
    - apply (derivable_pt_lim_mult _ (fct_cte (dx * (dx / 6))) x _ 0);
        [|apply derivable_pt_lim_const].
      apply derivable_pt_lim_plus.
      + apply (derivable_pt_lim_mult _ (fct_cte (nth k y2 0)) x _ 0);
          [|apply derivable_pt_lim_const].
        apply derivable_pt_lim_minus; [|exact HA].
        apply (derivable_pt_lim_mult (Af * Af)%F Af x _ la); [|exact HA].
        apply (derivable_pt_lim_mult Af Af x la la); exact HA.
      + apply (derivable_pt_lim_mult _ (fct_cte (nth (k + 1) y2 0)) x _ 0);
          [|apply derivable_pt_lim_const].
        apply derivable_pt_lim_minus; [|exact HB].
        apply (derivable_pt_lim_mult (Bf * Bf)%F Bf x _ lb); [|exact HB].
        apply (derivable_pt_lim_mult Bf Bf x lb lb); exact HB. }
  match goal with
  | |- derivable_pt_lim _ x ?l =>
      replace l with
        (la * nth k y 0 + Af x * 0 + (lb * nth (k + 1) y 0 + Bf x * 0)
         + ((((la * Af x + Af x * la) * Af x + (Af x * Af x) * la - la)
               * nth k y2 0 + ((Af * Af * Af - Af)%F x) * 0
             + (((lb * Bf x + Bf x * lb) * Bf x + (Bf x * Bf x) * lb - lb)
                  * nth (k + 1) y2 0 + ((Bf * Bf * Bf - Bf)%F x) * 0))
              * (dx * (dx / 6))
            + ((Af * Af * Af - Af) * fct_cte (nth k y2 0)
               + (Bf * Bf * Bf - Bf) * fct_cte (nth (k + 1) y2 0))%F x * 0))
  end.
  - exact HG.
  - unfold la, lb, Af, Bf, a, b, c, minus_fct, mult_fct, plus_fct, fct_cte, id.
    field. exact Hdx.
Qed.


Lemma c_trunc_between (t : R) (k : nat) :
  INR k <= t < INR k + 1 -> c_trunc t = Z.of_nat k.
Proof.
  intros [H1 H2]. pose proof (pos_INR k) as Hk.
  unfold c_trunc. destruct (Rle_dec 0 t) as [H|H]; [|lra].
  symmetry. apply Int_part_spec. rewrite <- INR_IZR_INZ. lra.
Qed.

(** A function that follows [g1] just left of [x] and [g2] just right of
    it has their common derivative at [x]. *)
Lemma derivable_pt_lim_glue (f g1 g2 : R -> R) (x l delta : R) :
  0 < delta ->
  (forall t, x - delta < t <= x -> f t = g1 t) ->
  (forall t, x <= t < x + delta -> f t = g2 t) ->
  derivable_pt_lim g1 x l -> derivable_pt_lim g2 x l ->
  derivable_pt_lim f x l.
Proof.
  intros Hd HL HR D1 D2 eps Heps.
  destruct (D1 eps Heps) as [d1 H1]. destruct (D2 eps Heps) as [d2 H2].
  assert (Hm : 0 < Rmin delta (Rmin d1 d2)).
  { apply Rmin_pos; [exact Hd|]. apply Rmin_pos; apply cond_pos. }
  exists (mkposreal _ Hm). intros h Hh0 Hh. simpl in Hh.
  assert (Hh1 : Rabs h < delta)
    by (eapply Rlt_le_trans; [exact Hh | apply Rmin_l]).
  assert (Hh2 : Rabs h < d1).
  { eapply Rlt_le_trans; [exact Hh|].
    eapply Rle_trans; [apply Rmin_r | apply Rmin_l]. }
  assert (Hh3 : Rabs h < d2).
  { eapply Rlt_le_trans; [exact Hh|].
    eapply Rle_trans; [apply Rmin_r | apply Rmin_r]. }
  destruct (Rle_dec h 0) as [Hneg|Hpos].
  - rewrite Rabs_left1 in Hh1 by exact Hneg.
    rewrite (HL (x + h)) by lra. rewrite (HL x) by lra.
    apply H1; assumption.
  - rewrite Rabs_right in Hh1 by lra.
    rewrite (HR (x + h)) by lra. rewrite (HR x) by lra.
    apply H2; assumption.
Qed.

(** On the interval that starts at node [k] the evaluator is the piece
    [k]. *)
Lemma interpolate_on_interval (dx : R) (n : Z) (y y2 : list R) (k : nat) :
  0 < dx -> (Z.of_nat k <= n - 2)%Z ->
  forall t, INR k * dx <= t < (INR k + 1) * dx ->
  agbnp3_cspline_interpolate t dx n y y2 = piece dx y y2 k t.
Proof.
  intros Hdx Hn t Ht. apply interpolate_is_piece; [|exact Hn].
  apply c_trunc_between.
  assert (Hi : 0 < 1 / dx).
  { unfold Rdiv. rewrite Rmult_1_l. apply Rinv_0_lt_compat. exact Hdx. }
  assert (E1 : INR k = INR k * dx * (1 / dx)) by (field; lra).
  assert (E2 : INR k + 1 = (INR k + 1) * dx * (1 / dx)) by (field; lra).
  split.
  - rewrite E1. apply Rmult_le_compat_r; lra.
  - rewrite E2. apply Rmult_lt_compat_r; lra.
Qed.

(** X20. [agbnp3_cspline_interpolate] strictly inside the interval that starts
    at node [k <= n-2]: the value it returns is differentiable in [x], and
    its derivative is the slope it returns plus
    [2 (dx/6) (3 b^2 - 1) y2[k+1]], with [b = x/dx - k].  The returned slope
    is the derivative of the returned value only where that term is 0. *)
Theorem cspline_interpolate_slope (x dx : R) (n : Z) (y y2 : list R)
    (k : nat) :
  0 < dx -> (Z.of_nat k <= n - 2)%Z ->
  INR k * dx < x < (INR k + 1) * dx ->
  let b := x * (1 / dx) - INR k in
  derivable_pt_lim (fun t => fst (agbnp3_cspline_interpolate t dx n y y2)) x
    (snd (agbnp3_cspline_interpolate x dx n y y2)
     + 2 * (dx / 6) * (3 * (b * b) - 1) * nth (k + 1) y2 0).
Proof.
  intros Hdx Hn Hx b.
  set (delta := Rmin (x - INR k * dx) ((INR k + 1) * dx - x)).
  assert (Hd : 0 < delta) by (apply Rmin_pos; lra).
  assert (Hd1 : delta <= x - INR k * dx) by apply Rmin_l.
  assert (Hd2 : delta <= (INR k + 1) * dx - x) by apply Rmin_r.
  apply (derivable_pt_lim_glue _ (fun t => fst (piece dx y y2 k t))
           (fun t => fst (piece dx y y2 k t)) x _ delta Hd).
  - intros t Ht. rewrite (interpolate_on_interval dx n y y2 k); auto. lra.
  - intros t Ht. rewrite (interpolate_on_interval dx n y y2 k); auto. lra.
  - rewrite (interpolate_on_interval dx n y y2 k) by (auto; lra).
    pose proof (piece_derivative dx y y2 k x ltac:(lra)) as HD.
    cbv zeta in HD.
    match goal with
    | |- derivable_pt_lim _ x ?l =>
        match type of HD with
        | derivable_pt_lim _ x ?l' => replace l with l'; [exact HD|]
        end
    end.
    unfold piece, cspline_soa1, b. cbv zeta.
    cbn [snd row_kv row_xh row_yp row_y row_y2p row_y2]. field. lra.
  - rewrite (interpolate_on_interval dx n y y2 k) by (auto; lra).
    pose proof (piece_derivative dx y y2 k x ltac:(lra)) as HD.
    cbv zeta in HD.
    match goal with
    | |- derivable_pt_lim _ x ?l =>
        match type of HD with
        | derivable_pt_lim _ x ?l' => replace l with l'; [exact HD|]
        end
    end.
    unfold piece, cspline_soa1, b. cbv zeta.
    cbn [snd row_kv row_xh row_yp row_y row_y2p row_y2]. field. lra.
Qed.

(** The theorem at work in the middle of the first interval of a
    three-node table. *)
Lemma cspline_interpolate_slope_witness :
  let b := / 2 * (1 / 1) - INR 0 in
  derivable_pt_lim
    (fun t => fst (agbnp3_cspline_interpolate t 1 3 [0; 1; 0] [0; 6; 0]))
    (/ 2)
    (snd (agbnp3_cspline_interpolate (/ 2) 1 3 [0; 1; 0] [0; 6; 0])
     + 2 * (1 / 6) * (3 * (b * b) - 1) * nth (0 + 1) [0; 6; 0] 0).
Proof.
  apply (cspline_interpolate_slope (/ 2) 1 3 [0; 1; 0] [0; 6; 0] 0).
  - lra.
  - simpl; lia.
  - simpl; lra.
Defined.

(** X21. [agbnp3_cspline_setup] followed by [agbnp3_cspline_interpolate]: with
    the coefficients the setup returns, the interpolated value passes
    through every interior node and is differentiable there, the cubic
    pieces on its two sides meeting with the same derivative. *)
Theorem cspline_setup_smooth (dx : R) (n : Z) (y : list R) (yp1 ypn : R)
    (y2 u : list R) (i : nat) :
  0 < dx -> length y2 = Z.to_nat n -> length u = Z.to_nat n ->
  (1 <= i <= Z.to_nat n - 2)%nat ->
  let Y := agbnp3_cspline_setup dx n y yp1 ypn y2 u in
  let F t := fst (agbnp3_cspline_interpolate t dx n y Y) in
  F (INR i * dx) = nth i y 0 /\
  derivable_pt_lim F (INR i * dx)
    ((nth (i + 1) y 0 - nth i y 0) * (1 / dx)
     - (2 * nth i Y 0 + nth (i + 1) Y 0) * (dx / 6)).
Proof.
  intros Hdx L2 Lu Hi Y F.
  assert (Hn : (3 <= n)%Z) by lia.
  destruct (cspline_setup_equations_gen dx n y yp1 ypn y2 u ltac:(lia) L2 Lu)
    as (_ & Heq & _).
  specialize (Heq i Hi). fold Y in Heq.
  destruct i as [|j]; [lia|].
  replace (S j - 1)%nat with j in Heq by lia.
  replace (S j + 1)%nat with (S (S j)) in * by lia.
  assert (HSj : INR (S j) = INR j + 1) by apply S_INR.
  assert (Hk1 : (Z.of_nat (S j) <= n - 2)%Z) by lia.
  assert (Hk0 : (Z.of_nat j <= n - 2)%Z) by lia.
  assert (Hnode : F (INR (S j) * dx) = nth (S j) y 0).
  { unfold F. rewrite (interpolate_on_interval dx n y Y (S j)); auto.
    - apply piece_left_node. lra.
    - pose proof (pos_INR j). nra. }
  split; [exact Hnode|].
  apply (derivable_pt_lim_glue F (fun t => fst (piece dx y Y j t))
           (fun t => fst (piece dx y Y (S j) t)) _ _ dx Hdx).
  - intros t Ht. destruct (Req_dec t (INR (S j) * dx)) as [->|Hne].
    + rewrite Hnode. replace (S j) with (j + 1)%nat by lia.
      symmetry. apply piece_right_node. lra.
    + unfold F. rewrite (interpolate_on_interval dx n y Y j); auto.
      rewrite HSj in *. split; [|lra]. nra.
  - intros t Ht. unfold F.
    rewrite (interpolate_on_interval dx n y Y (S j)); auto.
    split; [lra|]. nra.
  - pose proof (piece_derivative dx y Y j (INR (S j) * dx) ltac:(lra)) as HD.
    cbv zeta in HD. replace (j + 1)%nat with (S j) in HD by lia.
    match goal with
    | |- derivable_pt_lim _ _ ?l =>
        match type of HD with
        | derivable_pt_lim _ _ ?l' => replace l with l'; [exact HD|]
        end
    end.
    rewrite HSj.
    replace (INR j + 1 - (INR j + 1) * dx * (1 / dx)) with 0 by (field; lra).
    replace ((INR j + 1) * dx * (1 / dx) - INR j) with 1 by (field; lra).
    assert (E : (nth j Y 0 + 4 * nth (S j) Y 0 + nth (S (S j)) Y 0) * (dx / 6)
                = (nth (S (S j)) y 0 - nth (S j) y 0) / dx
                  - (nth (S j) y 0 - nth j y 0) / dx).
    { replace 0.5 with (/ 2) in Heq by lra.
      transitivity
        ((/ 2 * nth j Y 0 + 2 * nth (S j) Y 0 + / 2 * nth (S (S j)) Y 0)
         * (dx / 3)); [field|].
      rewrite Heq. field. lra. }
    unfold Rdiv in *. lra.
  - pose proof (piece_derivative dx y Y (S j) (INR (S j) * dx) ltac:(lra))
      as HD.
    cbv zeta in HD. replace (S j + 1)%nat with (S (S j)) in HD by lia.
    match goal with
    | |- derivable_pt_lim _ _ ?l =>
        match type of HD with
        | derivable_pt_lim _ _ ?l' => replace l with l'; [exact HD|]
        end
    end.
    replace (INR (S j) + 1 - INR (S j) * dx * (1 / dx)) with 1 by (field; lra).
    replace (INR (S j) * dx * (1 / dx) - INR (S j)) with 0 by (field; lra).
    unfold Rdiv. ring.
Qed.

(** The theorem at work at the middle node of a three-node table. *)
Lemma cspline_setup_smooth_witness :
  let Y := agbnp3_cspline_setup 1 3 [0; 1; 0] 0 0 [0; 0; 0] [0; 0; 0] in
  let F t := fst (agbnp3_cspline_interpolate t 1 3 [0; 1; 0] Y) in
  F (INR 1 * 1) = nth 1 [0; 1; 0] 0 /\
  derivable_pt_lim F (INR 1 * 1)
    ((nth (1 + 1) [0; 1; 0] 0 - nth 1 [0; 1; 0] 0) * (1 / 1)
     - (2 * nth 1 Y 0 + nth (1 + 1) Y 0) * (1 / 6)).
Proof.
  apply (cspline_setup_smooth 1 3 [0; 1; 0] 0 0 [0; 0; 0] [0; 0; 0] 1).
  - lra.
  - reflexivity.
  - reflexivity.
  - simpl; lia.
Defined.

End SplineSetupFacts.

(** ** Evaluation beyond the table *)

Section NoExtrapolation.
Import HTable HashSize Spline.
#[local] Open Scope R_scope.

(** The table of the cache after the keys [ks] were entered: every key is
    found at a slot that holds it. *)
Lemma h_enter_all_found (p : Z) (mem ks : list Z) (fuel : nat) (ht : HTable) :
  (0 <= p <= 30)%Z ->
  length mem = Z.to_nat (2 ^ p) ->
  Forall in_range ks ->
  (length ks < Z.to_nat (2 ^ p))%nat ->
  (Z.to_nat (2 ^ p) <= fuel)%nat ->
  h_enter_all fuel (agbnp3_h_init (agbnp3_h_create 0 (2 ^ p) 1 mem)) ks
    = Some ht ->
  forall q, In q ks -> found fuel ht q.
Proof.
  intros Hp Hlen Hks Hn Hf Hrun q Hq.
  pose proof (pow2_bounds p Hp) as HM.
  destruct (h_init_cache_table p mem Hp Hlen) as [Hc0 Hst0].
  destruct (h_enter_all_sized p fuel Hp Hf ks _ [] O Hc0 Hst0)
    as (ht' & Hrun' & _ & _ & Hall); auto.
  - intros keys Hk. unfold agbnp3_h_create in Hk.
    destruct (2 ^ p <=? 0)%Z eqn:E; [apply Z.leb_le in E; lia|].
    unfold agbnp3_h_init in Hk. simpl in Hk. injection Hk as <-.
    rewrite <- Hlen, skipn_all, app_nil_r, occupied_repeat. lia.
  - intros q0 [].
  - rewrite Hrun in Hrun'. injection Hrun' as <-.
    apply Hall. rewrite app_nil_r. exact Hq.
Qed.

(** One entry of the gather loop, where everything it does is defined. *)
Lemma soa_gather1_defined (fuel : nat) (table2d : C1Table2DH) (x ym : R)
    (k : Z) (t : C1Table) :
  int_range (ym * IZR (nkey table2d)) ->
  (0 <= c_trunc (ym * IZR (nkey table2d)) < 2 ^ 31)%Z ->
  agbnp3_h_find fuel (y2i table2d) (c_trunc (ym * IZR (nkey table2d)))
    = Some k ->
  (0 <= k)%Z ->
  nth_error (table table2d) (Z.to_nat k) = Some t ->
  (n t <= Z.of_nat (length (y t)))%Z ->
  (n t <= Z.of_nat (length (y2 t)))%Z ->
  0 <= x * dxinv t < IZR (2 ^ 31) ->
  exists row,
    soa_gather1 fuel table2d x ym = Some (row, dx t) /\
    ((Int_part (x * dxinv t) > n t - 2)%Z ->
     row = mkRow (IZR (c_trunc (x * dxinv t))) (x * dxinv t) 0 0 0 0).
Proof.
  intros Hym Hkey Hfind Hk Ht Ly Ly2 Hx.
  assert (H32 : (2 ^ 31 < 2 ^ 32)%Z) by reflexivity.
  unfold soa_gather1. rewrite (c_int_defined _ Hym).
  rewrite u32_small by lia. rewrite Hfind.
  destruct (k <? 0)%Z eqn:E0; [apply Z.ltb_lt in E0; lia|]. rewrite Ht.
  assert (Hr : int_range (x * dxinv t)).
  { unfold int_range. split; [|lra].
    assert (IZR (- 2 ^ 31) < 0) by (apply IZR_lt; reflexivity). lra. }
  rewrite (c_int_defined _ Hr).
  pose proof (c_trunc_nonneg _ (proj1 Hx)) as Hk0.
  pose proof (Int_part_le_c_trunc (x * dxinv t)) as Hle.
  set (kk := c_trunc (x * dxinv t)) in *.
  destruct (kk >? n t - 2)%Z eqn:E.
  - eexists. split; [reflexivity|]. intros _. reflexivity.
  - rewrite Z.gtb_ltb in E. apply Z.ltb_ge in E.
    destruct (kk <? 0)%Z eqn:E1; [apply Z.ltb_lt in E1; lia|].
    destruct (nth_error (y t) (Z.to_nat kk)) as [yk|] eqn:A1;
      [|apply nth_error_None in A1; lia].
    destruct (nth_error (y t) (Z.to_nat (kk + 1))) as [yk1|] eqn:A2;
      [|apply nth_error_None in A2; lia].
    destruct (nth_error (y2 t) (Z.to_nat kk)) as [y2k|] eqn:A3;
      [|apply nth_error_None in A3; lia].
    destruct (nth_error (y2 t) (Z.to_nat (kk + 1))) as [y2k1|] eqn:A4;
      [|apply nth_error_None in A4; lia].
    eexists. split; [reflexivity|]. intros H. lia.
Qed.

Lemma nth_error_combine {A B : Type} (l1 : list A) (l2 : list B) (i : nat)
    (a : A) (b : B) :
  nth_error l1 i = Some a -> nth_error l2 i = Some b ->
  nth_error (combine l1 l2) i = Some (a, b).
Proof.
  revert i l2. induction l1 as [|a0 l1 IH]; intros [|i] [|b0 l2] H1 H2;
    simpl in *; try discriminate.
  - congruence.
  - apply IH; assumption.
Qed.

(** C5. Spline evaluation does not extrapolate.  Where the conversion of
    [x/dx] to [int] is defined, the scalar evaluator returns value 0 and
    derivative 0 for every query whose bracketing index [floor(x/dx)]
    exceeds [n - 2].  The structure-of-arrays variant, on a cache whose
    hash table was filled with the keys [ks] (fewer than its [2^p] slots)
    and holds a table with [n] nodes at every occupied slot, for [m]
    entries whose keys are among [ks] and whose [x[i] * dxinv] is not
    negative and below [2^31], returns [AGBNP_OK] with [m] values and [m]
    derivatives, and yields [f[i] = 0] and [fp[i] = 0] for every entry
    whose index [floor(x[i] * dxinv)] exceeds [n - 2] in the table
    selected for that entry. *)
Theorem cspline_no_extrapolation :
  (forall (x dx : R) (n : Z) (y y2 : list R),
     int_range (x / dx) ->
     (Int_part (x / dx) > n - 2)%Z ->
     agbnp3_cspline_interpolate x dx n y y2 = (0, 0)) /\
  (forall (p : Z) (mem ks : list Z) (fuel : nat) (table2d : C1Table2DH)
          (xs yms : list R) (m : nat) (dx0 : R),
     (0 <= p <= 30)%Z ->
     length mem = Z.to_nat (2 ^ p) ->
     Forall (fun w => 0 <= w < 2 ^ 31)%Z ks ->
     (length ks < Z.to_nat (2 ^ p))%nat ->
     (Z.to_nat (2 ^ p) <= fuel)%nat ->
     h_enter_all fuel (agbnp3_h_init (agbnp3_h_create 0 (2 ^ p) 1 mem)) ks
       = Some (y2i table2d) ->
     (forall k q, key_at (y2i table2d) k = Some q -> (0 <= q)%Z ->
        exists t, nth_error (table table2d) (Z.to_nat k) = Some t) ->
     (forall t, In t (table table2d) ->
        (n t <= Z.of_nat (length (y t)))%Z /\
        (n t <= Z.of_nat (length (y2 t)))%Z) ->
     (m <= length xs)%nat -> (m <= length yms)%nat ->
     (forall i ym, (i < m)%nat -> nth_error yms i = Some ym ->
        int_range (ym * IZR (nkey table2d)) /\
        In (c_trunc (ym * IZR (nkey table2d))) ks) ->
     (forall i x t, (i < m)%nat -> nth_error xs i = Some x ->
        In t (table table2d) -> 0 <= x * dxinv t < IZR (2 ^ 31)) ->
     exists fs fps,
       agbnp3_interpolate_ctablef42d_soa fuel table2d xs yms m dx0
         = Some (AGBNP_OK, (fs, fps)) /\
       length fs = m /\ length fps = m /\
       forall (i : nat) (x ym : R) (iy : Z) (t : C1Table),
         (i < m)%nat ->
         nth_error xs i = Some x -> nth_error yms i = Some ym ->
         agbnp3_h_find fuel (y2i table2d)
           (u32 (c_trunc (ym * IZR (nkey table2d)))) = Some iy ->
         nth_error (table table2d) (Z.to_nat iy) = Some t ->
         (Int_part (x * dxinv t) > n t - 2)%Z ->
         nth_error fs i = Some 0 /\ nth_error fps i = Some 0).
Proof.
  split.
  - intros x dx n y y2 _ H. unfold agbnp3_cspline_interpolate.
    replace (x * (1 / dx)) with (x / dx) by (unfold Rdiv; ring).
    pose proof (Int_part_le_c_trunc (x / dx)) as Hle.
    destruct (c_trunc (x / dx) >? n - 2)%Z eqn:E; [reflexivity|].
    rewrite Z.gtb_ltb in E; apply Z.ltb_ge in E. lia.
  - intros p mem ks fuel table2d xs yms m dx0 Hp Hlen Hks Hn Hf Hrun Htab
      Hwf Lx Ly Hym Hx.
    assert (H32 : (2 ^ 31 < 2 ^ 32)%Z) by reflexivity.
    pose proof (h_enter_all_found p mem ks fuel _ Hp Hlen Hks Hn Hf Hrun)
      as Hfound.
    (* every entry has a defined body *)
    assert (Hone : forall i x ym, (i < m)%nat ->
              nth_error xs i = Some x -> nth_error yms i = Some ym ->
              exists k t row,
                agbnp3_h_find fuel (y2i table2d)
                  (c_trunc (ym * IZR (nkey table2d))) = Some k /\
                nth_error (table table2d) (Z.to_nat k) = Some t /\
                soa_gather1 fuel table2d x ym = Some (row, dx t) /\
                ((Int_part (x * dxinv t) > n t - 2)%Z ->
                 row = mkRow (IZR (c_trunc (x * dxinv t))) (x * dxinv t)
                         0 0 0 0)).
    { intros i x ym Hi Ex Ey.
      destruct (Hym i ym Hi Ey) as [Hr Hin].
      assert (Hkr : (0 <= c_trunc (ym * IZR (nkey table2d)) < 2 ^ 31)%Z).
      { rewrite Forall_forall in Hks. apply Hks. exact Hin. }
      destruct (Hfound _ Hin) as (k & Hfk & Hk0 & Hkey).
      destruct (Htab k _ Hkey ltac:(lia)) as (t & Ht).
      pose proof (nth_error_In _ _ Ht) as Hint.
      destruct (Hwf t Hint) as [W1 W2].
      destruct (soa_gather1_defined fuel table2d x ym k t Hr Hkr Hfk Hk0 Ht
                  W1 W2 (Hx i x t Hi Ex Hint)) as (row & G & Z0).
      exists k, t, row. auto. }
    set (xy := firstn m (combine xs yms)).
    assert (Lxy : length xy = m).
    { unfold xy. rewrite length_firstn, length_combine. lia. }
    assert (Hnth : forall i x ym, (i < m)%nat ->
              nth_error xs i = Some x -> nth_error yms i = Some ym ->
              nth_error xy i = Some (x, ym)).
    { intros i x ym Hi Ex Ey. unfold xy. rewrite nth_error_firstn.
      destruct (Nat.ltb_spec i m); [|lia].
      apply nth_error_combine; assumption. }
    destruct (soa_gather_total fuel table2d xy dx0) as (rows & dxl & Eg & Lr).
    { intros x ym Hin. apply In_nth_error in Hin. destruct Hin as (i & Ei).
      assert (Hi : (i < m)%nat).
      { rewrite <- Lxy. apply nth_error_Some. congruence. }
      unfold xy in Ei. rewrite nth_error_firstn in Ei.
      destruct (Nat.ltb_spec i m); [|lia].
      destruct (nth_error xs i) as [x'|] eqn:Ex;
        [|apply nth_error_None in Ex; lia].
      destruct (nth_error yms i) as [ym'|] eqn:Ey;
        [|apply nth_error_None in Ey; lia].
      rewrite (nth_error_combine _ _ _ _ _ Ex Ey) in Ei.
      injection Ei as <- <-.
      destruct (Hone i x' ym' Hi Ex Ey) as (k & t & row & _ & _ & G & _).
      eauto. }
    unfold agbnp3_interpolate_ctablef42d_soa. fold xy. rewrite Eg.
    eexists; eexists. split; [reflexivity|].
    unfold agbnp3_cspline_interpolate_soa.
    split; [rewrite length_map; lia|]. split; [rewrite length_map; lia|].
    intros i x ym iy t Hi Ex Ey Hf' Ht' Hbig.
    destruct (Hone i x ym Hi Ex Ey) as (k & t0 & row & Hfk & Ht0 & G & Z0).
    destruct (Hym i ym Hi Ey) as [_ Hin].
    assert (Hkr : (0 <= c_trunc (ym * IZR (nkey table2d)) < 2 ^ 31)%Z).
    { rewrite Forall_forall in Hks. apply Hks. exact Hin. }
    rewrite u32_small in Hf' by lia.
    rewrite Hfk in Hf'. injection Hf' as <-.
    rewrite Ht0 in Ht'. injection Ht' as <-.
    destruct (soa_gather_nth _ _ _ _ _ _ _ _ _ Eg (Hnth i x ym Hi Ex Ey))
      as (row' & dx' & G1 & G2).
    rewrite G in G1. injection G1 as <- <-.
    rewrite (Z0 Hbig) in G2.
    split; rewrite nth_error_map, G2; simpl; f_equal; ring.
Qed.

End NoExtrapolation.

(** The theorem at work: a four-node table with spacing 1 queried at
    [x = 5], alone and through a cache with one key. *)
Lemma cspline_no_extrapolation_witness :
  (Spline.agbnp3_cspline_interpolate 5 1 4 [1; 2; 3; 4] [0; 0; 0; 0]
   = (0, 0))%R /\
  exists fs fps,
    (Spline.agbnp3_interpolate_ctablef42d_soa 4
       (Spline.mkC1Table2DH 10000
          (HTable.mkHTable 4 3 1 0 (Some [0; -1; -1; -1]%Z))
          [Spline.mkC1Table 4 1 1 0 [1; 2; 3; 4] [0; 0; 0; 0]])
       [5] [0] 1 1 = Some (AGBNP_OK, (fs, fps)))%R /\
    nth_error fs 0 = Some 0%R /\ nth_error fps 0 = Some 0%R.
Proof.
  assert (H5 : forall d : R, d = 1%R -> Int_part (5 * d) = 5%Z).
  { intros d ->. replace (5 * 1)%R with (IZR 5) by lra. apply Int_part_IZR. }
  assert (Hk : c_trunc (0 * IZR 10000) = 0%Z).
  { replace (0 * IZR 10000)%R with (IZR 0) by lra. apply c_trunc_IZR. }
  split.
  - apply (proj1 cspline_no_extrapolation).
    + unfold int_range. simpl. lra.
    + unfold Rdiv. rewrite (H5 (/ 1)%R) by lra. lia.
  - set (t := Spline.mkC1Table 4 1 1 0 [1; 2; 3; 4]%R [0; 0; 0; 0]%R).
    set (ht := HTable.mkHTable 4 3 1 0 (Some [0; -1; -1; -1]%Z)).
    set (t2 := Spline.mkC1Table2DH 10000 ht [t]).
    destruct (proj2 cspline_no_extrapolation 2%Z [7; 7; 7; 7]%Z [0%Z] 4%nat
                t2 [5%R] [0%R] 1%nat 1%R)
      as (fs & fps & E & _ & _ & Hz).
    + lia.
    + reflexivity.
    + repeat constructor; lia.
    + simpl; lia.
    + simpl; lia.
    + reflexivity.
    + intros k q Hkey Hq. unfold HTable.key_at in Hkey. simpl in Hkey.
      destruct (Z.to_nat k) as [|[|[|[|j]]]]; simpl in Hkey;
        try (exists t; reflexivity);
        try (injection Hkey; intros; lia); destruct j; discriminate Hkey.
    + intros t' [<-|[]]. simpl. lia.
    + simpl; lia.
    + simpl; lia.
    + intros i ym Hi Ey. destruct i as [|i]; [|lia]. simpl in Ey.
      injection Ey as <-. simpl Spline.nkey. rewrite Hk. split; [|left; reflexivity].
      unfold int_range. simpl. lra.
    + intros i x t' Hi Ex [<-|[]]. destruct i as [|i]; [|lia]. simpl in Ex.
      injection Ex as <-. simpl. lra.
    + exists fs, fps. split; [exact E|].
      apply (Hz 0%nat 5%R 0%R 0%Z t); try reflexivity; try lia.
      * simpl Spline.nkey. rewrite Hk. reflexivity.
      * simpl. rewrite (H5 1%R) by reflexivity. lia.
Defined.

(** ** Every created site moves with its parents *)

Section InvarianceFacts.
Import WaterSites Geometry Placements SiteInvariance.
#[local] Open Scope R_scope.
Variable K : AGBNPconsts.
Variable der3 : mat3.

Lemma nth_upd_slot_same (i : nat) (f : WSat -> WSat) (t : list WSat) :
  (i < length t)%nat ->
  nth i (upd_slot i f t) WSat_zero = f (nth i t WSat_zero).
Proof. intros H. unfold upd_slot. apply nth_set_nth_same. exact H. Qed.

Lemma nth_upd_slot_other (i j : nat) (f : WSat -> WSat) (t : list WSat) :
  i <> j -> nth j (upd_slot i f t) WSat_zero = nth j t WSat_zero.
Proof. intros H. unfold upd_slot. apply nth_set_nth_other. exact H. Qed.

Lemma length_upd_slot (i : nat) (f : WSat -> WSat) (t : list WSat) :
  length (upd_slot i f t) = length t.
Proof. unfold upd_slot. apply set_nth_length. Qed.

(** A stored site whose first [length ps] blocks sum to the identity. *)
Lemma store_site_invariant (agb : AGBNPdata) (iat : Z) (w : WSat)
    (xw : vec3) (ty : hbtype) (ps : list Z) (sq : option Z)
    (dp : list mat3 -> list mat3) :
  msum (firstn (length ps) (dp (dpos w))) = mident ->
  translation_invariant (store_site K agb iat w xw ty ps sq dp).
Proof.
  intros H. unfold translation_invariant, store_site.
  cbn [nparents dpos]. rewrite Nat2Z.id. exact H.
Qed.

Lemma firstn_copy_blocks (k n : nat) (der old : list mat3) :
  (k <= n <= length der)%nat ->
  firstn k (copy_blocks n der old) = firstn k der.
Proof.
  intros H. unfold copy_blocks.
  rewrite firstn_app, length_firstn.
  replace (k - Nat.min n (length der))%nat with 0%nat by lia.
  rewrite firstn_O, app_nil_r, firstn_firstn.
  f_equal. lia.
Qed.


Lemma madd_mzero_r (m : mat3) : madd m mzero = m.
Proof.
  destruct m as [[[[? ?] ?] [[? ?] ?]] [[? ?] ?]].
  unfold madd, mzero, vadd, vzero. cbn [vx vy vz fst snd].
  repeat (apply injective_projections; cbn [fst snd]); ring.
Qed.

Lemma firstn_whole {A : Type} (n : nat) (l : list A) :
  length l = n -> firstn n l = l.
Proof. intros <-. apply firstn_all. Qed.

(** The number of blocks each placement routine returns. *)
Lemma placement_block_counts :
  (forall xa xr xr1 xr2 d,
     length (snd (fst (agbnp3_place_wat_trigonal1 xa xr xr1 xr2 d))) = 4%nat /\
     length (snd (agbnp3_place_wat_trigonal1 xa xr xr1 xr2 d)) = 4%nat) /\
  (forall xa xr xr1 xr2 d,
     length (snd (fst (agbnp3_place_wat_trigonal_s xa xr xr1 xr2 d))) = 4%nat /\
     length (snd (agbnp3_place_wat_trigonal_s xa xr xr1 xr2 d)) = 4%nat) /\
  (forall xa xr1 xr2 xr3 d,
     length (snd (fst (agbnp3_place_wat_trigonal_oop xa xr1 xr2 xr3 d)))
     = 4%nat /\
     length (snd (agbnp3_place_wat_trigonal_oop xa xr1 xr2 xr3 d)) = 4%nat) /\
  (forall xa xr1 xr2 d,
     length (snd (agbnp3_place_wat_trigonal2 xa xr1 xr2 d)) = 3%nat) /\
  (forall xa xr1 xr2 d,
     length (snd (fst (agbnp3_place_wat_tetrahedral2 xa xr1 xr2 d))) = 3%nat /\
     length (snd (agbnp3_place_wat_tetrahedral2 xa xr1 xr2 d)) = 3%nat) /\
  (forall xa xr1 xr2 xr3 d,
     length (snd (agbnp3_place_wat_tetrahedral3 xa xr1 xr2 xr3 d)) = 4%nat) /\
  (forall xa xr xr1 d,
     length (snd (agbnp3_place_wat_tetrahedral1_one xa xr xr1 d der3))
     = 4%nat).
Proof. repeat split; reflexivity. Qed.

Section OneAtom.
Variable agb : AGBNPdata.
Variable c : NeighList.
Variable iat : Z.
Variable twsatb : list WSat.
Hypothesis Hroom : (4 <= length twsatb)%nat.
Hypothesis Hdpos : Forall (fun w => length (dpos w) = 4%nat) twsatb.

Lemma sites_invariant_degrade (res : created) :
  sites_invariant res -> sites_invariant (degrade res).
Proof.
  destruct res as [[[|] n] t]; unfold sites_invariant; cbn.
  - auto.
  - intros _ _ k Hk. lia.
Qed.

Lemma sites_invariant_none (rc : retcode) (t : list WSat) :
  sites_invariant (rc, 0%Z, t).
Proof. intros _ k Hk. cbn in Hk. lia. Qed.

Lemma ph_invariant (nws : Z) :
  sites_invariant (agbnp3_create_ws_atoms_ph K agb c iat nws twsatb).
Proof.
  unfold agbnp3_create_ws_atoms_ph, sites_invariant.
  destruct (nne_at c iat <=? 0)%Z; [cbn; discriminate|].
  destruct (find _ _) as [jat|]; [|cbn; discriminate].
  pose proof (place_wat_hydrogen_blocks (xyz agb jat) (xyz agb iat)
                (AGBNP_HB_LENGTH K)) as HB.
  destruct (agbnp3_place_wat_hydrogen _ _ _) as [[xw der1] der2].
  cbn [fst snd] in *. intros _ k Hk.
  assert (k = 0%nat) by lia. subst k.
  rewrite nth_upd_slot_same by lia.
  apply store_site_invariant.
  assert (Hl : length (dpos (nth 0 twsatb WSat_zero)) = 4%nat).
  { rewrite Forall_forall in Hdpos. apply Hdpos. apply nth_In. lia. }
  destruct (dpos (nth 0 twsatb WSat_zero)) as [|a [|b rest]];
    try discriminate Hl.
  cbn [length firstn set_nth msum fold_right].
  rewrite madd_mzero_r. exact HB.
Qed.


(** One stored site: the slot, then the blocks. *)
Ltac stored_site Hlen Hsum :=
  rewrite ?nth_upd_slot_other by lia;
  rewrite nth_upd_slot_same by (rewrite ?length_upd_slot; lia);
  apply store_site_invariant; cbn [length];
  rewrite firstn_copy_blocks by (rewrite Hlen; lia);
  try rewrite (firstn_whole _ _ Hlen); exact Hsum.

Lemma trigonal1_invariant (nws : Z) :
  sites_invariant
    (agbnp3_create_ws_atoms_trigonal1 K (source_placement der3) agb c iat nws
       twsatb).
Proof.
  unfold agbnp3_create_ws_atoms_trigonal1, sites_invariant.
  destruct (negb _); [cbn; discriminate|].
  destruct (negb _); [cbn; discriminate|].
  destruct (scan_r1 _ _ _) as [ir1|]; [|cbn; discriminate].
  destruct (scan_r2 _ _ _ _) as [ir2|]; [|cbn; discriminate].
  cbn [place_wat_trigonal1 source_placement].
  destruct placement_block_counts as (L & _).
  match goal with
  | |- context [agbnp3_place_wat_trigonal1 ?a ?b ?c ?d ?e] =>
      destruct (L a b c d e) as [L1 L2];
      destruct (place_wat_trigonal1_blocks a b c d e) as [B1 B2];
      destruct (agbnp3_place_wat_trigonal1 a b c d e) as [[[xw1 xw2] d1] d2]
  end.
  cbn [fst snd] in *. intros _ k Hk.
  destruct k as [|[|k]]; [| |lia].
  - stored_site L1 B1.
  - stored_site L2 B2.
Qed.

Lemma trigonal2_invariant (nws : Z) :
  sites_invariant
    (agbnp3_create_ws_atoms_trigonal2 K (source_placement der3) agb c iat nws
       twsatb).
Proof.
  unfold agbnp3_create_ws_atoms_trigonal2, sites_invariant.
  destruct (negb _); [cbn; discriminate|].
  cbn [place_wat_trigonal2 source_placement].
  destruct placement_block_counts as (_ & _ & _ & L & _).
  match goal with
  | |- context [agbnp3_place_wat_trigonal2 ?a ?b ?c ?d] =>
      pose proof (L a b c d) as L1;
      pose proof (place_wat_trigonal2_blocks a b c d) as B1;
      destruct (agbnp3_place_wat_trigonal2 a b c d) as [xw d1]
  end.
  cbn [fst snd] in *. intros _ k Hk.
  destruct k as [|k]; [|lia].
  stored_site L1 B1.
Qed.

Lemma trigonal_s_invariant (nws : Z) :
  sites_invariant
    (agbnp3_create_ws_atoms_trigonal_s K (source_placement der3) agb c iat nws
       twsatb).
Proof.
  unfold agbnp3_create_ws_atoms_trigonal_s, sites_invariant.
  destruct (negb _); [cbn; discriminate|].
  destruct (negb _); [cbn; discriminate|].
  destruct (scan_r1 _ _ _) as [ir1|]; [|cbn; discriminate].
  destruct (scan_r2 _ _ _ _) as [ir2|]; [|cbn; discriminate].
  cbn [place_wat_trigonal1 place_wat_trigonal_s source_placement].
  destruct placement_block_counts as (L & Ls & _).
  match goal with
  | |- context [agbnp3_place_wat_trigonal1 ?a ?b ?c ?d ?e] =>
      destruct (L a b c d e) as [L1 L2];
      destruct (place_wat_trigonal1_blocks a b c d e) as [B1 B2];
      destruct (agbnp3_place_wat_trigonal1 a b c d e) as [[[xw1 xw2] d1] d2];
      destruct (Ls a b c d e) as [L3 L4];
      destruct (place_wat_trigonal_s_blocks a b c d e) as [B3 B4];
      destruct (agbnp3_place_wat_trigonal_s a b c d e) as [[[xw3 xw4] d3] d4]
  end.
  cbn [fst snd] in *. intros _ k Hk.
  destruct k as [|[|[|[|k]]]]; [| | | |lia].
  - stored_site L1 B1.
  - stored_site L2 B2.
  - stored_site L3 B3.
  - stored_site L4 B4.
Qed.

Lemma trigonal_oop_invariant (nws : Z) :
  sites_invariant
    (agbnp3_create_ws_atoms_trigonal_oop K (source_placement der3) agb c iat
       nws twsatb).
Proof.
  unfold agbnp3_create_ws_atoms_trigonal_oop, sites_invariant.
  destruct (negb _); [cbn; discriminate|].
  cbn [place_wat_trigonal_oop source_placement].
  destruct placement_block_counts as (_ & _ & L & _).
  match goal with
  | |- context [agbnp3_place_wat_trigonal_oop ?a ?b ?c ?d ?e] =>
      destruct (L a b c d e) as [L1 L2];
      destruct (place_wat_trigonal_oop_blocks a b c d e) as [B1 B2];
      destruct (agbnp3_place_wat_trigonal_oop a b c d e)
        as [[[xw1 xw2] d1] d2]
  end.
  cbn [fst snd] in *. intros _ k Hk.
  destruct k as [|[|k]]; [| |lia].
  - stored_site L1 B1.
  - stored_site L2 B2.
Qed.

Lemma tetrahedral2_invariant (nws : Z) :
  sites_invariant
    (agbnp3_create_ws_atoms_tetrahedral2 K (source_placement der3) agb c iat
       nws twsatb).
Proof.
  unfold agbnp3_create_ws_atoms_tetrahedral2, sites_invariant.
  destruct (negb _); [cbn; discriminate|].
  cbn [place_wat_tetrahedral2 source_placement].
  destruct placement_block_counts as (_ & _ & _ & _ & L & _).
  match goal with
  | |- context [agbnp3_place_wat_tetrahedral2 ?a ?b ?c ?d] =>
      destruct (L a b c d) as [L1 L2];
      destruct (place_wat_tetrahedral2_blocks a b c d) as [B1 B2];
      destruct (agbnp3_place_wat_tetrahedral2 a b c d)
        as [[[xw1 xw2] d1] d2]
  end.
  cbn [fst snd] in *. intros _ k Hk.
  destruct k as [|[|k]]; [| |lia].
  - stored_site L1 B1.
  - stored_site L2 B2.
Qed.

Lemma tetrahedral3_invariant (nws : Z) :
  sites_invariant
    (agbnp3_create_ws_atoms_tetrahedral3 K (source_placement der3) agb c iat
       nws twsatb).
Proof.
  unfold agbnp3_create_ws_atoms_tetrahedral3, sites_invariant.
  destruct (negb _); [cbn; discriminate|].
  cbn [place_wat_tetrahedral3 source_placement].
  destruct placement_block_counts as (_ & _ & _ & _ & _ & L & _).
  match goal with
  | |- context [agbnp3_place_wat_tetrahedral3 ?a ?b ?c ?d ?e] =>
      pose proof (L a b c d e) as L1;
      pose proof (place_wat_tetrahedral3_blocks a b c d e) as B1;
      destruct (agbnp3_place_wat_tetrahedral3 a b c d e) as [xw d1]
  end.
  cbn [fst snd] in *. intros _ k Hk.
  destruct k as [|k]; [|lia].
  stored_site L1 B1.
Qed.

Lemma tetrahedral1_invariant (nws : Z) :
  sites_invariant
    (agbnp3_create_ws_atoms_tetrahedral1 K (source_placement der3) agb c iat
       nws twsatb).
Proof.
  unfold agbnp3_create_ws_atoms_tetrahedral1, sites_invariant.
  destruct (negb _); [cbn; discriminate|].
  destruct (negb _); [cbn; discriminate|].
  destruct (negb _); [cbn; discriminate|].
  cbn [place_wat_tetrahedral1_one source_placement].
  destruct placement_block_counts as (_ & _ & _ & _ & _ & _ & L).
  set (irr := filter _ _).
  set (ir := zd (neighl_at c iat) 0).
  pose proof (L (xyz agb iat) (xyz agb ir) (xyz agb (nth 0 irr 0%Z))
                (AGBNP_HB_LENGTH K)) as L0.
  pose proof (place_wat_tetrahedral1_one_blocks (xyz agb iat) (xyz agb ir)
                (xyz agb (nth 0 irr 0%Z)) (AGBNP_HB_LENGTH K) der3) as B0.
  pose proof (L (xyz agb iat) (xyz agb ir) (xyz agb (nth 1 irr 0%Z))
                (AGBNP_HB_LENGTH K)) as L1.
  pose proof (place_wat_tetrahedral1_one_blocks (xyz agb iat) (xyz agb ir)
                (xyz agb (nth 1 irr 0%Z)) (AGBNP_HB_LENGTH K) der3) as B1.
  pose proof (L (xyz agb iat) (xyz agb ir) (xyz agb (nth 2 irr 0%Z))
                (AGBNP_HB_LENGTH K)) as L2.
  pose proof (place_wat_tetrahedral1_one_blocks (xyz agb iat) (xyz agb ir)
                (xyz agb (nth 2 irr 0%Z)) (AGBNP_HB_LENGTH K) der3) as B2.
  destruct (agbnp3_place_wat_tetrahedral1_one _ _ (xyz agb (nth 0 irr 0%Z)) _ _)
    as [xw0 d0].
  destruct (agbnp3_place_wat_tetrahedral1_one _ _ (xyz agb (nth 1 irr 0%Z)) _ _)
    as [xw1 d1].
  destruct (agbnp3_place_wat_tetrahedral1_one _ _ (xyz agb (nth 2 irr 0%Z)) _ _)
    as [xw2 d2].
  cbn [fst snd] in *. intros _ k Hk.
  destruct k as [|[|[|k]]]; [| | |lia].
  - stored_site L0 B0.
  - stored_site L1 B1.
  - stored_site L2 B2.
Qed.

(** X15. Water sites move with their parents.  With the placement routines of
    the source, and where the geometry around the atom is not degenerate
    (no placement routine divides by zero), every site
    [agbnp3_create_ws_ofatom] reports for an atom, whatever its
    hydrogen-bonding class, has derivative blocks with respect to its
    parents that sum to the identity; the buffer has room for the four
    sites an atom can get. *)
Theorem created_sites_translation_invariant (k : nat) :
  placements_defined agb c iat ->
  let res :=
    agbnp3_create_ws_ofatom K (source_placement der3) agb c iat twsatb in
  (k < Z.to_nat (snd (fst res)))%nat ->
  translation_invariant (nth k (snd res) WSat_zero).
Proof.
  intros _ res. subst res.
  assert (H : sites_invariant
                (agbnp3_create_ws_ofatom K (source_placement der3) agb c iat
                   twsatb)).
  { unfold agbnp3_create_ws_ofatom. cbv zeta.
    destruct (nth (Z.to_nat iat) (hbtype_ agb) AGBNP_HB_INACTIVE);
      try apply sites_invariant_none.
    - apply sites_invariant_degrade, ph_invariant.
    - destruct (nne_at c iat =? 1)%Z;
        [apply sites_invariant_degrade, trigonal1_invariant|].
      destruct (nne_at c iat =? 2)%Z;
        [apply sites_invariant_degrade, trigonal2_invariant|].
      apply sites_invariant_none.
    - apply sites_invariant_degrade, trigonal_s_invariant.
    - pose proof (trigonal_oop_invariant 0%Z) as Ho.
      destruct (agbnp3_create_ws_atoms_trigonal_oop _ _ _ _ _ _ _)
        as [[[|] n] t]; exact Ho.
    - destruct (nne_at c iat =? 2)%Z;
        [apply sites_invariant_degrade, tetrahedral2_invariant|].
      destruct (nne_at c iat =? 3)%Z;
        [apply sites_invariant_degrade, tetrahedral3_invariant|].
      destruct (nne_at c iat =? 1)%Z;
        [apply sites_invariant_degrade, tetrahedral1_invariant|].
      apply sites_invariant_none. }
  intros Hk. apply H; [|exact Hk].
  clear H.
  destruct (fst (fst (agbnp3_create_ws_ofatom K (source_placement der3) agb c
                        iat twsatb))) eqn:E; [reflexivity|].
  exfalso. revert E Hk.
  unfold agbnp3_create_ws_ofatom. cbv zeta.
  destruct (nth (Z.to_nat iat) (hbtype_ agb) AGBNP_HB_INACTIVE);
    repeat match goal with
    | |- context [if ?b then _ else _] => destruct b
    end;
    rewrite ?degrade_ok; try (cbn; discriminate).
  unfold agbnp3_create_ws_atoms_trigonal_oop.
  destruct (negb _); [cbn; intros _ Hk; lia|].
  destruct (place_wat_trigonal_oop _ _ _ _ _ _) as [[[? ?] ?] ?].
  cbn. discriminate.
Qed.

End OneAtom.

End InvarianceFacts.

(** The theorem at work: the polar hydrogen of the sample donor. *)
Lemma created_sites_translation_invariant_witness :
  SiteInvariance.translation_invariant
    (nth 0 (snd (WaterSites.agbnp3_create_ws_ofatom Samples.sample_consts
                   (Placements.source_placement WaterSites.mzero)
                   Samples.donor_hydrogen Samples.donor_hydrogen_conntbl 1
                   [WaterSites.WSat_zero; WaterSites.WSat_zero;
                    WaterSites.WSat_zero; WaterSites.WSat_zero]))
       WaterSites.WSat_zero).
Proof.
  apply (created_sites_translation_invariant Samples.sample_consts
           WaterSites.mzero Samples.donor_hydrogen
           Samples.donor_hydrogen_conntbl 1
           [WaterSites.WSat_zero; WaterSites.WSat_zero; WaterSites.WSat_zero;
            WaterSites.WSat_zero]).
  - simpl; lia.
  - repeat constructor.
  - unfold SiteInvariance.placements_defined. simpl.
    intros jat H. injection H as <-. unfold WaterSites.xyz, WaterSites.rd.
    simpl. intros E. injection E as E. lra.
  - vm_compute. lia.
Defined.

(** ** Array loops *)

Lemma length_upd_range {A : Type} (n : nat) (f : nat -> A -> A)
    (arr : list A) :
  length (upd_range n f arr) = length arr.
Proof.
  induction n as [|k IH]; simpl; auto.
  destruct (nth_error (upd_range k f arr) k); auto.
  rewrite set_nth_length. exact IH.
Qed.

Lemma nth_fill {A : Type} (n : nat) (f : nat -> A) (arr : list A) (d : A)
    (i : nat) :
  nth i (fill n f arr) d
  = if (i <? n)%nat && (i <? length arr)%nat then f i else nth i arr d.
Proof.
  unfold fill. induction n as [|k IH]; simpl.
  - reflexivity.
  - destruct (nth_error (upd_range k (fun j _ => f j) arr) k) as [old|] eqn:E.
    + assert (Hk : (k < length arr)%nat).
      { rewrite <- (length_upd_range k (fun j _ => f j) arr).
        apply nth_error_Some. congruence. }
      destruct (Nat.eq_dec i k) as [->|Hne].
      * rewrite nth_set_nth_same by (rewrite length_upd_range; exact Hk).
        replace (k <? S k)%nat with true by (symmetry; apply Nat.ltb_lt; lia).
        replace (k <? length arr)%nat with true
          by (symmetry; apply Nat.ltb_lt; lia).
        reflexivity.
      * rewrite nth_set_nth_other by auto. rewrite IH.
        destruct (i <? k)%nat eqn:E1, (i <? S k)%nat eqn:E2; auto.
        -- apply Nat.ltb_lt in E1. apply Nat.ltb_ge in E2. lia.
        -- apply Nat.ltb_ge in E1. apply Nat.ltb_lt in E2. lia.
    + assert (Hk : (length arr <= k)%nat).
      { rewrite <- (length_upd_range k (fun j _ => f j) arr).
        apply nth_error_None. exact E. }
      rewrite IH.
      destruct (i <? k)%nat eqn:E1, (i <? S k)%nat eqn:E2,
               (i <? length arr)%nat eqn:E3; auto;
        repeat match goal with
        | H : (_ <? _)%nat = true |- _ => apply Nat.ltb_lt in H
        | H : (_ <? _)%nat = false |- _ => apply Nat.ltb_ge in H
        end; lia.
Qed.

Lemma length_fill {A : Type} (n : nat) (f : nat -> A) (arr : list A) :
  length (fill n f arr) = length arr.
Proof. apply length_upd_range. Qed.

(** ** Water-site correction energy *)

Section CorrectionFacts.
Import WaterSites Correction.
#[local] Open Scope R_scope.
Variable xa xb : R.
Hypothesis Hab : xa < xb.

Lemma ws_correction_site_term (w : WSat) :
  let e := snd (ws_correction_site xa xb w) in
  Rmin (khb w) 0 <= e <= Rmax (khb w) 0 /\
  (sp w <= xa -> e = 0 /\ dhw (fst (ws_correction_site xa xb w)) = 0) /\
  (xb <= sp w -> e = khb w /\ dhw (fst (ws_correction_site xa xb w)) = 0).
Proof.
  unfold ws_correction_site. cbv zeta.
  pose proof (pol_switchfunc_range (sp w) xa xb Hab) as H.
  destruct (agbnp3_pol_switchfunc (sp w) xa xb) as [[s fp] fpp].
  cbn [fst snd set_dhw dhw] in *.
  destruct H as ((Hs0 & Hs1) & Hfp & Hlo & Hhi).
  split; [|split].
  - unfold Rmin, Rmax.
    destruct (Rle_dec (khb w) 0) as [Hk|Hk]; split; nra.
  - intros Hx. destruct (Hlo Hx) as [-> ->]. split; [ring|].
    unfold Rdiv. ring.
  - intros Hx. destruct (Hhi Hx) as [-> ->]. split; [ring|].
    unfold Rdiv. ring.
Qed.

Lemma ws_correction_loop_spec (ws : list WSat) :
  forall ce0,
    let ce := snd (ws_correction_loop xa xb ws ce0) in
    length (fst (ws_correction_loop xa xb ws ce0)) = length ws /\
    ce0 + khb_neg ws <= ce <= ce0 + khb_pos ws /\
    (Forall (fun w => sp w <= xa) ws -> ce = ce0) /\
    (Forall (fun w => xb <= sp w) ws -> ce = ce0 + khb_sum ws).
Proof.
  induction ws as [|w rest IH]; intros ce0; cbv zeta.
  - simpl. repeat split; auto; lra.
  - cbn [ws_correction_loop].
    destruct (ws_correction_site_term w) as (Hb & Hlo & Hhi).
    destruct (ws_correction_site xa xb w) as [w' e]. cbn [fst snd] in *.
    specialize (IH (ce0 + e)). cbv zeta in IH.
    destruct (ws_correction_loop xa xb rest (ce0 + e)) as [rest' ce].
    cbn [fst snd length khb_neg khb_pos khb_sum fold_right] in *.
    fold (khb_neg rest) (khb_pos rest) (khb_sum rest).
    destruct IH as (IL & IB & ILo & IHi).
    split; [lia|]. split; [lra|]. split.
    + intros HF. inversion HF as [|? ? Hw Hr]; subst.
      destruct (Hlo Hw) as [He _]. rewrite (ILo Hr). lra.
    + intros HF. inversion HF as [|? ? Hw Hr]; subst.
      destruct (Hhi Hw) as [He _]. rewrite (IHi Hr). lra.
Qed.

(** X25. [agbnp3_ws_correction] with switching thresholds [xa < xb]: the call
    returns [AGBNP_OK] and keeps the number of sites; the energy lies
    between the sum of the negative and the sum of the positive
    coefficients [khb] of the sites; it is 0 when every site is buried
    ([sp <= xa]) and the plain sum of the coefficients when every site is
    free ([sp >= xb]). *)
Theorem ws_correction_bounds (nwsat : Z) (wsat : list WSat) :
  let res := agbnp3_ws_correction xa xb nwsat wsat in
  let ws := firstn (Z.to_nat nwsat) wsat in
  let ce := snd res in
  fst (fst res) = AGBNP_OK /\
  length (snd (fst res)) = length wsat /\
  khb_neg ws <= ce <= khb_pos ws /\
  (Forall (fun w => sp w <= xa) ws -> ce = 0) /\
  (Forall (fun w => xb <= sp w) ws -> ce = khb_sum ws).
Proof.
  intros res ws ce. subst res ce. unfold agbnp3_ws_correction.
  fold ws.
  pose proof (ws_correction_loop_spec ws 0) as H. cbv zeta in H.
  destruct (ws_correction_loop xa xb ws 0) as [ws' ce].
  cbn [fst snd] in *. destruct H as (HL & HB & HLo & HHi).
  split; [reflexivity|]. split.
  - rewrite length_app, HL. unfold ws.
    rewrite <- length_app, firstn_skipn. reflexivity.
  - split; [lra|]. split.
    + intros HF. rewrite (HLo HF). reflexivity.
    + intros HF. rewrite (HHi HF). ring.
Qed.

End CorrectionFacts.

(** The theorem at work on the sample site, with thresholds 0.15 and
    0.5. *)
Lemma ws_correction_bounds_witness :
  let res := Correction.agbnp3_ws_correction 0.15 0.5 1 [Samples.sample_site]
  in
  let ws := firstn (Z.to_nat 1) [Samples.sample_site] in
  let ce := snd res in
  fst (fst res) = AGBNP_OK /\
  length (snd (fst res)) = length [Samples.sample_site] /\
  (Correction.khb_neg ws <= ce <= Correction.khb_pos ws)%R /\
  (Forall (fun w => (WaterSites.sp w <= 0.15)%R) ws -> ce = 0%R) /\
  (Forall (fun w => (0.5 <= WaterSites.sp w)%R) ws
   -> ce = Correction.khb_sum ws).
Proof.
  apply (ws_correction_bounds 0.15 0.5); lra.
Defined.

(** ** Volume scaling factors *)

Section ScalingFacts.
Import WaterSites Filters Scaling.
#[local] Open Scope R_scope.
Variable Rw : R.

Lemma subtended_nonneg (riat : R) :
  0 <= Rw <= riat -> 0 < riat -> 0 <= subtended Rw riat.
Proof.
  intros HR Hr. unfold subtended. cbv zeta.
  set (q := (riat - Rw) / riat).
  assert (Hq : 0 <= q <= 1).
  { unfold q. split.
    - unfold Rdiv. apply Rmult_le_pos; [lra|].
      left. apply Rinv_0_lt_compat. exact Hr.
    - apply (Rmult_le_reg_r riat); [exact Hr|].
      unfold Rdiv. rewrite Rmult_assoc, Rinv_l by lra. lra. }
  assert (Hq3 : q ^ 3 <= 1).
  { simpl. assert (0 <= q * q <= 1) by nra. nra. }
  unfold Rdiv. apply Rmult_le_pos; [|lra].
  apply Rmult_le_pos; lra.
Qed.

(** X26. [agbnp3_scaling_factors] on arrays that hold [natoms] entries: the
    call returns [AGBNP_OK]; the filtered surface area it stores in
    [agb->surf_area] and in [surf_area_f] is never negative, and is 0 for
    the hydrogens (the atoms from [nheavyat] on); for a heavy atom of
    positive volume whose radius is at least the radius increment, the
    scaled volume [sp] is at most the scaled volume [spe] computed before
    the volume subtended by the surface is subtracted. *)
Theorem scaling_factors_areas (natoms nheavyat : Z) (r : list R)
    (a : sf_arrays) (i : nat) :
  (0 <= nheavyat <= natoms)%Z ->
  length (agb_surf_area a) = Z.to_nat natoms ->
  length (surf_area_f a) = Z.to_nat natoms ->
  length (volumep a) = Z.to_nat natoms ->
  length (sp_ a) = Z.to_nat natoms ->
  length (spe a) = Z.to_nat natoms ->
  (i < Z.to_nat natoms)%nat ->
  let res := agbnp3_scaling_factors Rw natoms nheavyat r a in
  let a' := snd res in
  fst res = AGBNP_OK /\
  0 <= nth i (agb_surf_area a') 0 /\
  nth i (surf_area_f a') 0 = nth i (agb_surf_area a') 0 /\
  ((Z.to_nat nheavyat <= i)%nat -> nth i (agb_surf_area a') 0 = 0) /\
  ((i < Z.to_nat nheavyat)%nat ->
   0 < nth i (vols a) 0 -> 0 <= Rw <= nth i r 0 -> 0 < nth i r 0 ->
   nth i (sp_ a') 0 <= nth i (spe a') 0).
Proof.
  intros Hn L1 L2 L3 L4 L5 Hi res a'. subst a' res.
  unfold agbnp3_scaling_factors. cbv zeta.
  cbn [fst snd agb_surf_area surf_area_f sp_ spe].
  set (n := Z.to_nat natoms) in *. set (nh := Z.to_nat nheavyat) in *.
  assert (Hnh : (nh <= n)%nat) by (unfold nh, n; lia).
  pose proof (swf_area_range (nth i (surf_area a) 0)) as HA.
  cbv zeta in HA. destruct HA as (_ & _ & _ & HA & _).
  split; [reflexivity|].
  rewrite !nth_fill, !length_fill, L1, L2, L3, L4, L5.
  assert (Ein : (i <? n)%nat = true) by (apply Nat.ltb_lt; exact Hi).
  rewrite !Ein.
  destruct (i <? nh)%nat eqn:Eh; cbn [andb].
  - apply Nat.ltb_lt in Eh.
    split; [exact HA|]. split; [reflexivity|]. split; [intros; lia|].
    intros _ Hv HR Hr.
    rewrite ?nth_fill, ?length_fill, ?L1.
    replace (i <? nh)%nat with true by (symmetry; apply Nat.ltb_lt; lia).
    rewrite ?Ein. cbn [andb].
    pose proof (subtended_nonneg (nth i r 0) HR Hr) as Hs.
    set (us := subtended Rw (nth i r 0)) in *.
    set (af := nth i (surf_area a) 0
               * fst (agbnp3_swf_area (nth i (surf_area a) 0))) in *.
    assert (Hp : 0 <= af * us) by (apply Rmult_le_pos; assumption).
    unfold Rdiv. apply Rmult_le_compat_r; [|lra].
    left. apply Rinv_0_lt_compat. exact Hv.
  - apply Nat.ltb_ge in Eh.
    split; [lra|]. split; [reflexivity|]. split; [reflexivity|].
    intros; lia.
Qed.

End ScalingFacts.

(** The theorem at work for one heavy atom and one hydrogen. *)
Lemma scaling_factors_areas_witness :
  (let a := Scaling.mkSf [9; 9] [-4; 7] [9; 9] [1; 1] [0; 0] [30; 0] [40; 1]
              [0; 0] [0; 0] [0; 0] in
   let res := Scaling.agbnp3_scaling_factors 0.5 2 1 [2; 1] a in
   let a' := snd res in
   fst res = AGBNP_OK /\
   0 <= nth 0 (Scaling.agb_surf_area a') 0 /\
   nth 0 (Scaling.surf_area_f a') 0 = nth 0 (Scaling.agb_surf_area a') 0 /\
   ((Z.to_nat 1 <= 0)%nat -> nth 0 (Scaling.agb_surf_area a') 0 = 0) /\
   ((0 < Z.to_nat 1)%nat ->
    0 < nth 0 (Scaling.vols a) 0 -> 0 <= 0.5 <= nth 0 [2; 1] 0 ->
    0 < nth 0 [2; 1] 0 ->
    nth 0 (Scaling.sp_ a') 0 <= nth 0 (Scaling.spe a') 0))%R.
Proof.
  apply (scaling_factors_areas 0.5 2 1 [2; 1]%R
           (Scaling.mkSf [9; 9] [-4; 7] [9; 9] [1; 1] [0; 0] [30; 0] [40; 1]
              [0; 0] [0; 0] [0; 0])%R 0);
    try reflexivity; simpl; lia.
Defined.

(** ** The radius types *)

Section RadiusFacts.
Import WaterSites RadiusTypes.
#[local] Open Scope R_scope.

Lemma radius_found_spec (riat : R) (radius : list R) :
  radius_found riat radius = true
  <-> exists t, In t radius /\ Rabs (riat - t) < FLT_MIN.
Proof.
  unfold radius_found. rewrite existsb_exists. unfold same_radius.
  split; intros (t & Hin & Ht); exists t; split; auto.
  - destruct (Rlt_dec (Rabs (riat - t)) FLT_MIN); [auto|discriminate].
  - destruct (Rlt_dec (Rabs (riat - t)) FLT_MIN); [auto|contradiction].
Qed.

Lemma ForallOrdPairs_snoc {A : Type} (Q : A -> A -> Prop) (l : list A)
    (x : A) :
  ForallOrdPairs Q l -> Forall (fun a => Q a x) l ->
  ForallOrdPairs Q (l ++ [x]).
Proof.
  induction 1 as [|a l Ha Hl IH]; intros Hx; simpl.
  - constructor; constructor.
  - inversion Hx as [|? ? Hax Hlx]; subst. constructor.
    + apply Forall_app. split; auto.
    + apply IH. exact Hlx.
Qed.

(** The loop over the atoms, from any list of radii found so far. *)
Lemma radius_loop_spec (rs : list R) :
  forall acc : list R,
    let out := fold_left radius_step rs acc in
    (length out <= length acc + length rs)%nat /\
    (forall t, In t acc -> In t out) /\
    (forall x, In x rs -> exists t, In t out /\ Rabs (x - t) < FLT_MIN) /\
    (forall t, In t out -> In t acc \/ In t rs) /\
    (ForallOrdPairs (fun a b => FLT_MIN <= Rabs (b - a)) acc ->
     ForallOrdPairs (fun a b => FLT_MIN <= Rabs (b - a)) out).
Proof.
  induction rs as [|x rest IH]; intros acc; cbv zeta.
  - simpl. repeat split; auto; try lia; intros x [].
  - cbn [fold_left]. specialize (IH (radius_step acc x)). cbv zeta in IH.
    destruct IH as (IL & IK & IC & IS & IP).
    assert (Hstep : (length (radius_step acc x) <= S (length acc))%nat /\
                    (forall t, In t acc -> In t (radius_step acc x)) /\
                    (exists t, In t (radius_step acc x) /\
                               Rabs (x - t) < FLT_MIN) /\
                    (forall t, In t (radius_step acc x) -> In t acc \/ t = x) /\
                    (ForallOrdPairs (fun a b => FLT_MIN <= Rabs (b - a)) acc ->
                     ForallOrdPairs (fun a b => FLT_MIN <= Rabs (b - a))
                       (radius_step acc x))).
    { unfold radius_step. destruct (radius_found x acc) eqn:E.
      - apply radius_found_spec in E. repeat split; auto.
      - repeat split.
        + rewrite length_app. simpl. lia.
        + intros t Ht. apply in_or_app. auto.
        + exists x. split; [apply in_or_app; right; left; reflexivity|].
          replace (x - x) with 0 by ring. rewrite Rabs_R0.
          unfold FLT_MIN. apply Rinv_0_lt_compat. apply pow_lt. lra.
        + intros t Ht. apply in_app_or in Ht.
          destruct Ht as [Ht|[Ht|[]]]; auto.
        + intros HP. apply ForallOrdPairs_snoc; [exact HP|].
          apply Forall_forall. intros t Ht.
          destruct (Rle_dec FLT_MIN (Rabs (x - t))) as [Hle|Hgt]; [exact Hle|].
          exfalso. assert (radius_found x acc = true); [|congruence].
          apply radius_found_spec. exists t. split; [exact Ht|lra]. }
    destruct Hstep as (SL & SK & SC & SS & SP).
    split; [simpl; lia|]. split; [auto|]. split; [|split].
    + intros y [<-|Hy]; [|auto].
      destruct SC as (t & Ht & Hd). exists t. split; auto.
    + intros t Ht. destruct (IS t Ht) as [H|H]; [|right; right; exact H].
      destruct (SS t H) as [H'| ->]; [left; exact H'|right; left; reflexivity].
    + intros HP. auto.
Qed.

(** X27. [agbnp3_list_radius_types]: the count it returns is the number of
    radii listed and is at most [natoms]; every atom has a listed radius
    within [FLT_MIN] of its own; every listed radius is the radius of some
    atom; and two listed radii are never within [FLT_MIN] of each other. *)
Theorem list_radius_types_spec (natoms : Z) (r : list R) :
  let ntypes := fst (agbnp3_list_radius_types natoms r) in
  let radii := snd (agbnp3_list_radius_types natoms r) in
  ntypes = Z.of_nat (length radii) /\
  (ntypes <= Z.max natoms 0)%Z /\
  (forall iat, (0 <= iat < natoms)%Z ->
     exists t, In t radii /\ Rabs (rd r iat - t) < FLT_MIN) /\
  (forall t, In t radii -> exists iat, (0 <= iat < natoms)%Z /\ rd r iat = t) /\
  ForallOrdPairs (fun a b => FLT_MIN <= Rabs (b - a)) radii.
Proof.
  intros ntypes radii. subst ntypes radii. unfold agbnp3_list_radius_types.
  cbv zeta. cbn [fst snd].
  destruct (radius_loop_spec (map (rd r) (atom_range natoms)) [])
    as (HL & _ & HC & HS & HP).
  cbv zeta in *. rewrite length_map, atom_range_length in HL. simpl in HL.
  split; [reflexivity|]. split; [lia|]. split; [|split].
  - intros iat Hi. apply HC. apply in_map. apply atom_range_spec. exact Hi.
  - intros t Ht. destruct (HS t Ht) as [[]|Hin].
    apply in_map_iff in Hin. destruct Hin as (iat & <- & Hin).
    exists iat. split; [|reflexivity]. apply atom_range_spec. exact Hin.
  - apply HP. constructor.
Qed.

End RadiusFacts.

(** ** The comparison function of the index sort *)

Section CompareFacts.
Import WaterSites NeighborLists.
#[local] Open Scope Z_scope.

(** X28. [agbnp3_fcompare] is a consistent comparison for [qsort]: it returns
    -1, 0 or 1, swapping the arguments negates the result, it returns 0
    only for one and the same index (ties between equal values are broken
    by the index), and it is transitive.  The order of the sorted index
    array is therefore unique. *)
Theorem fcompare_consistent (val : list R) (i j k : Z) :
  In (agbnp3_fcompare val i j) [-1; 0; 1] /\
  agbnp3_fcompare val i j = - agbnp3_fcompare val j i /\
  (agbnp3_fcompare val i j = 0 <-> i = j) /\
  (agbnp3_fcompare val i j <= 0 -> agbnp3_fcompare val j k <= 0 ->
   agbnp3_fcompare val i k <= 0).
Proof.
  split; [|split; [|split]].
  - unfold agbnp3_fcompare.
    destruct (Rlt_dec _ _); [simpl; auto|].
    destruct (Rgt_dec _ _); [simpl; auto|].
    destruct (i <? j); [simpl; auto|].
    destruct (i >? j); simpl; auto.
  - unfold agbnp3_fcompare.
    destruct (Rlt_dec (rd val i) (rd val j)) as [H1|H1];
      destruct (Rlt_dec (rd val j) (rd val i)) as [H2|H2];
      destruct (Rgt_dec (rd val i) (rd val j)) as [H3|H3];
      destruct (Rgt_dec (rd val j) (rd val i)) as [H4|H4];
      try reflexivity; try (exfalso; unfold Rgt in *; lra).
    rewrite !Z.gtb_ltb.
    destruct (i <? j) eqn:E1, (j <? i) eqn:E2; try reflexivity.
    apply Z.ltb_lt in E1. apply Z.ltb_lt in E2. lia.
  - unfold agbnp3_fcompare. split.
    + destruct (Rlt_dec _ _); [discriminate|].
      destruct (Rgt_dec _ _); [discriminate|].
      rewrite Z.gtb_ltb.
      destruct (i <? j) eqn:E1; [discriminate|].
      destruct (j <? i) eqn:E2; [discriminate|].
      intros _. apply Z.ltb_ge in E1. apply Z.ltb_ge in E2. lia.
    + intros ->.
      destruct (Rlt_dec _ _) as [H|H]; [lra|].
      destruct (Rgt_dec _ _) as [H'|H']; [unfold Rgt in H'; lra|].
      rewrite Z.gtb_ltb, Z.ltb_irrefl. reflexivity.
  - rewrite !fcompare_le_iff. apply key_le_trans.
Qed.

End CompareFacts.

(** ** Hydrogens last *)

Section ReorderFacts.
Import WaterSites Reorder.
#[local] Open Scope Z_scope.

Lemma mark_fold (n : nat) (hs : list Z) :
  forall acc : list Z,
    length acc = n ->
    (forall h, In h hs -> 0 <= h < Z.of_nat n) ->
    let res := fold_left (fun ish ih => set_nth (Z.to_nat ih) 1 ish) hs acc in
    length res = n /\
    forall j, (j < n)%nat ->
      (In (Z.of_nat j) hs -> nth j res 0 = 1) /\
      (~ In (Z.of_nat j) hs -> nth j res 0 = nth j acc 0).
Proof.
  induction hs as [|a hs IH]; intros acc Hl Hr; cbv zeta.
  - simpl. split; [exact Hl|]. intros j Hj. split; [intros []|auto].
  - cbn [fold_left].
    assert (Ha : 0 <= a < Z.of_nat n) by (apply Hr; left; reflexivity).
    destruct (IH (set_nth (Z.to_nat a) 1 acc)) as (IL & IJ).
    { rewrite set_nth_length. exact Hl. }
    { intros h Hh. apply Hr. right. exact Hh. }
    split; [exact IL|]. intros j Hj. destruct (IJ j Hj) as [I1 I2].
    destruct (in_dec Z.eq_dec (Z.of_nat j) hs) as [Hin|Hnin].
    + split; [intros _; apply I1; exact Hin|].
      intros Hn. exfalso. apply Hn. right. exact Hin.
    + split.
      * intros [Heq|Hin]; [|contradiction].
        rewrite (I2 Hnin). subst a. rewrite Nat2Z.id.
        apply nth_set_nth_same. lia.
      * intros Hn. rewrite (I2 Hnin). apply nth_set_nth_other.
        intros Heq. apply Hn. left. lia.
Qed.

Lemma count_h_S (ish : list Z) (m : nat) :
  count_h ish (S m) = (count_h ish m + if isH ish m then 1 else 0)%nat.
Proof.
  unfold count_h. rewrite seq_S, filter_app, length_app. simpl.
  destruct (isH ish m); reflexivity.
Qed.

Lemma count_c_S (ish : list Z) (m : nat) :
  count_c ish (S m) = (count_c ish m + if isH ish m then 0 else 1)%nat.
Proof.
  unfold count_c. rewrite seq_S, filter_app, length_app. simpl.
  destruct (isH ish m); reflexivity.
Qed.

Lemma count_split (ish : list Z) (m : nat) :
  (count_h ish m + count_c ish m = m)%nat.
Proof.
  induction m as [|m IH]; [reflexivity|].
  rewrite count_h_S, count_c_S. destruct (isH ish m); lia.
Qed.

Lemma count_mono (ish : list Z) (m m' : nat) :
  (m <= m')%nat ->
  (count_h ish m <= count_h ish m')%nat /\
  (count_c ish m <= count_c ish m')%nat.
Proof.
  induction 1 as [|k Hk IH]; [lia|].
  rewrite count_h_S, count_c_S. destruct (isH ish k); lia.
Qed.

Section Marked.
Variables (natoms nhydrogen : Z) (ihydrogen : list Z).
Hypothesis Hcount : 0 <= nhydrogen <= natoms.
Hypothesis Hlen : (Z.to_nat nhydrogen <= length ihydrogen)%nat.
Hypothesis Hnodup : NoDup (firstn (Z.to_nat nhydrogen) ihydrogen).
Hypothesis Hrange :
  forall h, In h (firstn (Z.to_nat nhydrogen) ihydrogen) -> 0 <= h < natoms.

Lemma isH_spec (j : nat) :
  (j < Z.to_nat natoms)%nat ->
  isH (mark_hydrogens natoms nhydrogen ihydrogen) j = true
  <-> In (Z.of_nat j) (firstn (Z.to_nat nhydrogen) ihydrogen).
Proof.
  intros Hj. unfold isH, mark_hydrogens, zd. rewrite Nat2Z.id.
  destruct (mark_fold (Z.to_nat natoms)
              (firstn (Z.to_nat nhydrogen) ihydrogen)
              (repeat 0 (Z.to_nat natoms))) as (_ & HJ).
  { apply repeat_length. }
  { intros h Hh. pose proof (Hrange h Hh) as Hhr. lia. }
  destruct (HJ j Hj) as [H1 H2].
  destruct (in_dec Z.eq_dec (Z.of_nat j)
              (firstn (Z.to_nat nhydrogen) ihydrogen)) as [Hin|Hnin].
  - rewrite (H1 Hin). simpl. split; auto.
  - rewrite (H2 Hnin), nth_repeat. simpl. split; [discriminate|contradiction].
Qed.

Lemma count_h_total :
  count_h (mark_hydrogens natoms nhydrogen ihydrogen) (Z.to_nat natoms)
  = Z.to_nat nhydrogen.
Proof.
  unfold count_h.
  set (ish := mark_hydrogens natoms nhydrogen ihydrogen).
  set (F := filter (isH ish) (seq 0 (Z.to_nat natoms))).
  assert (HP : Permutation (map Z.of_nat F)
                 (firstn (Z.to_nat nhydrogen) ihydrogen)).
  { apply NoDup_Permutation.
    - apply Finite.Injective_map_NoDup; [intros a b H; lia|].
      apply NoDup_filter, seq_NoDup.
    - exact Hnodup.
    - intros x. rewrite in_map_iff. split.
      + intros (j & <- & Hj). unfold F in Hj. apply filter_In in Hj.
        destruct Hj as [Hj HH]. apply in_seq in Hj.
        apply isH_spec; [lia|exact HH].
      + intros Hx. pose proof (Hrange x Hx) as Hxr.
        exists (Z.to_nat x). split; [lia|].
        unfold F. apply filter_In. split; [apply in_seq; lia|].
        apply isH_spec; [lia|]. rewrite Z2Nat.id by lia. exact Hx. }
  apply Permutation_length in HP. rewrite length_map in HP. rewrite HP.
  rewrite length_firstn. lia.
Qed.

(** One round of the last loop keeps the invariant. *)
Lemma reorder_step_inv (m : nat) (st : reorder_state) :
  let ish := mark_hydrogens natoms nhydrogen ihydrogen in
  let n := Z.to_nat natoms in
  let nheavy := natoms - nhydrogen in
  (m < n)%nat ->
  reorder_inv n nheavy ish m st ->
  reorder_inv n nheavy ish (S m) (reorder_step nheavy ish st (Z.of_nat m)).
Proof.
  intros ish n nheavy Hm (L1 & L2 & Hnc & Hnh & Hseen).
  pose proof count_h_total as HT. fold ish n in HT.
  pose proof (count_split ish n) as HS.
  pose proof (count_split ish m) as HSm.
  destruct (count_mono ish (S m) n ltac:(lia)) as [M1 M2].
  rewrite count_h_S in M1. rewrite count_c_S in M2.
  assert (Hheavy : nheavy = Z.of_nat (count_c ish n)) by (unfold nheavy; lia).
  unfold reorder_step. fold (isH ish m).
  destruct (isH ish m) eqn:EH; unfold reorder_inv;
    cbn [int2ext ext2int nc nh]; rewrite !set_nth_length,
      count_h_S, count_c_S, EH.
  - split; [exact L1|]. split; [exact L2|]. split; [lia|]. split; [lia|].
    intros j Hj. cbv zeta.
    destruct (Nat.eq_dec j m) as [->|Hne].
    + rewrite Nat2Z.id. rewrite nth_set_nth_same by lia. rewrite EH.
      split; [lia|]. apply nth_set_nth_same. lia.
    + rewrite Nat2Z.id. rewrite (nth_set_nth_other m j) by lia.
      destruct (Hseen j ltac:(lia)) as [Hr Hb]. cbv zeta in Hr, Hb.
      split.
      * destruct (isH ish j); lia.
      * rewrite nth_set_nth_other; [exact Hb|].
        destruct (isH ish j); lia.
  - split; [exact L1|]. split; [exact L2|]. split; [lia|]. split; [lia|].
    intros j Hj. cbv zeta.
    destruct (Nat.eq_dec j m) as [->|Hne].
    + rewrite Nat2Z.id. rewrite nth_set_nth_same by lia. rewrite EH.
      split; [lia|]. apply nth_set_nth_same. lia.
    + rewrite Nat2Z.id. rewrite (nth_set_nth_other m j) by lia.
      destruct (Hseen j ltac:(lia)) as [Hr Hb]. cbv zeta in Hr, Hb.
      split.
      * destruct (isH ish j); lia.
      * rewrite nth_set_nth_other; [exact Hb|].
        destruct (isH ish j); lia.
Qed.

Lemma reorder_loop_inv (st0 : reorder_state) (m : nat) :
  let ish := mark_hydrogens natoms nhydrogen ihydrogen in
  let n := Z.to_nat natoms in
  let nheavy := natoms - nhydrogen in
  (m <= n)%nat ->
  reorder_inv n nheavy ish 0 st0 ->
  reorder_inv n nheavy ish m
    (fold_left (reorder_step nheavy ish) (map Z.of_nat (seq 0 m)) st0).
Proof.
  intros ish n nheavy. induction m as [|m IH]; intros Hm H0.
  - exact H0.
  - rewrite seq_S, map_app, fold_left_app. cbn [map fold_left Nat.add].
    apply reorder_step_inv; [lia|]. apply IH; [lia|exact H0].
Qed.

End Marked.

(** The maps [agbnp3_atom_reorder] leaves behind. *)
Lemma atom_reorder_maps (natoms nhydrogen : Z)
    (ihydrogen int2ext0 ext2int0 : list Z) (i : Z) :
  0 <= nhydrogen <= natoms ->
  (Z.to_nat nhydrogen <= length ihydrogen)%nat ->
  NoDup (firstn (Z.to_nat nhydrogen) ihydrogen) ->
  (forall h, In h (firstn (Z.to_nat nhydrogen) ihydrogen) ->
             0 <= h < natoms) ->
  length int2ext0 = Z.to_nat natoms ->
  length ext2int0 = Z.to_nat natoms ->
  0 <= i < natoms ->
  let res := agbnp3_atom_reorder natoms nhydrogen ihydrogen int2ext0
               ext2int0 in
  let i2e := snd (fst res) in
  let e2i := snd res in
  fst (fst res) = AGBNP_OK /\
  0 <= zd e2i i < natoms /\ 0 <= zd i2e i < natoms /\
  zd i2e (zd e2i i) = i /\ zd e2i (zd i2e i) = i /\
  (In i (firstn (Z.to_nat nhydrogen) ihydrogen)
   <-> natoms - nhydrogen <= zd e2i i).
Proof.
  intros Hc Hl Hnd Hr L1 L2 Hi res i2e e2i. subst i2e e2i res.
  unfold agbnp3_atom_reorder. cbv zeta. cbn [fst snd].
  set (ish := mark_hydrogens natoms nhydrogen ihydrogen).
  set (n := Z.to_nat natoms). set (nheavy := natoms - nhydrogen).
  set (st0 := mkReorder _ _ 0 0).
  assert (H0 : reorder_inv n nheavy ish 0 st0).
  { unfold reorder_inv, st0. cbn [int2ext ext2int nc nh].
    rewrite !length_fill. split; [exact L1|]. split; [exact L2|].
    split; [reflexivity|]. split; [reflexivity|]. intros j Hj. lia. }
  pose proof (reorder_loop_inv natoms nhydrogen ihydrogen Hc Hl Hnd Hr
                st0 n (le_n _) H0) as HI.
  cbv zeta in HI. fold ish n nheavy in HI.
  unfold atom_range. fold n.
  set (st := fold_left (reorder_step nheavy ish) (map Z.of_nat (seq 0 n)) st0)
    in *.
  destruct HI as (LI & LE & Hnc & Hnh & Hseen).
  pose proof (count_h_total natoms nhydrogen ihydrogen Hc Hl Hnd Hr) as HT.
  fold ish n in HT.
  pose proof (count_split ish n) as HS.
  assert (Hall : forall j, (j < n)%nat ->
            0 <= nth j (ext2int st) 0 < natoms /\
            nth (Z.to_nat (nth j (ext2int st) 0)) (int2ext st) 0 = Z.of_nat j /\
            (isH ish j = true <-> nheavy <= nth j (ext2int st) 0)).
  { intros j Hj. destruct (Hseen j Hj) as [Hb Hinv]. cbv zeta in Hb, Hinv.
    split; [|split; [exact Hinv|]].
    - destruct (isH ish j); unfold nheavy, n in *; lia.
    - destruct (isH ish j); unfold nheavy, n in *; split; auto;
        try discriminate; lia. }
  (* every internal index is taken *)
  set (E := map (fun j => nth j (ext2int st) 0) (seq 0 n)).
  assert (HE : NoDup E).
  { unfold E. apply NoDup_map_NoDup_ForallPairs; [|apply seq_NoDup].
    intros a b Ha Hb Heq. apply in_seq in Ha. apply in_seq in Hb.
    destruct (Hall a ltac:(lia)) as (_ & Ia & _).
    destruct (Hall b ltac:(lia)) as (_ & Ib & _).
    rewrite Heq in Ia. rewrite Ia in Ib. lia. }
  assert (Hsurj : incl (map Z.of_nat (seq 0 n)) E).
  { apply NoDup_length_incl; [exact HE| |].
    - unfold E. rewrite !length_map. lia.
    - intros x Hx. unfold E in Hx. apply in_map_iff in Hx.
      destruct Hx as (j & <- & Hj). apply in_seq in Hj.
      destruct (Hall j ltac:(lia)) as (Hb & _).
      apply in_map_iff. exists (Z.to_nat (nth j (ext2int st) 0)).
      split; [lia|]. apply in_seq. unfold n. lia. }
  assert (Hi' : (Z.to_nat i < n)%nat) by (unfold n; lia).
  destruct (Hall (Z.to_nat i) Hi') as (Hb & Hinv & HH).
  assert (Hpre : In i E).
  { apply Hsurj. apply in_map_iff. exists (Z.to_nat i).
    split; [lia|]. apply in_seq. lia. }
  unfold E in Hpre. apply in_map_iff in Hpre.
  destruct Hpre as (j & Hji & Hj). apply in_seq in Hj.
  destruct (Hall j ltac:(lia)) as (Hbj & Hinvj & _).
  unfold zd. rewrite Z2Nat.id in Hinv by lia.
  assert (Ei : nth (Z.to_nat i) (int2ext st) 0 = Z.of_nat j).
  { rewrite <- Hji. exact Hinvj. }
  split; [reflexivity|]. split; [exact Hb|]. split; [rewrite Ei; lia|].
  split; [exact Hinv|]. split.
  - rewrite Ei, Nat2Z.id. exact Hji.
  - rewrite <- HH.
    assert (HSp : isH ish (Z.to_nat i) = true
                  <-> In (Z.of_nat (Z.to_nat i))
                         (firstn (Z.to_nat nhydrogen) ihydrogen))
      by (apply isH_spec; assumption).
    rewrite HSp, Z2Nat.id by lia. reflexivity.
Qed.

(** X29. [agbnp3_atom_reorder], for [nhydrogen] distinct hydrogen indices in
    range and arrays of [natoms] entries: the two maps are inverse
    bijections of the atom indices, and the internal index of an atom is
    in the last [nhydrogen] places exactly when the atom is one of the
    hydrogens. *)
Theorem atom_reorder_bijection (natoms nhydrogen : Z)
    (ihydrogen int2ext0 ext2int0 : list Z) (i : Z) :
  0 <= nhydrogen <= natoms ->
  (Z.to_nat nhydrogen <= length ihydrogen)%nat ->
  NoDup (firstn (Z.to_nat nhydrogen) ihydrogen) ->
  (forall h, In h (firstn (Z.to_nat nhydrogen) ihydrogen) ->
             0 <= h < natoms) ->
  length int2ext0 = Z.to_nat natoms ->
  length ext2int0 = Z.to_nat natoms ->
  0 <= i < natoms ->
  let res := agbnp3_atom_reorder natoms nhydrogen ihydrogen int2ext0
               ext2int0 in
  let i2e := snd (fst res) in
  let e2i := snd res in
  fst (fst res) = AGBNP_OK /\
  0 <= zd e2i i < natoms /\ 0 <= zd i2e i < natoms /\
  zd i2e (zd e2i i) = i /\ zd e2i (zd i2e i) = i /\
  (In i (firstn (Z.to_nat nhydrogen) ihydrogen)
   <-> natoms - nhydrogen <= zd e2i i).
Proof. apply atom_reorder_maps. Qed.

End ReorderFacts.

(** The theorem at work: four atoms, atoms 1 and 2 hydrogens. *)
Lemma atom_reorder_bijection_witness :
  let res := Reorder.agbnp3_atom_reorder 4 2 [2; 1]%Z [0; 0; 0; 0]%Z
               [0; 0; 0; 0]%Z in
  let i2e := snd (fst res) in
  let e2i := snd res in
  fst (fst res) = AGBNP_OK /\
  (0 <= WaterSites.zd e2i 3 < 4)%Z /\ (0 <= WaterSites.zd i2e 3 < 4)%Z /\
  WaterSites.zd i2e (WaterSites.zd e2i 3) = 3%Z /\
  WaterSites.zd e2i (WaterSites.zd i2e 3) = 3%Z /\
  (In 3%Z (firstn (Z.to_nat 2) [2; 1]%Z)
   <-> (4 - 2 <= WaterSites.zd e2i 3)%Z).
Proof.
  apply (atom_reorder_bijection 4 2 [2; 1]%Z [0; 0; 0; 0]%Z [0; 0; 0; 0]%Z 3).
  - lia.
  - simpl; lia.
  - simpl. repeat constructor; simpl; intuition lia.
  - simpl. intros h [<-|[<-|[]]]; lia.
  - reflexivity.
  - reflexivity.
  - lia.
Defined.

(** ** The pair integral and its table *)

Section I4Facts.
Import Spline SplineSetup I4.
#[local] Open Scope R_scope.

(** The formula of the branch for separated spheres and its derivative. *)
Lemma i4_separated_derivative (rij Rj : R) :
  0 < Rj -> Rj < rij ->
  derivable_pt_lim
    (fun r => 2 * PI * (Rj / ((r + Rj) * (r - Rj))
                        - 0.5 * ln ((r + Rj) / (r - Rj)) / r)) rij
    (2 * PI * ((Rj / (rij * ((rij + Rj) * (rij - Rj))))
               * (1 - 2 * (rij * rij) / ((rij + Rj) * (rij - Rj)))
               + 0.5 * ln ((rij + Rj) / (rij - Rj)) / (rij * rij))).
Proof.
  intros HRj Hr.
  set (U1 := (id + fct_cte Rj)%F). set (U2 := (id - fct_cte Rj)%F).
  assert (D1 : derivable_pt_lim U1 rij (1 + 0)).
  { apply derivable_pt_lim_plus;
      [apply derivable_pt_lim_id | apply derivable_pt_lim_const]. }
  assert (D2 : derivable_pt_lim U2 rij (1 - 0)).
  { apply derivable_pt_lim_minus;
      [apply derivable_pt_lim_id | apply derivable_pt_lim_const]. }
  assert (V1 : U1 rij = rij + Rj) by reflexivity.
  assert (V2 : U2 rij = rij - Rj) by reflexivity.
  (* u3 = u1*u2 *)
  pose proof (derivable_pt_lim_mult U1 U2 rij _ _ D1 D2) as D3.
  (* Rj/u3 *)
  pose proof (derivable_pt_lim_div (fct_cte Rj) (U1 * U2)%F rij _ _
                (derivable_pt_lim_const Rj rij) D3) as D4.
  assert (N3 : (U1 * U2)%F rij <> 0).
  { unfold mult_fct. rewrite V1, V2.
    apply Rmult_integral_contrapositive_currified; lra. }
  specialize (D4 N3).
  (* u1/u2 and its logarithm *)
  assert (N2 : U2 rij <> 0) by (rewrite V2; lra).
  pose proof (derivable_pt_lim_div U1 U2 rij _ _ D1 D2 N2) as D5.
  assert (P5 : 0 < (U1 / U2)%F rij).
  { unfold div_fct. rewrite V1, V2. apply Rdiv_lt_0_compat; lra. }
  pose proof (derivable_pt_lim_comp (U1 / U2)%F ln rij _ _ D5
                (derivable_pt_lim_ln _ P5)) as D6.
  (* 0.5*log(u1/u2)/rij *)
  pose proof (derivable_pt_lim_mult (fct_cte 0.5) (comp ln (U1 / U2)%F) rij
                _ _ (derivable_pt_lim_const 0.5 rij) D6) as D7.
  assert (Nr : id rij <> 0) by (unfold id; lra).
  pose proof (derivable_pt_lim_div _ id rij _ _ D7
                (derivable_pt_lim_id rij) Nr) as D8.
  pose proof (derivable_pt_lim_minus _ _ rij _ _ D4 D8) as D9.
  pose proof (derivable_pt_lim_mult (fct_cte (2 * PI)) _ rij _ _
                (derivable_pt_lim_const (2 * PI) rij) D9) as D10.
  match goal with
  | |- derivable_pt_lim _ _ ?l =>
      match type of D10 with
      | derivable_pt_lim _ _ ?l' => replace l with l'; [exact D10|]
      end
  end.
  unfold U1, U2, plus_fct, minus_fct, mult_fct, div_fct, fct_cte, id, comp,
    Rsqr.
  set (L := ln ((rij + Rj) / (rij - Rj))).
  replace 0.5 with (/ 2) by lra.
  field. repeat split; lra.
Qed.


(** The formula of the branch for overlapping spheres and its
    derivative. *)
Lemma i4_overlap_derivative (rij Ri Rj : R) :
  0 < Ri -> 0 < Rj -> 0 < rij ->
  derivable_pt_lim
    (fun r => 2 * PI * (- (1 / (r + Rj) - 1 / Ri)
                        + (0.25 * ((r + Rj) * (r - Rj))
                           * (1 / (r + Rj) * (1 / (r + Rj))
                              - 1 / Ri * (1 / Ri))
                           - 0.5 * ln ((r + Rj) / Ri)) / r)) rij
    (2 * PI * (0.5 * (1 - 0.5 * ((rij + Rj) * (rij - Rj)) / (rij * rij))
               * (1 / (rij + Rj) * (1 / (rij + Rj)) - 1 / Ri * (1 / Ri))
               + 0.5 * ln ((rij + Rj) / Ri) / (rij * rij))).
Proof.
  intros HRi HRj Hr.
  set (U1 := (id + fct_cte Rj)%F). set (U2 := (id - fct_cte Rj)%F).
  assert (D1 : derivable_pt_lim U1 rij (1 + 0)).
  { apply derivable_pt_lim_plus;
      [apply derivable_pt_lim_id | apply derivable_pt_lim_const]. }
  assert (D2 : derivable_pt_lim U2 rij (1 - 0)).
  { apply derivable_pt_lim_minus;
      [apply derivable_pt_lim_id | apply derivable_pt_lim_const]. }
  assert (V1 : U1 rij = rij + Rj) by reflexivity.
  assert (V2 : U2 rij = rij - Rj) by reflexivity.
  assert (N1 : U1 rij <> 0) by (rewrite V1; lra).
  (* u4 = 1/u1 and the constant u5 = 1/Ri *)
  pose proof (derivable_pt_lim_div (fct_cte 1) U1 rij _ _
                (derivable_pt_lim_const 1 rij) D1 N1) as D4.
  set (U4 := (fct_cte 1 / U1)%F) in *.
  pose proof (derivable_pt_lim_const (1 / Ri) rij) as D5.
  (* -(u4-u5) *)
  pose proof (derivable_pt_lim_opp _ rij _
                (derivable_pt_lim_minus _ _ rij _ _ D4 D5)) as DA.
  (* 0.25*u3*(u4sq-u5sq) *)
  pose proof (derivable_pt_lim_mult U1 U2 rij _ _ D1 D2) as D3.
  pose proof (derivable_pt_lim_mult (fct_cte 0.25) _ rij _ _
                (derivable_pt_lim_const 0.25 rij) D3) as D3'.
  pose proof (derivable_pt_lim_mult U4 U4 rij _ _ D4 D4) as D44.
  pose proof (derivable_pt_lim_mult (fct_cte (1 / Ri)) (fct_cte (1 / Ri)) rij
                _ _ D5 D5) as D55.
  pose proof (derivable_pt_lim_mult _ _ rij _ _ D3'
                (derivable_pt_lim_minus _ _ rij _ _ D44 D55)) as DB.
  (* u6 = 0.5*log(u1/Ri) *)
  assert (NRi : fct_cte Ri rij <> 0) by (unfold fct_cte; lra).
  pose proof (derivable_pt_lim_div U1 (fct_cte Ri) rij _ _ D1
                (derivable_pt_lim_const Ri rij) NRi) as D6.
  assert (P6 : 0 < (U1 / fct_cte Ri)%F rij).
  { unfold div_fct, fct_cte. rewrite V1. apply Rdiv_lt_0_compat; lra. }
  pose proof (derivable_pt_lim_comp _ ln rij _ _ D6
                (derivable_pt_lim_ln _ P6)) as D6'.
  pose proof (derivable_pt_lim_mult (fct_cte 0.5) _ rij _ _
                (derivable_pt_lim_const 0.5 rij) D6') as DC.
  (* (...)/rij *)
  assert (Nr : id rij <> 0) by (unfold id; lra).
  pose proof (derivable_pt_lim_div _ id rij _ _
                (derivable_pt_lim_minus _ _ rij _ _ DB DC)
                (derivable_pt_lim_id rij) Nr) as DD.
  pose proof (derivable_pt_lim_mult (fct_cte (2 * PI)) _ rij _ _
                (derivable_pt_lim_const (2 * PI) rij)
                (derivable_pt_lim_plus _ _ rij _ _ DA DD)) as DE.
  match goal with
  | |- derivable_pt_lim _ _ ?l =>
      match type of DE with
      | derivable_pt_lim _ _ ?l' => replace l with l'; [exact DE|]
      end
  end.
  unfold U4, U1, U2, plus_fct, minus_fct, mult_fct, div_fct, opp_fct, fct_cte,
    id, comp, Rsqr.
  set (L := ln ((rij + Rj) / Ri)).
  replace 0.5 with (/ 2) by lra. replace 0.25 with (/ 4) by lra.
  field. repeat split; lra.
Qed.

(** The two formulas of the branch for a sphere inside the other. *)
Lemma i4_inclusion_derivative (rij Ri Rj : R) :
  0 < Ri -> 0 < rij -> rij < Rj ->
  derivable_pt_lim
    (fun r => 2 * PI * (2 / Ri + Rj / (- (r + Rj) * (Rj - r))
                        - 0.5 * ln ((r + Rj) / (Rj - r)) / r)) rij
    (2 * PI * (- (Rj / (- (rij + Rj) * (Rj - rij)))
               * (2 * rij / (- (rij + Rj) * (Rj - rij)) - 1 / rij)
               + 0.5 * ln ((rij + Rj) / (Rj - rij)) / (rij * rij))).
Proof.
  intros HRi Hr HRj.
  set (U1 := (id + fct_cte Rj)%F). set (U2 := (fct_cte Rj - id)%F).
  assert (D1 : derivable_pt_lim U1 rij (1 + 0)).
  { apply derivable_pt_lim_plus;
      [apply derivable_pt_lim_id | apply derivable_pt_lim_const]. }
  assert (D2 : derivable_pt_lim U2 rij (0 - 1)).
  { apply derivable_pt_lim_minus;
      [apply derivable_pt_lim_const | apply derivable_pt_lim_id]. }
  assert (V1 : U1 rij = rij + Rj) by reflexivity.
  assert (V2 : U2 rij = Rj - rij) by reflexivity.
  (* u3 = -u1*u2 *)
  pose proof (derivable_pt_lim_mult _ U2 rij _ _
                (derivable_pt_lim_opp _ rij _ D1) D2) as D3.
  assert (N3 : (- U1 * U2)%F rij <> 0).
  { unfold mult_fct, opp_fct. rewrite V1, V2.
    apply Rmult_integral_contrapositive_currified; lra. }
  pose proof (derivable_pt_lim_div (fct_cte Rj) _ rij _ _
                (derivable_pt_lim_const Rj rij) D3 N3) as D4.
  pose proof (derivable_pt_lim_plus (fct_cte (2 / Ri)) _ rij _ _
                (derivable_pt_lim_const (2 / Ri) rij) D4) as D4'.
  (* u6 = 0.5*log(u1/u2) *)
  assert (N2 : U2 rij <> 0) by (rewrite V2; lra).
  pose proof (derivable_pt_lim_div U1 U2 rij _ _ D1 D2 N2) as D5.
  assert (P5 : 0 < (U1 / U2)%F rij).
  { unfold div_fct. rewrite V1, V2. apply Rdiv_lt_0_compat; lra. }
  pose proof (derivable_pt_lim_comp (U1 / U2)%F ln rij _ _ D5
                (derivable_pt_lim_ln _ P5)) as D6.
  pose proof (derivable_pt_lim_mult (fct_cte 0.5) (comp ln (U1 / U2)%F) rij
                _ _ (derivable_pt_lim_const 0.5 rij) D6) as D7.
  assert (Nr : id rij <> 0) by (unfold id; lra).
  pose proof (derivable_pt_lim_div _ id rij _ _ D7
                (derivable_pt_lim_id rij) Nr) as D8.
  pose proof (derivable_pt_lim_mult (fct_cte (2 * PI)) _ rij _ _
                (derivable_pt_lim_const (2 * PI) rij)
                (derivable_pt_lim_minus _ _ rij _ _ D4' D8)) as D10.
  match goal with
  | |- derivable_pt_lim _ _ ?l =>
      match type of D10 with
      | derivable_pt_lim _ _ ?l' => replace l with l'; [exact D10|]
      end
  end.
  unfold U1, U2, plus_fct, minus_fct, mult_fct, div_fct, opp_fct, fct_cte, id,
    comp, Rsqr.
  set (L := ln ((rij + Rj) / (Rj - rij))).
  replace 0.5 with (/ 2) by lra.
  field. repeat split; lra.
Qed.

Lemma i4_inclusion_series_derivative (rij Ri Rj : R) :
  0 < Ri -> 0 < rij -> rij < Rj ->
  let a := rij / Rj in
  let ad := a * a - 1 in
  derivable_pt_lim
    (fun r => 2 * PI * (2 / Ri + Rj / (- (r + Rj) * (Rj - r))
                        - (1 + 2 / 3 * (r / Rj) * (r / Rj)) / Rj)) rij
    (- (2 * (2 * PI) * a / (Rj * Rj)) * (1 / (ad * ad) + 2 / 3)).
Proof.
  intros HRi Hr HRj a ad.
  set (U1 := (id + fct_cte Rj)%F). set (U2 := (fct_cte Rj - id)%F).
  assert (D1 : derivable_pt_lim U1 rij (1 + 0)).
  { apply derivable_pt_lim_plus;
      [apply derivable_pt_lim_id | apply derivable_pt_lim_const]. }
  assert (D2 : derivable_pt_lim U2 rij (0 - 1)).
  { apply derivable_pt_lim_minus;
      [apply derivable_pt_lim_const | apply derivable_pt_lim_id]. }
  assert (V1 : U1 rij = rij + Rj) by reflexivity.
  assert (V2 : U2 rij = Rj - rij) by reflexivity.
  pose proof (derivable_pt_lim_mult _ U2 rij _ _
                (derivable_pt_lim_opp _ rij _ D1) D2) as D3.
  assert (N3 : (- U1 * U2)%F rij <> 0).
  { unfold mult_fct, opp_fct. rewrite V1, V2.
    apply Rmult_integral_contrapositive_currified; lra. }
  pose proof (derivable_pt_lim_div (fct_cte Rj) _ rij _ _
                (derivable_pt_lim_const Rj rij) D3 N3) as D4.
  pose proof (derivable_pt_lim_plus (fct_cte (2 / Ri)) _ rij _ _
                (derivable_pt_lim_const (2 / Ri) rij) D4) as D4'.
  (* a = rij/Rj and u6 = (1 + twothirds*a*a)/Rj *)
  assert (NRj : fct_cte Rj rij <> 0) by (unfold fct_cte; lra).
  pose proof (derivable_pt_lim_div id (fct_cte Rj) rij _ _
                (derivable_pt_lim_id rij) (derivable_pt_lim_const Rj rij) NRj)
    as DA.
  set (A := (id / fct_cte Rj)%F) in *.
  pose proof (derivable_pt_lim_mult _ A rij _ _
                (derivable_pt_lim_mult (fct_cte (2 / 3)) A rij _ _
                   (derivable_pt_lim_const (2 / 3) rij) DA) DA) as DAA.
  pose proof (derivable_pt_lim_div _ (fct_cte Rj) rij _ _
                (derivable_pt_lim_plus (fct_cte 1) _ rij _ _
                   (derivable_pt_lim_const 1 rij) DAA)
                (derivable_pt_lim_const Rj rij) NRj) as D6.
  pose proof (derivable_pt_lim_mult (fct_cte (2 * PI)) _ rij _ _
                (derivable_pt_lim_const (2 * PI) rij)
                (derivable_pt_lim_minus _ _ rij _ _ D4' D6)) as D10.
  match goal with
  | |- derivable_pt_lim _ _ ?l =>
      match type of D10 with
      | derivable_pt_lim _ _ ?l' => replace l with l'; [exact D10|]
      end
  end.
  unfold A, U1, U2, plus_fct, minus_fct, mult_fct, div_fct, opp_fct, fct_cte,
    id, comp, Rsqr, ad, a.
  field. repeat split; try lra.
  - assert (0 < (Rj - rij) * (Rj + rij)) by (apply Rmult_lt_0_compat; lra).
    nra.
Qed.

(** The branches of [agbnp3_i4] for a sphere [i] inside the sphere [j]. *)
Lemma i4_inclusion_branch (t Ri Rj : R) :
  0 < Ri -> 0 < t -> t < Rj - Ri ->
  agbnp3_i4 t Ri Rj
  = if Rlt_dec t (0.001 * Rj) then
      (2 * PI * (2 / Ri + Rj / (- (t + Rj) * (Rj - t))
                 - (1 + 2 / 3 * (t / Rj) * (t / Rj)) / Rj),
       - (2 * (2 * PI) * (t / Rj) / (Rj * Rj))
       * (1 / (t / Rj * (t / Rj) - 1) + 2 / 3))
    else
      (2 * PI * (2 / Ri + Rj / (- (t + Rj) * (Rj - t))
                 - 0.5 * ln ((t + Rj) / (Rj - t)) / t),
       2 * PI * (- (Rj / (- (t + Rj) * (Rj - t)))
                 * (2 * t / (- (t + Rj) * (Rj - t)) - 1 / t)
                 + 0.5 * ln ((t + Rj) / (Rj - t)) / (t * t))).
Proof.
  intros HRi Ht0 Ht. unfold agbnp3_i4. cbv zeta.
  destruct (Rgt_dec t (Ri + Rj)) as [H|H]; [unfold Rgt in H; lra|].
  destruct (Rgt_dec (t * t) ((Rj - Ri) * (Rj - Ri))) as [H'|H'];
    [unfold Rgt in H'; nra|].
  destruct (Rgt_dec Ri Rj) as [H''|H'']; [unfold Rgt in H''; lra|].
  reflexivity.
Qed.

(** X23. Where [agbnp3_i4] returns the derivative of its value.  For positive
    radii and a distance strictly inside the range of separated spheres
    ([rij > Ri + Rj]), of partly overlapping spheres
    ([|Rj - Ri| < rij < Ri + Rj]) or of the logarithmic formula for a
    sphere inside the other ([0.001 Rj < rij < Rj - Ri]), the returned
    [*dr] is the derivative of the returned [q] with respect to [rij]. *)
Theorem i4_returns_derivative (rij Ri Rj : R) :
  0 < Ri -> 0 < Rj ->
  Ri + Rj < rij \/ (Rabs (Rj - Ri) < rij /\ rij < Ri + Rj) \/
  (0.001 * Rj < rij /\ rij < Rj - Ri) ->
  derivable_pt_lim (fun r => fst (agbnp3_i4 r Ri Rj)) rij
    (snd (agbnp3_i4 rij Ri Rj)).
Proof.
  intros HRi HRj [Hsep|[[Hlo Hhi]|[Hlo Hhi]]].
  - assert (Hd : 0 < rij - (Ri + Rj)) by lra.
    pose proof (i4_separated_derivative rij Rj HRj ltac:(lra)) as HD.
    assert (Hbr : forall t, Ri + Rj < t ->
              agbnp3_i4 t Ri Rj
              = (2 * PI * (Rj / ((t + Rj) * (t - Rj))
                           - 0.5 * ln ((t + Rj) / (t - Rj)) / t),
                 2 * PI * ((Rj / (t * ((t + Rj) * (t - Rj))))
                           * (1 - 2 * (t * t) / ((t + Rj) * (t - Rj)))
                           + 0.5 * ln ((t + Rj) / (t - Rj)) / (t * t)))).
    { intros t Ht. unfold agbnp3_i4. cbv zeta.
      destruct (Rgt_dec t (Ri + Rj)) as [H|H]; [reflexivity|].
      unfold Rgt in H. lra. }
    rewrite (Hbr rij Hsep). cbn [snd].
    eapply (derivable_pt_lim_glue _ _ _ rij _ _ Hd); cycle 2.
    + exact HD.
    + exact HD.
    + intros t Ht. cbv beta. rewrite Hbr by lra. reflexivity.
    + intros t Ht. cbv beta. rewrite Hbr by lra. reflexivity.
  - pose proof (Rabs_pos (Rj - Ri)) as Hab.
    assert (Hr : 0 < rij) by lra.
    set (delta := Rmin (rij - Rabs (Rj - Ri)) (Ri + Rj - rij)).
    assert (Hd : 0 < delta) by (apply Rmin_pos; lra).
    assert (Hd1 : delta <= rij - Rabs (Rj - Ri)) by apply Rmin_l.
    assert (Hd2 : delta <= Ri + Rj - rij) by apply Rmin_r.
    pose proof (i4_overlap_derivative rij Ri Rj HRi HRj Hr) as HD.
    assert (Hbr : forall t, Rabs (Rj - Ri) < t -> t < Ri + Rj ->
              agbnp3_i4 t Ri Rj
              = (2 * PI * (- (1 / (t + Rj) - 1 / Ri)
                           + (0.25 * ((t + Rj) * (t - Rj))
                              * (1 / (t + Rj) * (1 / (t + Rj))
                                 - 1 / Ri * (1 / Ri))
                              - 0.5 * ln ((t + Rj) / Ri)) / t),
                 2 * PI * (0.5 * (1 - 0.5 * ((t + Rj) * (t - Rj)) / (t * t))
                           * (1 / (t + Rj) * (1 / (t + Rj))
                              - 1 / Ri * (1 / Ri))
                           + 0.5 * ln ((t + Rj) / Ri) / (t * t)))).
    { intros t Ht1 Ht2. unfold agbnp3_i4. cbv zeta.
      destruct (Rgt_dec t (Ri + Rj)) as [H|H]; [unfold Rgt in H; lra|].
      destruct (Rgt_dec (t * t) ((Rj - Ri) * (Rj - Ri))) as [H'|H'];
        [reflexivity|].
      exfalso. apply H'. unfold Rgt.
      assert (E : (Rj - Ri) * (Rj - Ri) = Rabs (Rj - Ri) * Rabs (Rj - Ri)).
      { unfold Rabs. destruct (Rcase_abs (Rj - Ri)); ring. }
      rewrite E. nra. }
    rewrite (Hbr rij Hlo Hhi). cbn [snd].
    eapply (derivable_pt_lim_glue _ _ _ rij _ _ Hd); cycle 2.
    + exact HD.
    + exact HD.
    + intros t Ht. cbv beta. rewrite Hbr by lra. reflexivity.
    + intros t Ht. cbv beta. rewrite Hbr by lra. reflexivity.
  - assert (Hr : 0 < rij) by lra.
    set (delta := Rmin (rij - 0.001 * Rj) (Rj - Ri - rij)).
    assert (Hd : 0 < delta) by (apply Rmin_pos; lra).
    assert (Hd1 : delta <= rij - 0.001 * Rj) by apply Rmin_l.
    assert (Hd2 : delta <= Rj - Ri - rij) by apply Rmin_r.
    pose proof (i4_inclusion_derivative rij Ri Rj HRi Hr ltac:(lra)) as HD.
    assert (Hbr : forall t, 0.001 * Rj < t -> t < Rj - Ri ->
              agbnp3_i4 t Ri Rj
              = (2 * PI * (2 / Ri + Rj / (- (t + Rj) * (Rj - t))
                           - 0.5 * ln ((t + Rj) / (Rj - t)) / t),
                 2 * PI * (- (Rj / (- (t + Rj) * (Rj - t)))
                           * (2 * t / (- (t + Rj) * (Rj - t)) - 1 / t)
                           + 0.5 * ln ((t + Rj) / (Rj - t)) / (t * t)))).
    { intros t Ht1 Ht2.
      rewrite (i4_inclusion_branch t Ri Rj HRi ltac:(lra) Ht2).
      destruct (Rlt_dec t (0.001 * Rj)) as [H3|H3]; [lra|reflexivity]. }
    rewrite (Hbr rij Hlo Hhi). cbn [snd].
    eapply (derivable_pt_lim_glue _ _ _ rij _ _ Hd); cycle 2.
    + exact HD.
    + exact HD.
    + intros t Ht. cbv beta. rewrite Hbr by lra. reflexivity.
    + intros t Ht. cbv beta. rewrite Hbr by lra. reflexivity.
Qed.

(** The theorem at work for unit spheres at distance 3. *)
Lemma i4_returns_derivative_witness :
  derivable_pt_lim (fun r => fst (agbnp3_i4 r 1 1)) 3
    (snd (agbnp3_i4 3 1 1)).
Proof.
  apply (i4_returns_derivative 3 1 1); lra.
Defined.

(** X24. Where [agbnp3_i4] does not return the derivative of its value.  In the
    range of the series formula for a sphere inside the other
    ([0 < rij < 0.001 Rj] and [rij < Rj - Ri]) the returned [q] has a
    derivative, and it is strictly below the returned [*dr]: the two
    differ by [(2 twopi a / Rj^2) (1/ad^2 - 1/ad)] with [a = rij / Rj] and
    [ad = a^2 - 1], the code having [1/ad] where the derivative has
    [1/ad^2]. *)
Theorem i4_series_derivative_differs (rij Ri Rj : R) :
  0 < Ri -> 0 < rij -> rij < 0.001 * Rj -> rij < Rj - Ri ->
  let a := rij / Rj in
  let ad := a * a - 1 in
  let gap := 2 * (2 * PI) * a / (Rj * Rj) * (1 / (ad * ad) - 1 / ad) in
  derivable_pt_lim (fun r => fst (agbnp3_i4 r Ri Rj)) rij
    (snd (agbnp3_i4 rij Ri Rj) - gap) /\
  0 < gap.
Proof.
  intros HRi H0 Hsm Hhi a ad gap.
  assert (HRj : 0 < Rj) by lra.
  assert (Ha : 0 < a) by (apply Rdiv_lt_0_compat; lra).
  assert (Ha1 : a < 1).
  { unfold a. apply (Rmult_lt_reg_r Rj); [lra|].
    unfold Rdiv. rewrite Rmult_assoc, Rinv_l by lra. lra. }
  assert (Had : ad < 0) by (unfold ad; nra).
  assert (Had2 : 0 < ad * ad) by nra.
  split.
  - set (delta := Rmin rij (Rmin (0.001 * Rj - rij) (Rj - Ri - rij))).
    assert (Hd : 0 < delta).
    { apply Rmin_pos; [lra|]. apply Rmin_pos; lra. }
    assert (Hd0 : delta <= rij) by apply Rmin_l.
    assert (Hd1 : delta <= 0.001 * Rj - rij).
    { eapply Rle_trans; [apply Rmin_r | apply Rmin_l]. }
    assert (Hd2 : delta <= Rj - Ri - rij).
    { eapply Rle_trans; [apply Rmin_r | apply Rmin_r]. }
    pose proof (i4_inclusion_series_derivative rij Ri Rj HRi H0 ltac:(lra))
      as HD.
    cbv zeta in HD. fold a in HD. fold ad in HD.
    assert (Hbr : forall t, 0 < t -> t < 0.001 * Rj -> t < Rj - Ri ->
              agbnp3_i4 t Ri Rj
              = (2 * PI * (2 / Ri + Rj / (- (t + Rj) * (Rj - t))
                           - (1 + 2 / 3 * (t / Rj) * (t / Rj)) / Rj),
                 - (2 * (2 * PI) * (t / Rj) / (Rj * Rj))
                 * (1 / (t / Rj * (t / Rj) - 1) + 2 / 3))).
    { intros t Ht0 Ht1 Ht2.
      rewrite (i4_inclusion_branch t Ri Rj HRi Ht0 Ht2).
      destruct (Rlt_dec t (0.001 * Rj)) as [H3|H3]; [reflexivity|lra]. }
    rewrite (Hbr rij H0 Hsm Hhi). cbn [snd]. fold a. fold ad.
    replace (- (2 * (2 * PI) * a / (Rj * Rj)) * (1 / ad + 2 / 3) - gap)
      with (- (2 * (2 * PI) * a / (Rj * Rj)) * (1 / (ad * ad) + 2 / 3))
      by (unfold gap; field; split; lra).
    eapply (derivable_pt_lim_glue _ _ _ rij _ _ Hd); cycle 2.
    + exact HD.
    + exact HD.
    + intros t Ht. cbv beta. rewrite Hbr by lra. reflexivity.
    + intros t Ht. cbv beta. rewrite Hbr by lra. reflexivity.
  - unfold gap.
    assert (Hc : 0 < 2 * (2 * PI) * a / (Rj * Rj)).
    { apply Rdiv_lt_0_compat; [|nra]. pose proof PI_RGT_0. nra. }
    apply Rmult_lt_0_compat; [exact Hc|].
    assert (0 < 1 / (ad * ad)) by (apply Rdiv_lt_0_compat; lra).
    assert (1 / ad < 0).
    { unfold Rdiv. rewrite Rmult_1_l. apply Rinv_lt_0_compat. exact Had. }
    lra.
Qed.

(** The theorem at work for a small sphere whose centre is 0.0005 away
    from the centre of a unit sphere. *)
Lemma i4_series_derivative_differs_witness :
  let a := 0.0005 / 1 in
  let ad := a * a - 1 in
  let gap := 2 * (2 * PI) * a / (1 * 1) * (1 / (ad * ad) - 1 / ad) in
  derivable_pt_lim (fun r => fst (agbnp3_i4 r 0.5 1)) 0.0005
    (snd (agbnp3_i4 0.0005 0.5 1) - gap) /\
  0 < gap.
Proof.
  apply (i4_series_derivative_differs 0.0005 0.5 1); lra.
Defined.

End I4Facts.

(** ** The table of [agbnp3_create_ctablef4] *)

Section CtableFacts.
Import Spline SplineSetup I4.
#[local] Open Scope R_scope.

Lemma length_ctable_fill (m : nat) :
  forall (i : nat) (a da b : R) (y : list R),
    length (ctable_fill m i a da b y) = length y.
Proof.
  induction m as [|m IH]; intros i a da b y; simpl; [reflexivity|].
  rewrite IH. apply set_nth_length.
Qed.

(** The loop leaves the entries below its first index alone, and stores at
    [i + k] the value at the abscissa reached by [k] additions of [da]. *)
Lemma nth_ctable_fill (m : nat) :
  forall (i : nat) (a da b : R) (y : list R) (k : nat),
    (i + m <= length y)%nat ->
    nth k (ctable_fill m i a da b y) 0
    = if (i <=? k)%nat && (k <? i + m)%nat
      then fst (agbnp3_i4 (a + INR (k - i) * da) b 1)
      else nth k y 0.
Proof.
  induction m as [|m IH]; intros i a da b y k Hlen.
  - simpl. destruct (i <=? k)%nat eqn:E1; [|reflexivity].
    destruct (k <? i + 0)%nat eqn:E2; [|reflexivity].
    apply Nat.leb_le in E1. apply Nat.ltb_lt in E2. lia.
  - cbn [ctable_fill]. rewrite IH by (rewrite set_nth_length; lia).
    destruct (Nat.eq_dec k i) as [->|Hne].
    + replace (S i <=? i)%nat with false by (symmetry; apply Nat.leb_gt; lia).
      replace (i <=? i)%nat with true by (symmetry; apply Nat.leb_le; lia).
      replace (i <? i + S m)%nat with true by (symmetry; apply Nat.ltb_lt; lia).
      cbn [andb]. rewrite nth_set_nth_same by lia.
      rewrite Nat.sub_diag. simpl INR.
      replace (a + 0 * da) with a by ring. reflexivity.
    + rewrite nth_set_nth_other by lia.
      destruct (i <=? k)%nat eqn:E1.
      * apply Nat.leb_le in E1.
        replace (S i <=? k)%nat with true by (symmetry; apply Nat.leb_le; lia).
        replace (k <? S i + m)%nat with (k <? i + S m)%nat
          by (f_equal; lia).
        destruct (k <? i + S m)%nat; cbn [andb]; [|reflexivity].
        replace (k - i)%nat with (S (k - S i)) by lia. rewrite S_INR.
        f_equal. f_equal. ring.
      * apply Nat.leb_gt in E1.
        replace (S i <=? k)%nat with false by (symmetry; apply Nat.leb_gt; lia).
        reflexivity.
Qed.

(** X22. The table built by [agbnp3_create_ctablef4] and read by
    [agbnp3_interpolate_ctable], for [n >= 2] nodes up to [amax > 0] with
    spacing [da = amax / (n - 1)].  When the three allocations succeed the
    call returns [AGBNP_OK] and a table that returns at each node [k da]
    below [amax] the value of [agbnp3_i4 (k da, b, 1)], and value and slope
    zero from [amax] on, as long as [x / da] is below [2^31] (beyond, the
    conversion of the index is undefined).  When an allocation fails the
    call returns [AGBNP_ERR] and no table. *)
Theorem create_ctablef4_nodes (n : Z) (amax b : R) (ymem y2mem u : list R) :
  (2 <= n < 2 ^ 31)%Z -> 0 < amax -> length ymem = Z.to_nat n ->
  let da := amax / IZR (n - 1) in
  (exists tbl,
     agbnp3_create_ctablef4 n amax b (Some ymem) (Some y2mem) true u
       = (AGBNP_OK, Some tbl) /\
     (forall k : nat, (Z.of_nat k <= n - 2)%Z ->
        fst (snd (agbnp3_interpolate_ctable tbl (INR k * da)))
        = fst (agbnp3_i4 (INR k * da) b 1)) /\
     (forall x : R, amax <= x -> x * (1 / da) < IZR (2 ^ 31) ->
        agbnp3_interpolate_ctable tbl x = (AGBNP_OK, (0, 0)))) /\
  (forall (oy oy2 : option (list R)) (ok : bool),
     oy = None \/ oy2 = None \/ ok = false ->
     agbnp3_create_ctablef4 n amax b oy oy2 ok u = (AGBNP_ERR, None)).
Proof.
  intros Hn Hamax Hlen da.
  assert (Hn1 : 0 < IZR (n - 1)) by (apply IZR_lt; lia).
  assert (Hda : 0 < da) by (apply Rdiv_lt_0_compat; assumption).
  split.
  - eexists. split; [reflexivity|].
    unfold agbnp3_interpolate_ctable.
    cbn [fst snd Spline.dx Spline.n Spline.y Spline.y2]. fold da.
    set (Y := set_nth (Z.to_nat (n - 1)) 0
                (ctable_fill (Z.to_nat (n - 1)) 0 0 da b ymem)).
    set (Y2 := agbnp3_cspline_setup da n Y _ 0 y2mem u).
    split.
    + intros k Hk.
      assert (E : agbnp3_cspline_interpolate (INR k * da) da n Y Y2
                  = piece da Y Y2 k (INR k * da)).
      { apply interpolate_is_piece; [|exact Hk].
        replace (INR k * da * (1 / da)) with (INR k) by (field; lra).
        rewrite INR_IZR_INZ. apply c_trunc_IZR. }
      rewrite E, piece_left_node by lra.
      unfold Y. rewrite nth_set_nth_other by lia.
      rewrite nth_ctable_fill by lia.
      replace (0 <=? k)%nat with true by (symmetry; apply Nat.leb_le; lia).
      replace (k <? 0 + Z.to_nat (n - 1))%nat with true
        by (symmetry; apply Nat.ltb_lt; lia).
      cbn [andb]. rewrite Nat.sub_0_r. f_equal. f_equal. ring.
    + intros x Hx _. f_equal.
      unfold agbnp3_cspline_interpolate. cbv zeta.
      set (xh := x * (1 / da)).
      assert (Hxh : IZR (n - 1) <= xh).
      { unfold xh. replace (IZR (n - 1)) with (amax * (1 / da))
          by (unfold da; field; lra).
        apply Rmult_le_compat_r; [|exact Hx].
        unfold Rdiv. rewrite Rmult_1_l. left. apply Rinv_0_lt_compat.
        exact Hda. }
      assert (Hk : (n - 1 <= c_trunc xh)%Z).
      { eapply Z.le_trans; [|apply Int_part_le_c_trunc].
        destruct (base_Int_part xh) as [_ H2].
        apply Z.lt_succ_r. apply lt_IZR. rewrite succ_IZR. lra. }
      destruct (c_trunc xh >? n - 2)%Z eqn:E; [reflexivity|].
      rewrite Z.gtb_ltb in E. apply Z.ltb_ge in E. lia.
  - intros oy oy2 ok [-> | [-> | ->]]; unfold agbnp3_create_ctablef4;
      cbv zeta; [reflexivity| |].
    + destruct oy; reflexivity.
    + destruct oy, oy2; reflexivity.
Qed.

(** The theorem at work: a table of three nodes up to [amax = 2]. *)
Lemma create_ctablef4_nodes_witness :
  let da := 2 / IZR (3 - 1) in
  (exists tbl,
     agbnp3_create_ctablef4 3 2 (/ 2) (Some [9; 9; 9]) (Some [0; 0; 0]) true
       [0; 0; 0] = (AGBNP_OK, Some tbl) /\
     (forall k : nat, (Z.of_nat k <= 3 - 2)%Z ->
        fst (snd (agbnp3_interpolate_ctable tbl (INR k * da)))
        = fst (agbnp3_i4 (INR k * da) (/ 2) 1)) /\
     (forall x : R, 2 <= x -> x * (1 / da) < IZR (2 ^ 31) ->
        agbnp3_interpolate_ctable tbl x = (AGBNP_OK, (0, 0)))) /\
  (forall (oy oy2 : option (list R)) (ok : bool),
     oy = None \/ oy2 = None \/ ok = false ->
     agbnp3_create_ctablef4 3 2 (/ 2) oy oy2 ok [0; 0; 0]
     = (AGBNP_ERR, None)).
Proof.
  apply (create_ctablef4_nodes 3 2 (/ 2) [9; 9; 9] [0; 0; 0] [0; 0; 0]);
    [lia | lra | reflexivity].
Defined.

End CtableFacts.

(** ** The copy loops of [agbnp3_ener] *)

Section EnerCopyFacts.
Import WaterSites Reorder EnerCopy.

(** A loop of stores [out[int2ext[iat]] = loc[iat]] over atoms with
    distinct targets inside [out]. *)
Lemma scatter_loop_spec (i2e : list Z) (loc : list R) (l : list Z) :
  forall out : list R,
    NoDup (map (fun i => Z.to_nat (zd i2e i)) l) ->
    (forall i, In i l -> (Z.to_nat (zd i2e i) < length out)%nat) ->
    let res :=
      fold_left
        (fun out iat => set_nth (Z.to_nat (zd i2e iat)) (rd loc iat) out)
        l out in
    length res = length out /\
    (forall i, In i l -> nth (Z.to_nat (zd i2e i)) res 0%R = rd loc i) /\
    (forall e, ~ In e (map (fun i => Z.to_nat (zd i2e i)) l) ->
               nth e res 0%R = nth e out 0%R).
Proof.
  induction l as [|a l IH]; intros out Hnd Hin; cbv zeta.
  - simpl. split; [reflexivity|]. split; [intros i []|reflexivity].
  - cbn [fold_left map] in *. inversion Hnd as [|? ? Hna Hnd']; subst.
    set (out' := set_nth (Z.to_nat (zd i2e a)) (rd loc a) out).
    assert (Lo : length out' = length out) by apply set_nth_length.
    destruct (IH out' Hnd') as (L & Hw & Hk).
    { intros i Hi. rewrite Lo. apply Hin. right. exact Hi. }
    cbv zeta in L, Hw, Hk.
    split; [rewrite L; exact Lo|]. split.
    + intros i [->|Hi]; [|apply Hw; exact Hi].
      rewrite Hk by exact Hna. unfold out'.
      apply nth_set_nth_same. apply Hin. left. reflexivity.
    + intros e He. rewrite Hk by (intros H; apply He; right; exact H).
      unfold out'. apply nth_set_nth_other.
      intros H. apply He. left. exact H.
Qed.

(** X30. [agbnp3_ener] with the maps of [agbnp3_atom_reorder]: the entry of
    atom [e] of the caller's coordinate array arrives at the internal index
    [ext2int[e]] of the library's array, and the output loop stores at the
    caller's entry [e] the library's value at [ext2int[e]], keeps the
    length of the caller's array and leaves its entries from [natoms] on
    as they were. *)
Theorem ener_copies_in_caller_order (natoms nhydrogen : Z)
    (ihydrogen int2ext0 ext2int0 : list Z) (xs loc vals out : list R)
    (e : Z) :
  0 <= nhydrogen <= natoms ->
  (Z.to_nat nhydrogen <= length ihydrogen)%nat ->
  NoDup (firstn (Z.to_nat nhydrogen) ihydrogen) ->
  (forall h, In h (firstn (Z.to_nat nhydrogen) ihydrogen) ->
             0 <= h < natoms) ->
  length int2ext0 = Z.to_nat natoms ->
  length ext2int0 = Z.to_nat natoms ->
  (Z.to_nat natoms <= length loc)%nat ->
  (Z.to_nat natoms <= length out)%nat ->
  0 <= e < natoms ->
  let res := agbnp3_atom_reorder natoms nhydrogen ihydrogen int2ext0
               ext2int0 in
  let i2e := snd (fst res) in
  let e2i := snd res in
  rd (gather i2e natoms xs loc) (zd e2i e) = rd xs e /\
  rd (scatter i2e natoms vals out) e = rd vals (zd e2i e) /\
  length (scatter i2e natoms vals out) = length out /\
  (forall j, natoms <= j -> rd (scatter i2e natoms vals out) j = rd out j).
Proof.
  intros Hc Hl Hnd Hr L1 L2 Lloc Lout He res i2e e2i.
  assert (HM : forall i, 0 <= i < natoms ->
            0 <= zd e2i i < natoms /\ 0 <= zd i2e i < natoms /\
            zd i2e (zd e2i i) = i /\ zd e2i (zd i2e i) = i).
  { intros i Hi.
    destruct (atom_reorder_maps natoms nhydrogen ihydrogen int2ext0 ext2int0
                i Hc Hl Hnd Hr L1 L2 Hi) as (_ & A & B & C & D & _).
    auto. }
  assert (HR : forall i, In i (atom_range natoms) -> 0 <= i < natoms).
  { intros i Hi. unfold atom_range in Hi. apply in_map_iff in Hi.
    destruct Hi as (k & <- & Hk). apply in_seq in Hk. lia. }
  assert (HRi : forall i, 0 <= i < natoms -> In i (atom_range natoms)).
  { intros i Hi. unfold atom_range. apply in_map_iff.
    exists (Z.to_nat i). split; [lia|]. apply in_seq. lia. }
  assert (Hnd' : NoDup (map (fun i => Z.to_nat (zd i2e i))
                          (atom_range natoms))).
  { apply NoDup_map_NoDup_ForallPairs.
    - intros a b Ha Hb Heq. apply HR in Ha. apply HR in Hb.
      destruct (HM a Ha) as (_ & Ba & _ & Da).
      destruct (HM b Hb) as (_ & Bb & _ & Db).
      assert (E : zd i2e a = zd i2e b) by lia.
      rewrite <- Da, <- Db, E. reflexivity.
    - unfold atom_range.
      apply NoDup_map_NoDup_ForallPairs; [|apply seq_NoDup].
      intros a b _ _ H. lia. }
  destruct (scatter_loop_spec i2e vals (atom_range natoms) out Hnd')
    as (L & Hw & Hk).
  { intros i Hi. apply HR in Hi. destruct (HM i Hi) as (_ & B & _). lia. }
  cbv zeta in L, Hw, Hk. fold (scatter i2e natoms vals out) in L, Hw, Hk.
  destruct (HM e He) as (A & _ & C & _).
  split; [|split; [|split]].
  - unfold gather, rd at 1. rewrite nth_fill.
    replace (Z.to_nat (zd e2i e) <? Z.to_nat natoms)%nat with true
      by (symmetry; apply Nat.ltb_lt; lia).
    replace (Z.to_nat (zd e2i e) <? length loc)%nat with true
      by (symmetry; apply Nat.ltb_lt; lia).
    cbn [andb]. rewrite Z2Nat.id by lia. rewrite C. reflexivity.
  - specialize (Hw (zd e2i e) (HRi _ A)). rewrite C in Hw. exact Hw.
  - exact L.
  - intros j Hj. unfold rd. apply Hk. intros Hin.
    apply in_map_iff in Hin. destruct Hin as (i & Hij & Hi).
    apply HR in Hi. destruct (HM i Hi) as (_ & B & _). lia.
Qed.

End EnerCopyFacts.

(** The theorem at work: four atoms, atoms 1 and 2 hydrogens. *)
Lemma ener_copies_in_caller_order_witness :
  let res := Reorder.agbnp3_atom_reorder 4 2 [2; 1]%Z [0; 0; 0; 0]%Z
               [0; 0; 0; 0]%Z in
  let i2e := snd (fst res) in
  let e2i := snd res in
  let xs := [10; 11; 12; 13]%R in
  let loc := [0; 0; 0; 0]%R in
  let vals := [20; 21; 22; 23]%R in
  let out := [0; 0; 0; 0; 7]%R in
  WaterSites.rd (EnerCopy.gather i2e 4 xs loc) (WaterSites.zd e2i 1)
  = WaterSites.rd xs 1 /\
  WaterSites.rd (EnerCopy.scatter i2e 4 vals out) 1
  = WaterSites.rd vals (WaterSites.zd e2i 1) /\
  length (EnerCopy.scatter i2e 4 vals out) = length out /\
  (forall j, (4 <= j)%Z ->
     WaterSites.rd (EnerCopy.scatter i2e 4 vals out) j = WaterSites.rd out j).
Proof.
  apply (ener_copies_in_caller_order 4 2 [2; 1]%Z [0; 0; 0; 0]%Z
           [0; 0; 0; 0]%Z [10; 11; 12; 13]%R [0; 0; 0; 0]%R
           [20; 21; 22; 23]%R [0; 0; 0; 0; 7]%R 1).
  - lia.
  - simpl; lia.
  - simpl. repeat constructor; simpl; intuition lia.
  - simpl. intros h [<-|[<-|[]]]; lia.
  - reflexivity.
  - reflexivity.
  - simpl; lia.
  - simpl; lia.
  - lia.
Defined.
